(** * Reverse-mode autograd core: variables, saved variables, the leaf
      accumulator and the backward engine.

    A shallow embedding of
      - [Variable], [SavedVariable] (variable.cpp),
      - [Function] (function.h),
      - [AccumulateGrad] (functions/accumulate_grad.cpp),
      - [ReadyQueue], [GraphTask], [Engine] (engine.cpp),
    followed by the properties established about them.

    Conventions.  A [shared_ptr]/raw pointer is an address ([ptr]); the null
    pointer is [None].  Objects live in a heap of finite maps; an object that
    has been destroyed is absent from its map, so a [weak_ptr] is an optional
    address whose [lock] succeeds exactly when the target is still present.
    A C++ [int] is a [Z] kept in the 32-bit two's-complement range by
    [int_wrap]. *)

From Stdlib Require Import ZArith String.
From stdpp Require Import base option list gmap fin_maps fin_sets pretty.

Open Scope Z_scope.

(** ** Machine integers *)

Definition int_wrap (z : Z) : Z :=
  (z + 2147483648) mod 4294967296 - 2147483648.

Definition int_max : Z := 2147483647.

(** ** Pointers and exceptions *)

Definition ptr := nat.

Inductive exn :=
  | runtime_error (what : string)
  | logic_error (what : string)
  | out_of_range (what : string).

(** The outcome of a call on a state of type [S]: a normal return, a thrown
    exception (the state keeps the effects made before the throw), or
    undefined behaviour (a null or dangling dereference). *)
Inductive outcome (S A : Type) :=
  | Ok (a : A) (s : S)
  | Throw (e : exn) (s : S)
  | Undefined.
Arguments Ok {S A} a s.
Arguments Throw {S A} e s.
Arguments Undefined {S A}.

Definition M (S A : Type) : Type := S → outcome S A.

Definition ret {S A} (a : A) : M S A := λ s, Ok a s.
Definition throw {S A} (e : exn) : M S A := λ s, Throw e s.
Definition undefined {S A} : M S A := λ _, Undefined.
Definition bind {S A B} (m : M S A) (k : A → M S B) : M S B :=
  λ s, match m s with
       | Ok a s' => k a s'
       | Throw e s' => Throw e s'
       | Undefined => Undefined
       end.
Definition get {S} : M S S := λ s, Ok s s.
Definition modify {S} (f : S → S) : M S unit := λ s, Ok tt (f s).

Notation "'let*' x ':=' m 'in' k" := (bind m (λ x, k))
  (at level 10, x pattern, m at level 100, k at level 200).
Notation "'do' m 'in' k" := (bind m (λ _, k))
  (at level 10, m at level 100, k at level 200).

(** ** The tensor library (consumed, opaque) *)

Class TensorLib (tensor : Type) := {
  clone_shallow : tensor → tensor;
  clone : tensor → tensor;
  newTensor : tensor → tensor;
  cadd : tensor → tensor → tensor;
  isSparse : tensor → bool;
  getDevice : tensor → Z;
  (** the values a tensor holds, as far as equality of tensors goes *)
  tensor_value : tensor → list Z;
  clone_value : ∀ t, tensor_value (clone t) = tensor_value t;
}.

(** ** Function (function.h) *)

(** [function_list]: a list of edges, each a possibly null [Function] and an
    input index; written out as [list (option ptr * Z)] below. *)

Record FunctionFlags := {
  ff_is_executable : bool;
  ff_is_volatile : bool;
  ff_next_functions : list (option ptr * Z);
}.

Record Function := {
  num_inputs : Z;
  next_functions : list (option ptr * Z);
  is_executable : bool;
  is_stochastic : bool;
  pre_hooks : list nat;
  post_hooks : list nat;
}.

(** [Function::Function()] *)
Definition Function_default : Function :=
  {| num_inputs := 0; next_functions := []; is_executable := false;
     is_stochastic := false; pre_hooks := []; post_hooks := [] |}.

(** [Function::Function(FunctionFlags&&)] *)
Definition Function_of_flags (flags : FunctionFlags) : Function :=
  {| num_inputs := 0; next_functions := ff_next_functions flags;
     is_executable := ff_is_executable flags;
     is_stochastic := false; pre_hooks := []; post_hooks := [] |}.

Definition set_num_inputs (n : Z) (f : Function) : Function :=
  {| num_inputs := n; next_functions := next_functions f;
     is_executable := is_executable f; is_stochastic := is_stochastic f;
     pre_hooks := pre_hooks f; post_hooks := post_hooks f |}.

(** [AccumulateGrad] extends [Function] with two weak references. *)
Record AccumulateGrad := {
  ag_base : Function;
  ag_variable : option ptr;
  ag_variable_grad : option ptr;
}.

Inductive FunctionObj :=
  | ObjFunction (f : Function)
  | ObjAccumulateGrad (a : AccumulateGrad).

Definition base_of (o : FunctionObj) : Function :=
  match o with
  | ObjFunction f => f
  | ObjAccumulateGrad a => ag_base a
  end.

Definition map_base (g : Function → Function) (o : FunctionObj) : FunctionObj :=
  match o with
  | ObjFunction f => ObjFunction (g f)
  | ObjAccumulateGrad a =>
      ObjAccumulateGrad {| ag_base := g (ag_base a);
                           ag_variable := ag_variable a;
                           ag_variable_grad := ag_variable_grad a |}
  end.

(** ** Variable and SavedVariable (variable.cpp) *)

Section VariableModel.
Context {tensor : Type} `{TensorLib tensor}.

(** [struct Variable] ([Variable] is reserved in Rocq, hence [Var]). *)
Record Var := {
  data : option tensor;              (* unique_ptr<Tensor> *)
  grad_fn : option ptr;              (* shared_ptr<Function> *)
  grad : option ptr;                 (* shared_ptr<Variable> *)
  version_counter : ptr;             (* the version block it refers to *)
  requires_grad : bool;
  is_volatile : bool;
  output_nr : Z;
  grad_accumulator : option ptr;     (* weak_ptr<Function> *)
  hooks : list nat;
}.

Record SavedVariable := {
  sv_data : option tensor;
  sv_version : ptr;
  sv_expected_version : Z;
  sv_requires_grad : bool;
  sv_is_volatile : bool;
  sv_grad_fn : option ptr;           (* shared_ptr<Function> *)
  sv_weak_grad_fn : option ptr;      (* weak_ptr<Function> *)
  sv_grad_accumulator : option ptr;  (* weak_ptr<Function> *)
}.

(** The heap: live [Variable]s, live [Function]s, version blocks, and the
    allocation counter (an address is never handed out twice, so an address
    identifies an object for good). *)
Record Heap := {
  variables : gmap ptr Var;
  functions : gmap ptr FunctionObj;
  versions : gmap ptr Z;
  next_addr : ptr;
}.

Definition set_variables (f : gmap ptr Var → gmap ptr Var) (h : Heap) :=
  {| variables := f (variables h); functions := functions h;
     versions := versions h; next_addr := next_addr h |}.
Definition set_functions (f : gmap ptr FunctionObj → gmap ptr FunctionObj) (h : Heap) :=
  {| variables := variables h; functions := f (functions h);
     versions := versions h; next_addr := next_addr h |}.
Definition set_versions (f : gmap ptr Z → gmap ptr Z) (h : Heap) :=
  {| variables := variables h; functions := functions h;
     versions := f (versions h); next_addr := next_addr h |}.

(** [new]/[make_shared]: take the next address. *)
Definition alloc : M Heap ptr :=
  λ h, Ok (next_addr h)
          {| variables := variables h; functions := functions h;
             versions := versions h; next_addr := S (next_addr h) |}.

(** Every live object was handed out by [alloc]. *)
Definition heap_wfb (h : Heap) : bool :=
  forallb (λ p, p <? next_addr h)%nat (map fst (map_to_list (variables h)))
  && forallb (λ p, p <? next_addr h)%nat (map fst (map_to_list (functions h)))
  && forallb (λ p, p <? next_addr h)%nat (map fst (map_to_list (versions h))).

(** Modelled from the spec: [VariableVersion] (variable.h is not part of the
    sources).  "A shared integer with a join_with operation that makes two
    counters alias (all future increments visible on both)."  A counter is the
    address of its integer block; [new VariableVersion()] allocates a block
    holding 0, [**version] reads the block, [join_with] makes the counter
    refer to the other counter's block. *)
Definition VariableVersion_new : M Heap ptr :=
  let* b := alloc in
  do modify (set_versions <[b := 0]>) in
  ret b.

Definition VariableVersion_read (b : ptr) : M Heap Z :=
  λ h, match versions h !! b with
       | Some n => Ok n h
       | None => Undefined
       end.

Definition VariableVersion_join_with (other : ptr) (v : Var) : Var :=
  {| data := data v; grad_fn := grad_fn v; grad := grad v;
     version_counter := other;
     requires_grad := requires_grad v; is_volatile := is_volatile v;
     output_nr := output_nr v; grad_accumulator := grad_accumulator v;
     hooks := hooks v |}.

(** [weak_ptr<Function>::lock] and [expired]. *)
Definition lock_function (h : Heap) (w : option ptr) : option ptr :=
  match w with
  | Some p => if decide (is_Some (functions h !! p)) then Some p else None
  | None => None
  end.

Definition expired (h : Heap) (w : option ptr) : bool :=
  match lock_function h w with Some _ => false | None => true end.

(** [Variable::Variable(unique_ptr<Tensor> data, bool requires_grad,
    bool is_volatile)] *)
Definition Variable_leaf (d : option tensor) (rg vol : bool) : M Heap Var :=
  let* vc := VariableVersion_new in
  let this := {| data := d; grad_fn := None; grad := None;
                 version_counter := vc;
                 requires_grad := rg; is_volatile := vol;
                 output_nr := 0; grad_accumulator := None; hooks := [] |} in
  match data this with
  | None =>
      do modify (set_versions (delete vc)) in
      throw (runtime_error "Variable data is NULL")
  | Some _ => ret this
  end.

(** [Variable::Variable(unique_ptr<Tensor> data, shared_ptr<Function> grad_fn)] *)
Definition Variable_output (d : option tensor) (gf : option ptr) : M Heap Var :=
  match gf with
  | None => undefined
  | Some f =>
      let* h := get in
      match functions h !! f with
      | None => undefined
      | Some fo =>
          let* vc := VariableVersion_new in
          let rg := is_executable (base_of fo) in
          (* output_nr(grad_fn->num_inputs++) *)
          let nr := num_inputs (base_of fo) in
          do modify (set_functions
                       <[f := map_base (set_num_inputs (int_wrap (nr + 1))) fo]>) in
          let this := {| data := d; grad_fn := Some f; grad := None;
                         version_counter := vc;
                         requires_grad := rg; is_volatile := false;
                         output_nr := nr; grad_accumulator := None;
                         hooks := [] |} in
          match data this with
          | None =>
              do modify (set_versions (delete vc)) in
              throw (runtime_error "Variable data is NULL")
          | Some _ => ret this
          end
      end
  end.

(** [std::make_shared<Variable>(...)]: construct, then place in the heap. *)
Definition make_shared_Variable (ctor : M Heap Var) : M Heap ptr :=
  let* v := ctor in
  let* p := alloc in
  do modify (set_variables <[p := v]>) in
  ret p.

(** [AccumulateGrad::AccumulateGrad(shared_ptr<Variable> _variable)] *)
Definition AccumulateGrad_new (_variable : ptr) : M Heap AccumulateGrad :=
  let* h := get in
  match variables h !! _variable with
  | None => undefined
  | Some v =>
      ret {| ag_base := {| num_inputs := 1; next_functions := [];
                           is_executable := requires_grad v;
                           is_stochastic := false;
                           pre_hooks := []; post_hooks := [] |};
             ag_variable := Some _variable;
             ag_variable_grad := grad v |}
  end.

Definition make_shared_AccumulateGrad (_variable : ptr) : M Heap ptr :=
  let* a := AccumulateGrad_new _variable in
  let* p := alloc in
  do modify (set_functions <[p := ObjAccumulateGrad a]>) in
  ret p.

Definition set_grad_accumulator (w : option ptr) (v : Var) : Var :=
  {| data := data v; grad_fn := grad_fn v; grad := grad v;
     version_counter := version_counter v;
     requires_grad := requires_grad v; is_volatile := is_volatile v;
     output_nr := output_nr v; grad_accumulator := w; hooks := hooks v |}.

Definition set_grad_fn (f : option ptr) (v : Var) : Var :=
  {| data := data v; grad_fn := f; grad := grad v;
     version_counter := version_counter v;
     requires_grad := requires_grad v; is_volatile := is_volatile v;
     output_nr := output_nr v; grad_accumulator := grad_accumulator v;
     hooks := hooks v |}.

Definition set_grad (g : option ptr) (v : Var) : Var :=
  {| data := data v; grad_fn := grad_fn v; grad := g;
     version_counter := version_counter v;
     requires_grad := requires_grad v; is_volatile := is_volatile v;
     output_nr := output_nr v; grad_accumulator := grad_accumulator v;
     hooks := hooks v |}.

Definition set_data (d : option tensor) (v : Var) : Var :=
  {| data := d; grad_fn := grad_fn v; grad := grad v;
     version_counter := version_counter v;
     requires_grad := requires_grad v; is_volatile := is_volatile v;
     output_nr := output_nr v; grad_accumulator := grad_accumulator v;
     hooks := hooks v |}.

(** Dereference and field update of a live [Variable]. *)
Definition deref (p : ptr) : M Heap Var :=
  λ h, match variables h !! p with
       | Some v => Ok v h
       | None => Undefined
       end.

Definition update (p : ptr) (f : Var → Var) : M Heap unit :=
  let* v := deref p in
  modify (set_variables <[p := f v]>).

(** [Variable::get_grad_accumulator]; [this] is [shared_from_this()].  The
    second look at the weak reference is the one taken under
    [grad_accumulator_lock]. *)
Definition get_grad_accumulator (this : ptr) : M Heap (option ptr) :=
  let* v := deref this in
  match grad_fn v with
  | Some _ => ret None
  | None =>
      if negb (requires_grad v) then ret None
      else
        let* h := get in
        match lock_function h (grad_accumulator v) with
        | Some result => ret (Some result)
        | None =>
            match lock_function h (grad_accumulator v) with
            | Some result => ret (Some result)
            | None =>
                let* result := make_shared_AccumulateGrad this in
                do update this (set_grad_accumulator (Some result)) in
                ret (Some result)
            end
        end
  end.

Definition InplaceModifiedError : exn :=
  runtime_error
    "one of the variables needed for gradient computation has been modified by an inplace operation".

Definition MissingGradAccumulator : exn :=
  logic_error "No grad accumulator for a saved leaf!".

(** [SavedVariable::unpack] *)
Definition unpack (sv : SavedVariable) : M Heap (option ptr) :=
  match sv_data sv with
  | None => ret None
  | Some d =>
      let* current_version := VariableVersion_read (sv_version sv) in
      if negb (sv_expected_version sv =? current_version) then
        throw InplaceModifiedError
      else
        let* new_var :=
          make_shared_Variable
            (Variable_leaf (Some (clone_shallow d))
                           (sv_requires_grad sv) (sv_is_volatile sv)) in
        let* h := get in
        do (match sv_grad_fn sv with
            | None =>
                if negb (expired h (sv_weak_grad_fn sv)) then
                  update new_var (set_grad_fn (lock_function h (sv_weak_grad_fn sv)))
                else update new_var (set_grad_fn (sv_grad_fn sv))
            | Some _ => update new_var (set_grad_fn (sv_grad_fn sv))
            end) in
        do update new_var (VariableVersion_join_with (sv_version sv)) in
        if sv_requires_grad sv
           && negb (bool_decide (is_Some (sv_grad_fn sv)))
           && expired h (sv_weak_grad_fn sv)
           && expired h (sv_grad_accumulator sv)
        then
          (* the local [new_var] is destroyed while the exception unwinds *)
          do modify (set_variables (delete new_var)) in
          throw MissingGradAccumulator
        else
          do update new_var (set_grad_accumulator (sv_grad_accumulator sv)) in
          ret (Some new_var)
  end.

(** Sequencing a call over a list (a [for] loop collecting results). *)
Fixpoint mapM {S A B} (f : A → M S B) (l : list A) : M S (list B) :=
  match l with
  | [] => ret []
  | a :: l' =>
      let* b := f a in
      let* bs := mapM f l' in
      ret (b :: bs)
  end.

(** Modelled from the spec: [Function::flags] (function.cpp is not part of
    the sources).  "If any input is volatile, the output Function's
    is_executable = false, is_volatile = true, next_functions = [].  Else
    is_executable = OR over inputs of requires_grad; if is_executable,
    next_functions is built as one edge per input: for an input with a
    grad_fn, edge = (input.grad_fn, input.output_nr); for an input that is a
    leaf and requires grad, edge = (input.get_grad_accumulator(), 0); for an
    input that does not require grad, edge = (null, 0).  Else
    is_executable = false, next_functions = []." *)
Definition flags_edge (input : ptr) : M Heap (option ptr * Z) :=
  let* v := deref input in
  match grad_fn v with
  | Some f => ret (Some f, output_nr v)
  | None =>
      if requires_grad v then
        let* a := get_grad_accumulator input in
        ret (a, 0)
      else ret (None, 0)
  end.

Definition Function_flags (inputs : list ptr) : M Heap FunctionFlags :=
  let* vs := mapM deref inputs in
  if existsb is_volatile vs then
    ret {| ff_is_executable := false; ff_is_volatile := true;
           ff_next_functions := [] |}
  else if existsb requires_grad vs then
    let* edges := mapM flags_edge inputs in
    ret {| ff_is_executable := true; ff_is_volatile := false;
           ff_next_functions := edges |}
  else
    ret {| ff_is_executable := false; ff_is_volatile := false;
           ff_next_functions := [] |}.

(** An op built from the flags of its inputs, placed in the heap. *)
Definition make_shared_Function (flags : FunctionFlags) : M Heap ptr :=
  let* p := alloc in
  do modify (set_functions <[p := ObjFunction (Function_of_flags flags)]>) in
  ret p.

(** The outputs of an op, constructed slot after slot. *)
Definition construct_outputs (gf : ptr) (ds : list tensor) : M Heap (list Var) :=
  mapM (λ d, Variable_output (Some d) (Some gf)) ds.

(** The heap after one output has been wrapped for [f]. *)
Definition after_output (f : ptr) (fo : FunctionObj) (h : Heap) : Heap :=
  set_functions
    <[f := map_base (set_num_inputs (int_wrap (num_inputs (base_of fo) + 1))) fo]>
    (set_versions <[next_addr h := 0]>
       {| variables := variables h; functions := functions h;
          versions := versions h; next_addr := S (next_addr h) |}).

End VariableModel.

Arguments Var tensor : clear implicits.
Arguments SavedVariable tensor : clear implicits.
Arguments Heap tensor : clear implicits.

(** ** A small dense CPU tensor library, used by the examples *)

#[export] Instance list_TensorLib : TensorLib (list Z) := {|
  clone_shallow := λ t, t;
  clone := λ t, t;
  newTensor := λ _, [];
  cadd := λ a b, zip_with Z.add a b;
  isSparse := λ _, false;
  getDevice := λ _, -1;
  tensor_value := λ t, t;
  clone_value := λ _, eq_refl;
|}.

Definition empty_heap : Heap (list Z) :=
  {| variables := ∅; functions := ∅; versions := ∅; next_addr := 0%nat |}.

(** ** AccumulateGrad (functions/accumulate_grad.cpp) *)

Section AccumulateGradModel.
Context {tensor : Type} `{TensorLib tensor}.

(** A Variable hook, called on the list [{new_grad}]: user code that may
    read and change the heap and returns a list of Variables. *)
Variable call_hook : nat → list (option ptr) → M (Heap tensor) (list (option ptr)).

(** [weak_ptr<Variable>::lock] *)
Definition lock_variable (h : Heap tensor) (w : option ptr) : option ptr :=
  match w with
  | Some p => if decide (is_Some (variables h !! p)) then Some p else None
  | None => None
  end.

(** [list[0]]; indexing an empty vector is undefined. *)
Definition front {S A} (l : list A) : M S A :=
  match l with
  | a :: _ => ret a
  | [] => undefined
  end.

(** Dereference of a possibly null [shared_ptr<Variable>]. *)
Definition deref_opt (p : option ptr) : M (Heap tensor) (Var tensor) :=
  match p with
  | Some q => deref q
  | None => undefined
  end.

Definition deref_data (v : Var tensor) : M (Heap tensor) tensor :=
  match data v with
  | Some t => ret t
  | None => undefined
  end.

(** Modelled from the spec: [Clone::apply] (functions/tensor.cpp is not part
    of the sources).  "set leaf.grad = clone(g) (a fresh Clone node is used so
    that leaf.grad never aliases g)": the node copies the tensor of its one
    input and wraps the copy in a newly allocated Variable, with the flag
    propagation of section 4.1 (no graph for a volatile input, else an op
    built from the input's flags). *)
Definition Clone_apply (inputs : list (option ptr)) : M (Heap tensor) (list (option ptr)) :=
  match inputs with
  | [Some g] =>
      let* vg := deref g in
      let* t := deref_data vg in
      let* fl := Function_flags [g] in
      if ff_is_volatile fl then
        let* p := make_shared_Variable (Variable_leaf (Some (clone t)) false true) in
        ret [Some p]
      else
        let* f := make_shared_Function fl in
        let* p := make_shared_Variable (Variable_output (Some (clone t)) (Some f)) in
        ret [Some p]
  | [None] => undefined
  | _ => throw (runtime_error "Clone expects exactly 1 input")
  end.

(** Modelled from the spec: [Add::apply] (functions/basic_ops.cpp is not
    part of the sources).  "leaf.grad = Add(leaf.grad, g) - a new autograd
    node enabling higher-order grads": the element-wise sum of its two
    inputs in a newly allocated Variable, flags as for [Clone_apply]. *)
Definition Add_apply (inputs : list (option ptr)) : M (Heap tensor) (list (option ptr)) :=
  match inputs with
  | [Some a; Some b] =>
      let* va := deref a in
      let* vb := deref b in
      let* ta := deref_data va in
      let* tb := deref_data vb in
      let* fl := Function_flags [a; b] in
      if ff_is_volatile fl then
        let* p := make_shared_Variable (Variable_leaf (Some (cadd ta tb)) false true) in
        ret [Some p]
      else
        let* f := make_shared_Function fl in
        let* p := make_shared_Variable (Variable_output (Some (cadd ta tb)) (Some f)) in
        ret [Some p]
  | [_; _] => undefined
  | _ => throw (runtime_error "Add expects exactly 2 inputs")
  end.

(** [AccumulateGrad::acc_inplace]; the device guard is not modelled and a
    tensor is a value, so [x->cadd(a, b)] yields the tensor [cadd a b]. *)
Definition acc_inplace (grad new_grad : ptr) : M (Heap tensor) unit :=
  let* vg := deref grad in
  let* vn := deref new_grad in
  let* grad_data := deref_data vg in
  let* new_grad_data := deref_data vn in
  if isSparse grad_data && negb (isSparse new_grad_data) then
    update grad (set_data (Some (cadd new_grad_data grad_data)))
  else
    update grad (set_data (Some (cadd grad_data new_grad_data))).

(** The loop over [var->hooks]: each hook is called on [{new_grad}] and
    [new_grad] becomes element 0 of what it returns. *)
Fixpoint run_hooks (hs : list nat) (new_grad : option ptr) : M (Heap tensor) (option ptr) :=
  match hs with
  | [] => ret new_grad
  | hook :: hs' =>
      let* out := call_hook hook [new_grad] in
      let* new_grad' := front out in
      run_hooks hs' new_grad'
  end.

Definition deref_AccumulateGrad (p : ptr) : M (Heap tensor) AccumulateGrad :=
  λ h, match functions h !! p with
       | Some (ObjAccumulateGrad a) => Ok a h
       | _ => Undefined
       end.

Definition set_variable_grad (w : option ptr) (a : AccumulateGrad) : AccumulateGrad :=
  {| ag_base := ag_base a; ag_variable := ag_variable a; ag_variable_grad := w |}.

(** [var->get_grad_accumulator().get()]: the [shared_ptr] that
    [get_grad_accumulator] returns is a temporary, destroyed once the
    address has been read.  An accumulator that was alive before the call
    has another holder and stays; one made by this very call has none and
    is destroyed, which leaves the Variable's weak reference expired. *)
Definition get_grad_accumulator_temporary (var : ptr) : M (Heap tensor) (option ptr) :=
  let* h0 := get in
  let* acc := get_grad_accumulator var in
  match acc with
  | Some a =>
      if decide (is_Some (functions h0 !! a)) then ret acc
      else
        do modify (set_functions (delete a)) in
        ret acc
  | None => ret acc
  end.

(** [AccumulateGrad::apply]; [this] is the address of the node. *)
Definition AccumulateGrad_apply (this : ptr) (grads : list (option ptr))
    : M (Heap tensor) (list (option ptr)) :=
  if negb (length grads =? 1)%nat then
    throw (runtime_error "AccumulateGrad expects exactly 1 input")
  else
    let* self := deref_AccumulateGrad this in
    let* h := get in
    let var := lock_variable h (ag_variable self) in
    let* new_grad := front grads in
    match var with
    | None =>
        let var_grad := lock_variable h (ag_variable_grad self) in
        match var_grad with
        | None => ret []
        | Some vgp =>
            let* vg := deref vgp in
            if negb (is_volatile vg) then ret []
            else
              let* vn := deref_opt new_grad in
              if negb (is_volatile vn) then ret []
              else
                let* ng := (match new_grad with Some q => ret q | None => undefined end) in
                do acc_inplace vgp ng in
                ret []
        end
    | Some var =>
        let* v := deref var in
        match grad_fn v with
        | Some _ =>
            throw (logic_error "leaf variable has been moved into the graph interior")
        | None =>
            let* ver := VariableVersion_read (version_counter v) in
            if negb (ver =? 0) then
              throw (runtime_error "leaf variable was used in an inplace operation")
            else
              let* acc := get_grad_accumulator_temporary var in
              if negb (bool_decide (acc = Some this)) then
                throw (logic_error "AccumulateGrad's variable is not bound to it")
              else
                let* new_grad := run_hooks (hooks v) new_grad in
                let* v := deref var in
                match grad v with
                | None =>
                    let* outs := Clone_apply [new_grad] in
                    let* g := front outs in
                    do update var (set_grad g) in
                    (* variable_grad = var->grad *)
                    do modify (set_functions
                                 <[this := ObjAccumulateGrad (set_variable_grad g self)]>) in
                    ret []
                | Some g0 =>
                    let* vg0 := deref g0 in
                    if is_volatile vg0 then
                      let* ng := (match new_grad with Some q => ret q | None => undefined end) in
                      do acc_inplace g0 ng in
                      ret []
                    else
                      let* vn := deref_opt new_grad in
                      let* new_grad :=
                        (if negb (is_volatile vg0) && is_volatile vn then
                           let* t := deref_data vn in
                           let* q := make_shared_Variable
                                       (Variable_leaf (Some (clone_shallow t)) false false) in
                           ret (Some q)
                         else ret new_grad) in
                      let* outs := Add_apply [Some g0; new_grad] in
                      let* g := front outs in
                      do update var (set_grad g) in
                      ret []
                end
        end
    end.

End AccumulateGradModel.

(** A later heap: the allocation counter has not gone back and the
    Variables that were live still are. *)
Definition heap_le {tensor} (h h' : Heap tensor) : Prop :=
  (next_addr h ≤ next_addr h')%nat ∧
  ∀ q, is_Some (variables h !! q) → is_Some (variables h' !! q).

(** ** The engine (engine.cpp) *)

(** A [std::deque] with its front at the head of the list. *)
Definition deque_push_front {A} (item : A) (q : list A) : list A := item :: q.

(** [back()] followed by [pop_back()]; [None] on an empty deque. *)
Fixpoint deque_pop_back {A} (q : list A) : option (A * list A) :=
  match q with
  | [] => None
  | x :: q' =>
      match deque_pop_back q' with
      | None => Some (x, [])
      | Some (y, q'') => Some (y, x :: q'')
      end
  end.

(** What the code run by the engine but defined elsewhere does: the virtual
    methods of [Function], the hooks, the per-execute callbacks, and
    [InputBuffer] (input_buffer.h is not part of the sources; it is taken as
    a parameter).  [W] is the program state this code acts on. *)
Class Runtime (W IB : Type) := {
  Function_apply : ptr → list (option ptr) → M W (list (option ptr));
  Function_releaseVariables : ptr → M W unit;
  Function_name : ptr → string;
  call_pre_hook : nat → list (option ptr) → M W (list (option ptr));
  call_post_hook :
    nat → list (option ptr) → list (option ptr) → M W (list (option ptr));
  call_callback : nat → ptr → list (option ptr) → M W bool;
  InputBuffer_new : Z → IB;
  InputBuffer_add : IB → Z → option ptr → M W IB;
  InputBuffer_device : IB → Z;
  InputBuffer_variables : IB → list (option ptr);
}.

(** The calls the engine makes into a Function, in order (oldest first). *)
Inductive event :=
  | ev_apply (fn : ptr)
  | ev_releaseVariables (fn : ptr).

#[export] Instance event_eq_dec : EqDecision event.
Proof. solve_decision. Defined.

Section EngineModel.
Context {W IB : Type} {R : Runtime W IB}.

(** The Functions of the graph; they are not modified while the engine
    runs.  A shared pointer keeps its target alive, so every address the
    engine reads is in the graph; [fn_at] answers with a default-constructed
    Function elsewhere. *)
Variable graph : gmap ptr Function.

Definition fn_at (p : ptr) : Function := default Function_default (graph !! p).

Record FunctionTask := {
  fn : ptr;
  inputs : IB;
}.

Record GraphTask := {
  exception : option exn;
  has_error : bool;
  outstanding_tasks : Z;
  keep_graph : bool;
  has_any_work : bool;
  function_callbacks : gmap ptr nat;
  not_ready : gmap ptr IB;
  dependencies : gmap ptr Z;
}.

(** [GraphTask::GraphTask(keep_graph, function_callbacks)] *)
Definition GraphTask_new (keep_graph : bool) (function_callbacks : gmap ptr nat) : GraphTask :=
  {| exception := None; has_error := false; outstanding_tasks := 0;
     keep_graph := keep_graph; has_any_work := false;
     function_callbacks := function_callbacks;
     not_ready := ∅; dependencies := ∅ |}.

(** The engine with the one [GraphTask] of the execute under study: the
    program state, one deque per device, the task, and the log of calls. *)
Record Engine := {
  world : W;
  ready_queues : list (list FunctionTask);
  task : GraphTask;
  trace : list event;
}.

Definition set_world (w : W) (σ : Engine) : Engine :=
  {| world := w; ready_queues := ready_queues σ; task := task σ; trace := trace σ |}.
Definition set_ready_queues (f : list (list FunctionTask) → list (list FunctionTask))
    (σ : Engine) : Engine :=
  {| world := world σ; ready_queues := f (ready_queues σ); task := task σ;
     trace := trace σ |}.
Definition set_task (f : GraphTask → GraphTask) (σ : Engine) : Engine :=
  {| world := world σ; ready_queues := ready_queues σ; task := f (task σ);
     trace := trace σ |}.
Definition log (e : event) (σ : Engine) : Engine :=
  {| world := world σ; ready_queues := ready_queues σ; task := task σ;
     trace := trace σ ++ [e] |}.

Definition set_error (e : exn) (t : GraphTask) : GraphTask :=
  {| exception := Some e; has_error := true;
     outstanding_tasks := outstanding_tasks t; keep_graph := keep_graph t;
     has_any_work := has_any_work t; function_callbacks := function_callbacks t;
     not_ready := not_ready t; dependencies := dependencies t |}.
Definition set_outstanding_tasks (n : Z) (t : GraphTask) : GraphTask :=
  {| exception := exception t; has_error := has_error t;
     outstanding_tasks := n; keep_graph := keep_graph t;
     has_any_work := has_any_work t; function_callbacks := function_callbacks t;
     not_ready := not_ready t; dependencies := dependencies t |}.
Definition set_has_any_work (b : bool) (t : GraphTask) : GraphTask :=
  {| exception := exception t; has_error := has_error t;
     outstanding_tasks := outstanding_tasks t; keep_graph := keep_graph t;
     has_any_work := b; function_callbacks := function_callbacks t;
     not_ready := not_ready t; dependencies := dependencies t |}.
Definition set_not_ready (f : gmap ptr IB → gmap ptr IB) (t : GraphTask) : GraphTask :=
  {| exception := exception t; has_error := has_error t;
     outstanding_tasks := outstanding_tasks t; keep_graph := keep_graph t;
     has_any_work := has_any_work t; function_callbacks := function_callbacks t;
     not_ready := f (not_ready t); dependencies := dependencies t |}.
Definition set_dependencies (f : gmap ptr Z → gmap ptr Z) (t : GraphTask) : GraphTask :=
  {| exception := exception t; has_error := has_error t;
     outstanding_tasks := outstanding_tasks t; keep_graph := keep_graph t;
     has_any_work := has_any_work t; function_callbacks := function_callbacks t;
     not_ready := not_ready t; dependencies := f (dependencies t) |}.

(** Code acting on the program state, run from the engine. *)
Definition lift_world {A} (m : M W A) : M Engine A :=
  λ σ, match m (world σ) with
       | Ok a w => Ok a (set_world w σ)
       | Throw e w => Throw e (set_world w σ)
       | Undefined => Undefined
       end.

(** [std::atomic<uint64_t>] arithmetic. *)
Definition uint64_wrap (z : Z) : Z := z mod 18446744073709551616.

(** [Engine::ready_queue(device)]: [ready_queues.at(device + 1)], as the
    index of the queue. *)
Definition ready_queue (device : Z) : M Engine nat :=
  λ σ, if (0 <=? device + 1) && (device + 1 <? Z.of_nat (length (ready_queues σ)))
       then Ok (Z.to_nat (device + 1)) σ
       else Throw (out_of_range "vector::at") σ.

(** [ReadyQueue::push_front] on the queue with index [q]. *)
Definition push_front (q : nat) (item : FunctionTask) : M Engine unit :=
  modify (λ σ,
    set_ready_queues (alter (deque_push_front item) q)
      (set_task (λ t, set_outstanding_tasks
                        (uint64_wrap (outstanding_tasks t + 1)) t) σ)).

(** [ReadyQueue::pop_back] on the queue with index [q]; [None] while the
    queue is empty (the worker waits on [not_empty]). *)
Definition pop_back (q : nat) (σ : Engine) : option (FunctionTask * Engine) :=
  match ready_queues σ !! q with
  | None => None
  | Some queue =>
      match deque_pop_back queue with
      | None => None
      | Some (item, queue') =>
          Some (item, set_ready_queues <[q := queue']> σ)
      end
  end.

(** [Engine::thread_on_exception] *)
Definition thread_on_exception (e : exn) (σ : Engine) : Engine :=
  if negb (has_error (task σ)) then set_task (set_error e) σ else σ.

(** [call_pre_hooks] *)
Fixpoint call_pre_hooks (hooks : list nat) (inputs : list (option ptr))
    : M Engine (list (option ptr)) :=
  match hooks with
  | [] => ret inputs
  | hook :: hooks' =>
      let* inputs' := lift_world (call_pre_hook hook inputs) in
      call_pre_hooks hooks' inputs'
  end.

(** [call_post_hooks] *)
Fixpoint call_post_hooks (hooks : list nat) (outputs inputs : list (option ptr))
    : M Engine (list (option ptr)) :=
  match hooks with
  | [] => ret outputs
  | hook :: hooks' =>
      let* outputs' := lift_world (call_post_hook hook outputs inputs) in
      call_post_hooks hooks' outputs' inputs
  end.

(** [call_function] *)
Definition call_function (t : FunctionTask) : M Engine (list (option ptr)) :=
  let f := fn_at (fn t) in
  let* inputs := call_pre_hooks (pre_hooks f) (InputBuffer_variables (inputs t)) in
  let* σ := get in
  let* proceed :=
    (match function_callbacks (task σ) !! fn t with
     | Some callback => lift_world (call_callback callback (fn t) inputs)
     | None => ret true
     end) in
  if negb proceed then ret (replicate (length (next_functions f)) None)
  else
    do modify (log (ev_apply (fn t))) in
    let* fn_outputs := lift_world (Function_apply (fn t) inputs) in
    call_post_hooks (post_hooks f) fn_outputs inputs.

Definition InvalidOutputCount (name : string) (expected got : nat) : exn :=
  runtime_error ("Function '" +:+ name +:+
                 "' returned an invalid number of outputs - expected " +:+
                 pretty expected +:+ ", but got " +:+ pretty got).

Definition MissingDependency (name : string) : exn :=
  runtime_error ("dependency not found for " +:+ name).

(** One round of the loop over the outputs in [evaluate_function]. *)
Definition deliver (output : option ptr) (edge : option ptr * Z) : M Engine unit :=
  match edge.1 with
  | None => ret tt
  | Some next_fn =>
      let input_nr := edge.2 in
      if is_stochastic (fn_at next_fn) || negb (is_executable (fn_at next_fn))
      then ret tt
      else
        let* σ := get in
        let* is_ready :=
          (match dependencies (task σ) !! next_fn with
           | None => throw (MissingDependency (Function_name next_fn))
           | Some n =>
               if int_wrap (n - 1) =? 0 then
                 do modify (set_task (set_dependencies (delete next_fn))) in
                 ret true
               else
                 do modify (set_task (set_dependencies
                                        <[next_fn := int_wrap (n - 1)]>)) in
                 ret false
           end) in
        match not_ready (task σ) !! next_fn with
        | None =>
            let* input_buffer :=
              lift_world (InputBuffer_add
                            (InputBuffer_new (num_inputs (fn_at next_fn)))
                            input_nr output) in
            if is_ready then
              let* queue := ready_queue (InputBuffer_device input_buffer) in
              push_front queue {| fn := next_fn; inputs := input_buffer |}
            else
              modify (set_task (set_not_ready <[next_fn := input_buffer]>))
        | Some input_buffer =>
            let* input_buffer :=
              lift_world (InputBuffer_add input_buffer input_nr output) in
            do modify (set_task (set_not_ready <[next_fn := input_buffer]>)) in
            if is_ready then
              let* queue := ready_queue (InputBuffer_device input_buffer) in
              do push_front queue {| fn := next_fn; inputs := input_buffer |} in
              modify (set_task (set_not_ready (delete next_fn)))
            else ret tt
        end
  end.

Fixpoint deliver_all (outputs : list (option ptr)) (edges : list (option ptr * Z))
    : M Engine unit :=
  match outputs, edges with
  | output :: outputs', edge :: edges' =>
      do deliver output edge in
      deliver_all outputs' edges'
  | _, _ => ret tt
  end.

(** [Engine::evaluate_function] *)
Definition evaluate_function (t : FunctionTask) : M Engine unit :=
  let* outputs := call_function t in
  let f := fn_at (fn t) in
  let* σ := get in
  do (if negb (keep_graph (task σ)) then
        do modify (log (ev_releaseVariables (fn t))) in
        lift_world (Function_releaseVariables (fn t))
      else ret tt) in
  if negb (length outputs =? length (next_functions f))%nat then
    throw (InvalidOutputCount (Function_name (fn t))
             (length (next_functions f)) (length outputs))
  else
    deliver_all outputs (next_functions f).

(** What a worker does next. *)
Inductive progress :=
  | waits                       (* blocked in [pop_back] *)
  | steps (σ : Engine)
  | undefined_behaviour.

(** One round of the loop of [Engine::thread_main] run by the worker of
    queue [q].  An exception that leaves [evaluate_function] is recorded by
    [thread_on_exception]. *)
Definition thread_main_step (q : nat) (σ : Engine) : progress :=
  match pop_back q σ with
  | None => waits
  | Some (t, σ1) =>
      let finish σ2 :=
        set_task (λ g, set_outstanding_tasks
                         (uint64_wrap (outstanding_tasks g - 1)) g) σ2 in
      if has_error (task σ1) then steps (finish σ1)
      else
        match evaluate_function t σ1 with
        | Ok _ σ2 => steps (finish σ2)
        | Throw e σ2 => steps (finish (thread_on_exception e σ2))
        | Undefined => undefined_behaviour
        end
  end.

(** A [std::vector] with its back at the end of the list. *)
Definition vector_pop_back {A} (v : list A) : option (A * list A) :=
  deque_pop_back v.

(** The non-null targets of the edges of the graph; the loops below visit
    an address at most once, so this many rounds, and one per initial
    entry, suffice. *)
Definition edge_targets : list ptr :=
  concat (map (λ kv, omap fst (next_functions kv.2)) (map_to_list graph)).

Definition search_fuel (queue : list ptr) : nat :=
  S (length queue + length edge_targets).

(** The body of the loop over [fn->next_functions] in
    [find_stochastic_functions]; the state is [(search_queue, seen, queue)]. *)
Definition fsf_edge (st : list ptr * gset ptr * list ptr) (edge : option ptr * Z)
    : M Engine (list ptr * gset ptr * list ptr) :=
  let '(search_queue, seen, queue) := st in
  match edge.1 with
  | None => ret st
  | Some next_ptr =>
      let* queue' :=
        (if is_stochastic (fn_at next_ptr) && is_executable (fn_at next_ptr)
            && bool_decide (next_ptr ∉ seen)
         then
           let* q := ready_queue (-1) in
           do push_front q {| fn := next_ptr; inputs := InputBuffer_new 0 |} in
           do modify (set_task (set_has_any_work true)) in
           ret (queue ++ [next_ptr])
         else ret queue) in
      if bool_decide (next_ptr ∉ seen) then
        ret (search_queue ++ [next_ptr], {[next_ptr]} ∪ seen, queue')
      else ret (search_queue, seen, queue')
  end.

Fixpoint fsf_edges (st : list ptr * gset ptr * list ptr) (edges : list (option ptr * Z))
    : M Engine (list ptr * gset ptr * list ptr) :=
  match edges with
  | [] => ret st
  | edge :: edges' =>
      let* st' := fsf_edge st edge in
      fsf_edges st' edges'
  end.

Fixpoint fsf_loop (fuel : nat) (st : list ptr * gset ptr * list ptr)
    : M Engine (option (list ptr)) :=
  match fuel with
  | O => ret None
  | S fuel' =>
      let '(search_queue, seen, queue) := st in
      match vector_pop_back search_queue with
      | None => ret (Some queue)
      | Some (f, search_queue') =>
          let* st' := fsf_edges (search_queue', seen, queue)
                                (next_functions (fn_at f)) in
          fsf_loop fuel' st'
      end
  end.

(** [Engine::find_stochastic_functions]; the result is [queue] as the call
    leaves it. *)
Definition find_stochastic_functions (queue : list ptr) : M Engine (list ptr) :=
  let* r := fsf_loop (search_fuel queue) (queue, ∅, queue) in
  match r with
  | Some queue' => ret queue'
  | None => undefined
  end.

(** The body of the loop over [fn->next_functions] in
    [compute_dependencies]; the state is [(queue, seen, dependencies)]. *)
Definition cd_edge (st : list ptr * gset ptr * gmap ptr Z) (edge : option ptr * Z)
    : list ptr * gset ptr * gmap ptr Z :=
  let '(queue, seen, deps) := st in
  match edge.1 with
  | None => st
  | Some next_ptr =>
      if negb (is_executable (fn_at next_ptr)) then st
      else if is_stochastic (fn_at next_ptr) then st
      else
        let deps' :=
          <[next_ptr := int_wrap (default 0 (deps !! next_ptr) + 1)]> deps in
        if bool_decide (next_ptr ∉ seen) then
          (queue ++ [next_ptr], {[next_ptr]} ∪ seen, deps')
        else (queue, seen, deps')
  end.

Fixpoint cd_loop (fuel : nat) (st : list ptr * gset ptr * gmap ptr Z)
    : option (gmap ptr Z) :=
  match fuel with
  | O => None
  | S fuel' =>
      let '(queue, seen, deps) := st in
      match vector_pop_back queue with
      | None => Some deps
      | Some (f, queue') =>
          if negb (is_executable (fn_at f)) then cd_loop fuel' (queue', seen, deps)
          else cd_loop fuel' (foldl cd_edge (queue', seen, deps)
                                    (next_functions (fn_at f)))
      end
  end.

(** [Engine::compute_dependencies] *)
Definition compute_dependencies (queue : list ptr) : M Engine unit :=
  let* σ := get in
  match cd_loop (search_fuel queue)
                (queue, list_to_set queue, dependencies (task σ)) with
  | Some deps => modify (set_task (set_dependencies (λ _, deps)))
  | None => undefined
  end.

(** The first loop of [Engine::find_roots]; [root_value] maps a root to its
    buffer, null until the root is found executable. *)
Fixpoint find_roots_collect (input_roots : list (option ptr * Z)) (inputs : list (option ptr))
    (root_value : gmap ptr (option IB)) : M Engine (gmap ptr (option IB)) :=
  match input_roots with
  | [] => ret root_value
  | root_info :: input_roots' =>
      match inputs, root_info.1 with
      | input :: inputs', Some root =>
          let input_nr := root_info.2 in
          let buf := default None (root_value !! root) in
          let* buf' :=
            (if is_executable (fn_at root) then
               let b := default (InputBuffer_new (num_inputs (fn_at root))) buf in
               let* b' := lift_world (InputBuffer_add b input_nr input) in
               ret (Some b')
             else ret buf) in
          find_roots_collect input_roots' inputs' (<[root := buf']> root_value)
      | _, _ => undefined
      end
  end.

(** The second loop of [Engine::find_roots], over the entries of
    [root_value]. *)
Fixpoint find_roots_enqueue (entries : list (ptr * option IB)) (roots : list ptr)
    : M Engine (list ptr) :=
  match entries with
  | [] => ret roots
  | (root, input_buf) :: entries' =>
      let roots' := roots ++ [root] in
      if negb (is_executable (fn_at root)) then find_roots_enqueue entries' roots'
      else
        match input_buf with
        | None => undefined
        | Some b =>
            let* queue := ready_queue (InputBuffer_device b) in
            do push_front queue {| fn := root; inputs := b |} in
            do modify (set_task (set_has_any_work true)) in
            find_roots_enqueue entries' roots'
        end
  end.

(** [Engine::find_roots]; an [unordered_map] is walked in an order of its
    own, here that of [map_to_list]. *)
Definition find_roots (input_roots : list (option ptr * Z)) (inputs : list (option ptr))
    : M Engine (list ptr) :=
  let* root_value := find_roots_collect input_roots inputs ∅ in
  find_roots_enqueue (map_to_list root_value) [].

Definition NoExecutableRoots : exn :=
  runtime_error "there are no graph nodes that require computing gradients".

Definition UncomputedDependencies : exn :=
  runtime_error "could not compute gradients for some functions".

(** [Engine::execute] up to the wait on [not_done]: the fresh [GraphTask],
    the roots, the stochastic functions, the dependencies.  The result is
    the frontier handed to [compute_dependencies]. *)
Definition execute_start (input_roots : list (option ptr * Z)) (inputs : list (option ptr))
    (keep_graph : bool) (callbacks : gmap ptr nat) : M Engine (list ptr) :=
  do modify (set_task (λ _, GraphTask_new keep_graph callbacks)) in
  let* roots := find_roots input_roots inputs in
  let* roots := find_stochastic_functions roots in
  let* σ := get in
  if negb (has_any_work (task σ)) then throw NoExecutableRoots
  else
    do compute_dependencies roots in
    ret roots.

(** [Engine::execute] after the wait: [None] while tasks are outstanding. *)
Definition execute_finish (σ : Engine) : option (outcome Engine unit) :=
  if negb (outstanding_tasks (task σ) =? 0) then None
  else if has_error (task σ) then
    Some (match exception (task σ) with
          | Some e => Throw e σ
          | None => Undefined
          end)
  else if negb (bool_decide (not_ready (task σ) = ∅)) then
    Some (Throw UncomputedDependencies σ)
  else Some (Ok tt σ).

(** The workers take turns as [schedule] says: the worker of queue [q] runs
    one round of its loop, or the entry is skipped while that worker
    waits.  A round is one step: what two workers do inside their rounds is
    not interleaved, and the rounds start when [execute_start] has
    returned, whereas a worker of the code may take a task while the set-up
    still runs and while a peer is in the middle of a round.  What is
    stated of [run] below is what does not depend on this: the calls that
    are made, their order along the edges, and the state once the tasks are
    done. *)
Fixpoint run (schedule : list nat) (σ : Engine) : option Engine :=
  match schedule with
  | [] => Some σ
  | q :: schedule' =>
      match thread_main_step q σ with
      | waits => run schedule' σ
      | steps σ' => run schedule' σ'
      | undefined_behaviour => None
      end
  end.

(** An engine whose threads have been started for [num_devices] devices. *)
Definition Engine_started (num_devices : nat) (w : W) : Engine :=
  {| world := w; ready_queues := replicate (S num_devices) [];
     task := GraphTask_new false ∅; trace := [] |}.

(** *** The graph as the engine walks it *)

(** The targets the engine counts arrivals for. *)
Definition counted (f : ptr) : bool :=
  is_executable (fn_at f) && negb (is_stochastic (fn_at f)).

(** [f] is reachable from the frontier through executable edges: every
    Function on the way is executable and every Function entered is counted
    (a stochastic Function is a start of such a path, never a stop on
    one). *)
Inductive reach (frontier : list ptr) : ptr → Prop :=
  | reach_frontier f : f ∈ frontier → reach frontier f
  | reach_edge g f input_nr :
      reach frontier g →
      is_executable (fn_at g) = true →
      (Some f, input_nr) ∈ next_functions (fn_at g) →
      counted f = true →
      reach frontier f.

(** The number of edges in [edges] that point at [f]. *)
Definition edges_to (f : ptr) (edges : list (option ptr * Z)) : nat :=
  length (filter (λ e, e.1 = Some f) edges).

(** The number of edges that point at [f] from the Functions of [srcs]. *)
Definition incoming (srcs : list ptr) (f : ptr) : nat :=
  sum_list_with (λ g, edges_to f (next_functions (fn_at g))) srcs.

(** The entry of [f] in [dependencies] after [n] edges at [f] have been
    counted. *)
Definition dependency_entry (n : nat) (f : ptr) : option Z :=
  if counted f && bool_decide (0 < n)%nat then Some (int_wrap (Z.of_nat n))
  else None.

(** The state of the loop of [compute_dependencies] when the Functions of
    [P] have been expanded, those of [Pn] popped and skipped, and the edges
    [extra] of the Function in [cur] (if any) walked. *)
Record cd_inv (frontier : list ptr) (st : list ptr * gset ptr * gmap ptr Z)
    (P Pn cur : list ptr) (extra : list (option ptr * Z)) : Prop := {
  cd_seen : ∀ x, x ∈ st.1.2 ↔ x ∈ st.1.1 ++ P ++ Pn ++ cur;
  cd_nodup : NoDup (st.1.1 ++ P ++ Pn ++ cur);
  cd_reach : ∀ x, x ∈ st.1.2 → reach frontier x;
  cd_frontier : ∀ x, x ∈ frontier → x ∈ st.1.2;
  cd_closed : ∀ g f input_nr, g ∈ P →
      (Some f, input_nr) ∈ next_functions (fn_at g) →
      counted f = true → f ∈ st.1.2;
  cd_extra : ∀ f input_nr, (Some f, input_nr) ∈ extra →
      counted f = true → f ∈ st.1.2;
  cd_exec : ∀ x, x ∈ P ++ cur → is_executable (fn_at x) = true;
  cd_skip : ∀ x, x ∈ Pn → is_executable (fn_at x) = false;
  cd_deps : ∀ f, st.2 !! f = dependency_entry (incoming P f + edges_to f extra) f;
}.

(** *** What is observed of an execute *)

(** How often the engine has called [apply] on [F]. *)
Definition applications (F : ptr) (σ : Engine) : nat :=
  length (filter (λ e, e = ev_apply F) (trace σ)).

(** The Functions of the tasks in the queues. *)
Definition queued (σ : Engine) : list ptr :=
  concat (map (map fn) (ready_queues σ)).

(** How many tasks of [F] are queued. *)
Definition pending (F : ptr) (σ : Engine) : nat :=
  length (filter (λ x, x = F) (queued σ)).

(** Whether [F] still has an entry in [dependencies]. *)
Definition waiting (F : ptr) (σ : Engine) : nat :=
  match dependencies (task σ) !! F with
  | Some _ => 1%nat
  | None => 0%nat
  end.

(** The calls of [apply] on [F] made and still to come. *)
Definition load (F : ptr) (σ : Engine) : nat :=
  (applications F σ + pending F σ + waiting F σ)%nat.

(** [f] is met by the search of [find_stochastic_functions] from [roots]:
    it is a root or the target of an edge of a Function that is met. *)
Inductive traversed (roots : list ptr) : ptr → Prop :=
  | traversed_root r : r ∈ roots → traversed roots r
  | traversed_edge g f input_nr :
      traversed roots g →
      (Some f, input_nr) ∈ next_functions (fn_at g) →
      traversed roots f.

(** [f] is the target of an edge of a Function met by the search. *)
Definition fed (roots : list ptr) (f : ptr) : Prop :=
  ∃ g input_nr, traversed roots g ∧ (Some f, input_nr) ∈ next_functions (fn_at g).

(** Every edge of the graph leads to a Function of higher rank: the graph
    has no cycle. *)
Definition ranked (rank : ptr → nat) : bool :=
  forallb (λ kv : ptr * Function,
             forallb (λ e : option ptr * Z,
                        match e.1 with
                        | Some f => (rank kv.1 <? rank f)%nat
                        | None => true
                        end)
                     (next_functions kv.2))
          (map_to_list graph).

(** The edges at [F] from the Functions of [E] that have not been applied
    yet. *)
Definition remaining (E : list ptr) (σ : Engine) (F : ptr) : nat :=
  incoming (filter (λ g, applications g σ = 0%nat) E) F.

(** Between two rounds of [run], while no error has been recorded: every
    Function of [E] is applied, queued or waiting, exactly once in all; no
    other Function is; and an entry of [dependencies] counts the edges that
    remain. *)
Record live_inv (E : list ptr) (σ : Engine) : Prop := {
  live_load : ∀ F, F ∈ E → load F σ = 1%nat;
  live_only : ∀ F, (1 ≤ load F σ)%nat → F ∈ E;
  live_deps : ∀ F, dependencies (task σ) !! F = dependency_entry (remaining E σ F) F;
}.

(** The state of the loop of [find_stochastic_functions], started on
    [roots] in the engine state [σ0], when the stochastic Functions
    [stoch] have been found, the Functions of [done] expanded, and the
    edges [extra] of the Function in [cur] (if any) walked. *)
Record fsf_inv (roots : list ptr) (σ0 : Engine)
    (st : list ptr * gset ptr * list ptr) (σ : Engine)
    (stoch done cur : list ptr) (extra : list (option ptr * Z)) : Prop := {
  fsf_queue : st.2 = roots ++ stoch;
  fsf_nodup : NoDup stoch;
  fsf_stoch : ∀ x, x ∈ stoch ↔
                x ∈ st.1.2 ∧ is_stochastic (fn_at x) = true
                ∧ is_executable (fn_at x) = true;
  fsf_seen : ∀ x, x ∈ st.1.2 → fed roots x;
  fsf_trav : ∀ x, x ∈ st.1.1 ++ done ++ cur → traversed roots x;
  fsf_cover : ∀ x, x ∈ roots ∨ x ∈ st.1.2 → x ∈ st.1.1 ++ done ++ cur;
  fsf_closed : ∀ g f input_nr, g ∈ done →
      (Some f, input_nr) ∈ next_functions (fn_at g) → f ∈ st.1.2;
  fsf_extra : ∀ f input_nr, (Some f, input_nr) ∈ extra → f ∈ st.1.2;
  fsf_queued : queued σ ≡ₚ stoch ++ queued σ0;
  fsf_trace : trace σ = trace σ0;
  fsf_deps : dependencies (task σ) = dependencies (task σ0);
  fsf_error : has_error (task σ) = has_error (task σ0);
  fsf_queues : length (ready_queues σ) = length (ready_queues σ0);
}.

(** No executable root of the execute is fed by the search from the roots:
    the roots are not among the Functions their own graph leads to. *)
Definition independent_roots (input_roots : list (option ptr * Z)) : Prop :=
  ∀ r, Some r ∈ input_roots.*1 → is_executable (fn_at r) = true →
       ¬ fed (omap fst input_roots) r.

(** A check that implies [independent_roots]: no executable root is the
    target of any edge of the graph. *)
Definition unfed_roots (input_roots : list (option ptr * Z)) : bool :=
  forallb (λ r, negb (is_executable (fn_at r))
                || negb (bool_decide (r ∈ edge_targets)))
          (omap fst input_roots).

(** The engine itself is as it was; only the program state may differ. *)
Definition same_engine (σ σ' : Engine) : Prop :=
  ready_queues σ' = ready_queues σ ∧ task σ' = task σ ∧ trace σ' = trace σ.

(** No callback rejects a Function. *)
Definition callbacks_accept : Prop :=
  ∀ callback f inputs w w', call_callback callback f inputs w ≠ Ok false w'.

(** A run of [push_front] calls on queue [q], in the order of the list. *)
Fixpoint push_front_all (q : nat) (items : list FunctionTask) : M Engine unit :=
  match items with
  | [] => ret tt
  | item :: items' =>
      do push_front q item in
      push_front_all q items'
  end.

End EngineModel.

Arguments FunctionTask IB : clear implicits.
Arguments GraphTask IB : clear implicits.
Arguments Engine W IB : clear implicits.

(** Observing an outcome. *)
Definition value_of {S A} (o : outcome S A) : option A :=
  match o with Ok a _ => Some a | _ => None end.

Definition state_of {S A} (o : outcome S A) : option S :=
  match o with Ok _ s => Some s | Throw _ s => Some s | Undefined => None end.

Definition thrown {S A} (o : outcome S A) : option exn :=
  match o with Throw e _ => Some e | _ => None end.

(** The last strong reference to a [Function] goes away: the object is
    destroyed. *)
Definition release_Function {tensor} (p : ptr) : M (Heap tensor) unit :=
  modify (set_functions (delete p)).

(** *** Example heaps *)

Definition example_leaf (rg vol : bool) (vc : ptr) : Var (list Z) :=
  {| data := Some [1; 2]; grad_fn := None; grad := None;
     version_counter := vc; requires_grad := rg; is_volatile := vol;
     output_nr := 0; grad_accumulator := None; hooks := [] |}.

(** One leaf at address 0 with its version block at address 1. *)
Definition leaf_heap (rg vol : bool) : Heap (list Z) :=
  {| variables := {[ 0%nat := example_leaf rg vol 1%nat ]};
     functions := ∅;
     versions := {[ 1%nat := 0 ]};
     next_addr := 2%nat |}.

(** An op is built from the flags of one volatile input and its first
    output is wrapped with that op as [grad_fn]. *)
Definition volatile_output_scenario : M (Heap (list Z)) (bool * bool) :=
  let* fl := Function_flags [0%nat] in
  let* f := make_shared_Function fl in
  let* v := Variable_output (Some [3; 4]) (Some f) in
  ret (ff_is_volatile fl, is_volatile v).

(** A leaf's accumulator is requested, dropped by its only holder, and
    requested again. *)
Definition accumulator_twice_scenario : M (Heap (list Z)) (option ptr * option ptr) :=
  let* a := get_grad_accumulator 0%nat in
  do (match a with Some p => release_Function p | None => ret tt end) in
  let* b := get_grad_accumulator 0%nat in
  ret (a, b).

Definition example_saved (expected : Z) : SavedVariable (list Z) :=
  {| sv_data := Some [1; 2]; sv_version := 1%nat;
     sv_expected_version := expected;
     sv_requires_grad := false; sv_is_volatile := false;
     sv_grad_fn := None; sv_weak_grad_fn := None;
     sv_grad_accumulator := None |}.

Definition example_saved_empty : SavedVariable (list Z) :=
  {| sv_data := None; sv_version := 7%nat;
     sv_expected_version := 5;
     sv_requires_grad := true; sv_is_volatile := false;
     sv_grad_fn := None; sv_weak_grad_fn := None;
     sv_grad_accumulator := None |}.

(** A fresh, executable op at address 0 with no outputs wrapped yet. *)
Definition example_op : FunctionObj :=
  ObjFunction (Function_of_flags {| ff_is_executable := true;
                                    ff_is_volatile := false;
                                    ff_next_functions := [] |}).

Definition op_heap : Heap (list Z) :=
  {| variables := ∅; functions := {[ 0%nat := example_op ]};
     versions := ∅; next_addr := 1%nat |}.

(** A leaf at address 0 bound to the accumulator at address 2, an incoming
    gradient at address 3 and another Variable at address 4; [hs] are the
    leaf's hooks. *)
Definition example_grad (t : list Z) (vc : ptr) : Var (list Z) :=
  {| data := Some t; grad_fn := None; grad := None;
     version_counter := vc; requires_grad := false; is_volatile := false;
     output_nr := 0; grad_accumulator := None; hooks := [] |}.

Definition example_accumulator : AccumulateGrad :=
  {| ag_base := {| num_inputs := 1; next_functions := [];
                   is_executable := true; is_stochastic := false;
                   pre_hooks := []; post_hooks := [] |};
     ag_variable := Some 0%nat;
     ag_variable_grad := None |}.

Definition bound_leaf (hs : list nat) : Var (list Z) :=
  {| data := Some [1; 2]; grad_fn := None; grad := None;
     version_counter := 1%nat; requires_grad := true; is_volatile := false;
     output_nr := 0; grad_accumulator := Some 2%nat; hooks := hs |}.

Definition acc_heap (hs : list nat) : Heap (list Z) :=
  {| variables := {[ 0%nat := bound_leaf hs;
                     3%nat := example_grad [1; 1] 5%nat;
                     4%nat := example_grad [10; 20] 6%nat ]};
     functions := {[ 2%nat := ObjAccumulateGrad example_accumulator ]};
     versions := {[ 1%nat := 0; 5%nat := 0; 6%nat := 0 ]};
     next_addr := 7%nat |}.

(** A hook that answers with the Variable at address 4. *)
Definition replacing_hook (_ : nat) (_ : list (option ptr))
    : M (Heap (list Z)) (list (option ptr)) :=
  ret [Some 4%nat].

(** Run the accumulator on the gradient at address 3, then read the leaf's
    grad and the tensor it holds. *)
Definition first_grad_scenario : M (Heap (list Z)) (option ptr * option (list Z)) :=
  do AccumulateGrad_apply replacing_hook 2%nat [Some 3%nat] in
  let* v := deref 0%nat in
  let* vp := deref_opt (grad v) in
  ret (grad v, data vp).

(** *** An example runtime

    The program state is empty, a buffer is its list of slots (a gradient
    is placed in its slot if the slot is free), every tensor is on the CPU,
    and [Function_apply] answers with [outs f] null gradients. *)
Definition slots_add (b : list (option ptr)) (pos : Z) (v : option ptr)
    : list (option ptr) :=
  match b !! Z.to_nat pos with
  | Some None => <[Z.to_nat pos := v]> b
  | _ => b
  end.

Definition table_runtime (outs : ptr → nat) : Runtime unit (list (option ptr)) := {|
  Function_apply := λ f _, ret (replicate (outs f) None);
  Function_releaseVariables := λ _, ret tt;
  Function_name := λ _, "Function";
  call_pre_hook := λ _ inputs, ret inputs;
  call_post_hook := λ _ outputs _, ret outputs;
  call_callback := λ _ _ _, ret true;
  InputBuffer_new := λ n, replicate (Z.to_nat n) None;
  InputBuffer_add := λ b pos v, ret (slots_add b pos v);
  InputBuffer_device := λ _, -1;
  InputBuffer_variables := λ b, b;
|}.

Definition example_fn (edges : list (option ptr * Z)) (n : Z) (executable stochastic : bool)
    : Function :=
  {| num_inputs := n; next_functions := edges; is_executable := executable;
     is_stochastic := stochastic; pre_hooks := []; post_hooks := [] |}.

Definition example_task (f : ptr) : FunctionTask (list (option ptr)) :=
  {| fn := f; inputs := [] |}.

(** Function 0 has one outgoing edge, to the leaf accumulator 1. *)
Definition chain_graph : gmap ptr Function :=
  {[ 0%nat := example_fn [(Some 1%nat, 0)] 1 true false;
     1%nat := example_fn [] 1 true false ]}.

(** A started engine with the CPU queue only. *)
Definition example_engine : Engine unit (list (option ptr)) := Engine_started 0 ().

(** Two tasks, for Functions 1 and 2, are pushed in that order on the CPU
    queue of a started engine; the scenario answers with the Function of
    the task that [pop_back] returns. *)
Definition two_pushes_scenario : option ptr :=
  match push_front_all 0%nat [example_task 1%nat; example_task 2%nat]
          example_engine with
  | Ok _ σ => (λ r, fn r.1) <$> pop_back 0%nat σ
  | _ => None
  end.

(** The task of Function 0 of [chain_graph] is evaluated with
    [keep_graph = false] by a runtime whose [Function_apply] returns no
    outputs at all. *)
Definition short_outputs_scenario : outcome (Engine unit (list (option ptr))) unit :=
  evaluate_function (R := table_runtime (λ _, 0%nat)) chain_graph
    (example_task 0%nat) example_engine.

(** The engine states of [short_outputs_scenario] after [call_function]
    and after [releaseVariables]. *)
Definition after_call : Engine unit (list (option ptr)) :=
  log (ev_apply 0%nat) example_engine.

Definition after_release : Engine unit (list (option ptr)) :=
  set_world () (log (ev_releaseVariables 0%nat) after_call).

(** Function 0 feeds Functions 1 and 2 (and has one null edge), both feed
    the two-input Function 3, and Function 2 also points at the
    non-executable Function 4. *)
Definition diamond_graph : gmap ptr Function :=
  {[ 0%nat := example_fn [(Some 1%nat, 0); (Some 2%nat, 0); (None, 0)] 1 true false;
     1%nat := example_fn [(Some 3%nat, 0)] 1 true false;
     2%nat := example_fn [(Some 3%nat, 1); (Some 4%nat, 0)] 1 true false;
     3%nat := example_fn [] 2 true false;
     4%nat := example_fn [] 1 false false ]}.

(** The dependencies computed for [diamond_graph] from the frontier [0]. *)
Definition diamond_dependencies : option (gmap ptr Z) :=
  (λ σ : Engine unit (list (option ptr)), dependencies (task σ)) <$>
    state_of (compute_dependencies diamond_graph [0%nat] example_engine).

(** A Function's [apply] that returns one null gradient per edge of the
    Function in [graph]. *)
Definition edge_outputs (graph : gmap ptr Function) (f : ptr) : nat :=
  length (next_functions (fn_at graph f)).

(** As [table_runtime], with callbacks that reject every Function. *)
Definition rejecting_runtime (outs : ptr → nat) : Runtime unit (list (option ptr)) := {|
  Function_apply := λ f _, ret (replicate (outs f) None);
  Function_releaseVariables := λ _, ret tt;
  Function_name := λ _, "Function";
  call_pre_hook := λ _ inputs, ret inputs;
  call_post_hook := λ _ outputs _, ret outputs;
  call_callback := λ _ _ _, ret false;
  InputBuffer_new := λ n, replicate (Z.to_nat n) None;
  InputBuffer_add := λ b pos v, ret (slots_add b pos v);
  InputBuffer_device := λ _, -1;
  InputBuffer_variables := λ b, b;
|}.

(** The engine state [execute_start] leaves, and the one the workers reach
    from it along [schedule]; the started engine stands in where there is
    none. *)
Definition ready_state {W IB} (start : outcome (Engine W IB) (list ptr))
    (fallback : Engine W IB) : Engine W IB :=
  default fallback (state_of start).

Definition done_state {W IB} {R : Runtime W IB} (graph : gmap ptr Function)
    (schedule : list nat) (σ0 : Engine W IB) : Engine W IB :=
  default σ0 (run graph schedule σ0).

(** An execute over [diamond_graph] from the root Function 0 with the
    gradient 7, on one CPU worker that runs four rounds. *)
Definition diamond_ready : Engine unit (list (option ptr)) :=
  ready_state
    (execute_start (R := table_runtime (edge_outputs diamond_graph)) diamond_graph
       [(Some 0%nat, 0)] [Some 7%nat] false ∅ example_engine)
    example_engine.

Definition diamond_done : Engine unit (list (option ptr)) :=
  done_state (R := table_runtime (edge_outputs diamond_graph)) diamond_graph
    [0; 0; 0; 0]%nat diamond_ready.

(** An execute over [chain_graph] from the root Function 0, with a callback
    registered for Function 0 that rejects it; the worker runs two
    rounds. *)
Definition rejected_root_ready : Engine unit (list (option ptr)) :=
  ready_state
    (execute_start (R := rejecting_runtime (edge_outputs chain_graph)) chain_graph
       [(Some 0%nat, 0)] [Some 7%nat] false {[ 0%nat := 0%nat ]} example_engine)
    example_engine.

Definition rejected_root_done : Engine unit (list (option ptr)) :=
  done_state (R := rejecting_runtime (edge_outputs chain_graph)) chain_graph
    [0; 0]%nat rejected_root_ready.

(** An execute over [chain_graph] with both Functions given as roots:
    Function 1 is a root and is fed by the root Function 0.  The worker
    runs three rounds. *)
Definition fed_root_ready : Engine unit (list (option ptr)) :=
  ready_state
    (execute_start (R := table_runtime (edge_outputs chain_graph)) chain_graph
       [(Some 0%nat, 0); (Some 1%nat, 0)] [Some 7%nat; Some 8%nat] false ∅
       example_engine)
    example_engine.

Definition fed_root_done : Engine unit (list (option ptr)) :=
  done_state (R := table_runtime (edge_outputs chain_graph)) chain_graph
    [0; 0; 0]%nat fed_root_ready.

(** *** Further examples *)

(** The heap after the saved leaf of [leaf_heap] has been unpacked. *)
Definition unpacked_heap : Heap (list Z) :=
  default empty_heap (state_of (unpack (example_saved 0) (leaf_heap false false))).

(** The accumulator at address 2 outlives its Variable and the grad. *)
Definition orphan_heap : Heap (list Z) :=
  {| variables := ∅;
     functions := {[ 2%nat := ObjAccumulateGrad example_accumulator ]};
     versions := ∅;
     next_addr := 7%nat |}.

(** As [acc_heap] without hooks, after an in-place operation on the leaf. *)
Definition modified_leaf_heap : Heap (list Z) :=
  set_versions <[ 1%nat := 1 ]> (acc_heap []).

(** A leaf at address 0 whose grad is the volatile Variable at address 4,
    its accumulator at address 2 and an incoming gradient at address 3. *)
Definition volatile_grad : Var (list Z) :=
  {| data := Some [10; 20]; grad_fn := None; grad := None;
     version_counter := 6%nat; requires_grad := false; is_volatile := true;
     output_nr := 0; grad_accumulator := None; hooks := [] |}.

Definition leaf_with_grad : Var (list Z) :=
  {| data := Some [1; 2]; grad_fn := None; grad := Some 4%nat;
     version_counter := 1%nat; requires_grad := true; is_volatile := false;
     output_nr := 0; grad_accumulator := Some 2%nat; hooks := [] |}.

Definition volatile_grad_heap : Heap (list Z) :=
  {| variables := {[ 0%nat := leaf_with_grad;
                     3%nat := example_grad [1; 1] 5%nat;
                     4%nat := volatile_grad ]};
     functions := {[ 2%nat := ObjAccumulateGrad
                                {| ag_base := ag_base example_accumulator;
                                   ag_variable := Some 0%nat;
                                   ag_variable_grad := Some 4%nat |} ]};
     versions := {[ 1%nat := 0; 5%nat := 0; 6%nat := 0 ]};
     next_addr := 7%nat |}.

(** ** Further code of function.h, and what else is observed of the engine *)

Section EngineAccounts.
Context {W IB : Type} {R : Runtime W IB}.
Variable graph : gmap ptr Function.

(** [Function::set_flags] *)
Definition set_flags (flags : FunctionFlags) (f : Function) : Function :=
  {| num_inputs := num_inputs f; next_functions := ff_next_functions flags;
     is_executable := ff_is_executable flags; is_stochastic := is_stochastic f;
     pre_hooks := pre_hooks f; post_hooks := post_hooks f |}.

(** [Function::should_compute_output(i)]; [next_functions[i]] past the end
    of the vector is undefined, which is [None] here. *)
Definition should_compute_output (f : Function) (i : nat) : option bool :=
  match next_functions f !! i with
  | None => None
  | Some (None, _) => Some false
  | Some (Some g, _) => Some (is_executable (fn_at graph g))
  end.

(** How often the engine has called [releaseVariables] on [F]. *)
Definition releases (F : ptr) (σ : Engine W IB) : nat :=
  length (filter (λ e, e = ev_releaseVariables F) (trace σ)).

(** [outstanding_tasks] is the number of tasks in the queues, as a
    [uint64_t]. *)
Definition balanced (σ : Engine W IB) : Prop :=
  outstanding_tasks (task σ) = uint64_wrap (Z.of_nat (length (queued σ))).

(** By how much [outstanding_tasks] is ahead of the queues. *)
Definition surplus (σ : Engine W IB) : Z :=
  uint64_wrap (outstanding_tasks (task σ) - Z.of_nat (length (queued σ))).

(** What no call made for a task changes: the recorded error, the flags of
    the [GraphTask], the number of queues, and the surplus of
    [outstanding_tasks] over the queued tasks; [outstanding_tasks] stays in
    the range of a [uint64_t]. *)
Record ledger (σ σ' : Engine W IB) : Prop := {
  ledger_exception : exception (task σ') = exception (task σ);
  ledger_has_error : has_error (task σ') = has_error (task σ);
  ledger_keep_graph : keep_graph (task σ') = keep_graph (task σ);
  ledger_callbacks : function_callbacks (task σ') = function_callbacks (task σ);
  ledger_queues : length (ready_queues σ') = length (ready_queues σ);
  ledger_surplus : surplus σ' = surplus σ;
  ledger_range :
    0 ≤ outstanding_tasks (task σ) < 18446744073709551616 →
    0 ≤ outstanding_tasks (task σ') < 18446744073709551616;
}.

(** A buffer is kept in [not_ready] only for a Function that still has an
    entry in [dependencies]. *)
Definition buffered (σ : Engine W IB) : Prop :=
  ∀ F, is_Some (not_ready (task σ) !! F) → is_Some (dependencies (task σ) !! F).

(** [has_any_work] is set exactly when a task has been queued. *)
Definition idle_iff (σ : Engine W IB) : Prop :=
  has_any_work (task σ) = true ↔ queued σ ≠ [].

(** What the steps of [execute] before the wait keep: the [ledger], the
    buffers of [not_ready], the log, and [idle_iff]. *)
Record setup_frame (σ σ' : Engine W IB) : Prop := {
  setup_ledger : ledger σ σ';
  setup_not_ready : not_ready (task σ') = not_ready (task σ);
  setup_trace : trace σ' = trace σ;
  setup_idle : idle_iff σ → idle_iff σ';
}.

End EngineAccounts.

(** The execute of [diamond_ready] with [keep_graph = true]. *)
Definition kept_ready : Engine unit (list (option ptr)) :=
  ready_state
    (execute_start (R := table_runtime (edge_outputs diamond_graph)) diamond_graph
       [(Some 0%nat, 0)] [Some 7%nat] true ∅ example_engine)
    example_engine.

Definition kept_done : Engine unit (list (option ptr)) :=
  done_state (R := table_runtime (edge_outputs diamond_graph)) diamond_graph
    [0; 0; 0; 0]%nat kept_ready.

(** An execute over [chain_graph] from Function 0 by a runtime whose
    [Function_apply] returns no outputs: the task of Function 0, the engine
    once the worker has taken it, the engine when [evaluate_function] has
    thrown, and the engine after two rounds. *)
Definition failing_ready : Engine unit (list (option ptr)) :=
  ready_state
    (execute_start (R := table_runtime (λ _, 0%nat)) chain_graph
       [(Some 0%nat, 0)] [Some 7%nat] false ∅ example_engine)
    example_engine.

Definition failing_task : FunctionTask (list (option ptr)) :=
  {| fn := 0%nat; inputs := [Some 7%nat] |}.

Definition failing_taken : Engine unit (list (option ptr)) :=
  set_ready_queues (λ _, [[]]) failing_ready.



(** [find_roots] on a root given twice, with two gradients. *)
Definition twice_rooted : Engine unit (list (option ptr)) :=
  default example_engine
    (state_of (find_roots (R := table_runtime (edge_outputs chain_graph)) chain_graph
                 [(Some 0%nat, 0); (Some 0%nat, 0)] [Some 7%nat; Some 8%nat]
                 example_engine)).

(** As [table_runtime], with a [Function_apply] that throws. *)
Definition throwing_runtime : Runtime unit (list (option ptr)) := {|
  Function_apply := λ _ _, throw (runtime_error "apply failed");
  Function_releaseVariables := λ _, ret tt;
  Function_name := λ _, "Function";
  call_pre_hook := λ _ inputs, ret inputs;
  call_post_hook := λ _ outputs _, ret outputs;
  call_callback := λ _ _ _, ret true;
  InputBuffer_new := λ n, replicate (Z.to_nat n) None;
  InputBuffer_add := λ b pos v, ret (slots_add b pos v);
  InputBuffer_device := λ _, -1;
  InputBuffer_variables := λ b, b;
|}.

(** [failing_taken] once [call_function] has thrown under
    [throwing_runtime]. *)
Definition apply_thrown : Engine unit (list (option ptr)) :=
  log (ev_apply 0%nat) failing_taken.

(** Function 0 feeds the stochastic Function 1, which feeds Function 2. *)
Definition stochastic_graph : gmap ptr Function :=
  {[ 0%nat := example_fn [(Some 1%nat, 0)] 1 true false;
     1%nat := example_fn [(Some 2%nat, 0)] 1 true true;
     2%nat := example_fn [] 1 true false ]}.

(** A started engine after [find_stochastic_functions] on
    [stochastic_graph] from Function 0. *)
Definition stochastic_found : Engine unit (list (option ptr)) :=
  default example_engine
    (state_of (find_stochastic_functions
                 (R := table_runtime (edge_outputs stochastic_graph))
                 stochastic_graph [0%nat] example_engine)).

(** An execute over [stochastic_graph] with Functions 0 and 1 as roots: the
    stochastic Function 1 is a root and is met again by the search from
    Function 0. *)
Definition stochastic_root_ready : Engine unit (list (option ptr)) :=
  ready_state
    (execute_start (R := table_runtime (edge_outputs stochastic_graph)) stochastic_graph
       [(Some 0%nat, 0); (Some 1%nat, 0)] [Some 7%nat; Some 8%nat] false ∅
       example_engine)
    example_engine.

(** ** The data of the live Variables *)

(** [P] holds of the state a call leaves, whether it returns or throws, and
    [Q] of what it returns; nothing is said of a call with undefined
    behaviour. *)
Definition keeps {S A} (P : S → Prop) (Q : A → Prop) (m : M S A) : Prop :=
  ∀ s, P s → match m s with
             | Ok a s' => Q a ∧ P s'
             | Throw _ s' => P s'
             | Undefined => True
             end.

(** Every live [Variable] holds a tensor: its [data] is not null. *)
Definition live_data {tensor} (h : Heap tensor) : Prop :=
  map_Forall (λ _ v, is_Some (data v)) (variables h).

(** The engine of [diamond_ready] once an error has been recorded, and its
    queue once the worker has taken the task of Function 0. *)
Definition error_recorded : Engine unit (list (option ptr)) :=
  set_task (set_error (runtime_error "apply failed")) diamond_ready.

Definition error_taken : Engine unit (list (option ptr)) :=
  set_ready_queues (λ _, [[]]) error_recorded.

(** As [acc_heap] without hooks, the leaf holding no accumulator: the
    accumulator at address 2 refers to the leaf, the leaf not to it. *)
Definition unbound_leaf : Var (list Z) := set_grad_accumulator None (bound_leaf []).

Definition unbound_heap : Heap (list Z) :=
  set_variables <[ 0%nat := unbound_leaf ]> (acc_heap []).

(* ===================================================================== *)
(** * Properties *)
(* ===================================================================== *)

Lemma int_wrap_small z : - 2147483648 ≤ z ≤ int_max → int_wrap z = z.
Proof. unfold int_max, int_wrap. intros Hz. rewrite Z.mod_small; lia. Qed.

Lemma int_wrap_succ z : int_wrap (int_wrap z + 1) = int_wrap (z + 1).
Proof.
  unfold int_wrap.
  replace ((z + 2147483648) mod 4294967296 - 2147483648 + 1 + 2147483648)
    with ((z + 2147483648) mod 4294967296 + 1) by lia.
  rewrite Zplus_mod_idemp_l. f_equal. f_equal. lia.
Qed.

Lemma mapM_cons {S A B} (f : A → M S B) a l :
  mapM f (a :: l) = (let* b := f a in let* bs := mapM f l in ret (b :: bs)).
Proof. reflexivity. Qed.

Section VariableProperties.
Context {tensor : Type} `{TensorLib tensor}.

Ltac run := repeat (unfold bind, ret, throw, undefined, get, modify, alloc,
                    VariableVersion_new, VariableVersion_read, deref, update; simpl).

(** A [Variable] that either constructor returns holds a tensor: the leaf
    constructor returns exactly when the supplied tensor pointer is not
    null and throws "Variable data is NULL" when it is; the output
    constructor (on a live [grad_fn]) does the same. *)
Lemma constructors_check_data :
  (∀ (d : option tensor) rg vol h,
     match Variable_leaf d rg vol h with
     | Ok v _ => is_Some (data v) ∧ data v = d
     | Throw e _ => d = None ∧ e = runtime_error "Variable data is NULL"
     | Undefined => False
     end) ∧
  (∀ (d : option tensor) gf h,
     match Variable_output d gf h with
     | Ok v _ => is_Some (data v) ∧ data v = d
     | Throw e _ => d = None ∧ e = runtime_error "Variable data is NULL"
     | Undefined => lock_function h gf = None
     end).
Proof.
  split.
  - intros [t|] rg vol h; run; eauto.
  - intros d [f|] h; run; [|done].
    unfold lock_function. destruct (functions h !! f) as [fo|] eqn:Hf; simpl.
    + destruct d; simpl; eauto.
    + done.
Qed.

Lemma Variable_output_ok (d : tensor) f h fo :
  functions h !! f = Some fo →
  Variable_output (Some d) (Some f) h =
    Ok {| data := Some d; grad_fn := Some f; grad := None;
          version_counter := next_addr h;
          requires_grad := is_executable (base_of fo); is_volatile := false;
          output_nr := num_inputs (base_of fo); grad_accumulator := None;
          hooks := [] |}
       (after_output f fo h).
Proof. intros Hf. unfold Variable_output. run. by rewrite Hf. Qed.

Lemma construct_outputs_spec (ds : list tensor) : ∀ f h fo,
  functions h !! f = Some fo →
  0 ≤ num_inputs (base_of fo) →
  num_inputs (base_of fo) + Z.of_nat (length ds) ≤ int_max →
  ∃ vs h' fo',
    construct_outputs f ds h = Ok vs h' ∧
    length vs = length ds ∧
    (∀ k v, vs !! k = Some v →
       grad_fn v = Some f ∧
       requires_grad v = is_executable (base_of fo) ∧
       is_volatile v = false ∧
       output_nr v = num_inputs (base_of fo) + Z.of_nat k ∧
       data v = ds !! k) ∧
    functions h' !! f = Some fo' ∧
    num_inputs (base_of fo') = num_inputs (base_of fo) + Z.of_nat (length ds) ∧
    is_executable (base_of fo') = is_executable (base_of fo).
Proof.
  induction ds as [|d ds IH]; intros f h fo Hf H0 Hmax.
  - exists [], h, fo. simpl. unfold ret. repeat split; try done; lia.
  - set (fo1 := map_base (set_num_inputs (int_wrap (num_inputs (base_of fo) + 1))) fo).
    assert (Hn1 : num_inputs (base_of fo1) = num_inputs (base_of fo) + 1).
    { unfold fo1. destruct fo; simpl; apply int_wrap_small;
        unfold int_max in *; simpl in H0, Hmax; lia. }
    assert (He1 : is_executable (base_of fo1) = is_executable (base_of fo)).
    { unfold fo1. by destruct fo. }
    destruct (IH f (after_output f fo h) fo1)
      as (vs & h' & fo' & Hrun & Hlen & Hk & Hf' & Hn' & He').
    { unfold after_output. simpl. by rewrite lookup_insert_eq. }
    { lia. }
    { simpl length in Hmax. lia. }
    assert (Hstep : construct_outputs f (d :: ds) h =
              Ok ({| data := Some d; grad_fn := Some f; grad := None;
                     version_counter := next_addr h;
                     requires_grad := is_executable (base_of fo);
                     is_volatile := false;
                     output_nr := num_inputs (base_of fo);
                     grad_accumulator := None; hooks := [] |} :: vs) h').
    { unfold construct_outputs in *. rewrite mapM_cons. unfold bind at 1.
      cbv beta. rewrite (Variable_output_ok d f h fo Hf).
      unfold bind. rewrite Hrun. reflexivity. }
    eexists _, h', fo'. split; [exact Hstep|].
    split; [simpl; lia|].
    split.
    { intros [|k] v Hv; simpl in Hv.
      - inversion Hv; subst; simpl. repeat split; try done. lia.
      - destruct (Hk k v Hv) as (? & ? & ? & ? & ?).
        repeat split; try done; [congruence | lia]. }
    split; [done|]. split; [simpl length; lia | congruence].
Qed.

(** C5 (amended).  The Variables constructed, slot after slot, as the
    outputs of a live op [f] carry [grad_fn = f],
    [requires_grad = f.is_executable], [is_volatile = false] (the
    constructor takes no volatility to inherit), and the [k]-th of them has
    [output_nr] equal to [f.num_inputs] before its construction, which is
    [k] for an op that starts at 0; each construction increments
    [f.num_inputs] by exactly one. *)
Theorem C5_output_variable_fields (ds : list tensor) f h fo :
  functions h !! f = Some fo →
  num_inputs (base_of fo) = 0 →
  Z.of_nat (length ds) ≤ int_max →
  ∃ vs h' fo',
    construct_outputs f ds h = Ok vs h' ∧
    length vs = length ds ∧
    (∀ k v, vs !! k = Some v →
       grad_fn v = Some f ∧
       requires_grad v = is_executable (base_of fo) ∧
       is_volatile v = false ∧
       output_nr v = Z.of_nat k ∧
       data v = ds !! k) ∧
    functions h' !! f = Some fo' ∧
    num_inputs (base_of fo') = Z.of_nat (length ds).
Proof.
  intros Hf H0 Hmax.
  destruct (construct_outputs_spec ds f h fo Hf) as
    (vs & h' & fo' & Hrun & Hlen & Hk & Hf' & Hn' & _); [lia | lia |].
  exists vs, h', fo'. rewrite H0 in Hn'.
  repeat split; try done; try apply (Hk k v); try done.
  - destruct (Hk k v) as (_ & _ & _ & Hnr & _); [done|]. lia.
Qed.

(** C8 (amended).  [get_grad_accumulator] returns null for every Variable
    whose [grad_fn] is set, whatever [requires_grad] says, and for every
    leaf that does not require grad.  For a leaf that requires grad it
    returns a live [AccumulateGrad] and leaves the leaf holding that
    instance in [grad_accumulator], with no other field of the leaf changed;
    a second call right after the first returns the same instance and
    changes nothing; and so does every later call, for as long as the leaf
    still holds the instance and the instance is alive (the leaf holds it
    weakly; once it has expired a new one is made). *)
Theorem C8_get_grad_accumulator (this : ptr) (h : Heap tensor) (v : Var tensor) :
  variables h !! this = Some v →
  match grad_fn v, requires_grad v with
  | Some _, _ => get_grad_accumulator this h = Ok None h
  | None, false => get_grad_accumulator this h = Ok None h
  | None, true =>
      ∃ a h1,
        get_grad_accumulator this h = Ok (Some a) h1 ∧
        is_Some (functions h1 !! a) ∧
        variables h1 !! this = Some (set_grad_accumulator (Some a) v) ∧
        get_grad_accumulator this h1 = Ok (Some a) h1 ∧
        ∀ (h2 : Heap tensor) (v2 : Var tensor),
          variables h2 !! this = Some v2 →
          grad_fn v2 = None → requires_grad v2 = true →
          grad_accumulator v2 = Some a →
          is_Some (functions h2 !! a) →
          get_grad_accumulator this h2 = Ok (Some a) h2
  end.
Proof.
  intros Hv.
  assert (Hlater : ∀ a (h2 : Heap tensor) (v2 : Var tensor),
            variables h2 !! this = Some v2 →
            grad_fn v2 = None → requires_grad v2 = true →
            grad_accumulator v2 = Some a →
            is_Some (functions h2 !! a) →
            get_grad_accumulator this h2 = Ok (Some a) h2).
  { intros a h2 v2 Hv2 Hgf Hrg Hacc Hlive.
    unfold get_grad_accumulator. run. rewrite Hv2, Hgf, Hrg. simpl.
    rewrite Hacc. unfold lock_function. by rewrite decide_True. }
  destruct (grad_fn v) as [gf|] eqn:Hgf.
  { unfold get_grad_accumulator. run. by rewrite Hv, Hgf. }
  destruct (requires_grad v) eqn:Hrg.
  2: { unfold get_grad_accumulator. run. by rewrite Hv, Hgf, Hrg. }
  destruct (lock_function h (grad_accumulator v)) as [a|] eqn:Hlock.
  - exists a, h.
    assert (Hacc : grad_accumulator v = Some a ∧ is_Some (functions h !! a)).
    { unfold lock_function in Hlock. destruct (grad_accumulator v) as [p|]; [|done].
      case_decide; [|done]. by inversion Hlock; subst. }
    destruct Hacc as [Hacc Hlive].
    split; [by apply (Hlater a h v)|]. split; [done|].
    split; [|split; [by apply (Hlater a h v) | apply Hlater]].
    rewrite Hv. f_equal. destruct v. simpl in *. by subst.
  - exists (next_addr h).
    unfold get_grad_accumulator at 1, make_shared_AccumulateGrad, AccumulateGrad_new.
    run. rewrite Hv, Hgf, Hrg. simpl. rewrite Hlock, Hv. simpl. rewrite Hv.
    eexists. split; [reflexivity|]. simpl. rewrite !lookup_insert_eq.
    split; [by eexists|]. split; [done|].
    split; [|apply Hlater].
    eapply Hlater; simpl.
    + by rewrite lookup_insert_eq.
    + done.
    + done.
    + done.
    + rewrite lookup_insert_eq. by eexists.
Qed.

(** C2.  With saved data present, [unpack] throws the in-place-modification
    error exactly when the version block no longer holds
    [expected_version].  When the versions agree, it throws the logic error
    for a leaf that requires grad whose weak [grad_fn] and grad accumulator
    have both expired, and otherwise returns a fresh Variable holding a
    shallow clone of the saved data, the saved flags, the saved version
    block as its counter, [grad_fn] taken from the strong reference or else
    from the live weak one, and the saved accumulator. *)
Theorem C2_unpack (sv : SavedVariable tensor) (h : Heap tensor) d cur :
  sv_data sv = Some d →
  versions h !! sv_version sv = Some cur →
  heap_wfb h = true →
  (thrown (unpack sv h) = Some InplaceModifiedError ↔
     cur ≠ sv_expected_version sv) ∧
  (cur = sv_expected_version sv →
   if sv_requires_grad sv
      && negb (bool_decide (is_Some (sv_grad_fn sv)))
      && expired h (sv_weak_grad_fn sv)
      && expired h (sv_grad_accumulator sv)
   then thrown (unpack sv h) = Some MissingGradAccumulator
   else ∃ p h' (v : Var tensor),
       unpack sv h = Ok (Some p) h' ∧
       variables h !! p = None ∧
       variables h' !! p = Some v ∧
       data v = Some (clone_shallow d) ∧
       version_counter v = sv_version sv ∧
       grad_fn v = match sv_grad_fn sv with
                   | Some f => Some f
                   | None => lock_function h (sv_weak_grad_fn sv)
                   end ∧
       requires_grad v = sv_requires_grad sv ∧
       is_volatile v = sv_is_volatile sv ∧
       grad_accumulator v = sv_grad_accumulator sv).
Proof.
  intros Hd Hcur Hwf.
  destruct (decide (cur = sv_expected_version sv)) as [Heq|Hne].
  2: { split; [|done]. split; [done|]. intros _.
       unfold unpack. rewrite Hd. run. rewrite Hcur.
       destruct (Z.eqb_spec (sv_expected_version sv) cur) as [E|E]; [by subst|].
       reflexivity. }
  assert (Hfresh : variables h !! S (next_addr h) = None).
  { unfold heap_wfb in Hwf. apply andb_true_iff in Hwf as [Hwf _].
    apply andb_true_iff in Hwf as [Hwf _].
    destruct (variables h !! S (next_addr h)) as [w|] eqn:Hw; [|done].
    apply elem_of_map_to_list in Hw.
    rewrite forallb_forall in Hwf.
    specialize (Hwf (S (next_addr h))).
    rewrite Nat.ltb_lt in Hwf. 
    assert (S (next_addr h) < next_addr h)%nat; [|lia].
    apply Hwf. apply list_elem_of_In, list_elem_of_fmap. by exists (S (next_addr h), w). }
  assert (Hexp : ∀ (f : gmap ptr (Var tensor) → gmap ptr (Var tensor)) h0 w,
            functions h0 = functions h →
            expired (set_variables f h0) w = expired h w).
  { intros f h0 w Hf. unfold expired, lock_function. simpl. by rewrite Hf. }
  unfold unpack. rewrite Hd. unfold make_shared_Variable, Variable_leaf.
  run. rewrite Hcur. subst cur. rewrite Z.eqb_refl. simpl.
  rewrite !Hexp by done.
  destruct (sv_grad_fn sv) as [gf|] eqn:Hgf;
    [|destruct (expired h (sv_weak_grad_fn sv)) eqn:Hw;
      [destruct (sv_requires_grad sv && expired h (sv_grad_accumulator sv)) eqn:Hc|]];
    simpl; rewrite ?andb_false_r, ?andb_true_r, ?Hc;
    repeat (rewrite lookup_insert_eq; simpl).
  all: (split; [split; [intros Ht; by simpl in Ht | done] | intros _]).
  all: try reflexivity.
  all: eexists _, _, _; (split; [reflexivity|]); simpl;
       rewrite lookup_insert_eq; (split; [done|]); (split; [reflexivity|]);
       simpl; repeat split; try done.
  unfold expired in Hw. by destruct (lock_function h (sv_weak_grad_fn sv)).
Qed.

(** C9.  A SavedVariable that holds no data unpacks to the null pointer:
    no exception, no look at the version block, no change to the heap. *)
Theorem C9_unpack_no_data (sv : SavedVariable tensor) (h : Heap tensor) :
  sv_data sv = None →
  unpack sv h = Ok None h.
Proof. intros Hd. unfold unpack. by rewrite Hd. Qed.

End VariableProperties.

(** C5, the claim as stated fails: an op built from the flags of a volatile
    input inherits [is_volatile = true], yet the Variable wrapping its
    output has [is_volatile = false]. *)
Lemma C5_counterexample :
  value_of (volatile_output_scenario (leaf_heap false true)) = Some (true, false).
Proof. vm_compute. reflexivity. Qed.

Lemma C5_output_variable_fields_witness :
  functions op_heap !! 0%nat = Some example_op ∧
  num_inputs (base_of example_op) = 0 ∧
  Z.of_nat (length [[1]; [2]]) ≤ int_max ∧
  ∃ vs h' fo',
    construct_outputs 0%nat [[1]; [2]] op_heap = Ok vs h' ∧
    length vs = length [[1]; [2]] ∧
    (∀ k v, vs !! k = Some v →
       grad_fn v = Some 0%nat ∧
       requires_grad v = is_executable (base_of example_op) ∧
       is_volatile v = false ∧
       output_nr v = Z.of_nat k ∧
       data v = [[1]; [2]] !! k) ∧
    functions h' !! 0%nat = Some fo' ∧
    num_inputs (base_of fo') = Z.of_nat (length [[1]; [2]]).
Proof.
  split; [reflexivity|]. split; [reflexivity|].
  split; [vm_compute; discriminate|].
  apply (C5_output_variable_fields [[1]; [2]] 0%nat op_heap example_op);
    [reflexivity | reflexivity | vm_compute; discriminate].
Defined.

(** C8, the claim as stated fails: the leaf at address 0 stays alive and
    keeps requiring grad, its accumulator is dropped by its only holder
    between two calls, and the second call returns another instance. *)
Lemma C8_counterexample :
  value_of (accumulator_twice_scenario (leaf_heap true false))
    = Some (Some 2%nat, Some 3%nat).
Proof. vm_compute. reflexivity. Qed.

Lemma C8_get_grad_accumulator_witness :
  variables (leaf_heap true false) !! 0%nat = Some (example_leaf true false 1%nat) ∧
  ∃ a h1,
    get_grad_accumulator 0%nat (leaf_heap true false) = Ok (Some a) h1 ∧
    is_Some (functions h1 !! a) ∧
    variables h1 !! 0%nat
      = Some (set_grad_accumulator (Some a) (example_leaf true false 1%nat)) ∧
    get_grad_accumulator 0%nat h1 = Ok (Some a) h1 ∧
    ∀ (h2 : Heap (list Z)) (v2 : Var (list Z)),
      variables h2 !! 0%nat = Some v2 →
      grad_fn v2 = None → requires_grad v2 = true →
      grad_accumulator v2 = Some a →
      is_Some (functions h2 !! a) →
      get_grad_accumulator 0%nat h2 = Ok (Some a) h2.
Proof.
  split; [reflexivity|].
  exact (C8_get_grad_accumulator 0%nat (leaf_heap true false)
           (example_leaf true false 1%nat) eq_refl).
Defined.

Lemma C2_unpack_witness :
  sv_data (example_saved 0) = Some [1; 2] ∧
  versions (leaf_heap false false) !! sv_version (example_saved 0) = Some 0 ∧
  heap_wfb (leaf_heap false false) = true ∧
  (thrown (unpack (example_saved 0) (leaf_heap false false))
     = Some InplaceModifiedError ↔ 0 ≠ sv_expected_version (example_saved 0)) ∧
  (0 = sv_expected_version (example_saved 0) →
   ∃ p h' (v : Var (list Z)),
     unpack (example_saved 0) (leaf_heap false false) = Ok (Some p) h' ∧
     variables (leaf_heap false false) !! p = None ∧
     variables h' !! p = Some v ∧
     data v = Some (clone_shallow [1; 2]) ∧
     version_counter v = sv_version (example_saved 0) ∧
     grad_fn v = None ∧
     requires_grad v = false ∧
     is_volatile v = false ∧
     grad_accumulator v = None).
Proof.
  split; [reflexivity|]. split; [reflexivity|]. split; [vm_compute; reflexivity|].
  exact (C2_unpack (example_saved 0) (leaf_heap false false) [1; 2] 0
           eq_refl eq_refl eq_refl).
Defined.

Lemma C9_unpack_no_data_witness :
  sv_data example_saved_empty = None ∧
  unpack example_saved_empty empty_heap = Ok None empty_heap.
Proof.
  split; [reflexivity|].
  apply (C9_unpack_no_data example_saved_empty empty_heap). reflexivity.
Defined.

Section AccumulateGradProperties.
Context {tensor : Type} `{TensorLib tensor}.
Variable call_hook : nat → list (option ptr) → M (Heap tensor) (list (option ptr)).

Ltac run := repeat (unfold bind, ret, throw, undefined, get, modify, alloc,
                    VariableVersion_new, VariableVersion_read, deref, update; simpl).

Lemma heap_wfb_variables (h : Heap tensor) p :
  heap_wfb h = true → is_Some (variables h !! p) → (p < next_addr h)%nat.
Proof.
  unfold heap_wfb. intros Hwf [w Hw].
  apply andb_true_iff in Hwf as [Hwf _]. apply andb_true_iff in Hwf as [Hwf _].
  rewrite forallb_forall in Hwf. apply Nat.ltb_lt, Hwf.
  apply list_elem_of_In, list_elem_of_fmap. exists (p, w).
  split; [done|]. by apply elem_of_map_to_list.
Qed.

Lemma bind_Ok {S A B} (m : M S A) (k : A → M S B) s a s' :
  m s = Ok a s' → bind m k s = k a s'.
Proof. intros Hm. unfold bind. by rewrite Hm. Qed.

Lemma heap_le_refl (h : Heap tensor) : heap_le h h.
Proof. split; [lia | done]. Qed.

Lemma heap_le_trans (h1 h2 h3 : Heap tensor) :
  heap_le h1 h2 → heap_le h2 h3 → heap_le h1 h3.
Proof. intros [? ?] [? ?]. split; [lia | auto]. Qed.

Lemma deref_Ok (h : Heap tensor) p v :
  variables h !! p = Some v → deref p h = Ok v h.
Proof. intros Hv. unfold deref. by rewrite Hv. Qed.

Lemma update_Ok (h : Heap tensor) p v f :
  variables h !! p = Some v →
  update p f h = Ok tt (set_variables <[p := f v]> h).
Proof. intros Hv. unfold update, bind, deref, modify. by rewrite Hv. Qed.

Lemma get_grad_accumulator_total (h : Heap tensor) p v :
  variables h !! p = Some v →
  ∃ r h', get_grad_accumulator p h = Ok r h' ∧ heap_le h h'.
Proof.
  intros Hv. unfold get_grad_accumulator.
  rewrite (bind_Ok _ _ _ _ _ (deref_Ok h p v Hv)).
  destruct (grad_fn v); [eexists _, h; split; [done | apply heap_le_refl]|].
  destruct (requires_grad v); simpl;
    [|eexists _, h; split; [done | apply heap_le_refl]].
  run. destruct (lock_function h (grad_accumulator v));
    [eexists _, h; split; [done | apply heap_le_refl]|].
  unfold make_shared_AccumulateGrad, AccumulateGrad_new. run.
  rewrite Hv. simpl. rewrite Hv. eexists _, _. split; [reflexivity|].
  split; simpl; [lia|]. intros q Hq.
  destruct (decide (q = p)) as [->|Hne];
    [by rewrite lookup_insert_eq | by rewrite lookup_insert_ne].
Qed.

Lemma flags_edge_total (h : Heap tensor) p v :
  variables h !! p = Some v →
  ∃ e h', flags_edge p h = Ok e h' ∧ heap_le h h'.
Proof.
  intros Hv. unfold flags_edge.
  rewrite (bind_Ok _ _ _ _ _ (deref_Ok h p v Hv)).
  destruct (grad_fn v); [eexists _, h; split; [done | apply heap_le_refl]|].
  destruct (requires_grad v);
    [|eexists _, h; split; [done | apply heap_le_refl]].
  destruct (get_grad_accumulator_total h p v Hv) as (r & h' & Hr & Hle).
  rewrite (bind_Ok _ _ _ _ _ Hr). by eexists _, h'.
Qed.

Lemma Function_flags_single (h : Heap tensor) g vg :
  variables h !! g = Some vg →
  ∃ fl h', Function_flags [g] h = Ok fl h' ∧ heap_le h h' ∧
           ff_is_volatile fl = is_volatile vg.
Proof.
  intros Hg. unfold Function_flags.
  assert (Hm : mapM deref [g] h = Ok [vg] h).
  { simpl. by rewrite (bind_Ok _ _ _ _ _ (deref_Ok h g vg Hg)). }
  rewrite (bind_Ok _ _ _ _ _ Hm). cbn [existsb]. rewrite !orb_false_r.
  destruct (is_volatile vg);
    [eexists _, h; split; [done | split; [apply heap_le_refl | done]]|].
  destruct (requires_grad vg);
    [|eexists _, h; split; [done | split; [apply heap_le_refl | done]]].
  destruct (flags_edge_total h g vg Hg) as (e & h' & He & Hle).
  assert (Hm2 : mapM flags_edge [g] h = Ok [e] h').
  { rewrite mapM_cons. by rewrite (bind_Ok _ _ _ _ _ He). }
  rewrite (bind_Ok _ _ _ _ _ Hm2). by eexists _, h'.
Qed.

Lemma make_shared_leaf_Ok (h : Heap tensor) t rg vol :
  ∃ h', make_shared_Variable (Variable_leaf (Some t) rg vol) h
          = Ok (S (next_addr h)) h' ∧
        heap_le h h' ∧
        variables h' !! S (next_addr h) =
          Some {| data := Some t; grad_fn := None; grad := None;
                  version_counter := next_addr h;
                  requires_grad := rg; is_volatile := vol; output_nr := 0;
                  grad_accumulator := None; hooks := [] |}.
Proof.
  unfold make_shared_Variable, Variable_leaf. run.
  eexists. split; [reflexivity|]. simpl. rewrite lookup_insert_eq.
  split; [|done]. split; simpl; [lia|]. intros q Hq.
  destruct (decide (q = S (next_addr h))) as [->|Hne];
    [by rewrite lookup_insert_eq | by rewrite lookup_insert_ne].
Qed.

Lemma make_shared_output_Ok (h : Heap tensor) t f fo :
  functions h !! f = Some fo →
  ∃ h' vp, make_shared_Variable (Variable_output (Some t) (Some f)) h
          = Ok (S (next_addr h)) h' ∧
        heap_le h h' ∧
        variables h' !! S (next_addr h) = Some vp ∧ data vp = Some t.
Proof.
  intros Hf. unfold make_shared_Variable.
  rewrite (bind_Ok _ _ _ _ _ (Variable_output_ok t f h fo Hf)). run.
  eexists _, _. split; [reflexivity|]. simpl. rewrite lookup_insert_eq.
  split; [|done]. split; simpl; [lia|]. intros q Hq.
  destruct (decide (q = S (next_addr h))) as [->|Hne];
    [by rewrite lookup_insert_eq | by rewrite lookup_insert_ne].
Qed.

Lemma make_shared_Function_Ok (h : Heap tensor) fl :
  ∃ h', make_shared_Function fl h = Ok (next_addr h) h' ∧
        heap_le h h' ∧
        functions h' !! next_addr h = Some (ObjFunction (Function_of_flags fl)) ∧
        next_addr h' = S (next_addr h).
Proof.
  unfold make_shared_Function. run. eexists. split; [reflexivity|].
  simpl. rewrite lookup_insert_eq. repeat split; simpl; try done. lia.
Qed.

(** The temporary [shared_ptr] of an accumulator that was alive already
    goes away without an effect. *)
Lemma temporary_of_live (h : Heap tensor) var acc :
  get_grad_accumulator var h = Ok acc h →
  (∀ a, acc = Some a → is_Some (functions h !! a)) →
  get_grad_accumulator_temporary var h = Ok acc h.
Proof.
  intros Hget Hlive. unfold get_grad_accumulator_temporary.
  unfold bind at 1, get at 1. rewrite (bind_Ok _ _ _ _ _ Hget).
  destruct acc as [a|]; [|done]. by rewrite decide_True by (by apply Hlive).
Qed.

Lemma Clone_apply_spec (g : ptr) (h : Heap tensor) vg t :
  variables h !! g = Some vg →
  data vg = Some t →
  ∃ p h' (vp : Var tensor),
    Clone_apply [Some g] h = Ok [Some p] h' ∧
    (next_addr h < p)%nat ∧
    variables h' !! p = Some vp ∧
    data vp = Some (clone t) ∧
    heap_le h h'.
Proof.
  intros Hg Hd. unfold Clone_apply.
  rewrite (bind_Ok _ _ _ _ _ (deref_Ok h g vg Hg)).
  unfold deref_data. rewrite Hd. unfold bind at 1, ret at 1.
  destruct (Function_flags_single h g vg Hg) as (fl & h1 & Hfl & Hle1 & Hvol).
  rewrite (bind_Ok _ _ _ _ _ Hfl).
  destruct (ff_is_volatile fl).
  - destruct (make_shared_leaf_Ok h1 (clone t) false true) as (h2 & Hmk & Hle2 & Hp).
    rewrite (bind_Ok _ _ _ _ _ Hmk).
    eexists _, h2, _. split; [reflexivity|]. destruct Hle1.
    split; [lia|]. split; [exact Hp|]. split; [done|].
    by eapply heap_le_trans.
  - destruct (make_shared_Function_Ok h1 fl) as (h1' & Hf & Hle1' & Hlk & Hn).
    rewrite (bind_Ok _ _ _ _ _ Hf).
    destruct (make_shared_output_Ok h1' (clone t) (next_addr h1)
                (ObjFunction (Function_of_flags fl)) Hlk)
      as (h2 & vp & Hmk & Hle2 & Hp & Hdp).
    rewrite (bind_Ok _ _ _ _ _ Hmk).
    eexists _, h2, vp. split; [reflexivity|]. destruct Hle1 as [Hn1 Hv1].
    split; [lia|]. split; [exact Hp|]. split; [done|].
    eapply heap_le_trans; [|exact Hle2].
    eapply heap_le_trans; [|exact Hle1']. by split.
Qed.

(** C6 (amended).  [AccumulateGrad::apply] runs on a live leaf that passes
    its checks (no [grad_fn], version 0, bound to this accumulator); the
    leaf's hooks turn the incoming gradient [g] into [g1]; the leaf has no
    grad then.  The call returns no outputs and leaves the leaf's grad at
    the output of a fresh Clone node applied to [g1]: a Variable that did not
    exist before, hence another object than [g1], holding a tensor equal to
    that of [g1].  Without hooks [g1] is [g] itself. *)
Theorem C6_first_grad_is_clone
    (this : ptr) (g : option ptr) (h h1 : Heap tensor)
    (self : AccumulateGrad) (var g1 : ptr) (v v1 vg : Var tensor) (t : tensor) :
  functions h !! this = Some (ObjAccumulateGrad self) →
  ag_variable self = Some var →
  variables h !! var = Some v →
  grad_fn v = None →
  versions h !! version_counter v = Some 0 →
  requires_grad v = true →
  grad_accumulator v = Some this →
  run_hooks call_hook (hooks v) g h = Ok (Some g1) h1 →
  variables h1 !! var = Some v1 →
  grad v1 = None →
  variables h1 !! g1 = Some vg →
  data vg = Some t →
  heap_wfb h1 = true →
  ∃ p h' (v' vp : Var tensor) t',
    AccumulateGrad_apply call_hook this [g] h = Ok [] h' ∧
    variables h' !! var = Some v' ∧
    grad v' = Some p ∧
    p ≠ g1 ∧
    variables h1 !! p = None ∧
    variables h' !! p = Some vp ∧
    data vp = Some t' ∧
    tensor_value t' = tensor_value t ∧
    (hooks v = [] → g = Some g1).
Proof.
  intros Hthis Hvar Hv Hgf Hver Hrg Hacc Hhooks Hv1 Hg1 Hvg Hd Hwf.
  destruct (Clone_apply_spec g1 h1 vg t Hvg Hd) as (p & h2 & vp & Hclone & Hlt & Hp & Hdp & Hle).
  assert (Hfresh : variables h1 !! p = None).
  { destruct (variables h1 !! p) as [w|] eqn:Hw; [|done].
    assert (p < next_addr h1)%nat by (apply heap_wfb_variables; eauto). lia. }
  assert (Hne : p ≠ g1) by congruence.
  destruct Hle as [_ Hlive].
  destruct (Hlive var) as [v2 Hv2]; [by eexists|].
  assert (Hpv : p ≠ var) by congruence.
  assert (Happly : AccumulateGrad_apply call_hook this [g] h =
            Ok [] (set_functions
                     <[this := ObjAccumulateGrad (set_variable_grad (Some p) self)]>
                     (set_variables <[var := set_grad (Some p) v2]> h2))).
  { unfold AccumulateGrad_apply. cbn [length Nat.eqb negb].
    unfold deref_AccumulateGrad. unfold bind at 1. rewrite Hthis.
    unfold bind at 1, get at 1. rewrite Hvar. unfold lock_variable.
    rewrite decide_True by (by eexists).
    unfold bind at 1, front at 1, ret at 1.
    rewrite (bind_Ok _ _ _ _ _ (deref_Ok h var v Hv)). rewrite Hgf.
    unfold VariableVersion_read. unfold bind at 1. rewrite Hver.
    cbn [Z.eqb negb].
    assert (Hget : get_grad_accumulator var h = Ok (Some this) h).
    { unfold get_grad_accumulator.
      rewrite (bind_Ok _ _ _ _ _ (deref_Ok h var v Hv)). rewrite Hgf, Hrg.
      cbn [negb]. unfold bind, get. rewrite Hacc. unfold lock_function.
      rewrite decide_True by (by eexists). done. }
    rewrite (bind_Ok _ _ _ _ _ (temporary_of_live h var _ Hget
                                  ltac:(intros a [= <-]; by eexists))).
    rewrite bool_decide_eq_true_2 by done. cbn [negb].
    rewrite (bind_Ok _ _ _ _ _ Hhooks).
    rewrite (bind_Ok _ _ _ _ _ (deref_Ok h1 var v1 Hv1)). rewrite Hg1.
    rewrite (bind_Ok _ _ _ _ _ Hclone).
    unfold bind at 1, front at 1, ret at 1.
    rewrite (bind_Ok _ _ _ _ _ (update_Ok h2 var v2 _ Hv2)).
    reflexivity. }
  eexists p, _, (set_grad (Some p) v2), vp, (clone t).
  split; [exact Happly|]. simpl. rewrite lookup_insert_eq.
  split; [done|]. split; [done|]. split; [done|]. split; [done|].
  rewrite lookup_insert_ne by done.
  split; [done|]. split; [done|]. split; [apply clone_value|].
  intros Hnil. rewrite Hnil in Hhooks. simpl in Hhooks. by inversion Hhooks.
Qed.

End AccumulateGradProperties.

(** C6, the claim as stated fails: the leaf at address 0 has one hook, which
    answers the incoming gradient (address 3, holding [1; 1]) with the
    Variable at address 4; after the call the leaf's grad holds [10; 20],
    the clone of the hook's answer, not a tensor equal to the incoming
    one. *)
Lemma C6_counterexample :
  value_of (first_grad_scenario (acc_heap [0%nat]))
    = Some (Some 9%nat, Some [10; 20]) ∧
  data <$> (variables (acc_heap [0%nat]) !! 3%nat) = Some (Some [1; 1]).
Proof. split; vm_compute; reflexivity. Qed.

Lemma C6_first_grad_is_clone_witness :
  functions (acc_heap []) !! 2%nat = Some (ObjAccumulateGrad example_accumulator) ∧
  variables (acc_heap []) !! 0%nat = Some (bound_leaf []) ∧
  versions (acc_heap []) !! version_counter (bound_leaf []) = Some 0 ∧
  run_hooks replacing_hook (hooks (bound_leaf [])) (Some 3%nat) (acc_heap [])
    = Ok (Some 3%nat) (acc_heap []) ∧
  variables (acc_heap []) !! 3%nat = Some (example_grad [1; 1] 5%nat) ∧
  heap_wfb (acc_heap []) = true ∧
  ∃ p h' (v' vp : Var (list Z)) t',
    AccumulateGrad_apply replacing_hook 2%nat [Some 3%nat] (acc_heap []) = Ok [] h' ∧
    variables h' !! 0%nat = Some v' ∧
    grad v' = Some p ∧
    p ≠ 3%nat ∧
    variables (acc_heap []) !! p = None ∧
    variables h' !! p = Some vp ∧
    data vp = Some t' ∧
    tensor_value t' = tensor_value [1; 1] ∧
    (hooks (bound_leaf []) = [] → Some 3%nat = Some 3%nat).
Proof.
  split; [reflexivity|]. split; [reflexivity|]. split; [reflexivity|].
  split; [reflexivity|]. split; [reflexivity|]. split; [vm_compute; reflexivity|].
  apply (C6_first_grad_is_clone replacing_hook 2%nat (Some 3%nat)
           (acc_heap []) (acc_heap []) example_accumulator 0%nat 3%nat
           (bound_leaf []) (bound_leaf []) (example_grad [1; 1] 5%nat) [1; 1]);
    try reflexivity.
Defined.

(** *** The data of the live Variables *)

Section DataInvariant.
Context {tensor : Type} `{TensorLib tensor}.
Variable call_hook : nat → list (option ptr) → M (Heap tensor) (list (option ptr)).

Lemma keeps_ret {S A} (P : S → Prop) (Q : A → Prop) a : Q a → keeps P Q (ret a).
Proof. by intros Ha s Hs. Qed.

Lemma keeps_throw {S A} (P : S → Prop) (Q : A → Prop) e : keeps P Q (throw e).
Proof. by intros s Hs. Qed.

Lemma keeps_undefined {S A} (P : S → Prop) (Q : A → Prop) : keeps P Q undefined.
Proof. by intros s Hs. Qed.

Lemma keeps_bind {S A B} (P : S → Prop) (Q1 : A → Prop) (Q2 : B → Prop)
    (m : M S A) (k : A → M S B) :
  keeps P Q1 m → (∀ a, Q1 a → keeps P Q2 (k a)) → keeps P Q2 (bind m k).
Proof.
  intros Hm Hk s Hs. unfold bind. specialize (Hm s Hs).
  destruct (m s) as [a s'|e s'|]; [|done|done].
  destruct Hm as [Ha Hs']. by apply Hk.
Qed.

Lemma keeps_get {S} (P : S → Prop) : keeps P (λ _, True) get.
Proof. by intros s Hs. Qed.

Lemma keeps_modify {S} (P : S → Prop) (f : S → S) :
  (∀ s, P s → P (f s)) → keeps P (λ _, True) (modify f).
Proof. intros Hf s Hs. split; [done|]. by apply Hf. Qed.

Lemma keeps_mapM {S A B} (P : S → Prop) (f : A → M S B) (Q : B → Prop) (l : list A) :
  (∀ a, keeps P Q (f a)) → keeps P (Forall Q) (mapM f l).
Proof.
  intros Hf. induction l as [|a l IH]; simpl.
  - by apply keeps_ret.
  - eapply keeps_bind; [apply Hf|]. intros b Hb.
    eapply keeps_bind; [apply IH|]. intros bs Hbs.
    apply keeps_ret. by constructor.
Qed.

Lemma live_data_insert (h : Heap tensor) p (v : Var tensor) :
  live_data h → is_Some (data v) → live_data (set_variables <[p := v]> h).
Proof. intros Hh Hv. unfold live_data. simpl. by apply map_Forall_insert_2. Qed.

Lemma live_data_delete (h : Heap tensor) p :
  live_data h → live_data (set_variables (delete p) h).
Proof. intros Hh. unfold live_data. simpl. by apply map_Forall_delete. Qed.

Lemma live_data_same (h h' : Heap tensor) :
  variables h' = variables h → live_data h → live_data h'.
Proof. unfold live_data. by intros ->. Qed.

Lemma keeps_alloc : keeps (live_data (tensor := tensor)) (λ _, True) alloc.
Proof. intros h Hh. split; [done|]. by apply (live_data_same h). Qed.

Lemma keeps_set_versions (f : gmap ptr Z → gmap ptr Z) :
  keeps (live_data (tensor := tensor)) (λ _, True) (modify (set_versions f)).
Proof. apply keeps_modify. intros h Hh. by apply (live_data_same h). Qed.

Lemma keeps_set_functions (f : gmap ptr FunctionObj → gmap ptr FunctionObj) :
  keeps (live_data (tensor := tensor)) (λ _, True) (modify (set_functions f)).
Proof. apply keeps_modify. intros h Hh. by apply (live_data_same h). Qed.

Lemma keeps_VariableVersion_new :
  keeps (live_data (tensor := tensor)) (λ _, True) VariableVersion_new.
Proof.
  unfold VariableVersion_new.
  eapply keeps_bind; [apply keeps_alloc|]. intros b _.
  eapply keeps_bind; [apply keeps_set_versions|]. intros _ _. by apply keeps_ret.
Qed.

Lemma keeps_VariableVersion_read b :
  keeps (live_data (tensor := tensor)) (λ _, True) (VariableVersion_read b).
Proof. intros h Hh. unfold VariableVersion_read. by destruct (versions h !! b). Qed.

Lemma keeps_deref p :
  keeps (live_data (tensor := tensor)) (λ v, is_Some (data v)) (deref p).
Proof.
  intros h Hh. unfold deref. destruct (variables h !! p) as [v|] eqn:Hv; [|done].
  split; [|done]. by apply (Hh p v).
Qed.

Lemma keeps_update p (f : Var tensor → Var tensor) :
  (∀ v, is_Some (data v) → is_Some (data (f v))) →
  keeps live_data (λ _, True) (update p f).
Proof.
  intros Hf. unfold update.
  eapply keeps_bind; [apply keeps_deref|]. intros v Hv.
  apply keeps_modify. intros h Hh. apply live_data_insert; auto.
Qed.

Lemma keeps_deref_data (v : Var tensor) :
  keeps (live_data (tensor := tensor)) (λ _, True) (deref_data v).
Proof. unfold deref_data. destruct (data v); [by apply keeps_ret | apply keeps_undefined]. Qed.

Lemma keeps_deref_opt p :
  keeps (live_data (tensor := tensor)) (λ v, is_Some (data v)) (deref_opt p).
Proof. destruct p; [apply keeps_deref | apply keeps_undefined]. Qed.

Lemma keeps_front {A} (l : list A) :
  keeps (live_data (tensor := tensor)) (λ _, True) (front l).
Proof. destruct l; [apply keeps_undefined | by apply keeps_ret]. Qed.

(** Both constructors return only a Variable that holds a tensor. *)
Lemma keeps_Variable_leaf (d : option tensor) rg vol :
  keeps live_data (λ v, is_Some (data v)) (Variable_leaf d rg vol).
Proof.
  unfold Variable_leaf.
  eapply keeps_bind; [apply keeps_VariableVersion_new|]. intros vc _. simpl.
  destruct d as [t|].
  - apply keeps_ret. by eexists.
  - eapply keeps_bind; [apply keeps_set_versions|]. intros _ _. apply keeps_throw.
Qed.

Lemma keeps_Variable_output (d : option tensor) gf :
  keeps live_data (λ v, is_Some (data v)) (Variable_output d gf).
Proof.
  unfold Variable_output. destruct gf as [f|]; [|apply keeps_undefined].
  eapply keeps_bind; [apply keeps_get|]. intros h _.
  destruct (functions h !! f) as [fo|]; [|apply keeps_undefined].
  eapply keeps_bind; [apply keeps_VariableVersion_new|]. intros vc _.
  eapply keeps_bind; [apply keeps_set_functions|]. intros _ _. simpl.
  destruct d as [t|].
  - apply keeps_ret. by eexists.
  - eapply keeps_bind; [apply keeps_set_versions|]. intros _ _. apply keeps_throw.
Qed.

Lemma keeps_make_shared_Variable (ctor : M (Heap tensor) (Var tensor)) :
  keeps live_data (λ v, is_Some (data v)) ctor →
  keeps live_data (λ _, True) (make_shared_Variable ctor).
Proof.
  intros Hctor. unfold make_shared_Variable.
  eapply keeps_bind; [exact Hctor|]. intros v Hv.
  eapply keeps_bind; [apply keeps_alloc|]. intros p _.
  eapply keeps_bind; [|intros _ _; by apply keeps_ret].
  apply keeps_modify. intros h Hh. by apply live_data_insert.
Qed.

Lemma keeps_make_shared_AccumulateGrad p :
  keeps (live_data (tensor := tensor)) (λ _, True) (make_shared_AccumulateGrad p).
Proof.
  unfold make_shared_AccumulateGrad, AccumulateGrad_new.
  eapply keeps_bind with (Q1 := λ _, True).
  - eapply keeps_bind; [apply keeps_get|]. intros h _.
    destruct (variables h !! p); [by apply keeps_ret | apply keeps_undefined].
  - intros a _. eapply keeps_bind; [apply keeps_alloc|]. intros q _.
    eapply keeps_bind; [apply keeps_set_functions|]. intros _ _. by apply keeps_ret.
Qed.

Lemma keeps_get_grad_accumulator this :
  keeps (live_data (tensor := tensor)) (λ _, True) (get_grad_accumulator this).
Proof.
  unfold get_grad_accumulator.
  eapply keeps_bind; [apply keeps_deref|]. intros v Hv.
  destruct (grad_fn v); [by apply keeps_ret|].
  destruct (negb (requires_grad v)); [by apply keeps_ret|].
  eapply keeps_bind; [apply keeps_get|]. intros h _.
  destruct (lock_function h (grad_accumulator v)); [by apply keeps_ret|].
  eapply keeps_bind; [apply keeps_make_shared_AccumulateGrad|]. intros result _.
  eapply keeps_bind; [by apply keeps_update|]. intros _ _. by apply keeps_ret.
Qed.

Lemma keeps_get_grad_accumulator_temporary var :
  keeps (live_data (tensor := tensor)) (λ _, True) (get_grad_accumulator_temporary var).
Proof.
  unfold get_grad_accumulator_temporary.
  eapply keeps_bind; [apply keeps_get|]. intros h0 _.
  eapply keeps_bind; [apply keeps_get_grad_accumulator|]. intros [a|] _;
    [|by apply keeps_ret].
  destruct (decide _); [by apply keeps_ret|].
  eapply keeps_bind; [apply keeps_set_functions|]. intros _ _. by apply keeps_ret.
Qed.

Lemma keeps_unpack (sv : SavedVariable tensor) :
  keeps live_data (λ _, True) (unpack sv).
Proof.
  unfold unpack. destruct (sv_data sv) as [d|]; [|by apply keeps_ret].
  eapply keeps_bind; [apply keeps_VariableVersion_read|]. intros cur _.
  destruct (negb _); [apply keeps_throw|].
  eapply keeps_bind; [apply keeps_make_shared_Variable, keeps_Variable_leaf|].
  intros new_var _.
  eapply keeps_bind; [apply keeps_get|]. intros h _.
  eapply keeps_bind with (Q1 := λ _, True).
  { destruct (sv_grad_fn sv); [by apply keeps_update|].
    destruct (negb _); by apply keeps_update. }
  intros _ _. eapply keeps_bind; [by apply keeps_update|]. intros _ _.
  destruct (_ && _).
  - eapply keeps_bind; [|intros _ _; apply keeps_throw].
    apply keeps_modify. intros h0. apply live_data_delete.
  - eapply keeps_bind; [by apply keeps_update|]. intros _ _. by apply keeps_ret.
Qed.

Lemma keeps_flags_edge input :
  keeps (live_data (tensor := tensor)) (λ _, True) (flags_edge input).
Proof.
  unfold flags_edge. eapply keeps_bind; [apply keeps_deref|]. intros v _.
  destruct (grad_fn v); [by apply keeps_ret|].
  destruct (requires_grad v); [|by apply keeps_ret].
  eapply keeps_bind; [apply keeps_get_grad_accumulator|]. intros a _.
  by apply keeps_ret.
Qed.

Lemma keeps_Function_flags inputs :
  keeps (live_data (tensor := tensor)) (λ _, True) (Function_flags inputs).
Proof.
  unfold Function_flags.
  eapply keeps_bind; [apply keeps_mapM, keeps_deref|]. intros vs _.
  destruct (existsb is_volatile vs); [by apply keeps_ret|].
  destruct (existsb requires_grad vs); [|by apply keeps_ret].
  eapply keeps_bind; [apply keeps_mapM, keeps_flags_edge|]. intros edges _.
  by apply keeps_ret.
Qed.

Lemma keeps_make_shared_Function fl :
  keeps (live_data (tensor := tensor)) (λ _, True) (make_shared_Function fl).
Proof.
  unfold make_shared_Function.
  eapply keeps_bind; [apply keeps_alloc|]. intros p _.
  eapply keeps_bind; [apply keeps_set_functions|]. intros _ _. by apply keeps_ret.
Qed.

(** What the result of an op is wrapped in: a leaf for a volatile input,
    else an output of a new op. *)
Lemma keeps_wrap_result (fl : FunctionFlags) (t : tensor) :
  keeps live_data (λ _, True)
    (if ff_is_volatile fl then
       let* p := make_shared_Variable (Variable_leaf (Some t) false true) in
       ret [Some p]
     else
       let* f := make_shared_Function fl in
       let* p := make_shared_Variable (Variable_output (Some t) (Some f)) in
       ret [Some p]).
Proof.
  destruct (ff_is_volatile fl).
  - eapply keeps_bind; [apply keeps_make_shared_Variable, keeps_Variable_leaf|].
    intros p _. by apply keeps_ret.
  - eapply keeps_bind; [apply keeps_make_shared_Function|]. intros f _.
    eapply keeps_bind; [apply keeps_make_shared_Variable, keeps_Variable_output|].
    intros p _. by apply keeps_ret.
Qed.

Lemma keeps_Clone_apply inputs :
  keeps (live_data (tensor := tensor)) (λ _, True) (Clone_apply inputs).
Proof.
  unfold Clone_apply.
  destruct inputs as [|[g|] [|? ?]]; try apply keeps_throw; try apply keeps_undefined.
  eapply keeps_bind; [apply keeps_deref|]. intros vg _.
  eapply keeps_bind; [apply keeps_deref_data|]. intros t _.
  eapply keeps_bind; [apply keeps_Function_flags|]. intros fl _.
  apply keeps_wrap_result.
Qed.

Lemma keeps_Add_apply inputs :
  keeps (live_data (tensor := tensor)) (λ _, True) (Add_apply inputs).
Proof.
  unfold Add_apply.
  destruct inputs as [|[a|] [|[b|] [|? ?]]];
    try apply keeps_throw; try apply keeps_undefined.
  eapply keeps_bind; [apply keeps_deref|]. intros va _.
  eapply keeps_bind; [apply keeps_deref|]. intros vb _.
  eapply keeps_bind; [apply keeps_deref_data|]. intros ta _.
  eapply keeps_bind; [apply keeps_deref_data|]. intros tb _.
  eapply keeps_bind; [apply keeps_Function_flags|]. intros fl _.
  apply keeps_wrap_result.
Qed.

(** [acc_inplace] is the one place that assigns [data] after construction;
    what it assigns is the tensor of a sum. *)
Lemma keeps_acc_inplace g ng :
  keeps (live_data (tensor := tensor)) (λ _, True) (acc_inplace g ng).
Proof.
  unfold acc_inplace.
  eapply keeps_bind; [apply keeps_deref|]. intros vg _.
  eapply keeps_bind; [apply keeps_deref|]. intros vn _.
  eapply keeps_bind; [apply keeps_deref_data|]. intros grad_data _.
  eapply keeps_bind; [apply keeps_deref_data|]. intros new_grad_data _.
  destruct (_ && _); apply keeps_update; intros v _; simpl; by eexists.
Qed.

Hypothesis hooks_keep : ∀ hook args, keeps live_data (λ _, True) (call_hook hook args).

Lemma keeps_run_hooks hs : ∀ new_grad,
  keeps live_data (λ _, True) (run_hooks call_hook hs new_grad).
Proof.
  induction hs as [|hook hs IH]; intros new_grad; simpl; [by apply keeps_ret|].
  eapply keeps_bind; [apply hooks_keep|]. intros out _.
  eapply keeps_bind; [apply keeps_front|]. intros new_grad' _. apply IH.
Qed.

Lemma keeps_deref_AccumulateGrad p :
  keeps (live_data (tensor := tensor)) (λ _, True) (deref_AccumulateGrad p).
Proof.
  intros h Hh. unfold deref_AccumulateGrad.
  by destruct (functions h !! p) as [[|]|].
Qed.

Lemma keeps_some_or_undefined (o : option ptr) :
  keeps (live_data (tensor := tensor)) (λ _, True)
    (match o with Some q => ret q | None => undefined end).
Proof. destruct o; [by apply keeps_ret | apply keeps_undefined]. Qed.

Lemma keeps_AccumulateGrad_apply this grads :
  keeps live_data (λ _, True) (AccumulateGrad_apply call_hook this grads).
Proof.
  unfold AccumulateGrad_apply. destruct (negb _); [apply keeps_throw|].
  eapply keeps_bind; [apply keeps_deref_AccumulateGrad|]. intros self _.
  eapply keeps_bind; [apply keeps_get|]. intros h _.
  eapply keeps_bind; [apply keeps_front|]. intros new_grad _.
  destruct (lock_variable h (ag_variable self)) as [var|].
  - eapply keeps_bind; [apply keeps_deref|]. intros v _.
    destruct (grad_fn v); [apply keeps_throw|].
    eapply keeps_bind; [apply keeps_VariableVersion_read|]. intros ver _.
    destruct (negb (ver =? 0)); [apply keeps_throw|].
    eapply keeps_bind; [apply keeps_get_grad_accumulator_temporary|]. intros acc _.
    destruct (negb _); [apply keeps_throw|].
    eapply keeps_bind; [apply keeps_run_hooks|]. intros new_grad1 _.
    eapply keeps_bind; [apply keeps_deref|]. intros v1 _.
    destruct (grad v1) as [g0|].
    + eapply keeps_bind; [apply keeps_deref|]. intros vg0 _.
      destruct (is_volatile vg0).
      * eapply keeps_bind; [apply keeps_some_or_undefined|]. intros ng _.
        eapply keeps_bind; [apply keeps_acc_inplace|]. intros _ _. by apply keeps_ret.
      * eapply keeps_bind; [apply keeps_deref_opt|]. intros vn _.
        eapply keeps_bind with (Q1 := λ _, True).
        { destruct (_ && _); [|by apply keeps_ret].
          eapply keeps_bind; [apply keeps_deref_data|]. intros t _.
          eapply keeps_bind; [apply keeps_make_shared_Variable, keeps_Variable_leaf|].
          intros q _. by apply keeps_ret. }
        intros new_grad2 _.
        eapply keeps_bind; [apply keeps_Add_apply|]. intros outs _.
        eapply keeps_bind; [apply keeps_front|]. intros g _.
        eapply keeps_bind; [by apply keeps_update|]. intros _ _. by apply keeps_ret.
    + eapply keeps_bind; [apply keeps_Clone_apply|]. intros outs _.
      eapply keeps_bind; [apply keeps_front|]. intros g _.
      eapply keeps_bind; [by apply keeps_update|]. intros _ _.
      eapply keeps_bind; [apply keeps_set_functions|]. intros _ _. by apply keeps_ret.
  - destruct (lock_variable h (ag_variable_grad self)) as [vgp|]; [|by apply keeps_ret].
    eapply keeps_bind; [apply keeps_deref|]. intros vg _.
    destruct (negb (is_volatile vg)); [by apply keeps_ret|].
    eapply keeps_bind; [apply keeps_deref_opt|]. intros vn _.
    destruct (negb (is_volatile vn)); [by apply keeps_ret|].
    eapply keeps_bind; [apply keeps_some_or_undefined|]. intros ng _.
    eapply keeps_bind; [apply keeps_acc_inplace|]. intros _ _. by apply keeps_ret.
Qed.

End DataInvariant.

Section LiveVariables.
Context {tensor : Type} `{TensorLib tensor}.

(** C10.  Every successfully constructed Variable holds a tensor, and every
    live Variable goes on holding one.  Each constructor returns exactly
    when the supplied tensor pointer is not null, with that tensor as the
    Variable's [data], and throws "Variable data is NULL" when it is.  The
    invariant [live_data] - no live Variable has a null [data] - holds of a
    heap without Variables and is kept, whether the call returns or throws,
    by every operation that makes or changes a Variable: a constructed
    Variable placed in the heap, [get_grad_accumulator], [unpack],
    [acc_inplace] (the one assignment to [data] after construction) and
    [AccumulateGrad::apply], the hooks it calls being code that keeps the
    invariant. *)
Theorem C10_live_variable_has_data :
  (∀ (d : option tensor) rg vol h,
     match Variable_leaf d rg vol h with
     | Ok v _ => is_Some (data v) ∧ data v = d
     | Throw e _ => d = None ∧ e = runtime_error "Variable data is NULL"
     | Undefined => False
     end) ∧
  (∀ (d : option tensor) gf h,
     match Variable_output d gf h with
     | Ok v _ => is_Some (data v) ∧ data v = d
     | Throw e _ => d = None ∧ e = runtime_error "Variable data is NULL"
     | Undefined => lock_function h gf = None
     end) ∧
  (∀ h : Heap tensor, variables h = ∅ → live_data h) ∧
  (∀ (d : option tensor) rg vol,
     keeps live_data (λ _, True) (make_shared_Variable (Variable_leaf d rg vol))) ∧
  (∀ (d : option tensor) gf,
     keeps live_data (λ _, True) (make_shared_Variable (Variable_output d gf))) ∧
  (∀ this, keeps (live_data (tensor := tensor)) (λ _, True) (get_grad_accumulator this)) ∧
  (∀ sv : SavedVariable tensor, keeps live_data (λ _, True) (unpack sv)) ∧
  (∀ g ng, keeps (live_data (tensor := tensor)) (λ _, True) (acc_inplace g ng)) ∧
  (∀ call_hook : nat → list (option ptr) → M (Heap tensor) (list (option ptr)),
     (∀ hook args, keeps live_data (λ _, True) (call_hook hook args)) →
     ∀ this grads,
       keeps live_data (λ _, True) (AccumulateGrad_apply call_hook this grads)).
Proof.
  destruct (constructors_check_data (tensor := tensor)) as [Hleaf Houtput].
  split; [exact Hleaf|]. split; [exact Houtput|].
  split.
  { intros h Hh. unfold live_data. rewrite Hh. apply map_Forall_empty. }
  split; [intros; apply keeps_make_shared_Variable, keeps_Variable_leaf|].
  split; [intros; apply keeps_make_shared_Variable, keeps_Variable_output|].
  split; [apply keeps_get_grad_accumulator|].
  split; [apply keeps_unpack|].
  split; [apply keeps_acc_inplace|].
  intros call_hook Hhooks. by apply keeps_AccumulateGrad_apply.
Qed.

End LiveVariables.

Lemma C10_live_variable_has_data_witness :
  live_data volatile_grad_heap ∧
  (∀ hook args, keeps live_data (λ _, True) (replacing_hook hook args)) ∧
  match AccumulateGrad_apply replacing_hook 2%nat [Some 3%nat] volatile_grad_heap with
  | Ok _ h' => live_data h'
  | _ => False
  end.
Proof.
  assert (Hlive : live_data volatile_grad_heap).
  { apply (bool_decide_unpack _). vm_compute. exact I. }
  assert (Hhooks : ∀ hook args,
            keeps (live_data (tensor := list Z)) (λ _, True) (replacing_hook hook args)).
  { intros hook args h Hh. by split. }
  split; [exact Hlive|]. split; [exact Hhooks|].
  destruct (C10_live_variable_has_data (tensor := list Z))
    as (_ & _ & _ & _ & _ & _ & _ & _ & Happly).
  pose proof (Happly replacing_hook Hhooks 2%nat [Some 3%nat] volatile_grad_heap Hlive)
    as Hafter.
  destruct (AccumulateGrad_apply replacing_hook 2%nat [Some 3%nat] volatile_grad_heap)
    as [outs h'|e h'|] eqn:Hrun.
  - apply Hafter.
  - vm_compute in Hrun. discriminate.
  - vm_compute in Hrun. discriminate.
Defined.

Section EngineProperties.
Context {W IB : Type} {R : Runtime W IB}.
Variable graph : gmap ptr Function.

Lemma deque_pop_back_snoc {A} (l : list A) x :
  deque_pop_back (l ++ [x]) = Some (x, l).
Proof.
  induction l as [|y l IH]; simpl; [done|]. by rewrite IH.
Qed.

Lemma deque_pop_back_None {A} (l : list A) :
  deque_pop_back l = None ↔ l = [].
Proof.
  destruct l as [|y l]; simpl; [done|].
  destruct (deque_pop_back l) as [[? ?]|]; split; done.
Qed.

Lemma push_front_all_queue q (items : list (FunctionTask IB)) :
  ∀ (σ : Engine W IB) old,
    ready_queues σ !! q = Some old →
    ∃ σ', push_front_all q items σ = Ok tt σ' ∧
          ready_queues σ' !! q = Some (reverse items ++ old) ∧
          world σ' = world σ ∧ trace σ' = trace σ.
Proof.
  induction items as [|item items IH]; intros σ old Hq.
  - exists σ. by repeat split.
  - simpl. unfold bind at 1, push_front at 1, modify at 1.
    set (σ1 := set_ready_queues _ _).
    destruct (IH σ1 (item :: old)) as (σ' & Hrun & Hq' & Hw & Ht).
    { unfold σ1, deque_push_front. simpl.
      by rewrite list_lookup_alter_eq, Hq. }
    exists σ'. rewrite Hrun. split; [done|].
    rewrite reverse_cons, <- app_assoc. repeat split; done.
Qed.

(** C4 (amended).  The ReadyQueue delivers tasks in FIFO order: after any
    sequence of [push_front] calls on an empty queue with no interleaved
    pops, [pop_back] returns the task pushed first, and the tasks pushed
    after it stay queued in their order. *)
Theorem C4_ready_queue_fifo q (σ : Engine W IB) (item : FunctionTask IB) items :
  ready_queues σ !! q = Some [] →
  ∃ σ1 σ2,
    push_front_all q (item :: items) σ = Ok tt σ1 ∧
    pop_back q σ1 = Some (item, σ2) ∧
    ready_queues σ2 !! q = Some (reverse items).
Proof.
  intros Hq.
  destruct (push_front_all_queue q (item :: items) σ [] Hq) as (σ1 & Hrun & Hq1 & _).
  rewrite app_nil_r, reverse_cons in Hq1.
  exists σ1. eexists. split; [exact Hrun|].
  unfold pop_back. rewrite Hq1, deque_pop_back_snoc. split; [reflexivity|].
  simpl. apply list_lookup_insert_eq. by eapply lookup_lt_Some.
Qed.

(** C7 (amended).  In [evaluate_function], once [call_function] (the
    pre-hooks, [apply] and the post-hooks) has returned, the engine first
    calls [releaseVariables] when [keep_graph] is false, and only then
    compares the number of outputs with [next_functions.size()]: on a
    mismatch it throws the invalid-output-count error with the variables
    already released, otherwise it goes on to route the outputs. *)
Theorem C7_release_then_count_check
    (t : FunctionTask IB) (σ σ1 σ2 : Engine W IB) outputs :
  call_function graph t σ = Ok outputs σ1 →
  (if keep_graph (task σ1) then σ2 = σ1
   else ∃ w2, Function_releaseVariables (fn t) (world σ1) = Ok tt w2 ∧
              σ2 = set_world w2 (log (ev_releaseVariables (fn t)) σ1)) →
  trace σ2 = trace σ1 ++
             (if keep_graph (task σ1) then [] else [ev_releaseVariables (fn t)]) ∧
  evaluate_function graph t σ =
    if (length outputs =? length (next_functions (fn_at graph (fn t))))%nat
    then deliver_all graph outputs (next_functions (fn_at graph (fn t))) σ2
    else Throw (InvalidOutputCount (Function_name (fn t))
                  (length (next_functions (fn_at graph (fn t))))
                  (length outputs)) σ2.
Proof.
  intros Hcall Hrel. unfold evaluate_function.
  rewrite (bind_Ok _ _ _ _ _ Hcall). unfold bind at 1, get at 1.
  destruct (keep_graph (task σ1)) eqn:Hk; simpl negb; cbv iota.
  - subst σ2. split; [by rewrite app_nil_r|].
    unfold bind at 1, ret at 1.
    by destruct (length outputs =? _)%nat.
  - destruct Hrel as (w2 & Hw2 & ->). split; [done|].
    unfold bind at 1. unfold bind at 1, modify at 1, lift_world.
    simpl world. rewrite Hw2.
    by destruct (length outputs =? _)%nat.
Qed.

End EngineProperties.

Section DependencyProperties.
Context {W IB : Type} {R : Runtime W IB}.
Variable graph : gmap ptr Function.

Lemma deque_pop_back_Some {A} (l : list A) x l' :
  deque_pop_back l = Some (x, l') ↔ l = l' ++ [x].
Proof.
  split.
  - revert x l'. induction l as [|y l IH]; intros x l' Hl; simpl in Hl; [done|].
    destruct (deque_pop_back l) as [[z l'']|] eqn:Hp.
    + inversion Hl; subst. simpl. f_equal. by apply IH.
    + apply deque_pop_back_None in Hp. inversion Hl; by subst.
  - intros ->. apply deque_pop_back_snoc.
Qed.

Lemma edges_to_app f (l1 l2 : list (option ptr * Z)) :
  edges_to f (l1 ++ l2) = (edges_to f l1 + edges_to f l2)%nat.
Proof. unfold edges_to. by rewrite filter_app, length_app. Qed.

Lemma edges_to_single f (e : option ptr * Z) :
  edges_to f [e] = if decide (e.1 = Some f) then 1%nat else 0%nat.
Proof.
  unfold edges_to. rewrite filter_cons, filter_nil. by case_decide.
Qed.

Lemma incoming_snoc P g f :
  incoming graph (P ++ [g]) f
  = (incoming graph P f + edges_to f (next_functions (fn_at graph g)))%nat.
Proof.
  unfold incoming. rewrite sum_list_with_app. simpl. lia.
Qed.

Lemma executable_in_graph g :
  is_executable (fn_at graph g) = true → graph !! g = Some (fn_at graph g).
Proof.
  unfold fn_at. destruct (graph !! g); simpl; done.
Qed.

Lemma edge_in_targets g f input_nr :
  is_executable (fn_at graph g) = true →
  (Some f, input_nr) ∈ next_functions (fn_at graph g) →
  f ∈ (list_to_set (edge_targets graph) : gset ptr).
Proof.
  intros Hg He. apply elem_of_list_to_set. unfold edge_targets.
  apply list_elem_of_In, in_concat.
  exists (omap fst (next_functions (fn_at graph g))). split.
  - apply in_map_iff. exists (g, fn_at graph g). split; [done|].
    apply list_elem_of_In, elem_of_map_to_list. by apply executable_in_graph.
  - apply list_elem_of_In, list_elem_of_omap. by exists (Some f, input_nr).
Qed.

Lemma dependency_entry_bump n f (deps : gmap ptr Z) :
  counted graph f = true →
  deps !! f = dependency_entry graph n f →
  int_wrap (default 0 (deps !! f) + 1) = int_wrap (Z.of_nat (S n)).
Proof.
  intros Hc ->. unfold dependency_entry. rewrite Hc. simpl.
  case_bool_decide as Hn; simpl.
  - rewrite int_wrap_succ. f_equal. lia.
  - assert (n = 0%nat) as -> by lia. done.
Qed.

Lemma dependency_entry_uncounted n f :
  counted graph f = false → dependency_entry graph n f = None.
Proof. intros Hc. unfold dependency_entry. by rewrite Hc. Qed.

Lemma cd_edge_skip st f nr :
  counted graph f = false → cd_edge graph st (Some f, nr) = st.
Proof.
  intros Hc. destruct st as [[queue seen] deps]. unfold cd_edge, counted in *.
  simpl. destruct (is_executable (fn_at graph f)); simpl in *; [|done].
  by destruct (is_stochastic (fn_at graph f)).
Qed.

Lemma cd_edge_count queue seen deps f nr :
  counted graph f = true →
  cd_edge graph (queue, seen, deps) (Some f, nr) =
    let deps' := <[f := int_wrap (default 0 (deps !! f) + 1)]> deps in
    if bool_decide (f ∉ seen) then (queue ++ [f], {[f]} ∪ seen, deps')
    else (queue, seen, deps').
Proof.
  intros Hc. unfold cd_edge, counted in *. simpl.
  apply andb_true_iff in Hc as [-> Hs]. apply negb_true_iff in Hs as ->. done.
Qed.

Lemma cd_edge_inv frontier st P Pn g extra (e : option ptr * Z) :
  (∀ f, e.1 = Some f → (Some f, e.2) ∈ next_functions (fn_at graph g)) →
  cd_inv graph frontier st P Pn [g] extra →
  cd_inv graph frontier (cd_edge graph st e) P Pn [g] (extra ++ [e]) ∧
  (length (cd_edge graph st e).1.1
   + size ((list_to_set (edge_targets graph) : gset ptr) ∖ (cd_edge graph st e).1.2)
   ≤ length st.1.1
     + size ((list_to_set (edge_targets graph) : gset ptr) ∖ st.1.2))%nat.
Proof.
  intros Hedge Hinv. destruct st as [[queue seen] deps].
  destruct Hinv as [Hseen Hnodup Hreach Hfront Hclosed Hextra Hexec Hskip Hdeps].
  cbn [fst snd] in *.
  assert (Hg : is_executable (fn_at graph g) = true).
  { apply Hexec. apply elem_of_app. right. by apply list_elem_of_singleton. }
  destruct e as [[f|] nr]; cbn [fst snd] in *.
  2: { change (cd_edge graph (queue, seen, deps) (None, nr)) with (queue, seen, deps).
       split; [|cbn [fst snd]; lia]. split; cbn [fst snd]; try done.
       - intros f nr' Hin Hc. apply elem_of_app in Hin as [Hin|Hin]; [eauto|].
         by apply list_elem_of_singleton in Hin.
       - intros f. rewrite edges_to_app, edges_to_single. simpl.
         rewrite Nat.add_0_r. apply Hdeps. }
  specialize (Hedge f eq_refl).
  destruct (counted graph f) eqn:Hc.
  2: { rewrite cd_edge_skip by done. split; [|cbn [fst snd]; lia]. split; cbn [fst snd]; try done.
       - intros f' nr' Hin Hc'. apply elem_of_app in Hin as [Hin|Hin]; [eauto|].
         apply list_elem_of_singleton in Hin. congruence.
       - intros f'. rewrite edges_to_app, edges_to_single. simpl.
         case_decide as Hf; [|rewrite Nat.add_0_r; apply Hdeps].
         inversion Hf; subst f'. rewrite Hdeps.
         by rewrite !dependency_entry_uncounted. }
  rewrite cd_edge_count by done. cbv zeta.
  assert (Hdeps' : ∀ f', <[f := int_wrap (default 0 (deps !! f) + 1)]> deps !! f'
            = dependency_entry graph
                (incoming graph P f' + edges_to f' (extra ++ [(Some f, nr)])) f').
  { intros f'. rewrite edges_to_app, edges_to_single. simpl.
    destruct (decide (f = f')) as [->|Hne].
    - rewrite lookup_insert_eq, decide_True by done.
      rewrite (dependency_entry_bump _ _ _ Hc (Hdeps f')).
      unfold dependency_entry. rewrite Hc. simpl.
      rewrite bool_decide_eq_true_2 by lia. do 2 f_equal. lia.
    - rewrite lookup_insert_ne by done. rewrite decide_False by congruence.
      rewrite Nat.add_0_r. apply Hdeps. }
  case_bool_decide as Hnew.
  - (* a Function seen for the first time *)
    assert (Hfq : f ∉ queue ++ P ++ Pn ++ [g]) by (by rewrite <- Hseen).
    split.
    + split; cbn [fst snd]; try done.
      * intros x. rewrite elem_of_union, elem_of_singleton, Hseen.
        rewrite <- !app_assoc, !elem_of_app, !list_elem_of_singleton. tauto.
      * rewrite <- app_assoc.
        apply NoDup_app in Hnodup as (Hq & Hdisj & Hrest).
        apply NoDup_app. split; [done|]. split.
        { intros x Hx. rewrite elem_of_app, list_elem_of_singleton. intros [->|Hx'].
          - apply Hfq. apply elem_of_app. by left.
          - by apply (Hdisj x). }
        apply (NoDup_cons f). split; [|done].
        intros Hin. apply Hfq. apply elem_of_app. by right.
      * intros x. rewrite elem_of_union, elem_of_singleton. intros [->|Hx]; [|eauto].
        eapply reach_edge; [apply Hreach, Hseen| | |]; try done.
        rewrite !elem_of_app, list_elem_of_singleton. tauto.
      * intros x Hx. apply elem_of_union. right. eauto.
      * intros g' f' nr' Hg' He Hc'. apply elem_of_union. right. eauto.
      * intros f' nr' Hin Hc'. apply elem_of_union.
        apply elem_of_app in Hin as [Hin|Hin]; [right; eauto|].
        apply list_elem_of_singleton in Hin. inversion Hin; subst. left.
        by apply elem_of_singleton.
    + cbn [fst snd]. rewrite length_app. simpl.
      assert (Hft : f ∈ (list_to_set (edge_targets graph) : gset ptr)).
      { by eapply edge_in_targets. }
      assert (Hsz : (size ((list_to_set (edge_targets graph) : gset ptr) ∖ seen)
              = S (size ((list_to_set (edge_targets graph) : gset ptr) ∖ ({[f]} ∪ seen))))%nat).
      { assert (Heq : (list_to_set (edge_targets graph) : gset ptr) ∖ seen
                  = {[f]} ∪ (list_to_set (edge_targets graph) : gset ptr) ∖ ({[f]} ∪ seen)).
        { apply set_eq. intros x.
          rewrite elem_of_union, !elem_of_difference, elem_of_union, elem_of_singleton.
          destruct (decide (x = f)) as [->|]; tauto. }
        rewrite Heq at 1. rewrite size_union, size_singleton; [done|].
        intros x. rewrite elem_of_singleton, elem_of_difference, elem_of_union,
          elem_of_singleton. tauto. }
      lia.
  - (* already seen *)
    split; [|cbn [fst snd]; lia]. split; cbn [fst snd]; try done.
    intros f' nr' Hin Hc'. apply elem_of_app in Hin as [Hin|Hin]; [eauto|].
    apply list_elem_of_singleton in Hin. inversion Hin; subst. done.
Qed.

Lemma cd_edges_inv frontier P Pn g : ∀ rest extra st,
  next_functions (fn_at graph g) = extra ++ rest →
  cd_inv graph frontier st P Pn [g] extra →
  cd_inv graph frontier (foldl (cd_edge graph) st rest) P Pn [g] (extra ++ rest) ∧
  (length (foldl (cd_edge graph) st rest).1.1
   + size ((list_to_set (edge_targets graph) : gset ptr)
             ∖ (foldl (cd_edge graph) st rest).1.2)
   ≤ length st.1.1
     + size ((list_to_set (edge_targets graph) : gset ptr) ∖ st.1.2))%nat.
Proof.
  induction rest as [|e rest IH]; intros extra st Hnext Hinv.
  - rewrite app_nil_r. simpl. split; [done | lia].
  - simpl.
    destruct (cd_edge_inv frontier st P Pn g extra e) as [Hinv' Hm]; [|done|].
    { intros f Hf. rewrite Hnext. apply elem_of_app. right.
      destruct e as [e1 e2]. simpl in *. subst. left. }
    destruct (IH (extra ++ [e]) (cd_edge graph st e)) as [Hinv'' Hm']; [|done|].
    { by rewrite <- app_assoc. }
    rewrite <- app_assoc in Hinv''. split; [done | lia].
Qed.

Lemma cd_inv_final frontier deps P Pn :
  cd_inv graph frontier ([], list_to_set (P ++ Pn), deps) P Pn [] [] →
  NoDup P ∧
  (∀ g, g ∈ P ↔ is_executable (fn_at graph g) = true ∧ reach graph frontier g) ∧
  (∀ f, deps !! f = dependency_entry graph (incoming graph P f) f).
Proof.
  intros [Hseen Hnodup Hreach Hfront Hclosed Hextra Hexec Hskip Hdeps].
  cbn [fst snd] in *. rewrite app_nil_r in *.
  assert (Hin : ∀ x, x ∈ (list_to_set (P ++ Pn) : gset ptr) →
                     is_executable (fn_at graph x) = true → x ∈ P).
  { intros x Hx He. apply Hseen in Hx. simpl in Hx.
    apply elem_of_app in Hx as [Hx|Hx]; [done|].
    apply Hskip in Hx. congruence. }
  split; [|split].
  - simpl in Hnodup. by apply NoDup_app in Hnodup as (? & _).
  - intros g. split.
    + intros Hg. split; [by apply Hexec|]. apply Hreach, Hseen. simpl.
      apply elem_of_app. by left.
    + intros [He Hr]. induction Hr as [f Hf|g f nr Hr IH Hge Hedge Hc].
      * apply Hin; [by apply Hfront | done].
      * apply Hin; [|done]. eapply Hclosed; [by apply IH | done | done].
  - intros f. rewrite Hdeps. unfold edges_to. rewrite filter_nil. simpl.
    by rewrite Nat.add_0_r.
Qed.

Lemma cd_loop_inv frontier : ∀ fuel st P Pn,
  cd_inv graph frontier st P Pn [] [] →
  (length st.1.1 + size ((list_to_set (edge_targets graph) : gset ptr) ∖ st.1.2)
   < fuel)%nat →
  ∃ deps E,
    cd_loop graph fuel st = Some deps ∧
    NoDup E ∧
    (∀ g, g ∈ E ↔ is_executable (fn_at graph g) = true ∧ reach graph frontier g) ∧
    (∀ f, deps !! f = dependency_entry graph (incoming graph E f) f).
Proof.
  induction fuel as [|fuel IH]; intros st P Pn Hinv Hfuel; [lia|].
  destruct st as [[queue seen] deps]. cbn [fst snd] in Hfuel. simpl.
  unfold vector_pop_back.
  destruct (deque_pop_back queue) as [[g queue']|] eqn:Hpop.
  - apply deque_pop_back_Some in Hpop. subst queue.
    rewrite length_app in Hfuel. simpl in Hfuel.
    destruct Hinv as [Hseen Hnodup Hreach Hfront Hclosed Hextra Hexec Hskip Hdeps].
    cbn [fst snd] in *. rewrite app_nil_r in *.
    assert (Hperm : ∀ (A B C : list ptr), (queue' ++ [g]) ++ A ++ B ++ C
                       ≡ₚ queue' ++ A ++ B ++ C ++ [g]).
    { intros. solve_Permutation. }
    destruct (is_executable (fn_at graph g)) eqn:Hg; simpl.
    + (* expand g *)
      assert (Hinv0 : cd_inv graph frontier (queue', seen, deps) P Pn [g] []).
      { split; cbn [fst snd].
        - intros x. rewrite Hseen. rewrite <- (app_nil_r Pn) at 1.
          rewrite (Hperm P Pn []). done.
        - rewrite <- (app_nil_r Pn) in Hnodup. by rewrite (Hperm P Pn []) in Hnodup.
        - done.
        - done.
        - done.
        - intros f nr Hin. by apply elem_of_nil in Hin.
        - intros x Hx. apply elem_of_app in Hx as [Hx|Hx]; [by apply Hexec|].
          apply list_elem_of_singleton in Hx. by subst.
        - done.
        - done. }
      destruct (cd_edges_inv frontier P Pn g (next_functions (fn_at graph g)) []
                  (queue', seen, deps) eq_refl Hinv0) as [Hinv1 Hm].
      simpl app in Hinv1. cbn [fst snd] in Hm.
      set (st1 := foldl (cd_edge graph) (queue', seen, deps)
                    (next_functions (fn_at graph g))) in *.
      destruct Hinv1 as [Hseen1 Hnodup1 Hreach1 Hfront1 Hclosed1 Hextra1 Hexec1 Hskip1 Hdeps1].
      apply (IH st1 (P ++ [g]) Pn); [|lia].
      split.
      * intros x. rewrite Hseen1. rewrite app_nil_r.
        rewrite !elem_of_app. tauto.
      * rewrite app_nil_r.
        assert (Hp : st1.1.1 ++ (P ++ [g]) ++ Pn ≡ₚ st1.1.1 ++ P ++ Pn ++ [g])
          by solve_Permutation.
        by rewrite Hp.
      * done.
      * done.
      * intros g' f nr Hg' Hin Hc. apply elem_of_app in Hg' as [Hg'|Hg'].
        -- by eapply Hclosed1.
        -- apply list_elem_of_singleton in Hg'. subst g'. by eapply Hextra1.
      * intros f nr Hin. by apply elem_of_nil in Hin.
      * intros x. rewrite app_nil_r. apply Hexec1.
      * done.
      * intros f. rewrite Hdeps1, incoming_snoc. unfold edges_to at 3.
        rewrite filter_nil. simpl. by rewrite Nat.add_0_r.
    + (* a root that is not executable *)
      apply (IH (queue', seen, deps) P (Pn ++ [g])); [|cbn [fst snd]; lia].
      split; cbn [fst snd].
      * intros x. rewrite Hseen, app_nil_r, !elem_of_app. tauto.
      * rewrite app_nil_r.
        assert (Hp : queue' ++ P ++ Pn ++ [g] ≡ₚ (queue' ++ [g]) ++ P ++ Pn)
          by solve_Permutation.
        by rewrite Hp.
      * done.
      * done.
      * done.
      * done.
      * by rewrite app_nil_r in *.
      * intros x Hx. apply elem_of_app in Hx as [Hx|Hx]; [by apply Hskip|].
        apply list_elem_of_singleton in Hx. by subst.
      * done.
  - apply deque_pop_back_None in Hpop. subst queue.
    exists deps, P.
    split; [done|]. apply (cd_inv_final frontier deps P Pn).
    destruct Hinv as [Hseen Hnodup Hreach Hfront Hclosed Hextra Hexec Hskip Hdeps].
    cbn [fst snd] in *.
    assert (Hs : seen = list_to_set (P ++ Pn)).
    { apply set_eq. intros x. rewrite Hseen, elem_of_list_to_set. simpl.
      by rewrite app_nil_r. }
    subst seen. by split.
Qed.

Lemma edges_to_le_targets f (l : list (option ptr * Z)) :
  (edges_to f l ≤ length (omap fst l))%nat.
Proof.
  unfold edges_to, omap. induction l as [|[[g|] nr] l IH].
  - rewrite filter_nil. simpl. lia.
  - rewrite filter_cons. simpl. case_decide; simpl; lia.
  - rewrite filter_cons. simpl. lia.
Qed.

Lemma sum_list_with_le {A} (f g : A → nat) (l : list A) :
  (∀ x, x ∈ l → (f x ≤ g x)%nat) →
  (sum_list_with f l ≤ sum_list_with g l)%nat.
Proof.
  induction l as [|x l IH]; intros Hle; simpl; [lia|].
  assert (f x ≤ g x)%nat by (apply Hle; left).
  assert (sum_list_with f l ≤ sum_list_with g l)%nat.
  { apply IH. intros y Hy. apply Hle. by right. }
  lia.
Qed.

Lemma sum_list_with_submseteq {A} (f : A → nat) (l k : list A) :
  l ⊆+ k → (sum_list_with f l ≤ sum_list_with f k)%nat.
Proof. induction 1; simpl; lia. Qed.

Lemma length_edge_targets :
  length (edge_targets graph)
  = sum_list_with (λ g, length (omap fst (next_functions (fn_at graph g))))
      (map_to_list graph).*1.
Proof.
  unfold edge_targets.
  assert (Hall : ∀ kv, kv ∈ map_to_list graph → fn_at graph kv.1 = kv.2).
  { intros [k v] Hkv. apply elem_of_map_to_list in Hkv. unfold fn_at. simpl.
    by rewrite Hkv. }
  induction (map_to_list graph) as [|kv l IH]; [done|].
  simpl. rewrite length_app, IH.
  - rewrite Hall by left. done.
  - intros kv' Hkv'. apply Hall. by right.
Qed.

Lemma size_list_to_set_le (l : list ptr) :
  (size (list_to_set l : gset ptr) ≤ length l)%nat.
Proof.
  induction l as [|x l IH].
  - rewrite list_to_set_nil, size_empty. simpl. lia.
  - rewrite list_to_set_cons, size_union_alt, size_singleton. simpl.
    assert (size ((list_to_set l : gset ptr) ∖ {[x]}) ≤ size (list_to_set l : gset ptr))%nat.
    { apply subseteq_size, subseteq_difference_l. reflexivity. }
    lia.
Qed.

Lemma incoming_le_targets E f :
  NoDup E →
  (∀ g, g ∈ E → is_executable (fn_at graph g) = true) →
  (incoming graph E f ≤ length (edge_targets graph))%nat.
Proof.
  intros Hnd Hexec. rewrite length_edge_targets. unfold incoming.
  etransitivity.
  - apply sum_list_with_le. intros g _. apply edges_to_le_targets.
  - apply sum_list_with_submseteq, NoDup_submseteq; [done|].
    intros g Hg. apply list_elem_of_fmap. exists (g, fn_at graph g).
    split; [done|]. apply elem_of_map_to_list, executable_in_graph. by apply Hexec.
Qed.

(** [compute_dependencies] does not run out of rounds and leaves, for the
    executable Functions [E] reachable from the frontier, the entries
    [dependency_entry (incoming E f) f]. *)
Lemma compute_dependencies_spec (frontier : list ptr) (σ : Engine W IB) :
  NoDup frontier →
  dependencies (task σ) = ∅ →
  ∃ deps E,
    compute_dependencies graph frontier σ
      = Ok tt (set_task (set_dependencies (λ _, deps)) σ) ∧
    NoDup E ∧
    (∀ g, g ∈ E ↔ is_executable (fn_at graph g) = true ∧ reach graph frontier g) ∧
    (∀ f, deps !! f = dependency_entry graph (incoming graph E f) f).
Proof.
  intros Hnd Hempty. unfold compute_dependencies. unfold bind, get.
  destruct (cd_loop_inv frontier (search_fuel graph frontier)
              (frontier, list_to_set frontier, dependencies (task σ)) [] [])
    as (deps & E & Hloop & HndE & HE & Hdeps).
  { split; cbn [fst snd].
    - intros x. rewrite elem_of_list_to_set. simpl. by rewrite app_nil_r.
    - simpl. by rewrite app_nil_r.
    - intros x Hx. apply reach_frontier. by apply elem_of_list_to_set in Hx.
    - intros x Hx. by apply elem_of_list_to_set.
    - intros g f nr Hg. by apply elem_of_nil in Hg.
    - intros f nr Hin. by apply elem_of_nil in Hin.
    - intros x Hx. by apply elem_of_nil in Hx.
    - intros x Hx. by apply elem_of_nil in Hx.
    - intros f. rewrite Hempty, lookup_empty. unfold dependency_entry, incoming, edges_to.
      rewrite filter_nil. simpl. by rewrite andb_false_r. }
  { cbn [fst snd]. unfold search_fuel.
    assert (size ((list_to_set (edge_targets graph) : gset ptr) ∖ list_to_set frontier)
            ≤ length (edge_targets graph))%nat; [|lia].
    etransitivity; [apply subseteq_size, subseteq_difference_l; reflexivity|].
    apply size_list_to_set_le. }
  rewrite Hloop. by exists deps, E.
Qed.

(** C3 (amended).  [compute_dependencies], run on a frontier in which no
    Function occurs twice and an empty [dependencies] map, in a graph with
    no more than [INT_MAX] edges, returns; with [E] the executable Functions
    reachable from the frontier, the entry of an executable non-stochastic
    [f] is the number of [next_functions] edges that point at [f] from the
    Functions of [E] (no entry, which reads as 0, when there is no such
    edge), and every other Function - non-executable or stochastic - has no
    entry.  Null edges point at no Function and are not counted. *)
Theorem C3_compute_dependencies (frontier : list ptr) (σ : Engine W IB) :
  NoDup frontier →
  dependencies (task σ) = ∅ →
  Z.of_nat (length (edge_targets graph)) ≤ int_max →
  ∃ σ' E,
    compute_dependencies graph frontier σ = Ok tt σ' ∧
    NoDup E ∧
    (∀ g, g ∈ E ↔ is_executable (fn_at graph g) = true ∧ reach graph frontier g) ∧
    (∀ f, dependencies (task σ') !! f =
            if is_executable (fn_at graph f) && negb (is_stochastic (fn_at graph f))
               && bool_decide (0 < incoming graph E f)%nat
            then Some (Z.of_nat (incoming graph E f))
            else None).
Proof.
  intros Hnd Hempty Hmax.
  destruct (compute_dependencies_spec frontier σ Hnd Hempty)
    as (deps & E & Hrun & HndE & HE & Hdeps).
  eexists _, E. split; [exact Hrun|].
  split; [done|]. split; [done|]. intros f. simpl. rewrite Hdeps.
  unfold dependency_entry, counted.
  destruct (is_executable (fn_at graph f) && negb (is_stochastic (fn_at graph f))
            && bool_decide (0 < incoming graph E f)%nat); [|done].
  f_equal. apply int_wrap_small.
  assert (incoming graph E f ≤ length (edge_targets graph))%nat.
  { apply incoming_le_targets; [done|]. intros g Hg. by apply HE. }
  unfold int_max in *. lia.
Qed.

End DependencyProperties.

(** C4, the claim as stated fails: with the task of Function 1 pushed
    before the task of Function 2, [pop_back] returns the task of
    Function 1, the one pushed first, not the most recent one. *)
Lemma C4_counterexample : two_pushes_scenario = Some 1%nat.
Proof. vm_compute. reflexivity. Qed.

Lemma C4_ready_queue_fifo_witness :
  ready_queues example_engine !! 0%nat = Some [] ∧
  ∃ σ1 σ2,
    push_front_all 0%nat [example_task 1%nat; example_task 2%nat]
      example_engine = Ok tt σ1 ∧
    pop_back 0%nat σ1 = Some (example_task 1%nat, σ2) ∧
    ready_queues σ2 !! 0%nat = Some (reverse [example_task 2%nat]).
Proof.
  split; [reflexivity|].
  apply (C4_ready_queue_fifo 0%nat example_engine
           (example_task 1%nat) [example_task 2%nat]).
  reflexivity.
Defined.

(** C7, the claim as stated fails: Function 0 has one outgoing edge and its
    [apply] returns no output; [evaluate_function] throws the
    invalid-output-count error, and by then [releaseVariables] has been
    called on the Function. *)
Lemma C7_counterexample :
  thrown short_outputs_scenario = Some (InvalidOutputCount "Function" 1 0) ∧
  trace <$> state_of short_outputs_scenario
    = Some [ev_apply 0%nat; ev_releaseVariables 0%nat].
Proof. split; vm_compute; reflexivity. Qed.

Lemma C7_release_then_count_check_witness :
  call_function (R := table_runtime (λ _, 0%nat)) chain_graph
    (example_task 0%nat) example_engine = Ok [] after_call ∧
  (∃ w2, Function_releaseVariables (Runtime := table_runtime (λ _, 0%nat))
           0%nat (world after_call) = Ok tt w2 ∧
         after_release = set_world w2 (log (ev_releaseVariables 0%nat) after_call)) ∧
  trace after_release = trace after_call ++ [ev_releaseVariables 0%nat] ∧
  evaluate_function (R := table_runtime (λ _, 0%nat)) chain_graph
    (example_task 0%nat) example_engine
    = Throw (InvalidOutputCount "Function" 1 0) after_release.
Proof.
  split; [reflexivity|]. split; [by exists ()|].
  apply (C7_release_then_count_check (R := table_runtime (λ _, 0%nat))
           chain_graph (example_task 0%nat) example_engine after_call
           after_release []).
  - reflexivity.
  - by exists ().
Defined.

(** C3, the claim as stated fails: [execute] on [stochastic_graph] with the
    roots 0 and 1 hands [compute_dependencies] the frontier [1; 0; 1], the
    distinct roots 1 and 0 followed by the stochastic Function 1 that the
    search from the roots discovers.  Function 2 is executable, not
    stochastic and reachable from that frontier, and one edge of the whole
    graph points at it (from Function 1); yet [compute_dependencies] leaves
    2 in [dependencies] for it, Function 1 being expanded once for each of
    its two entries in the frontier. *)
Lemma C3_counterexample :
  execute_start (R := table_runtime (edge_outputs stochastic_graph)) stochastic_graph
    [(Some 0%nat, 0); (Some 1%nat, 0)] [Some 7%nat; Some 8%nat] false ∅ example_engine
    = Ok [1%nat; 0%nat; 1%nat] stochastic_root_ready ∧
  compute_dependencies stochastic_graph [1%nat; 0%nat; 1%nat] example_engine
    = Ok tt (set_task (set_dependencies (λ _, {[ 2%nat := 2 ]})) example_engine) ∧
  dependencies (task stochastic_root_ready) !! 2%nat = Some 2 ∧
  counted stochastic_graph 2%nat = true ∧
  reach stochastic_graph [1%nat; 0%nat; 1%nat] 2%nat ∧
  incoming stochastic_graph (map fst (map_to_list stochastic_graph)) 2%nat = 1%nat.
Proof.
  split; [vm_compute; reflexivity|]. split; [vm_compute; reflexivity|].
  split; [vm_compute; reflexivity|]. split; [reflexivity|].
  split; [|vm_compute; reflexivity].
  eapply (reach_edge stochastic_graph _ 1%nat 2%nat 0);
    [apply reach_frontier; left | reflexivity | left | reflexivity].
Qed.

Example diamond_dependencies_value :
  diamond_dependencies = Some {[ 1%nat := 1; 2%nat := 1; 3%nat := 2 ]}.
Proof. vm_compute. reflexivity. Qed.

Lemma C3_compute_dependencies_witness :
  NoDup [0%nat] ∧
  dependencies (task example_engine) = ∅ ∧
  Z.of_nat (length (edge_targets diamond_graph)) ≤ int_max ∧
  ∃ σ' E,
    compute_dependencies diamond_graph [0%nat] example_engine = Ok tt σ' ∧
    NoDup E ∧
    (∀ g, g ∈ E ↔ is_executable (fn_at diamond_graph g) = true
                  ∧ reach diamond_graph [0%nat] g) ∧
    (∀ f, dependencies (task σ') !! f =
            if is_executable (fn_at diamond_graph f)
               && negb (is_stochastic (fn_at diamond_graph f))
               && bool_decide (0 < incoming diamond_graph E f)%nat
            then Some (Z.of_nat (incoming diamond_graph E f))
            else None).
Proof.
  split; [apply NoDup_singleton|]. split; [reflexivity|].
  split; [vm_compute; discriminate|].
  apply (C3_compute_dependencies diamond_graph [0%nat] example_engine).
  - apply NoDup_singleton.
  - reflexivity.
  - vm_compute; discriminate.
Defined.

(** From [Hm : m s = Ok a s'] (or [Throw e s']) to what the frame lemma
    [lem] says of [s] and [s']. *)
Ltac frame_of Hm lem :=
  let H := fresh "Hframe" in
  pose proof (f_equal state_of Hm) as H; cbn [state_of] in H; apply lem in H.

Section RunProperties.
Context {W IB : Type} {R : Runtime W IB}.
Variable graph : gmap ptr Function.

Lemma queued_alter_cons (item : FunctionTask IB) q (qs : list (list (FunctionTask IB))) :
  (q < length qs)%nat →
  concat (map (map fn) (alter (deque_push_front item) q qs))
  ≡ₚ fn item :: concat (map (map fn) qs).
Proof.
  revert q. induction qs as [|x qs IH]; intros q Hq; simpl in Hq; [lia|].
  destruct q as [|q].
  - done.
  - change (concat (map (map fn) (alter (deque_push_front item) (S q) (x :: qs))))
      with (map fn x ++ concat (map (map fn) (alter (deque_push_front item) q qs))).
    rewrite IH by lia. simpl. solve_Permutation.
Qed.

Lemma queued_insert_pop (item : FunctionTask IB) q (qs : list (list (FunctionTask IB))) queue queue' :
  qs !! q = Some queue →
  deque_pop_back queue = Some (item, queue') →
  concat (map (map fn) qs)
  ≡ₚ fn item :: concat (map (map fn) (<[q := queue']> qs)).
Proof.
  intros Hq Hpop. apply deque_pop_back_Some in Hpop. subst queue.
  revert q Hq. induction qs as [|x qs IH]; intros q Hq; [done|].
  destruct q as [|q].
  - simpl in Hq. inversion Hq; subst. simpl. rewrite map_app. simpl.
    solve_Permutation.
  - change (concat (map (map fn) (<[S q := queue']> (x :: qs))))
      with (map fn x ++ concat (map (map fn) (<[q := queue']> qs))).
    simpl in Hq. simpl concat at 1. rewrite (IH q Hq). solve_Permutation.
Qed.

Lemma pending_perm F (σ σ' : Engine W IB) :
  queued σ' ≡ₚ queued σ → pending F σ' = pending F σ.
Proof. unfold pending. by intros ->. Qed.

Lemma pending_cons F G (σ σ' : Engine W IB) :
  queued σ' ≡ₚ G :: queued σ →
  pending F σ' = ((if decide (G = F) then 1 else 0) + pending F σ)%nat.
Proof.
  unfold pending. intros ->. rewrite filter_cons. by case_decide.
Qed.

Lemma same_engine_refl (σ : Engine W IB) : same_engine σ σ.
Proof. by repeat split. Qed.

Lemma same_engine_trans (σ1 σ2 σ3 : Engine W IB) :
  same_engine σ1 σ2 → same_engine σ2 σ3 → same_engine σ1 σ3.
Proof. intros (? & ? & ?) (? & ? & ?). repeat split; congruence. Qed.

Lemma lift_world_frame {A} (m : M W A) (σ σ' : Engine W IB) :
  state_of (lift_world m σ) = Some σ' → same_engine σ σ'.
Proof.
  unfold lift_world. destruct (m (world σ)); simpl; intros Hs;
    inversion Hs; subst; by repeat split.
Qed.

Lemma bind_state_of {S A B} (m : M S A) (k : A → M S B) s s' :
  state_of (bind m k s) = Some s' →
  (∃ a s1, m s = Ok a s1 ∧ state_of (k a s1) = Some s') ∨
  (∃ e, m s = Throw e s').
Proof.
  unfold bind. destruct (m s) as [a s1|e s1|]; simpl; intros Hs.
  - left. by exists a, s1.
  - right. inversion Hs. by exists e.
  - done.
Qed.

Lemma call_pre_hooks_frame hooks : ∀ inputs (σ σ' : Engine W IB),
  state_of (call_pre_hooks hooks inputs σ) = Some σ' → same_engine σ σ'.
Proof.
  induction hooks as [|hook hooks IH]; intros inputs σ σ' Hs; simpl in Hs.
  - inversion Hs. apply same_engine_refl.
  - apply bind_state_of in Hs as [(a & s1 & Hm & Hk)|(e & Hm)].
    + eapply same_engine_trans; [|by eapply IH].
      apply (lift_world_frame (call_pre_hook hook inputs)). by rewrite Hm.
    + apply (lift_world_frame (call_pre_hook hook inputs)). by rewrite Hm.
Qed.

Lemma call_post_hooks_frame hooks : ∀ outputs inputs (σ σ' : Engine W IB),
  state_of (call_post_hooks hooks outputs inputs σ) = Some σ' → same_engine σ σ'.
Proof.
  induction hooks as [|hook hooks IH]; intros outputs inputs σ σ' Hs; simpl in Hs.
  - inversion Hs. apply same_engine_refl.
  - apply bind_state_of in Hs as [(a & s1 & Hm & Hk)|(e & Hm)].
    + eapply same_engine_trans; [|by eapply IH].
      apply (lift_world_frame (call_post_hook hook outputs inputs)). by rewrite Hm.
    + apply (lift_world_frame (call_post_hook hook outputs inputs)). by rewrite Hm.
Qed.

Lemma callback_frame (t : FunctionTask IB) inputs (s1 s2 : Engine W IB) :
  state_of ((match function_callbacks (task s1) !! fn t with
             | Some callback => lift_world (call_callback callback (fn t) inputs)
             | None => ret true
             end) s1) = Some s2 →
  same_engine s1 s2.
Proof.
  destruct (function_callbacks (task s1) !! fn t).
  - apply lift_world_frame.
  - intros Hs. inversion Hs. apply same_engine_refl.
Qed.

(** [call_function] leaves the queues and the task alone and logs at most
    the one call of [apply]. *)
Lemma call_function_frame (t : FunctionTask IB) (σ σ' : Engine W IB) :
  state_of (call_function graph t σ) = Some σ' →
  ready_queues σ' = ready_queues σ ∧ task σ' = task σ ∧
  (trace σ' = trace σ ∨ trace σ' = trace σ ++ [ev_apply (fn t)]).
Proof.
  unfold call_function. intros Hs.
  apply bind_state_of in Hs as [(ins & s1 & Hm & Hs)|(e & Hm)].
  2: { frame_of Hm call_pre_hooks_frame. destruct Hframe as (? & ? & ?).
       repeat split; try done. by left. }
  frame_of Hm call_pre_hooks_frame. destruct Hframe as (Hq1 & Ht1 & Hl1).
  unfold bind at 1, get at 1 in Hs.
  apply bind_state_of in Hs as [(proceed & s2 & Hcb & Hs)|(e & Hcb)].
  2: { frame_of Hcb callback_frame. destruct Hframe as (? & ? & ?).
       repeat split; try congruence. left. congruence. }
  frame_of Hcb callback_frame. destruct Hframe as (Hq2 & Ht2 & Hl2).
  destruct proceed; simpl in Hs.
  2: { inversion Hs; subst. repeat split; try congruence. left. congruence. }
  unfold bind at 1, modify at 1 in Hs.
  apply bind_state_of in Hs as [(outs & s3 & Happ & Hs)|(e & Happ)].
  - frame_of Happ (@lift_world_frame (list (option ptr))).
    destruct Hframe as (Hq3 & Ht3 & Hl3).
    apply call_post_hooks_frame in Hs as (Hq4 & Ht4 & Hl4).
    simpl in *. repeat split; try congruence. right. congruence.
  - frame_of Happ (@lift_world_frame (list (option ptr))).
    destruct Hframe as (Hq3 & Ht3 & Hl3).
    simpl in *. repeat split; try congruence. right. congruence.
Qed.

(** When no callback rejects, a return of [call_function] has called
    [apply]. *)
Lemma call_function_Ok (t : FunctionTask IB) (σ σ' : Engine W IB) outputs :
  callbacks_accept →
  call_function graph t σ = Ok outputs σ' →
  trace σ' = trace σ ++ [ev_apply (fn t)].
Proof.
  intros Hacc. unfold call_function. intros Hs.
  unfold bind at 1 in Hs.
  destruct (call_pre_hooks _ _ σ) as [ins s1|?|] eqn:Hm; try done.
  frame_of Hm call_pre_hooks_frame. destruct Hframe as (Hq1 & Ht1 & Hl1).
  unfold bind at 1, get at 1 in Hs. unfold bind at 1 in Hs.
  destruct (match function_callbacks (task s1) !! fn t with
            | Some callback => lift_world (call_callback callback (fn t) ins)
            | None => ret true
            end s1) as [proceed s2|?|] eqn:Hcb; try done.
  assert (proceed = true) as ->.
  { destruct (function_callbacks (task s1) !! fn t) as [cb|].
    - unfold lift_world in Hcb.
      destruct (call_callback cb (fn t) ins (world s1)) as [b w|?|] eqn:Hc; try done.
      inversion Hcb; subst. destruct proceed; [done|]. by apply Hacc in Hc.
    - by inversion Hcb. }
  frame_of Hcb callback_frame. destruct Hframe as (Hq2 & Ht2 & Hl2).
  simpl in Hs. unfold bind at 1, modify at 1 in Hs. unfold bind at 1 in Hs.
  destruct (lift_world (Function_apply (fn t) ins) (log (ev_apply (fn t)) s2))
    as [outs s3|?|] eqn:Happ; try done.
  frame_of Happ (@lift_world_frame (list (option ptr))).
  destruct Hframe as (Hq3 & Ht3 & Hl3).
  frame_of Hs call_post_hooks_frame. destruct Hframe as (Hq4 & Ht4 & Hl4).
  simpl in *. congruence.
Qed.

Lemma ready_queue_cases device (σ : Engine W IB) :
  (∃ q, ready_queue device σ = Ok q σ ∧ (q < length (ready_queues σ))%nat) ∨
  (∃ e, ready_queue device σ = Throw e σ).
Proof.
  unfold ready_queue.
  destruct ((0 <=? device + 1) && (device + 1 <? Z.of_nat (length (ready_queues σ))))
    eqn:Hd.
  - left. eexists. split; [reflexivity|].
    apply andb_true_iff in Hd as [H0 H1]. lia.
  - right. by eexists.
Qed.

Lemma push_front_queued q (item : FunctionTask IB) (σ : Engine W IB) :
  (q < length (ready_queues σ))%nat →
  ∃ σ', push_front q item σ = Ok tt σ' ∧
        queued σ' ≡ₚ fn item :: queued σ ∧
        trace σ' = trace σ ∧ world σ' = world σ ∧
        length (ready_queues σ') = length (ready_queues σ) ∧
        task σ' = set_outstanding_tasks
                    (uint64_wrap (outstanding_tasks (task σ) + 1)) (task σ).
Proof.
  intros Hq. unfold push_front, modify. eexists. split; [reflexivity|].
  unfold queued. simpl. split; [by apply queued_alter_cons|].
  repeat split. by rewrite length_alter.
Qed.

Lemma waiting_delete F G (σ σ' : Engine W IB) :
  dependencies (task σ') = delete G (dependencies (task σ)) →
  waiting F σ' = if decide (G = F) then 0%nat else waiting F σ.
Proof.
  intros Hd. unfold waiting. rewrite Hd. case_decide.
  - subst. by rewrite lookup_delete_eq.
  - by rewrite lookup_delete_ne.
Qed.

Lemma waiting_insert F G n (σ σ' : Engine W IB) :
  dependencies (task σ') = <[G := n]> (dependencies (task σ)) →
  waiting F σ' = if decide (G = F) then 1%nat else waiting F σ.
Proof.
  intros Hd. unfold waiting. rewrite Hd. case_decide.
  - subst. by rewrite lookup_insert_eq.
  - by rewrite lookup_insert_ne.
Qed.

Ltac thrown_state Hthrow :=
  match goal with
  | |- context [waiting _ ?s] =>
      apply (Hthrow s); [done | done | done | first [by left | right; by eexists]]
  end.

(** What one round of the output loop does to the observables. *)
Lemma deliver_spec output (edge : option ptr * Z) (σ : Engine W IB) :
  match deliver graph output edge σ with
  | Undefined => True
  | Throw _ σ' =>
      trace σ' = trace σ ∧ has_error (task σ') = has_error (task σ) ∧
      length (ready_queues σ') = length (ready_queues σ) ∧
      ∀ F, (pending F σ' + waiting F σ' ≤ pending F σ + waiting F σ)%nat
  | Ok _ σ' =>
      trace σ' = trace σ ∧ has_error (task σ') = has_error (task σ) ∧
      length (ready_queues σ') = length (ready_queues σ) ∧
      match edge.1 with
      | Some F =>
          if counted graph F then
            ∃ n, dependencies (task σ) !! F = Some n ∧
                 if int_wrap (n - 1) =? 0 then
                   dependencies (task σ') = delete F (dependencies (task σ)) ∧
                   queued σ' ≡ₚ F :: queued σ
                 else
                   dependencies (task σ')
                     = <[F := int_wrap (n - 1)]> (dependencies (task σ)) ∧
                   queued σ' ≡ₚ queued σ
          else dependencies (task σ') = dependencies (task σ) ∧ queued σ' ≡ₚ queued σ
      | None => dependencies (task σ') = dependencies (task σ) ∧ queued σ' ≡ₚ queued σ
      end
  end.
Proof.
  unfold deliver. destruct edge as [[F|] nr]; cbn [fst snd]; [|done].
  unfold counted.
  destruct (is_stochastic (fn_at graph F)) eqn:Hst; simpl.
  { rewrite andb_false_r. done. }
  destruct (is_executable (fn_at graph F)) eqn:Hex; simpl; [|done].
  unfold bind at 1, get at 1.
  destruct (dependencies (task σ) !! F) as [n|] eqn:Hn.
  2: { unfold bind, throw. simpl. repeat split; try done. }
  assert (Hw : waiting F σ = 1%nat) by (unfold waiting; by rewrite Hn).
  assert (Hthrow : ∀ σ' : Engine W IB,
            trace σ' = trace σ → has_error (task σ') = has_error (task σ) →
            ready_queues σ' = ready_queues σ →
            (dependencies (task σ') = delete F (dependencies (task σ)) ∨
             ∃ m, dependencies (task σ') = <[F := m]> (dependencies (task σ))) →
            trace σ' = trace σ ∧ has_error (task σ') = has_error (task σ) ∧
            length (ready_queues σ') = length (ready_queues σ) ∧
            ∀ F0, (pending F0 σ' + waiting F0 σ' ≤ pending F0 σ + waiting F0 σ)%nat).
  { intros σ' Ht He Hq Hd. repeat split; try done; [by rewrite Hq|].
    intros F0. assert (pending F0 σ' = pending F0 σ) as ->.
    { unfold pending, queued. by rewrite Hq. }
    destruct Hd as [Hd|[m Hd]].
    - rewrite (waiting_delete F0 F σ σ' Hd). case_decide; subst; lia.
    - rewrite (waiting_insert F0 F m σ σ' Hd). case_decide; subst; lia. }
  destruct (int_wrap (n - 1) =? 0) eqn:Hz;
    destruct (not_ready (task σ) !! F) as [ib0|] eqn:Hnr;
    unfold bind, modify, ret, lift_world; simpl;
    (destruct (InputBuffer_add _ nr output (world σ)) as [ib w|e w|] eqn:Hadd;
     simpl; [| |done]).
  - (* ready, buffer present *)
    match goal with
    | |- context [ready_queue ?d ?s] =>
        destruct (ready_queue_cases d s) as [(q & Hq & Hlt)|(e & Hq)]; rewrite Hq
    end.
    + simpl. repeat split; [by rewrite length_alter|].
      exists n. split; [done|]. rewrite Hz. split; [done|].
      unfold queued. simpl. by apply queued_alter_cons.
    + thrown_state Hthrow.
  - thrown_state Hthrow.
  - (* ready, no buffer yet *)
    match goal with
    | |- context [ready_queue ?d ?s] =>
        destruct (ready_queue_cases d s) as [(q & Hq & Hlt)|(e & Hq)]; rewrite Hq
    end.
    + unfold push_front, modify. simpl. repeat split; [by rewrite length_alter|].
      exists n. split; [done|]. rewrite Hz. split; [done|].
      unfold queued. simpl. by apply queued_alter_cons.
    + thrown_state Hthrow.
  - thrown_state Hthrow.
  - repeat split. exists n. split; [done|]. by rewrite Hz.
  - thrown_state Hthrow.
  - repeat split. exists n. split; [done|]. by rewrite Hz.
  - thrown_state Hthrow.
Qed.

(** A round of the output loop, however it ends, adds no call to come. *)
Lemma deliver_monotone output (edge : option ptr * Z) (σ σ' : Engine W IB) :
  state_of (deliver graph output edge σ) = Some σ' →
  trace σ' = trace σ ∧ has_error (task σ') = has_error (task σ) ∧
  length (ready_queues σ') = length (ready_queues σ) ∧
  ∀ F, (pending F σ' + waiting F σ' ≤ pending F σ + waiting F σ)%nat.
Proof.
  intros Hs. pose proof (deliver_spec output edge σ) as Hspec.
  destruct (deliver graph output edge σ) as [[] σ1|e σ1|]; simpl in Hs;
    inversion Hs; subst; [|done].
  destruct Hspec as (Ht & He & Hl & Hcase). repeat split; try done.
  intros F0.
  assert (Hsame : dependencies (task σ') = dependencies (task σ) ∧
                  queued σ' ≡ₚ queued σ →
                  (pending F0 σ' + waiting F0 σ' ≤ pending F0 σ + waiting F0 σ)%nat).
  { intros [Hd Hq]. rewrite (pending_perm F0 σ σ' Hq). unfold waiting.
    rewrite Hd. lia. }
  destruct edge as [[F|] nr]; cbn [fst] in Hcase; [|by apply Hsame].
  destruct (counted graph F); [|by apply Hsame].
  destruct Hcase as (n & Hn & Hcase).
  assert (Hw : waiting F σ = 1%nat) by (unfold waiting; by rewrite Hn).
  destruct (int_wrap (n - 1) =? 0); destruct Hcase as [Hd Hq].
  - rewrite (pending_cons F0 F σ σ' Hq), (waiting_delete F0 F σ σ' Hd).
    case_decide; subst; lia.
  - rewrite (pending_perm F0 σ σ' Hq), (waiting_insert F0 F _ σ σ' Hd).
    case_decide; subst; lia.
Qed.

Lemma deliver_all_monotone outputs : ∀ (edges : list (option ptr * Z)) (σ σ' : Engine W IB),
  state_of (deliver_all graph outputs edges σ) = Some σ' →
  trace σ' = trace σ ∧ has_error (task σ') = has_error (task σ) ∧
  length (ready_queues σ') = length (ready_queues σ) ∧
  ∀ F, (pending F σ' + waiting F σ' ≤ pending F σ + waiting F σ)%nat.
Proof.
  induction outputs as [|output outputs IH]; intros edges σ σ' Hs.
  - simpl in Hs. inversion Hs. repeat split; try done.
  - destruct edges as [|edge edges]; simpl in Hs.
    { inversion Hs. repeat split; try done. }
    apply bind_state_of in Hs as [([] & s1 & Hm & Hs)|(e & Hm)].
    + frame_of Hm deliver_monotone. destruct Hframe as (Ht1 & He1 & Hl1 & Hm1).
      apply IH in Hs as (Ht2 & He2 & Hl2 & Hm2).
      repeat split; try congruence. intros F.
      specialize (Hm1 F). specialize (Hm2 F). lia.
    + frame_of Hm deliver_monotone. done.
Qed.

Lemma applications_snoc F e (σ σ' : Engine W IB) :
  trace σ' = trace σ ++ [e] →
  applications F σ' =
    (applications F σ + if decide (e = ev_apply F) then 1 else 0)%nat.
Proof.
  intros Ht. unfold applications. rewrite Ht, filter_app, length_app.
  rewrite filter_cons, filter_nil. by case_decide.
Qed.

Lemma applications_same F (σ σ' : Engine W IB) :
  trace σ' = trace σ → applications F σ' = applications F σ.
Proof. unfold applications. by intros ->. Qed.

Lemma release_frame (t : FunctionTask IB) (σ σ' : Engine W IB) :
  state_of ((if negb (keep_graph (task σ)) then
               do modify (log (ev_releaseVariables (fn t))) in
               lift_world (Function_releaseVariables (fn t))
             else ret tt) σ) = Some σ' →
  ready_queues σ' = ready_queues σ ∧ task σ' = task σ ∧
  ∀ F, applications F σ' = applications F σ.
Proof.
  destruct (keep_graph (task σ)); simpl; intros Hs.
  - inversion Hs. done.
  - unfold bind at 1, modify at 1 in Hs.
    apply lift_world_frame in Hs as (Hq & Ht & Hl). simpl in *.
    repeat split; try done. intros F.
    rewrite (applications_snoc F (ev_releaseVariables (fn t)) σ σ' Hl).
    rewrite decide_False by done. lia.
Qed.

(** However [evaluate_function] ends, it has called [apply] at most once,
    on the Function of its task, and has added no call to come. *)
Lemma evaluate_function_monotone (t : FunctionTask IB) (σ σ' : Engine W IB) :
  state_of (evaluate_function graph t σ) = Some σ' →
  has_error (task σ') = has_error (task σ) ∧
  length (ready_queues σ') = length (ready_queues σ) ∧
  ∀ F, (applications F σ' ≤ applications F σ + if decide (fn t = F) then 1 else 0)%nat ∧
       (pending F σ' + waiting F σ' ≤ pending F σ + waiting F σ)%nat.
Proof.
  unfold evaluate_function. intros Hs.
  assert (Hcall : ∀ s1 : Engine W IB,
            state_of (call_function graph t σ) = Some s1 →
            has_error (task s1) = has_error (task σ) ∧
            length (ready_queues s1) = length (ready_queues σ) ∧
            ∀ F, (applications F s1 ≤ applications F σ + if decide (fn t = F) then 1 else 0)%nat ∧
                 (pending F s1 + waiting F s1 = pending F σ + waiting F σ)%nat).
  { intros s1 H1. apply call_function_frame in H1 as (Hq & Ht & Hl).
    rewrite Ht, Hq. repeat split; try done.
    - destruct Hl as [Hl|Hl].
      + rewrite (applications_same F σ s1 Hl). lia.
      + rewrite (applications_snoc F _ σ s1 Hl).
        repeat case_decide; try lia. congruence.
    - unfold pending, queued, waiting. by rewrite Hq, Ht. }
  apply bind_state_of in Hs as [(outs & s1 & Hm & Hs)|(e & Hm)].
  2: { frame_of Hm Hcall. destruct Hframe as (? & ? & HF).
       repeat split; try done; destruct (HF F); lia. }
  frame_of Hm Hcall. destruct Hframe as (He1 & Hl1 & HF1).
  unfold bind at 1, get at 1 in Hs.
  apply bind_state_of in Hs as [([] & s2 & Hr & Hs)|(e & Hr)].
  2: { frame_of Hr release_frame. destruct Hframe as (Hq2 & Ht2 & Ha2).
       rewrite Ht2, Hq2. repeat split; try done.
       - rewrite Ha2. by destruct (HF1 F).
       - destruct (HF1 F) as [_ <-]. unfold pending, queued, waiting.
         by rewrite Hq2, Ht2. }
  frame_of Hr release_frame. destruct Hframe as (Hq2 & Ht2 & Ha2).
  assert (HF2 : ∀ F, (pending F s2 + waiting F s2 = pending F σ + waiting F σ)%nat).
  { intros F. destruct (HF1 F) as [_ <-]. unfold pending, queued, waiting.
    by rewrite Hq2, Ht2. }
  destruct (negb (length outs =? length (next_functions (fn_at graph (fn t))))%nat).
  - simpl in Hs. inversion Hs; subst. rewrite Ht2, Hq2. repeat split; try done.
    + rewrite Ha2. by destruct (HF1 F).
    + by rewrite HF2.
  - apply deliver_all_monotone in Hs as (Ht3 & He3 & Hl3 & Hm3).
    rewrite He3, Hl3, Ht2, Hq2. repeat split; try done.
    + rewrite (applications_same F s2 σ' Ht3), Ha2. by destruct (HF1 F).
    + specialize (Hm3 F). rewrite <- HF2. done.
Qed.

Lemma pop_back_spec q (σ σ1 : Engine W IB) (t : FunctionTask IB) :
  pop_back q σ = Some (t, σ1) →
  queued σ ≡ₚ fn t :: queued σ1 ∧ task σ1 = task σ ∧ trace σ1 = trace σ ∧
  length (ready_queues σ1) = length (ready_queues σ).
Proof.
  unfold pop_back. destruct (ready_queues σ !! q) as [queue|] eqn:Hq; [|done].
  destruct (deque_pop_back queue) as [[item queue']|] eqn:Hpop; [|done].
  intros Hs. inversion Hs; subst. unfold queued. simpl.
  split; [by eapply queued_insert_pop|]. repeat split. by rewrite length_insert.
Qed.

Lemma load_finish F (σ : Engine W IB) (f : GraphTask IB → GraphTask IB) :
  dependencies (f (task σ)) = dependencies (task σ) →
  load F (set_task f σ) = load F σ.
Proof. intros Hd. unfold load, waiting. simpl. by rewrite Hd. Qed.

Lemma load_on_exception F e (σ : Engine W IB) :
  load F (thread_on_exception e σ) = load F σ.
Proof. unfold thread_on_exception. by destruct (has_error (task σ)). Qed.

(** A round of a worker never adds to the load of a Function, and a
    recorded error stays recorded. *)
Lemma thread_main_step_monotone q (σ σ' : Engine W IB) :
  thread_main_step graph q σ = steps σ' →
  (∀ F, (load F σ' ≤ load F σ)%nat) ∧
  (has_error (task σ) = true → has_error (task σ') = true) ∧
  length (ready_queues σ') = length (ready_queues σ).
Proof.
  unfold thread_main_step.
  destruct (pop_back q σ) as [[t σ1]|] eqn:Hpop; [|done].
  apply pop_back_spec in Hpop as (Hq & Ht & Hl & Hlen).
  assert (Hload1 : ∀ F, load F σ = (load F σ1 + if decide (fn t = F) then 1 else 0)%nat).
  { intros F. unfold load. rewrite (pending_cons F (fn t) σ1 σ Hq).
    rewrite (applications_same F σ σ1 Hl). unfold waiting. rewrite Ht. lia. }
  destruct (has_error (task σ1)) eqn:Herr.
  { intros Hs. inversion Hs; subst. split; [|split; [done|done]].
    intros F. rewrite load_finish, Hload1 by done. lia. }
  destruct (evaluate_function graph t σ1) as [[] σ2|e σ2|] eqn:Hev; [| |done].
  - frame_of Hev evaluate_function_monotone. destruct Hframe as (He & Hl2 & HF).
    intros Hs. inversion Hs; subst. split; [|split].
    + intros F. rewrite load_finish, Hload1 by done. destruct (HF F). unfold load in *. lia.
    + rewrite <- Ht. congruence.
    + simpl. congruence.
  - frame_of Hev evaluate_function_monotone. destruct Hframe as (He & Hl2 & HF).
    intros Hs. inversion Hs; subst. split; [|split].
    + intros F. rewrite load_finish, load_on_exception, Hload1 by done.
      destruct (HF F). unfold load in *. lia.
    + rewrite <- Ht. congruence.
    + unfold thread_on_exception. destruct (has_error (task σ2)); simpl; congruence.
Qed.

Lemma run_monotone schedule : ∀ (σ σ' : Engine W IB),
  run graph schedule σ = Some σ' →
  (∀ F, (load F σ' ≤ load F σ)%nat) ∧
  (has_error (task σ) = true → has_error (task σ') = true).
Proof.
  induction schedule as [|q schedule IH]; intros σ σ' Hrun; simpl in Hrun.
  - inversion Hrun. done.
  - destruct (thread_main_step graph q σ) as [|σ1|] eqn:Hstep; [by apply IH| |done].
    apply thread_main_step_monotone in Hstep as (Hl1 & He1 & _).
    apply IH in Hrun as (Hl2 & He2). split; [|auto].
    intros F. specialize (Hl1 F). specialize (Hl2 F). lia.
Qed.

(** A round of the output loop that returns keeps the calls to come. *)
Lemma deliver_balance output (edge : option ptr * Z) (σ σ' : Engine W IB) :
  deliver graph output edge σ = Ok tt σ' →
  ∀ F, (pending F σ' + waiting F σ' = pending F σ + waiting F σ)%nat.
Proof.
  intros Hs F0. pose proof (deliver_spec output edge σ) as Hspec.
  rewrite Hs in Hspec. destruct Hspec as (Ht & He & Hl & Hcase).
  assert (Hsame : dependencies (task σ') = dependencies (task σ) ∧
                  queued σ' ≡ₚ queued σ →
                  (pending F0 σ' + waiting F0 σ' = pending F0 σ + waiting F0 σ)%nat).
  { intros [Hd Hq]. rewrite (pending_perm F0 σ σ' Hq). unfold waiting.
    by rewrite Hd. }
  destruct edge as [[F|] nr]; cbn [fst] in Hcase; [|by apply Hsame].
  destruct (counted graph F); [|by apply Hsame].
  destruct Hcase as (n & Hn & Hcase).
  assert (Hw : waiting F σ = 1%nat) by (unfold waiting; by rewrite Hn).
  destruct (int_wrap (n - 1) =? 0); destruct Hcase as [Hd Hq].
  - rewrite (pending_cons F0 F σ σ' Hq), (waiting_delete F0 F σ σ' Hd).
    case_decide; subst; lia.
  - rewrite (pending_perm F0 σ σ' Hq), (waiting_insert F0 F _ σ σ' Hd).
    case_decide; subst; lia.
Qed.

(** A round of the output loop that returns takes the edge off the count
    of its target. *)
Lemma deliver_counts output (edge : option ptr * Z) (σ σ' : Engine W IB) (c : ptr → nat) :
  deliver graph output edge σ = Ok tt σ' →
  (∀ F, Z.of_nat (c F) ≤ int_max) →
  (∀ F, dependencies (task σ) !! F = dependency_entry graph (c F) F) →
  ∀ F, dependencies (task σ') !! F
       = dependency_entry graph (c F - edges_to F [edge]) F.
Proof.
  intros Hs Hmax Hdeps F0. pose proof (deliver_spec output edge σ) as Hspec.
  rewrite Hs in Hspec. destruct Hspec as (Ht & He & Hl & Hcase).
  rewrite edges_to_single.
  destruct edge as [[F|] nr]; cbn [fst] in *.
  2: { destruct Hcase as [-> _]. rewrite Hdeps. by rewrite Nat.sub_0_r. }
  destruct (counted graph F) eqn:Hc.
  2: { destruct Hcase as [-> _]. rewrite Hdeps. case_decide as Hf.
       - inversion Hf; subst. by rewrite !dependency_entry_uncounted.
       - by rewrite Nat.sub_0_r. }
  destruct Hcase as (n & Hn & Hcase).
  pose proof (Hdeps F) as HF. rewrite Hn in HF.
  unfold dependency_entry in HF. rewrite Hc in HF. simpl in HF.
  case_bool_decide as Hpos; [|done]. inversion HF as [Hn'].
  rewrite int_wrap_small in Hn' by (specialize (Hmax F); unfold int_max in *; lia).
  subst n.
  assert (Hwrap : int_wrap (Z.of_nat (c F) - 1) = Z.of_nat (c F - 1)).
  { rewrite int_wrap_small; [lia|]. specialize (Hmax F). unfold int_max in *. lia. }
  rewrite Hwrap in Hcase.
  destruct (Z.of_nat (c F - 1) =? 0) eqn:Hz; destruct Hcase as [Hd _]; rewrite Hd.
  - apply Z.eqb_eq in Hz. case_decide as Hf.
    + inversion Hf; subst. rewrite lookup_delete_eq. unfold dependency_entry.
      rewrite bool_decide_eq_false_2 by lia. by rewrite andb_false_r.
    + rewrite lookup_delete_ne by congruence. rewrite Hdeps. by rewrite Nat.sub_0_r.
  - apply Z.eqb_neq in Hz. case_decide as Hf.
    + inversion Hf; subst. rewrite lookup_insert_eq. unfold dependency_entry.
      rewrite Hc. simpl. rewrite bool_decide_eq_true_2 by lia.
      f_equal. rewrite int_wrap_small; [done|].
      specialize (Hmax F0). unfold int_max in *. lia.
    + rewrite lookup_insert_ne by congruence. rewrite Hdeps. by rewrite Nat.sub_0_r.
Qed.

Lemma deliver_all_Ok outputs : ∀ (edges : list (option ptr * Z)) (σ σ' : Engine W IB)
    (c : ptr → nat),
  length outputs = length edges →
  deliver_all graph outputs edges σ = Ok tt σ' →
  (∀ F, Z.of_nat (c F) ≤ int_max) →
  (∀ F, dependencies (task σ) !! F = dependency_entry graph (c F) F) →
  (∀ F, dependencies (task σ') !! F
        = dependency_entry graph (c F - edges_to F edges) F) ∧
  (∀ F, (pending F σ' + waiting F σ' = pending F σ + waiting F σ)%nat).
Proof.
  induction outputs as [|output outputs IH]; intros edges σ σ' c Hlen Hs Hmax Hdeps.
  - destruct edges; [|done]. simpl in Hs. inversion Hs; subst. split; [|done].
    intros F. unfold edges_to. rewrite filter_nil. simpl.
    rewrite Hdeps. by rewrite Nat.sub_0_r.
  - destruct edges as [|edge edges]; [done|]. simpl in Hs, Hlen.
    unfold bind in Hs.
    destruct (deliver graph output edge σ) as [[] s1|?|] eqn:Hd; try done.
    pose proof (deliver_counts output edge σ s1 c Hd Hmax Hdeps) as Hc1.
    pose proof (deliver_balance output edge σ s1 Hd) as Hb1.
    destruct (IH edges s1 σ' (λ F, (c F - edges_to F [edge])%nat)) as [Hc2 Hb2];
      try done; [lia| |].
    { intros F. specialize (Hmax F). lia. }
    split.
    + intros F. rewrite Hc2. f_equal.
      change (edge :: edges) with ([edge] ++ edges). rewrite edges_to_app. lia.
    + intros F. rewrite Hb2. apply Hb1.
Qed.

(** A return of [evaluate_function], with no callback rejecting: one more
    call of [apply], the calls to come kept, and the edges of the Function
    taken off the counts. *)
Lemma evaluate_function_Ok (t : FunctionTask IB) (σ σ' : Engine W IB) (c : ptr → nat) :
  callbacks_accept →
  evaluate_function graph t σ = Ok tt σ' →
  (∀ F, Z.of_nat (c F) ≤ int_max) →
  (∀ F, dependencies (task σ) !! F = dependency_entry graph (c F) F) →
  (∀ F, applications F σ' = (applications F σ + if decide (fn t = F) then 1 else 0)%nat) ∧
  (∀ F, (pending F σ' + waiting F σ' = pending F σ + waiting F σ)%nat) ∧
  (∀ F, dependencies (task σ') !! F
        = dependency_entry graph
            (c F - edges_to F (next_functions (fn_at graph (fn t)))) F).
Proof.
  intros Hacc Hs Hmax Hdeps. unfold evaluate_function in Hs.
  unfold bind at 1 in Hs.
  destruct (call_function graph t σ) as [outs s1|?|] eqn:Hcall; try done.
  pose proof (call_function_Ok t σ s1 outs Hacc Hcall) as Htr1.
  frame_of Hcall call_function_frame. destruct Hframe as (Hq1 & Ht1 & _).
  unfold bind at 1, get at 1 in Hs. unfold bind at 1 in Hs.
  match type of Hs with
  | match ?m s1 with _ => _ end = _ => destruct (m s1) as [[] s2|?|] eqn:Hrel; try done
  end.
  frame_of Hrel release_frame. destruct Hframe as (Hq2 & Ht2 & Ha2).
  destruct (length outs =? length (next_functions (fn_at graph (fn t))))%nat eqn:Hlen;
    simpl in Hs; [|done].
  apply Nat.eqb_eq in Hlen.
  destruct (deliver_all_Ok outs _ s2 σ' c Hlen Hs Hmax) as [Hc Hb].
  { intros F. rewrite Ht2, Ht1. apply Hdeps. }
  frame_of Hs deliver_all_monotone. destruct Hframe as (Ht3 & _).
  split; [|split; [|done]].
  - intros F. rewrite (applications_same F s2 σ' Ht3), Ha2.
    rewrite (applications_snoc F _ σ s1 Htr1).
    repeat case_decide; try done; congruence.
  - intros F. rewrite Hb. unfold pending, queued, waiting.
    by rewrite Hq2, Ht2, Hq1, Ht1.
Qed.

Lemma filter_agree (P P' : ptr → Prop)
    `{∀ x, Decision (P x)} `{∀ x, Decision (P' x)} (E : list ptr) :
  (∀ y, y ∈ E → (P y ↔ P' y)) → filter P E = filter P' E.
Proof.
  induction E as [|x E IH]; intros Hag; [done|].
  rewrite !filter_cons. rewrite IH by (intros y Hy; apply Hag; by right).
  destruct (decide (P x)) as [HP|HP].
  - rewrite decide_True; [done|]. apply Hag; [left | done].
  - rewrite decide_False; [done|]. intros HP'. apply HP, Hag; [left | done].
Qed.

Lemma incoming_filter_remove (P P' : ptr → Prop)
    `{∀ x, Decision (P x)} `{∀ x, Decision (P' x)} (E : list ptr) g F :
  NoDup E → g ∈ E → P g → (∀ x, P' x ↔ P x ∧ x ≠ g) →
  incoming graph (filter P E) F
  = (incoming graph (filter P' E) F
     + edges_to F (next_functions (fn_at graph g)))%nat.
Proof.
  intros Hnd Hg HPg HP'. unfold incoming.
  induction E as [|x E IH]; [by apply elem_of_nil in Hg|].
  apply NoDup_cons in Hnd as [Hx Hnd]. rewrite !filter_cons.
  destruct (decide (x = g)) as [->|Hne].
  - rewrite decide_True by done. rewrite decide_False by (rewrite HP'; tauto).
    simpl. assert (filter P' E = filter P E) as ->; [|lia].
    apply filter_agree. intros y Hy. rewrite HP'.
    split; [tauto|]. intros HPy. split; [done|]. intros ->. done.
  - apply elem_of_cons in Hg as [Hg|Hg]; [congruence|].
    specialize (IH Hnd Hg).
    destruct (decide (P x)) as [HPx|HPx].
    + rewrite decide_True by (rewrite HP'; tauto). simpl. lia.
    + rewrite decide_False by (rewrite HP'; tauto). done.
Qed.

Lemma incoming_filter_le (P : ptr → Prop) `{∀ x, Decision (P x)} (E : list ptr) F :
  (incoming graph (filter P E) F ≤ incoming graph E F)%nat.
Proof.
  unfold incoming. induction E as [|x E IH]; [done|].
  rewrite filter_cons. case_decide; simpl; lia.
Qed.

(** A round of a worker that records no error keeps [live_inv]. *)
(** A round that ends with no error recorded has applied one Function of
    [E] that had not been applied, and keeps the invariant. *)
Lemma thread_main_step_progress q (σ σ' : Engine W IB) (E : list ptr) :
  callbacks_accept →
  NoDup E →
  (∀ F, Z.of_nat (incoming graph E F) ≤ int_max) →
  thread_main_step graph q σ = steps σ' →
  has_error (task σ') = false →
  live_inv graph E σ →
  live_inv graph E σ' ∧
  ∃ F, F ∈ E ∧ applications F σ = 0%nat ∧
       ∀ G, applications G σ'
            = (applications G σ + if decide (F = G) then 1 else 0)%nat.
Proof.
  intros Hacc Hnd Hmax Hstep Herr' [Hload Honly Hdeps].
  pose proof (thread_main_step_monotone q σ σ' Hstep) as (Hmono & _ & _).
  unfold thread_main_step in Hstep.
  destruct (pop_back q σ) as [[t σ1]|] eqn:Hpop; [|done].
  apply pop_back_spec in Hpop as (Hq & Ht & Hl & Hlen).
  destruct (has_error (task σ1)) eqn:Herr.
  { inversion Hstep; subst. simpl in Herr'. congruence. }
  destruct (evaluate_function graph t σ1) as [[] σ2|e σ2|] eqn:Hev; [| |done].
  2: { inversion Hstep; subst. simpl in Herr'. unfold thread_on_exception in Herr'.
       frame_of Hev evaluate_function_monotone. destruct Hframe as (He & _).
       rewrite He, Herr in Herr'. simpl in Herr'. done. }
  inversion Hstep; subst. clear Hstep.
  assert (HgE : fn t ∈ E).
  { apply Honly. unfold load. rewrite (pending_cons (fn t) (fn t) σ1 σ Hq).
    rewrite decide_True by done. lia. }
  assert (Hg0 : applications (fn t) σ = 0%nat).
  { specialize (Hload _ HgE). unfold load in Hload.
    rewrite (pending_cons (fn t) (fn t) σ1 σ Hq) in Hload.
    rewrite decide_True in Hload by done. lia. }
  destruct (evaluate_function_Ok t σ1 σ2 (remaining graph E σ) Hacc Hev)
    as (Happ & Hbal & Hcnt).
  { intros F. specialize (Hmax F). unfold remaining.
    pose proof (incoming_filter_le (λ g, applications g σ = 0%nat) E F). lia. }
  { intros F. rewrite Ht. apply Hdeps. }
  assert (Happ' : ∀ F, applications F σ2
            = (applications F σ + if decide (fn t = F) then 1 else 0)%nat).
  { intros F. rewrite Happ. by rewrite (applications_same F σ σ1 Hl). }
  assert (Hrem : ∀ F, remaining graph E σ F
            = (remaining graph E σ2 F
               + edges_to F (next_functions (fn_at graph (fn t))))%nat).
  { intros F. unfold remaining.
    apply (incoming_filter_remove (λ g, applications g σ = 0%nat)
             (λ g, applications g σ2 = 0%nat)); try done.
    intros x. rewrite Happ'. case_decide as Hx.
    - split; [lia|]. intros [_ Hx']. by subst.
    - split; [|lia]. intros Hz. split; [lia | congruence]. }
  split; [|by exists (fn t)].
  split.
  - intros F HF. rewrite load_finish by done. unfold load.
    specialize (Hload F HF). unfold load in Hload.
    rewrite (pending_cons F (fn t) σ1 σ Hq) in Hload.
    rewrite Happ'. specialize (Hbal F).
    assert (waiting F σ1 = waiting F σ) by (unfold waiting; by rewrite Ht).
    lia.
  - intros F HF. apply Honly. specialize (Hmono F). lia.
  - intros F. simpl. rewrite Hcnt. f_equal.
    change (remaining graph E (set_task _ σ2) F) with (remaining graph E σ2 F).
    rewrite (Hrem F). lia.
Qed.

Lemma thread_main_step_live q (σ σ' : Engine W IB) (E : list ptr) :
  callbacks_accept →
  NoDup E →
  (∀ F, Z.of_nat (incoming graph E F) ≤ int_max) →
  thread_main_step graph q σ = steps σ' →
  has_error (task σ') = false →
  live_inv graph E σ →
  live_inv graph E σ'.
Proof.
  intros Hacc Hnd Hmax Hstep Herr Hinv.
  by destruct (thread_main_step_progress q σ σ' E Hacc Hnd Hmax Hstep Herr Hinv).
Qed.

Lemma run_live schedule : ∀ (σ σ' : Engine W IB) (E : list ptr),
  callbacks_accept →
  NoDup E →
  (∀ F, Z.of_nat (incoming graph E F) ≤ int_max) →
  run graph schedule σ = Some σ' →
  has_error (task σ') = false →
  live_inv graph E σ →
  live_inv graph E σ'.
Proof.
  induction schedule as [|q schedule IH]; intros σ σ' E Hacc Hnd Hmax Hrun Herr Hinv;
    simpl in Hrun.
  - by inversion Hrun; subst.
  - destruct (thread_main_step graph q σ) as [|σ1|] eqn:Hstep; [by eapply IH| |done].
    assert (Herr1 : has_error (task σ1) = false).
    { destruct (has_error (task σ1)) eqn:He; [|done].
      apply run_monotone in Hrun as [_ Hkeep]. rewrite Hkeep in Herr; done. }
    eapply IH; try done. by eapply thread_main_step_live.
Qed.

Lemma ranked_edge rank g f input_nr :
  ranked graph rank = true →
  (Some f, input_nr) ∈ next_functions (fn_at graph g) →
  (rank g < rank f)%nat.
Proof.
  unfold ranked, fn_at. intros Hr He.
  destruct (graph !! g) as [G|] eqn:HG; simpl in He; [|by apply elem_of_nil in He].
  rewrite forallb_forall in Hr.
  assert (HgG : In (g, G) (map_to_list graph)).
  { apply list_elem_of_In. by apply elem_of_map_to_list. }
  specialize (Hr (g, G) HgG). simpl in Hr. rewrite forallb_forall in Hr.
  apply list_elem_of_In in He. specialize (Hr (Some f, input_nr) He).
  simpl in Hr. by apply Nat.ltb_lt.
Qed.

Lemma incoming_pos (srcs : list ptr) F :
  (0 < incoming graph srcs F)%nat →
  ∃ g input_nr, g ∈ srcs ∧ (Some F, input_nr) ∈ next_functions (fn_at graph g).
Proof.
  unfold incoming. induction srcs as [|x srcs IH]; simpl; [lia|]. intros Hpos.
  destruct (decide (0 < edges_to F (next_functions (fn_at graph x)))%nat) as [Hx|Hx].
  - unfold edges_to in Hx.
    destruct (filter (λ e : option ptr * Z, e.1 = Some F)
                (next_functions (fn_at graph x))) as [|[e1 e2] l] eqn:Hf;
      [simpl in Hx; lia|].
    assert (Hin : (e1, e2) ∈ filter (λ e : option ptr * Z, e.1 = Some F)
                    (next_functions (fn_at graph x))) by (rewrite Hf; left).
    apply list_elem_of_filter in Hin as [He Hin]. simpl in He. subst e1.
    exists x, e2. split; [left | done].
  - destruct IH as (g & nr & Hg & He); [lia|].
    exists g, nr. split; [by right | done].
Qed.

(** Once the queues are empty and no error has been recorded, every
    Function of [E] has been applied. *)
Lemma drained_applied (σ : Engine W IB) (E : list ptr) rank :
  ranked graph rank = true →
  live_inv graph E σ →
  queued σ = [] →
  ∀ F, F ∈ E → applications F σ = 1%nat.
Proof.
  intros Hrank [Hload Honly Hdeps] Hq F.
  remember (rank F) as k eqn:Hk. revert F Hk.
  induction k as [k IH] using lt_wf_ind. intros F Hk HF.
  specialize (Hload F HF) as HlF. unfold load in HlF.
  assert (Hp : pending F σ = 0%nat).
  { unfold pending. rewrite Hq. by rewrite filter_nil. }
  destruct (dependencies (task σ) !! F) as [n|] eqn:Hn.
  2: { unfold waiting in HlF. rewrite Hn in HlF. lia. }
  exfalso. rewrite Hdeps in Hn. unfold dependency_entry in Hn.
  destruct (counted graph F); simpl in Hn; [|done].
  case_bool_decide as Hpos; [|done].
  apply incoming_pos in Hpos as (g & nr & Hg & He).
  apply list_elem_of_filter in Hg as [Hg0 HgE].
  assert (Hlt : (rank g < k)%nat) by (subst k; by eapply ranked_edge).
  specialize (IH (rank g) Hlt g eq_refl HgE). lia.
Qed.

Lemma queued_pop (σ : Engine W IB) :
  queued σ ≠ [] → ∃ q t σ1, pop_back q σ = Some (t, σ1).
Proof.
  unfold queued, pop_back. intros Hne.
  assert (Hq : ∃ q queue, ready_queues σ !! q = Some queue ∧ queue ≠ []).
  { induction (ready_queues σ) as [|queue qs IH]; [done|].
    destruct queue as [|t queue].
    - destruct (IH Hne) as (q & queue' & Hq & Hn). by exists (S q), queue'.
    - by exists 0%nat, (t :: queue). }
  destruct Hq as (q & queue & Hq & Hn). exists q. rewrite Hq.
  destruct (deque_pop_back queue) as [[item queue']|] eqn:Hpop; [by eexists _, _|].
  by apply deque_pop_back_None in Hpop.
Qed.

Lemma filter_length_lt {A} (P Q : A → Prop) `{∀ x, Decision (P x)} `{∀ x, Decision (Q x)}
    (l : list A) (a : A) :
  (∀ x, Q x → P x) → a ∈ l → P a → ¬ Q a →
  (length (filter Q l) < length (filter P l))%nat.
Proof.
  intros HQP Ha HPa HQa.
  assert (Hle : ∀ l', (length (filter Q l') ≤ length (filter P l'))%nat).
  { induction l' as [|x l' IH]; [done|]. rewrite !filter_cons.
    destruct (decide (Q x)) as [HQ|HQ].
    - rewrite decide_True by auto. simpl. lia.
    - destruct (decide (P x)); simpl; lia. }
  induction l as [|x l IH]; [by apply elem_of_nil in Ha|].
  rewrite !filter_cons. apply elem_of_cons in Ha as [<-|Ha].
  - destruct (decide (Q a)); [done|]. destruct (decide (P a)); [|done].
    specialize (Hle l). simpl. lia.
  - specialize (IH Ha). destruct (decide (Q x)) as [HQ|HQ].
    + rewrite decide_True by auto. simpl. lia.
    + destruct (decide (P x)); simpl; lia.
Qed.

(** Once an error is recorded the workers only take tasks off the queues,
    and the queues drain. *)
Lemma run_drains_error n : ∀ σ : Engine W IB,
  (length (queued σ) ≤ n)%nat →
  has_error (task σ) = true →
  ∃ schedule σ', run graph schedule σ = Some σ' ∧ queued σ' = [].
Proof.
  induction n as [|n IH]; intros σ Hlen Herr.
  - exists [], σ. split; [done|]. by apply nil_length_inv, Nat.le_0_r.
  - destruct (decide (queued σ = [])) as [Hq|Hq]; [by exists [], σ|].
    destruct (queued_pop σ Hq) as (q & t & σ1 & Hpop).
    pose proof (pop_back_spec q σ σ1 t Hpop) as (Hperm & Ht & _).
    assert (Hstep : thread_main_step graph q σ
                    = steps (set_task (λ g, set_outstanding_tasks
                                              (uint64_wrap (outstanding_tasks g - 1)) g) σ1)).
    { unfold thread_main_step. rewrite Hpop, Ht, Herr. done. }
    destruct (IH (set_task (λ g, set_outstanding_tasks
                                   (uint64_wrap (outstanding_tasks g - 1)) g) σ1))
      as (schedule & σ' & Hrun & Hdone).
    + change (queued (set_task _ σ1)) with (queued σ1).
      apply Permutation_length in Hperm. simpl in Hperm. lia.
    + simpl. by rewrite Ht.
    + exists (q :: schedule), σ'. simpl. by rewrite Hstep.
Qed.

(** From a state that satisfies the invariant the workers can drain the
    queues, unless the code run for a Function has undefined behaviour:
    every round without an error applies one more Function of [E]. *)
Lemma run_drains_live (E : list ptr) n : ∀ σ : Engine W IB,
  callbacks_accept →
  NoDup E →
  (∀ F, Z.of_nat (incoming graph E F) ≤ int_max) →
  (length (filter (λ g, applications g σ = 0%nat) E) ≤ n)%nat →
  live_inv graph E σ →
  ∃ schedule,
    match run graph schedule σ with
    | Some σ' => queued σ' = []
    | None => True
    end.
Proof.
  induction n as [|n IH]; intros σ Hacc Hnd Hmax Hlen Hinv.
  all: destruct (decide (queued σ = [])) as [Hq|Hq]; [by exists []|].
  all: destruct (queued_pop σ Hq) as (q & t & σ1 & Hpop).
  all: destruct (thread_main_step graph q σ) as [|σ2|] eqn:Hstep.
  all: try (unfold thread_main_step in Hstep; rewrite Hpop in Hstep;
            repeat case_match; done).
  all: try (exists [q]; simpl; by rewrite Hstep).
  all: destruct (has_error (task σ2)) eqn:Herr.
  all: try (destruct (run_drains_error (length (queued σ2)) σ2) as (s & σ' & Hrun & Hdone);
            [done|done|]; exists (q :: s); simpl; by rewrite Hstep, Hrun).
  all: destruct (thread_main_step_progress q σ σ2 E Hacc Hnd Hmax Hstep Herr Hinv)
         as (Hinv2 & F & HF & HF0 & Happ).
  all: assert (Hlt : (length (filter (λ g, applications g σ2 = 0%nat) E)
                      < length (filter (λ g, applications g σ = 0%nat) E))%nat)
         by (apply (filter_length_lt _ _ E F); [intros x; rewrite Happ; lia|done|done|];
             rewrite Happ, decide_True by done; lia).
  - lia.
  - destruct (IH σ2) as (s & Hs); try done; [lia|].
    exists (q :: s). simpl. by rewrite Hstep.
Qed.

End RunProperties.

Section SetupProperties.
Context {W IB : Type} {R : Runtime W IB}.
Variable graph : gmap ptr Function.

Lemma any_edge_in_targets g f input_nr :
  (Some f, input_nr) ∈ next_functions (fn_at graph g) →
  f ∈ (list_to_set (edge_targets graph) : gset ptr).
Proof.
  intros He. apply elem_of_list_to_set. unfold edge_targets.
  assert (HG : graph !! g = Some (fn_at graph g)).
  { unfold fn_at in *. destruct (graph !! g); simpl in *; [done|].
    by apply elem_of_nil in He. }
  apply list_elem_of_In, in_concat.
  exists (omap fst (next_functions (fn_at graph g))). split.
  - apply in_map_iff. exists (g, fn_at graph g). split; [done|].
    by apply list_elem_of_In, elem_of_map_to_list.
  - apply list_elem_of_In, list_elem_of_omap. by exists (Some f, input_nr).
Qed.

Lemma size_difference_insert (T seen : gset ptr) f :
  f ∈ T → f ∉ seen →
  size (T ∖ seen) = S (size (T ∖ ({[f]} ∪ seen))).
Proof.
  intros HT Hs.
  assert (Heq : T ∖ seen = {[f]} ∪ T ∖ ({[f]} ∪ seen)).
  { apply set_eq. intros x.
    rewrite elem_of_union, !elem_of_difference, elem_of_union, elem_of_singleton.
    destruct (decide (x = f)) as [->|]; tauto. }
  rewrite Heq at 1. rewrite size_union, size_singleton; [done|].
  intros x. rewrite elem_of_singleton, elem_of_difference, elem_of_union,
    elem_of_singleton. tauto.
Qed.

Lemma fsf_edge_inv roots (σ0 : Engine W IB) st (σ : Engine W IB)
    stoch done g extra (edge : option ptr * Z) :
  (∀ f, edge.1 = Some f → (Some f, edge.2) ∈ next_functions (fn_at graph g)) →
  fsf_inv graph roots σ0 st σ stoch done [g] extra →
  match fsf_edge graph st edge σ with
  | Ok st' σ' =>
      (∃ stoch', fsf_inv graph roots σ0 st' σ' stoch' done [g] (extra ++ [edge])) ∧
      (length st'.1.1 + size ((list_to_set (edge_targets graph) : gset ptr) ∖ st'.1.2)
       ≤ length st.1.1
         + size ((list_to_set (edge_targets graph) : gset ptr) ∖ st.1.2))%nat
  | Throw _ _ => True
  | Undefined => False
  end.
Proof.
  intros Hedge Hinv. destruct st as [[sq seen] queue].
  destruct Hinv as [Hqueue Hnd Hstoch Hseen Htrav Hcover Hclosed Hextra
                    Hqd Htr Hdp Her Hqs].
  cbn [fst snd] in *. unfold fsf_edge.
  destruct edge as [[f|] nr]; cbn [fst snd] in *.
  2: { unfold ret. cbn [fst snd]. split; [|lia]. exists stoch.
       split; cbn [fst snd]; try done.
       intros f nr' Hin. apply elem_of_app in Hin as [Hin|Hin]; [eauto|].
       by apply list_elem_of_singleton in Hin. }
  specialize (Hedge f eq_refl).
  assert (Hg : traversed graph roots g).
  { apply Htrav. rewrite !elem_of_app, list_elem_of_singleton. tauto. }
  assert (Hfed : fed graph roots f) by (by exists g, nr).
  assert (Hft : traversed graph roots f) by (by eapply traversed_edge).
  case_bool_decide as Hnew.
  2: { (* already seen *)
       rewrite andb_false_r. unfold bind, ret. cbn [fst snd]. split; [|lia].
       exists stoch. split; cbn [fst snd]; try done.
       intros f' nr' Hin. apply elem_of_app in Hin as [Hin|Hin]; [eauto|].
       apply list_elem_of_singleton in Hin. inversion Hin; subst.
       done. }
  rewrite andb_true_r.
  assert (Hmeasure : (length (sq ++ [f])
            + size ((list_to_set (edge_targets graph) : gset ptr) ∖ ({[f]} ∪ seen))
            ≤ length sq
              + size ((list_to_set (edge_targets graph) : gset ptr) ∖ seen))%nat).
  { rewrite length_app. simpl.
    rewrite (size_difference_insert _ seen f); [lia| |done].
    by eapply any_edge_in_targets. }
  assert (Hcover' : ∀ x, x ∈ roots ∨ x ∈ ({[f]} ∪ seen : gset ptr) →
                         x ∈ (sq ++ [f]) ++ done ++ [g]).
  { intros x [Hx|Hx].
    - specialize (Hcover x (or_introl Hx)). revert Hcover.
      rewrite !elem_of_app. tauto.
    - apply elem_of_union in Hx as [Hx|Hx].
      + apply elem_of_singleton in Hx. subst.
        rewrite !elem_of_app, !list_elem_of_singleton. tauto.
      + specialize (Hcover x (or_intror Hx)). revert Hcover.
        rewrite !elem_of_app. tauto. }
  assert (Htrav' : ∀ x, x ∈ (sq ++ [f]) ++ done ++ [g] → traversed graph roots x).
  { intros x. rewrite <- app_assoc, !elem_of_app, !list_elem_of_singleton.
    intros [Hx|[->|Hx]]; [|done|]; apply Htrav; rewrite !elem_of_app,
      ?list_elem_of_singleton; tauto. }
  assert (Hextra' : ∀ f' nr', (Some f', nr') ∈ extra ++ [(Some f, nr)] →
                              f' ∈ ({[f]} ∪ seen : gset ptr)).
  { intros f' nr' Hin. apply elem_of_union.
    apply elem_of_app in Hin as [Hin|Hin]; [right; eauto|].
    apply list_elem_of_singleton in Hin. inversion Hin; subst. left.
    by apply elem_of_singleton. }
  assert (Hseen' : ∀ x, x ∈ ({[f]} ∪ seen : gset ptr) → fed graph roots x).
  { intros x Hx. apply elem_of_union in Hx as [Hx|Hx]; [|eauto].
    apply elem_of_singleton in Hx. by subst. }
  assert (Hclosed' : ∀ g' f' nr', g' ∈ done →
            (Some f', nr') ∈ next_functions (fn_at graph g') →
            f' ∈ ({[f]} ∪ seen : gset ptr)).
  { intros g' f' nr' Hg' Hin. apply elem_of_union. right. eauto. }
  destruct (is_stochastic (fn_at graph f) && is_executable (fn_at graph f)) eqn:Hse.
  - (* a stochastic Function is found *)
    unfold bind at 1. unfold bind at 1.
    destruct (ready_queue_cases (-1) σ) as [(q & Hq & Hlt)|(e & Hq)];
      rewrite Hq; [|done].
    destruct (push_front_queued q {| fn := f; inputs := InputBuffer_new 0 |} σ Hlt)
      as (σ1 & Hpush & Hqd1 & Htr1 & Hw1 & Hl1 & Htask1).
    unfold bind at 1. rewrite Hpush. unfold bind, modify, ret. cbn [fst snd].
    split; [|exact Hmeasure].
    apply andb_true_iff in Hse as [Hs He].
    exists (stoch ++ [f]). split; cbn [fst snd]; try done.
    + by rewrite Hqueue, app_assoc.
    + apply NoDup_app. split; [done|]. split; [|apply NoDup_singleton].
      intros x Hx Hx'. apply list_elem_of_singleton in Hx'. subst.
      apply Hstoch in Hx as [Hx _]. done.
    + intros x. rewrite elem_of_app, list_elem_of_singleton, Hstoch,
        elem_of_union, elem_of_singleton.
      split; [intros [?| ->]; tauto|].
      intros ([->|Hx] & ? & ?); tauto.
    + unfold queued in *. simpl. rewrite Hqd1. simpl.
      change (concat (map (map fn) (ready_queues σ))) with (queued σ).
      rewrite Hqd. solve_Permutation.
    + simpl. congruence.
    + simpl. rewrite Htask1. simpl. done.
    + simpl. rewrite Htask1. simpl. done.
    + simpl. congruence.
  - unfold bind, ret. cbn [fst snd]. split; [|exact Hmeasure].
    exists stoch. split; cbn [fst snd]; try done.
    intros x. rewrite Hstoch, elem_of_union, elem_of_singleton.
    split; [tauto|]. intros ([->|Hx] & Hs & He); [|tauto].
    rewrite Hs, He in Hse. done.
Qed.

Lemma fsf_edges_inv roots (σ0 : Engine W IB) done g : ∀ rest extra st (σ : Engine W IB) stoch,
  next_functions (fn_at graph g) = extra ++ rest →
  fsf_inv graph roots σ0 st σ stoch done [g] extra →
  match fsf_edges graph st rest σ with
  | Ok st' σ' =>
      (∃ stoch', fsf_inv graph roots σ0 st' σ' stoch' done [g] (extra ++ rest)) ∧
      (length st'.1.1 + size ((list_to_set (edge_targets graph) : gset ptr) ∖ st'.1.2)
       ≤ length st.1.1
         + size ((list_to_set (edge_targets graph) : gset ptr) ∖ st.1.2))%nat
  | Throw _ _ => True
  | Undefined => False
  end.
Proof.
  induction rest as [|edge rest IH]; intros extra st σ stoch Hnext Hinv.
  - simpl. unfold ret. rewrite app_nil_r. split; [by exists stoch | lia].
  - simpl. unfold bind.
    pose proof (fsf_edge_inv roots σ0 st σ stoch done g extra edge) as Hstep.
    destruct (fsf_edge graph st edge σ) as [st1 σ1|?|]; [|done|].
    + destruct Hstep as [[stoch1 Hinv1] Hm1]; [|done|].
      { intros f Hf. rewrite Hnext. apply elem_of_app. right.
        destruct edge as [e1 e2]. simpl in *. subst. left. }
      specialize (IH (extra ++ [edge]) st1 σ1 stoch1).
      rewrite <- app_assoc in IH. specialize (IH Hnext Hinv1).
      destruct (fsf_edges graph st1 rest σ1) as [st2 σ2|?|]; [|done|done].
      destruct IH as [Hinv2 Hm2]. split; [done | lia].
    + apply Hstep; [|done].
      intros f Hf. rewrite Hnext. apply elem_of_app. right.
      destruct edge as [e1 e2]. simpl in *. subst. left.
Qed.

Lemma fsf_inv_final roots (σ0 σ : Engine W IB) seen queue stoch done :
  fsf_inv graph roots σ0 ([], seen, queue) σ stoch done [] [] →
  ∀ x, x ∈ stoch ↔
       is_stochastic (fn_at graph x) = true ∧ is_executable (fn_at graph x) = true
       ∧ fed graph roots x.
Proof.
  intros [Hqueue Hnd Hstoch Hseen Htrav Hcover Hclosed Hextra Hqd Htr Hdp Her Hqs].
  cbn [fst snd] in *.
  assert (Hdone : ∀ x, traversed graph roots x → x ∈ done).
  { intros x Hx. induction Hx as [r Hr|g f nr Hg IH He].
    - specialize (Hcover r (or_introl Hr)). simpl in Hcover.
      by rewrite app_nil_r in Hcover.
    - specialize (Hcover f (or_intror (Hclosed g f nr IH He))). simpl in Hcover.
      by rewrite app_nil_r in Hcover. }
  intros x. rewrite Hstoch. split.
  - intros (Hx & ? & ?). repeat split; try done. by apply Hseen.
  - intros (? & ? & (g & nr & Hg & He)). repeat split; try done.
    eapply Hclosed; [by apply Hdone | done].
Qed.

Lemma fsf_loop_inv roots (σ0 : Engine W IB) : ∀ fuel st (σ : Engine W IB) stoch done,
  fsf_inv graph roots σ0 st σ stoch done [] [] →
  (length st.1.1 + size ((list_to_set (edge_targets graph) : gset ptr) ∖ st.1.2)
   < fuel)%nat →
  match fsf_loop graph fuel st σ with
  | Ok r σ' =>
      ∃ stoch',
        r = Some (roots ++ stoch') ∧ NoDup stoch' ∧
        (∀ x, x ∈ stoch' ↔
              is_stochastic (fn_at graph x) = true
              ∧ is_executable (fn_at graph x) = true ∧ fed graph roots x) ∧
        queued σ' ≡ₚ stoch' ++ queued σ0 ∧
        trace σ' = trace σ0 ∧
        dependencies (task σ') = dependencies (task σ0) ∧
        has_error (task σ') = has_error (task σ0) ∧
        length (ready_queues σ') = length (ready_queues σ0)
  | Throw _ _ => True
  | Undefined => False
  end.
Proof.
  induction fuel as [|fuel IH]; intros st σ stoch done Hinv Hfuel; [lia|].
  destruct st as [[sq seen] queue]. cbn [fst snd] in Hfuel. simpl.
  unfold vector_pop_back.
  destruct (deque_pop_back sq) as [[g sq']|] eqn:Hpop.
  - apply deque_pop_back_Some in Hpop. subst sq.
    rewrite length_app in Hfuel. simpl in Hfuel. unfold bind.
    assert (Hinv0 : fsf_inv graph roots σ0 (sq', seen, queue) σ stoch done [g] []).
    { destruct Hinv as [Hqueue Hnd Hstoch Hseen Htrav Hcover Hclosed Hextra
                        Hqd Htr Hdp Her Hqs].
      cbn [fst snd] in *. split; cbn [fst snd]; try done.
      - intros x Hx. apply Htrav. revert Hx.
        rewrite !elem_of_app, !list_elem_of_singleton, elem_of_nil. tauto.
      - intros x Hx. specialize (Hcover x Hx). revert Hcover.
        rewrite !elem_of_app, !list_elem_of_singleton, elem_of_nil. tauto. }
    pose proof (fsf_edges_inv roots σ0 done g (next_functions (fn_at graph g)) []
                  (sq', seen, queue) σ stoch eq_refl Hinv0) as Hedges.
    destruct (fsf_edges graph (sq', seen, queue) (next_functions (fn_at graph g)) σ)
      as [st1 σ1|?|]; [|done|done].
    destruct Hedges as [[stoch1 Hinv1] Hm1]. cbn [fst snd] in Hm1. simpl app in Hinv1.
    apply (IH st1 σ1 stoch1 (done ++ [g])); [|lia].
    destruct Hinv1 as [Hqueue Hnd Hstoch Hseen Htrav Hcover Hclosed Hextra
                       Hqd Htr Hdp Her Hqs].
    split; try done.
    + intros x Hx. apply Htrav. revert Hx.
      rewrite !elem_of_app, !list_elem_of_singleton, elem_of_nil. tauto.
    + intros x Hx. specialize (Hcover x Hx). revert Hcover.
      rewrite !elem_of_app, !list_elem_of_singleton, elem_of_nil. tauto.
    + intros g' f nr Hg' He. apply elem_of_app in Hg' as [Hg'|Hg'].
      * by eapply Hclosed.
      * apply list_elem_of_singleton in Hg'. subst. by eapply Hextra.
    + intros f nr Hin. by apply elem_of_nil in Hin.
  - apply deque_pop_back_None in Hpop. subst sq. unfold ret.
    pose proof (fsf_inv_final roots σ0 σ seen queue stoch done Hinv) as Hfin.
    destruct Hinv as [Hqueue Hnd Hstoch Hseen Htrav Hcover Hclosed Hextra
                      Hqd Htr Hdp Her Hqs].
    cbn [fst snd] in *. exists stoch. subst queue. repeat split; try done;
      by apply Hfin.
Qed.

Lemma fsf_inv_init roots (σ : Engine W IB) :
  fsf_inv graph roots σ (roots, ∅, roots) σ [] [] [] [].
Proof.
  split; cbn [fst snd].
  - by rewrite app_nil_r.
  - apply NoDup_nil_2.
  - intros x. split; [by intros ?%elem_of_nil|]. by intros [?%elem_of_empty _].
  - by intros x ?%elem_of_empty.
  - intros x. rewrite !app_nil_r. by apply traversed_root.
  - intros x [Hx|Hx]; [by rewrite !app_nil_r | by apply elem_of_empty in Hx].
  - intros g f nr Hg. by apply elem_of_nil in Hg.
  - intros f nr Hin. by apply elem_of_nil in Hin.
  - done.
  - done.
  - done.
  - done.
  - done.
Qed.

Lemma search_fuel_enough roots (seen : gset ptr) :
  (length roots + size ((list_to_set (edge_targets graph) : gset ptr) ∖ seen)
   < search_fuel graph roots)%nat.
Proof.
  unfold search_fuel.
  assert (size ((list_to_set (edge_targets graph) : gset ptr) ∖ seen)
          ≤ length (edge_targets graph))%nat; [|lia].
  etransitivity; [apply subseteq_size, subseteq_difference_l; reflexivity|].
  apply size_list_to_set_le.
Qed.

(** [find_stochastic_functions] does not run out of rounds; when it
    returns, the frontier is the roots followed by the stochastic
    executable Functions fed by the search, each once, and a task has been
    queued for each of these. *)
Lemma find_stochastic_functions_spec roots (σ : Engine W IB) :
  match find_stochastic_functions graph roots σ with
  | Ok frontier σ' =>
      ∃ stoch,
        frontier = roots ++ stoch ∧ NoDup stoch ∧
        (∀ x, x ∈ stoch ↔
              is_stochastic (fn_at graph x) = true
              ∧ is_executable (fn_at graph x) = true ∧ fed graph roots x) ∧
        queued σ' ≡ₚ stoch ++ queued σ ∧
        trace σ' = trace σ ∧
        dependencies (task σ') = dependencies (task σ) ∧
        has_error (task σ') = has_error (task σ) ∧
        length (ready_queues σ') = length (ready_queues σ)
  | Throw _ _ => True
  | Undefined => False
  end.
Proof.
  unfold find_stochastic_functions, bind.
  pose proof (fsf_loop_inv roots σ (search_fuel graph roots) (roots, ∅, roots) σ [] []
                (fsf_inv_init roots σ) (search_fuel_enough roots ∅)) as Hloop.
  destruct (fsf_loop graph (search_fuel graph roots) (roots, ∅, roots) σ)
    as [r σ'|?|]; [|done|done].
  destruct Hloop as (stoch & -> & Hrest). unfold ret. by exists stoch.
Qed.

Lemma find_roots_collect_spec input_roots : ∀ inputs rv (σ : Engine W IB),
  match find_roots_collect graph input_roots inputs rv σ with
  | Ok rv' σ' =>
      same_engine σ σ' ∧
      ∀ r, is_Some (rv' !! r) ↔ is_Some (rv !! r) ∨ Some r ∈ input_roots.*1
  | _ => True
  end.
Proof.
  induction input_roots as [|[root input_nr] input_roots IH]; intros inputs rv σ.
  - simpl. unfold ret. split; [apply same_engine_refl|].
    intros r. split; [tauto|]. intros [?|Hin]; [done|]. by apply elem_of_nil in Hin.
  - simpl. destruct inputs as [|input inputs]; [done|].
    destruct root as [root|]; [|done]. unfold bind at 1.
    match goal with
    | |- match match ?m σ with _ => _ end with _ => _ end =>
        destruct (m σ) as [buf' σ1|?|] eqn:Hbuf; [|done|done]
    end.
    assert (Hσ1 : same_engine σ σ1).
    { destruct (is_executable (fn_at graph root)).
      - unfold bind in Hbuf.
        match type of Hbuf with
        | match ?m σ with _ => _ end = _ => destruct (m σ) as [b' s'|?|] eqn:Hadd; try done
        end.
        frame_of Hadd (@lift_world_frame W IB IB). inversion Hbuf; by subst.
      - inversion Hbuf. apply same_engine_refl. }
    specialize (IH inputs (<[root := buf']> rv) σ1).
    destruct (find_roots_collect graph input_roots inputs (<[root := buf']> rv) σ1)
      as [rv' σ'|?|]; [|done|done].
    destruct IH as [Hσ' Hrv]. split; [by eapply same_engine_trans|].
    intros r. rewrite Hrv. simpl. rewrite elem_of_cons.
    destruct (decide (r = root)) as [->|Hne].
    + rewrite lookup_insert_eq. split; [intros _; right; by left|]. intros _. left.
      by eexists.
    + rewrite lookup_insert_ne by done. split; [tauto|].
      intros [?|[Heq|?]]; [tauto| |tauto]. congruence.
Qed.

Lemma find_roots_enqueue_spec entries : ∀ roots (σ : Engine W IB),
  match find_roots_enqueue graph entries roots σ with
  | Ok roots' σ' =>
      roots' = roots ++ entries.*1 ∧
      queued σ' ≡ₚ filter (λ r, is_executable (fn_at graph r) = true) entries.*1
                   ++ queued σ ∧
      trace σ' = trace σ ∧
      dependencies (task σ') = dependencies (task σ) ∧
      has_error (task σ') = has_error (task σ) ∧
      length (ready_queues σ') = length (ready_queues σ)
  | _ => True
  end.
Proof.
  induction entries as [|[root buf] entries IH]; intros roots σ.
  - simpl. unfold ret. rewrite app_nil_r. repeat split; done.
  - simpl. rewrite filter_cons. simpl.
    destruct (is_executable (fn_at graph root)) eqn:Hex; simpl.
    + destruct buf as [b|]; [|done]. unfold bind at 1.
      destruct (ready_queue_cases (InputBuffer_device b) σ) as [(q & Hq & Hlt)|(e & Hq)];
        rewrite Hq; [|done].
      destruct (push_front_queued q {| fn := root; inputs := b |} σ Hlt)
        as (σ1 & Hpush & Hqd1 & Htr1 & Hw1 & Hl1 & Htask1).
      unfold bind at 1. rewrite Hpush. unfold bind at 1, modify at 1.
      set (σ2 := set_task (set_has_any_work true) σ1).
      specialize (IH (roots ++ [root]) σ2).
      destruct (find_roots_enqueue graph entries (roots ++ [root]) σ2)
        as [roots' σ'|?|]; [|done|done].
      destruct IH as (-> & Hqd & Htr & Hdp & Her & Hlen).
      split; [by rewrite <- app_assoc|].
      split.
      { rewrite Hqd. unfold σ2, queued in *. simpl. rewrite Hqd1. simpl.
        solve_Permutation. }
      unfold σ2 in *. simpl in *. rewrite Htask1 in *. simpl in *.
      repeat split; congruence.
    + specialize (IH (roots ++ [root]) σ).
      destruct (find_roots_enqueue graph entries (roots ++ [root]) σ)
        as [roots' σ'|?|]; [|done|done].
      destruct IH as (-> & Hqd & Htr & Hdp & Her & Hlen).
      split; [by rewrite <- app_assoc|]. done.
Qed.

(** [find_roots]: the distinct root Functions, each once, and a queued task
    for each executable one. *)
Lemma find_roots_spec input_roots inputs (σ σ' : Engine W IB) roots :
  find_roots graph input_roots inputs σ = Ok roots σ' →
  NoDup roots ∧
  (∀ r, r ∈ roots ↔ Some r ∈ input_roots.*1) ∧
  queued σ' ≡ₚ filter (λ r, is_executable (fn_at graph r) = true) roots ++ queued σ ∧
  trace σ' = trace σ ∧
  dependencies (task σ') = dependencies (task σ) ∧
  has_error (task σ') = has_error (task σ) ∧
  length (ready_queues σ') = length (ready_queues σ).
Proof.
  unfold find_roots, bind. intros Hs.
  pose proof (find_roots_collect_spec input_roots inputs ∅ σ) as Hcol.
  destruct (find_roots_collect graph input_roots inputs ∅ σ) as [rv σ1|?|];
    [|done|done].
  destruct Hcol as [(Hq1 & Ht1 & Hl1) Hrv].
  pose proof (find_roots_enqueue_spec (map_to_list rv) [] σ1) as Henq.
  rewrite Hs in Henq. destruct Henq as (-> & Hqd & Htr & Hdp & Her & Hlen).
  simpl. split; [apply NoDup_fst_map_to_list|]. split.
  { intros r. rewrite list_elem_of_fmap. split.
    - intros ([r' v] & -> & Hin). apply elem_of_map_to_list in Hin.
      destruct (proj1 (Hrv r')) as [Hemp|Hroot]; [by eexists| |done].
      rewrite lookup_empty in Hemp. by destruct Hemp.
    - intros Hin. destruct (proj2 (Hrv r) (or_intror Hin)) as [v Hv].
      exists (r, v). split; [done|]. by apply elem_of_map_to_list. }
  unfold queued in *. rewrite Hqd, Hq1. repeat split; try congruence; done.
Qed.

Lemma count_NoDup (l : list ptr) F :
  NoDup l → length (filter (λ x, x = F) l) = if decide (F ∈ l) then 1%nat else 0%nat.
Proof.
  induction l as [|x l IH]; intros Hnd.
  - rewrite filter_nil. by rewrite decide_False by apply not_elem_of_nil.
  - apply NoDup_cons in Hnd as [Hx Hnd]. rewrite filter_cons.
    destruct (decide (x = F)) as [->|Hne]; simpl; rewrite (IH Hnd).
    + rewrite decide_False by done. rewrite decide_True by left. done.
    + case_decide as HF.
      * rewrite decide_True by (by right). done.
      * rewrite decide_False; [done|]. intros [?|?]%elem_of_cons; congruence.
Qed.

Lemma traversed_ext roots roots' x :
  (∀ y, y ∈ roots → y ∈ roots') →
  traversed graph roots x → traversed graph roots' x.
Proof.
  intros Hsub Hx. induction Hx as [r Hr|g f nr Hg IH He].
  - apply traversed_root. by apply Hsub.
  - by eapply traversed_edge.
Qed.

Lemma fed_ext roots roots' x :
  (∀ y, y ∈ roots → y ∈ roots') → fed graph roots x → fed graph roots' x.
Proof.
  intros Hsub (g & nr & Hg & He). exists g, nr. split; [|done].
  by eapply traversed_ext.
Qed.

Lemma fed_traversed roots x : fed graph roots x → traversed graph roots x.
Proof. intros (g & nr & Hg & He). by eapply traversed_edge. Qed.

Lemma reach_traversed roots frontier x :
  (∀ y, y ∈ frontier → traversed graph roots y) →
  reach graph frontier x → traversed graph roots x.
Proof.
  intros Hfr Hx. induction Hx as [f Hf|g f nr Hg IH Hge He Hc].
  - by apply Hfr.
  - by eapply traversed_edge.
Qed.

Lemma incoming_edge_pos (E : list ptr) g F input_nr :
  g ∈ E → (Some F, input_nr) ∈ next_functions (fn_at graph g) →
  (0 < incoming graph E F)%nat.
Proof.
  intros Hg He. unfold incoming.
  assert (0 < edges_to F (next_functions (fn_at graph g)))%nat.
  { unfold edges_to.
    assert (Hin : (Some F, input_nr) ∈ filter (λ e : option ptr * Z, e.1 = Some F)
                    (next_functions (fn_at graph g))).
    { by apply list_elem_of_filter. }
    destruct (filter _ _); [by apply elem_of_nil in Hin | simpl; lia]. }
  pose proof (sum_list_with_in g (λ g, edges_to F (next_functions (fn_at graph g))) E Hg).
  simpl in *. lia.
Qed.

Lemma unfed_roots_independent input_roots :
  unfed_roots graph input_roots = true → independent_roots graph input_roots.
Proof.
  unfold unfed_roots, independent_roots. intros Hb r Hr Hex (g & nr & Hg & He).
  rewrite forallb_forall in Hb. specialize (Hb r).
  rewrite Hex in Hb. simpl in Hb.
  assert (Hin : In r (omap fst input_roots)).
  { apply list_elem_of_In, list_elem_of_omap.
    apply list_elem_of_fmap in Hr as (e & He1 & He2). by exists e. }
  specialize (Hb Hin). apply negb_true_iff, bool_decide_eq_false in Hb.
  apply Hb. apply (elem_of_list_to_set (C := gset ptr)).
  by eapply any_edge_in_targets.
Qed.

End SetupProperties.

Section ExecuteProperties.
Context {W IB : Type} {R : Runtime W IB}.
Variable graph : gmap ptr Function.

Lemma pending_of_queued F (σ : Engine W IB) (l : list ptr) :
  queued σ ≡ₚ l → NoDup l →
  pending F σ = if decide (F ∈ l) then 1%nat else 0%nat.
Proof.
  intros Hq Hnd. unfold pending. rewrite Hq. by apply count_NoDup.
Qed.

Lemma omap_fst_roots (input_roots : list (option ptr * Z)) r :
  r ∈ omap fst input_roots ↔ Some r ∈ input_roots.*1.
Proof.
  rewrite list_elem_of_omap, list_elem_of_fmap. split.
  - intros (e & He & Hr). by exists e.
  - intros (e & Hr & He). by exists e.
Qed.

Lemma filter_all {A} (P : A → Prop) `{∀ x, Decision (P x)} (l : list A) :
  (∀ x, P x) → filter P l = l.
Proof.
  intros HP. induction l as [|x l IH]; [done|].
  rewrite filter_cons_True by done. by rewrite IH.
Qed.

Lemma filter_none {A} (P : A → Prop) `{∀ x, Decision (P x)} (l : list A) :
  (∀ x, x ∈ l → ¬ P x) → filter P l = [].
Proof.
  induction l as [|x l IH]; intros HP; [done|].
  rewrite filter_cons_False by (apply HP; left).
  apply IH. intros y Hy. apply HP. by right.
Qed.

Lemma queued_started num_devices (w : W) (t : GraphTask IB → GraphTask IB) :
  queued (set_task t (Engine_started num_devices w)) = [].
Proof.
  unfold queued, Engine_started. simpl.
  induction num_devices as [|n IH]; [done|]. simpl. apply IH.
Qed.

(** What [execute_start] leaves behind on a started engine whose roots are
    independent: the frontier is the roots followed by the stochastic
    Functions found, every Function to run is queued or waiting exactly
    once, and nothing has been applied. *)
Lemma execute_start_spec num_devices (w : W) input_roots inputs keep_graph callbacks
    (frontier : list ptr) (σ0 : Engine W IB) :
  execute_start graph input_roots inputs keep_graph callbacks
    (Engine_started num_devices w) = Ok frontier σ0 →
  independent_roots graph input_roots →
  ∃ E,
    NoDup E ∧
    (∀ g, g ∈ E ↔ is_executable (fn_at graph g) = true ∧ reach graph frontier g) ∧
    (∀ x, x ∈ frontier ↔
          Some x ∈ input_roots.*1
          ∨ (is_stochastic (fn_at graph x) = true
             ∧ is_executable (fn_at graph x) = true
             ∧ fed graph (omap fst input_roots) x)) ∧
    live_inv graph E σ0 ∧
    (∀ F, (load F σ0 ≤ 1)%nat) ∧
    has_error (task σ0) = false.
Proof.
  intros Hs Hind. unfold execute_start, bind, modify in Hs.
  set (σa := set_task _ _) in Hs.
  destruct (find_roots graph input_roots inputs σa) as [roots σb|?|] eqn:Hfr;
    [|done|done].
  apply find_roots_spec in Hfr as (Hndr & Hroots & Hqb & Htb & Hdb & Heb & _).
  pose proof (find_stochastic_functions_spec graph roots σb) as Hfs.
  destruct (find_stochastic_functions graph roots σb) as [fr σc|?|]; [|done|done].
  destruct Hfs as (stoch & -> & Hnds & Hstoch & Hqc & Htc & Hdc & Hec & _).
  unfold get in Hs. destruct (negb (has_any_work (task σc))); [done|].
  assert (Hfed : ∀ x, fed graph roots x ↔ fed graph (omap fst input_roots) x).
  { intros x. split; apply fed_ext; intros y; rewrite omap_fst_roots; apply Hroots. }
  assert (Hdisj : ∀ x, x ∈ roots → x ∈ stoch → False).
  { intros x Hr (Hst & Hex & Hf)%Hstoch.
    eapply Hind; [by apply Hroots| done | by apply Hfed]. }
  assert (Hndf : NoDup (roots ++ stoch)).
  { apply NoDup_app. split; [done|]. split; [|done]. intros x Hr Hx. by eapply Hdisj. }
  destruct (compute_dependencies_spec graph (roots ++ stoch) σc Hndf)
    as (deps & E & Hcd & HndE & HE & Hdeps).
  { rewrite Hdc, Hdb. done. }
  rewrite Hcd in Hs. simpl in Hs. inversion Hs; subst frontier σ0. clear Hs Hcd.
  set (σ0 := set_task _ σc).
  assert (Hq0 : queued σ0 ≡ₚ stoch ++ filter (λ r, is_executable (fn_at graph r) = true) roots).
  { change (queued σ0) with (queued σc). rewrite Hqc, Hqb.
    unfold σa. by rewrite queued_started, app_nil_r. }
  assert (Hndq : NoDup (stoch ++ filter (λ r, is_executable (fn_at graph r) = true) roots)).
  { apply NoDup_app. split; [done|]. split; [|apply NoDup_filter, Hndr].
    intros x Hx [_ Hr]%list_elem_of_filter. by eapply Hdisj. }
  assert (Happ : ∀ F, applications F σ0 = 0%nat).
  { intros F. unfold applications. change (trace σ0) with (trace σc).
    rewrite Htc, Htb. done. }
  assert (Hwait : ∀ F, waiting F σ0
                       = if counted graph F && bool_decide (0 < incoming graph E F)%nat
                         then 1%nat else 0%nat).
  { intros F. unfold waiting. change (dependencies (task σ0)) with deps.
    rewrite Hdeps. unfold dependency_entry. by destruct (_ && _). }
  assert (Htrav : ∀ y, y ∈ roots ++ stoch → traversed graph roots y).
  { intros y [Hy|Hy]%elem_of_app; [by apply traversed_root|].
    apply Hstoch in Hy as (_ & _ & Hy). by apply fed_traversed. }
  assert (Hunfed : ∀ r, r ∈ roots → is_executable (fn_at graph r) = true →
                        ¬ fed graph roots r).
  { intros r Hr Hex Hf. eapply Hind; [by apply Hroots|done|by apply Hfed]. }
  assert (Hfedby : ∀ g F nr, g ∈ E → (Some F, nr) ∈ next_functions (fn_at graph g) →
                             fed graph roots F).
  { intros g F nr [_ Hg]%HE He. exists g, nr. split; [|done].
    by eapply reach_traversed. }
  assert (Hload : ∀ F, load F σ0
      = ((if decide (F ∈ stoch ++ filter (λ r, is_executable (fn_at graph r) = true) roots)
          then 1 else 0)
         + (if counted graph F && bool_decide (0 < incoming graph E F)%nat
            then 1 else 0))%nat).
  { intros F. unfold load. rewrite Happ, Hwait, (pending_of_queued F σ0 _ Hq0 Hndq). done. }
  assert (Hboth : ∀ F,
      F ∈ stoch ++ filter (λ r, is_executable (fn_at graph r) = true) roots →
      counted graph F && bool_decide (0 < incoming graph E F)%nat = false).
  { intros F HF. apply andb_false_iff.
    apply elem_of_app in HF as [HF|[Hex HF]%list_elem_of_filter].
    - left. apply Hstoch in HF as (Hst & Hex & _). unfold counted. by rewrite Hst, Hex.
    - right. apply bool_decide_eq_false. intros Hpos.
      apply incoming_pos in Hpos as (g & nr & Hg & He).
      eapply Hunfed; [done..|]. by eapply Hfedby. }
  exists E. split; [done|]. split; [done|]. split.
  { intros x. rewrite elem_of_app, Hroots, Hstoch.
    split; (intros [?|(?&?&?)]; [by left|right]); repeat split; try done; by apply Hfed. }
  split; [|split].
  - split.
    + intros F HF. rewrite Hload. apply HE in HF as [Hex HF].
      case_decide as Hin; [by rewrite (Hboth F Hin)|].
      inversion HF as [f Hf|g f nr Hg Hgex He Hc]; subst.
      * exfalso. apply Hin. apply elem_of_app in Hf as [Hf|Hf].
        -- apply elem_of_app. right. by apply list_elem_of_filter.
        -- apply elem_of_app. by left.
      * rewrite Hc. simpl. rewrite bool_decide_eq_true_2; [done|].
        eapply incoming_edge_pos; [|done]. by apply HE.
    + intros F. rewrite Hload. intros Hone. apply HE.
      case_decide as Hin.
      * apply elem_of_app in Hin as [Hin|[Hex Hin]%list_elem_of_filter].
        -- split; [by apply Hstoch in Hin as (_ & ? & _)|].
           apply reach_frontier, elem_of_app. by right.
        -- split; [done|]. apply reach_frontier, elem_of_app. by left.
      * destruct (counted graph F) eqn:Hc; [|simpl in Hone; lia].
        simpl in Hone. case_bool_decide as Hpos; [|lia].
        apply incoming_pos in Hpos as (g & nr & Hg & He).
        split; [by apply andb_true_iff in Hc as [? _]|].
        apply HE in Hg as [Hgex Hg]. by eapply reach_edge.
    + intros F. change (dependencies (task σ0)) with deps. rewrite Hdeps.
      unfold remaining. f_equal. f_equal.
      symmetry. apply filter_all. intros g. apply Happ.
  - intros F. rewrite Hload. case_decide as Hin; [by rewrite (Hboth F Hin)|].
    destruct (_ && _); lia.
  - change (has_error (task σ0)) with (has_error (task σc)). by rewrite Hec, Heb.
Qed.

(** C1 (amended).  Take one [execute] on a started engine whose roots are
    independent (no executable root is the target of an edge met by the
    search from the roots), and any point [σ'] that its workers reach.
    Then [apply] has been invoked at most once on every Function.  The
    frontier of the execute is made of the roots and of the stochastic
    executable Functions that the search from the roots meets.  As long as
    no callback rejects, no error has been recorded and the graph has at
    most [INT_MAX] edges, [apply] has been invoked only on executable
    Functions reachable from the frontier; and once every task has been
    taken and processed (the queues have drained) in a graph without
    cycles, [apply] has been invoked exactly once on each of those
    Functions and on no other, and [dependencies] is empty: every
    dependency counter has reached zero and its entry has been erased.
    From [σ'] the workers can drain the queues, unless the code run for a
    Function has undefined behaviour. *)
Theorem C1_apply_at_most_once num_devices (w : W) input_roots inputs keep_graph callbacks
    (frontier : list ptr) (σ0 σ' : Engine W IB) (schedule : list nat) :
  execute_start graph input_roots inputs keep_graph callbacks
    (Engine_started num_devices w) = Ok frontier σ0 →
  run graph schedule σ0 = Some σ' →
  independent_roots graph input_roots →
  (∀ F, (applications F σ' ≤ 1)%nat) ∧
  (∀ x, x ∈ frontier ↔
        Some x ∈ input_roots.*1
        ∨ (is_stochastic (fn_at graph x) = true
           ∧ is_executable (fn_at graph x) = true
           ∧ fed graph (omap fst input_roots) x)) ∧
  (callbacks_accept →
   Z.of_nat (length (edge_targets graph)) ≤ int_max →
   has_error (task σ') = false →
   ∃ E, NoDup E ∧
        (∀ F, F ∈ E ↔ is_executable (fn_at graph F) = true ∧ reach graph frontier F) ∧
        (∀ F, (1 ≤ applications F σ')%nat → F ∈ E) ∧
        (∀ rank, ranked graph rank = true → queued σ' = [] →
                 (∀ F, applications F σ' = 1%nat ↔ F ∈ E) ∧
                 dependencies (task σ') = ∅)) ∧
  (callbacks_accept →
   Z.of_nat (length (edge_targets graph)) ≤ int_max →
   ∃ more, match run graph more σ' with
           | Some σ'' => queued σ'' = []
           | None => True
           end).
Proof.
  intros Hstart Hrun Hind.
  destruct (execute_start_spec _ _ _ _ _ _ _ _ Hstart Hind)
    as (E & HndE & HE & Hfr & Hlive & Hload & Herr0).
  destruct (run_monotone graph schedule σ0 σ' Hrun) as [Hmono _].
  assert (Hbound : Z.of_nat (length (edge_targets graph)) ≤ int_max →
                   ∀ F, Z.of_nat (incoming graph E F) ≤ int_max).
  { intros Hmax F. etransitivity; [|exact Hmax].
    apply inj_le, incoming_le_targets; [done|]. intros g Hg. by apply HE in Hg as [? _]. }
  split; [|split; [done|split]].
  - intros F. specialize (Hmono F). specialize (Hload F). unfold load in *. lia.
  - intros Hacc Hmax Herr. exists E. split; [done|]. split; [done|].
    assert (Hlive' : live_inv graph E σ').
    { eapply (run_live graph schedule σ0 σ' E); try done. by apply Hbound. }
    pose proof Hlive' as [Hl1 Hl2 Hl3]. split.
    + intros F H1. apply Hl2. unfold load. lia.
    + intros rank Hrank Hq. split.
      * intros F. split.
        -- intros H1. apply Hl2. unfold load. lia.
        -- by apply (drained_applied graph σ' E rank).
      * apply map_empty. intros F. rewrite Hl3. unfold remaining.
        assert (filter (λ g, applications g σ' = 0%nat) E = []) as ->.
        { apply filter_none. intros g Hg Hz.
          rewrite (drained_applied graph σ' E rank Hrank Hlive' Hq g Hg) in Hz. done. }
        unfold dependency_entry, incoming. simpl. by rewrite andb_false_r.
  - intros Hacc Hmax. destruct (has_error (task σ')) eqn:Herr.
    + destruct (run_drains_error graph (length (queued σ')) σ') as (more & σ'' & Hmore & Hq);
        [done|done|].
      exists more. by rewrite Hmore.
    + eapply (run_drains_live graph E _ σ' Hacc HndE (Hbound Hmax)); [done|].
      eapply (run_live graph schedule σ0 σ' E); try done. by apply Hbound.
Qed.

End ExecuteProperties.

(** C1, the claim as stated fails: Function 0 of [chain_graph] is the root of
    the execute and executable, and a callback registered for it rejects
    it.  [call_function] then returns null gradients without calling
    [apply]; the execute completes without an error, Function 1 has been
    applied, and [apply] has never been invoked on Function 0. *)
Lemma C1_counterexample :
  execute_start (R := rejecting_runtime (edge_outputs chain_graph)) chain_graph
    [(Some 0%nat, 0)] [Some 7%nat] false {[ 0%nat := 0%nat ]} example_engine
    = Ok [0%nat] rejected_root_ready ∧
  run (R := rejecting_runtime (edge_outputs chain_graph)) chain_graph
    [0; 0]%nat rejected_root_ready = Some rejected_root_done ∧
  execute_finish rejected_root_done = Some (Ok tt rejected_root_done) ∧
  is_executable (fn_at chain_graph 0%nat) = true ∧
  reach chain_graph [0%nat] 0%nat ∧
  applications 0%nat rejected_root_done = 0%nat ∧
  applications 1%nat rejected_root_done = 1%nat.
Proof.
  split; [vm_compute; reflexivity|]. split; [vm_compute; reflexivity|].
  split; [vm_compute; reflexivity|]. split; [reflexivity|].
  split; [apply reach_frontier; left|]. split; vm_compute; reflexivity.
Qed.

(** Outside the amended claim: when a root is fed by another root, it is
    queued by [find_roots] and queued again when its dependency counter
    reaches zero, and [apply] is invoked on it twice. *)
Example fed_root_applied_twice :
  execute_start (R := table_runtime (edge_outputs chain_graph)) chain_graph
    [(Some 0%nat, 0); (Some 1%nat, 0)] [Some 7%nat; Some 8%nat] false ∅ example_engine
    = Ok [1%nat; 0%nat] fed_root_ready ∧
  run (R := table_runtime (edge_outputs chain_graph)) chain_graph
    [0; 0; 0]%nat fed_root_ready = Some fed_root_done ∧
  execute_finish fed_root_done = Some (Ok tt fed_root_done) ∧
  applications 1%nat fed_root_done = 2%nat.
Proof.
  split; [vm_compute; reflexivity|]. split; [vm_compute; reflexivity|].
  split; vm_compute; reflexivity.
Qed.

Lemma C1_apply_at_most_once_witness :
  execute_start (R := table_runtime (edge_outputs diamond_graph)) diamond_graph
    [(Some 0%nat, 0)] [Some 7%nat] false ∅ (Engine_started 0 ())
    = Ok [0%nat] diamond_ready ∧
  run (R := table_runtime (edge_outputs diamond_graph)) diamond_graph
    [0; 0; 0; 0]%nat diamond_ready = Some diamond_done ∧
  independent_roots diamond_graph [(Some 0%nat, 0)] ∧
  (∀ F, (applications F diamond_done ≤ 1)%nat) ∧
  (∀ F, applications F diamond_done = 1%nat ↔
        is_executable (fn_at diamond_graph F) = true ∧ reach diamond_graph [0%nat] F) ∧
  dependencies (task diamond_done) = ∅.
Proof.
  assert (Hstart :
    execute_start (R := table_runtime (edge_outputs diamond_graph)) diamond_graph
      [(Some 0%nat, 0)] [Some 7%nat] false ∅ (Engine_started 0 ())
    = Ok [0%nat] diamond_ready) by (vm_compute; reflexivity).
  assert (Hrun :
    run (R := table_runtime (edge_outputs diamond_graph)) diamond_graph
      [0; 0; 0; 0]%nat diamond_ready = Some diamond_done) by (vm_compute; reflexivity).
  assert (Hind : independent_roots diamond_graph [(Some 0%nat, 0)]).
  { apply unfed_roots_independent. vm_compute. reflexivity. }
  split; [exact Hstart|]. split; [exact Hrun|]. split; [exact Hind|].
  destruct (C1_apply_at_most_once (R := table_runtime (edge_outputs diamond_graph))
              diamond_graph 0 () [(Some 0%nat, 0)] [Some 7%nat] false ∅
              [0%nat] diamond_ready diamond_done [0; 0; 0; 0]%nat Hstart Hrun Hind)
    as (Hmost & _ & Hlive & _).
  split; [exact Hmost|].
  destruct Hlive as (E & _ & HE & _ & Hdrained).
  - intros callback f inputs w w'. simpl. discriminate.
  - vm_compute. discriminate.
  - vm_compute. reflexivity.
  - destruct (Hdrained (λ f, f)) as [Honce Hdeps];
      [vm_compute; reflexivity | vm_compute; reflexivity |].
    split; [|exact Hdeps]. intros F. rewrite <- HE. apply Honce.
Defined.

(* ===================================================================== *)
(** * Further properties of the code *)
(* ===================================================================== *)

Section VariableCoverage.
Context {tensor : Type} `{TensorLib tensor}.

Ltac run := repeat (unfold bind, ret, throw, undefined, get, modify, alloc,
                    VariableVersion_new, VariableVersion_read, deref, update; simpl).

(** X1.  The output constructor reads and increments [grad_fn->num_inputs]
    in its initialiser list, before its body looks at the data.  Called
    with a null tensor on a live [grad_fn] it throws "Variable data is
    NULL", no Variable comes to exist, and the slot is used up all the same:
    the next output constructed for that [grad_fn] gets the [output_nr]
    after the one the failed construction took. *)
Theorem X1_failed_output_takes_slot (f : ptr) (h : Heap tensor) (fo : FunctionObj) :
  functions h !! f = Some fo →
  ∃ h1 fo1,
    Variable_output None (Some f) h
      = Throw (runtime_error "Variable data is NULL") h1 ∧
    variables h1 = variables h ∧
    functions h1 !! f = Some fo1 ∧
    num_inputs (base_of fo1) = int_wrap (num_inputs (base_of fo) + 1) ∧
    ∀ d, ∃ v h2,
      Variable_output (Some d) (Some f) h1 = Ok v h2 ∧
      output_nr v = int_wrap (num_inputs (base_of fo) + 1).
Proof.
  intros Hf.
  exists (set_versions (delete (next_addr h)) (after_output f fo h)),
         (map_base (set_num_inputs (int_wrap (num_inputs (base_of fo) + 1))) fo).
  split; [unfold Variable_output; run; by rewrite Hf|].
  split; [done|].
  assert (Hf1 : functions (set_versions (delete (next_addr h)) (after_output f fo h)) !! f
                = Some (map_base (set_num_inputs
                                    (int_wrap (num_inputs (base_of fo) + 1))) fo)).
  { simpl. apply lookup_insert_eq. }
  split; [done|]. split; [by destruct fo|].
  intros d. eexists _, _. split; [by apply Variable_output_ok|].
  simpl. by destruct fo.
Qed.

Lemma heap_wfb_functions_lt (h : Heap tensor) p :
  heap_wfb h = true → is_Some (functions h !! p) → (p < next_addr h)%nat.
Proof.
  unfold heap_wfb. intros Hwf [w Hw].
  apply andb_true_iff in Hwf as [Hwf _]. apply andb_true_iff in Hwf as [_ Hwf].
  rewrite forallb_forall in Hwf. apply Nat.ltb_lt, Hwf.
  apply list_elem_of_In, list_elem_of_fmap. exists (p, w).
  split; [done|]. by apply elem_of_map_to_list.
Qed.

(** X2.  For a leaf that requires grad and holds no live accumulator,
    [get_grad_accumulator] makes a new [AccumulateGrad] at an address that
    held no Function: a sink with one input and no outgoing edge,
    executable, not stochastic, without hooks, that refers (weakly) to the
    leaf and to the leaf's current grad.  The leaf's weak reference is set
    to it; no other Function and no other Variable changes. *)
Theorem X2_new_accumulator_is_bound_sink (this : ptr) (h : Heap tensor) (v : Var tensor) :
  variables h !! this = Some v →
  grad_fn v = None →
  requires_grad v = true →
  lock_function h (grad_accumulator v) = None →
  heap_wfb h = true →
  ∃ a h1,
    get_grad_accumulator this h = Ok (Some a) h1 ∧
    functions h !! a = None ∧
    functions h1
      = <[a := ObjAccumulateGrad
                 {| ag_base := {| num_inputs := 1; next_functions := [];
                                  is_executable := true; is_stochastic := false;
                                  pre_hooks := []; post_hooks := [] |};
                    ag_variable := Some this;
                    ag_variable_grad := grad v |}]> (functions h) ∧
    variables h1 = <[this := set_grad_accumulator (Some a) v]> (variables h).
Proof.
  intros Hv Hgf Hrg Hlock Hwf.
  exists (next_addr h). eexists. split.
  - unfold get_grad_accumulator.
    rewrite (bind_Ok _ _ _ _ _ (deref_Ok h this v Hv)). rewrite Hgf, Hrg.
    cbn [negb]. unfold bind at 1, get at 1. rewrite Hlock.
    unfold make_shared_AccumulateGrad, AccumulateGrad_new. run.
    rewrite Hv. simpl. rewrite Hv. rewrite Hrg. reflexivity.
  - simpl. split; [|done].
    destruct (functions h !! next_addr h) as [w|] eqn:Hw; [|done].
    assert (next_addr h < next_addr h)%nat
      by (apply heap_wfb_functions_lt; [done | by eexists]).
    lia.
Qed.

Lemma make_shared_leaf_exact (h : Heap tensor) t rg vol :
  make_shared_Variable (Variable_leaf (Some t) rg vol) h
  = Ok (S (next_addr h))
       (set_variables
          <[S (next_addr h) :=
              {| data := Some t; grad_fn := None; grad := None;
                 version_counter := next_addr h;
                 requires_grad := rg; is_volatile := vol; output_nr := 0;
                 grad_accumulator := None; hooks := [] |}]>
          {| variables := variables h; functions := functions h;
             versions := <[next_addr h := 0]> (versions h);
             next_addr := S (S (next_addr h)) |}).
Proof. unfold make_shared_Variable, Variable_leaf. run. reflexivity. Qed.

(** X3.  [unpack] builds its Variable with the leaf constructor and sets
    [grad_fn] afterwards.  So the Variable it returns has [output_nr] 0
    whatever slot the saved Variable had, no grad and no hooks; no Function
    is changed (the [num_inputs] of [grad_fn] is not incremented, as it is
    for a constructed output), and no Variable that existed is changed. *)
Theorem X3_unpack_output_nr_zero (sv : SavedVariable tensor) (h h' : Heap tensor) (p : ptr) :
  unpack sv h = Ok (Some p) h' →
  ∃ v, variables h' !! p = Some v ∧
       output_nr v = 0 ∧ grad v = None ∧ hooks v = [] ∧
       functions h' = functions h ∧
       ∀ q, q ≠ p → variables h' !! q = variables h !! q.
Proof.
  unfold unpack. destruct (sv_data sv) as [d|]; [|done].
  unfold VariableVersion_read. unfold bind at 1.
  destruct (versions h !! sv_version sv) as [cur|]; [|done].
  destruct (negb (sv_expected_version sv =? cur)); [done|].
  rewrite (bind_Ok _ _ _ _ _ (make_shared_leaf_exact h _ _ _)).
  set (p1 := S (next_addr h)). set (h1 := set_variables _ _).
  unfold bind at 1, get at 1.
  set (gf := match sv_grad_fn sv with
             | None => if negb (expired h1 (sv_weak_grad_fn sv))
                       then lock_function h1 (sv_weak_grad_fn sv)
                       else sv_grad_fn sv
             | Some _ => sv_grad_fn sv
             end).
  assert (Hgf : (match sv_grad_fn sv with
                 | None =>
                     if negb (expired h1 (sv_weak_grad_fn sv)) then
                       update p1 (set_grad_fn (lock_function h1 (sv_weak_grad_fn sv)))
                     else update p1 (set_grad_fn (sv_grad_fn sv))
                 | Some _ => update p1 (set_grad_fn (sv_grad_fn sv))
                 end) = (update p1 (set_grad_fn gf) : M (Heap tensor) unit)).
  { unfold gf. destruct (sv_grad_fn sv); [done|]. by destruct (negb _). }
  rewrite Hgf. clear Hgf.
  assert (Hp1 : variables h1 !! p1 = Some
            {| data := Some (clone_shallow d); grad_fn := None; grad := None;
               version_counter := next_addr h;
               requires_grad := sv_requires_grad sv;
               is_volatile := sv_is_volatile sv; output_nr := 0;
               grad_accumulator := None; hooks := [] |}).
  { unfold h1. simpl. apply lookup_insert_eq. }
  rewrite (bind_Ok _ _ _ _ _ (update_Ok h1 p1 _ _ Hp1)).
  set (h2 := set_variables _ h1).
  assert (Hp2 : variables h2 !! p1 = Some (set_grad_fn gf
            {| data := Some (clone_shallow d); grad_fn := None; grad := None;
               version_counter := next_addr h;
               requires_grad := sv_requires_grad sv;
               is_volatile := sv_is_volatile sv; output_nr := 0;
               grad_accumulator := None; hooks := [] |})).
  { unfold h2. simpl. apply lookup_insert_eq. }
  rewrite (bind_Ok _ _ _ _ _ (update_Ok h2 p1 _ _ Hp2)).
  set (h3 := set_variables _ h2).
  destruct (_ && _ && _ && _); [done|].
  assert (Hp3 : variables h3 !! p1 = Some (VariableVersion_join_with (sv_version sv)
            (set_grad_fn gf
            {| data := Some (clone_shallow d); grad_fn := None; grad := None;
               version_counter := next_addr h;
               requires_grad := sv_requires_grad sv;
               is_volatile := sv_is_volatile sv; output_nr := 0;
               grad_accumulator := None; hooks := [] |}))).
  { unfold h3. simpl. apply lookup_insert_eq. }
  rewrite (bind_Ok _ _ _ _ _ (update_Ok h3 p1 _ _ Hp3)).
  intros Hs. inversion Hs; subst p h'. clear Hs.
  eexists. split; [simpl; apply lookup_insert_eq|].
  split; [done|]. split; [done|]. split; [done|]. split; [done|].
  intros q Hq. simpl. by rewrite !lookup_insert_ne by done.
Qed.

End VariableCoverage.

Lemma X1_failed_output_takes_slot_witness :
  functions op_heap !! 0%nat = Some example_op ∧
  ∃ h1 fo1,
    Variable_output None (Some 0%nat) op_heap
      = Throw (runtime_error "Variable data is NULL") h1 ∧
    variables h1 = variables op_heap ∧
    functions h1 !! 0%nat = Some fo1 ∧
    num_inputs (base_of fo1) = int_wrap (num_inputs (base_of example_op) + 1) ∧
    ∀ d, ∃ v h2,
      Variable_output (Some d) (Some 0%nat) h1 = Ok v h2 ∧
      output_nr v = int_wrap (num_inputs (base_of example_op) + 1).
Proof.
  split; [reflexivity|].
  apply (X1_failed_output_takes_slot 0%nat op_heap example_op). reflexivity.
Defined.

Lemma X2_new_accumulator_is_bound_sink_witness :
  variables (leaf_heap true false) !! 0%nat = Some (example_leaf true false 1%nat) ∧
  heap_wfb (leaf_heap true false) = true ∧
  ∃ a h1,
    get_grad_accumulator 0%nat (leaf_heap true false) = Ok (Some a) h1 ∧
    functions (leaf_heap true false) !! a = None ∧
    functions h1
      = <[a := ObjAccumulateGrad
                 {| ag_base := {| num_inputs := 1; next_functions := [];
                                  is_executable := true; is_stochastic := false;
                                  pre_hooks := []; post_hooks := [] |};
                    ag_variable := Some 0%nat;
                    ag_variable_grad := grad (example_leaf true false 1%nat) |}]>
          (functions (leaf_heap true false)) ∧
    variables h1 = <[0%nat := set_grad_accumulator (Some a) (example_leaf true false 1%nat)]>
                     (variables (leaf_heap true false)).
Proof.
  split; [reflexivity|]. split; [vm_compute; reflexivity|].
  apply (X2_new_accumulator_is_bound_sink 0%nat (leaf_heap true false)
           (example_leaf true false 1%nat)); try reflexivity.
Defined.

Lemma X3_unpack_output_nr_zero_witness :
  unpack (example_saved 0) (leaf_heap false false) = Ok (Some 3%nat) unpacked_heap ∧
  ∃ v, variables unpacked_heap !! 3%nat = Some v ∧
       output_nr v = 0 ∧ grad v = None ∧ hooks v = [] ∧
       functions unpacked_heap = functions (leaf_heap false false) ∧
       ∀ q, q ≠ 3%nat →
            variables unpacked_heap !! q = variables (leaf_heap false false) !! q.
Proof.
  assert (Hu : unpack (example_saved 0) (leaf_heap false false)
               = Ok (Some 3%nat) unpacked_heap) by (vm_compute; reflexivity).
  split; [exact Hu|].
  exact (X3_unpack_output_nr_zero (example_saved 0) (leaf_heap false false)
           unpacked_heap 3%nat Hu).
Defined.

Section AccumulateGradCoverage.
Context {tensor : Type} `{TensorLib tensor}.
Variable call_hook : nat → list (option ptr) → M (Heap tensor) (list (option ptr)).

(** X4.  When the Variable of an [AccumulateGrad] has been freed, [apply]
    drops the incoming gradient without an error and without touching the
    heap, unless both the grad the node still refers to and the incoming
    gradient are volatile: that is so when the grad has been freed too,
    when the grad is not volatile (the incoming gradient is then not even
    looked at, it may be null), and when the incoming gradient is not
    volatile.  No hook is called. *)
Theorem X4_freed_variable_drops_gradient
    (this : ptr) (g : option ptr) (h : Heap tensor) (self : AccumulateGrad) :
  functions h !! this = Some (ObjAccumulateGrad self) →
  lock_variable h (ag_variable self) = None →
  (lock_variable h (ag_variable_grad self) = None
   ∨ ∃ vgp vg,
       lock_variable h (ag_variable_grad self) = Some vgp ∧
       variables h !! vgp = Some vg ∧
       (is_volatile vg = false
        ∨ ∃ q vn, g = Some q ∧ variables h !! q = Some vn ∧ is_volatile vn = false)) →
  AccumulateGrad_apply call_hook this [g] h = Ok [] h.
Proof.
  intros Hthis Hvar Hgrad. unfold AccumulateGrad_apply. cbn [length Nat.eqb negb].
  unfold deref_AccumulateGrad. unfold bind at 1. rewrite Hthis.
  unfold bind at 1, get at 1. rewrite Hvar.
  unfold bind at 1, front at 1, ret at 1.
  destruct Hgrad as [->|(vgp & vg & -> & Hvg & Hvol)]; [done|].
  rewrite (bind_Ok _ _ _ _ _ (deref_Ok h vgp vg Hvg)).
  destruct Hvol as [->|(q & vn & -> & Hvn & Hnv)]; [done|].
  destruct (is_volatile vg); [|done]. cbn [negb].
  unfold deref_opt. rewrite (bind_Ok _ _ _ _ _ (deref_Ok h q vn Hvn)).
  by rewrite Hnv.
Qed.

(** X5.  The checks of [AccumulateGrad::apply], in their order, each throw
    with the heap as it was: a gradient list that does not hold exactly one
    entry; then, for a live Variable, a [grad_fn] (whatever the version
    counter says); then a version counter that is not 0; then a Variable
    that does not require grad, or that is bound to another live
    accumulator. *)
Theorem X5_apply_checks_leave_heap
    (this var : ptr) (g : option ptr) (h : Heap tensor) (self : AccumulateGrad)
    (v : Var tensor) (n : Z) :
  functions h !! this = Some (ObjAccumulateGrad self) →
  lock_variable h (ag_variable self) = Some var →
  variables h !! var = Some v →
  versions h !! version_counter v = Some n →
  (∀ grads, length grads ≠ 1%nat →
     AccumulateGrad_apply call_hook this grads h
     = Throw (runtime_error "AccumulateGrad expects exactly 1 input") h) ∧
  (is_Some (grad_fn v) →
     AccumulateGrad_apply call_hook this [g] h
     = Throw (logic_error "leaf variable has been moved into the graph interior") h) ∧
  (grad_fn v = None → n ≠ 0 →
     AccumulateGrad_apply call_hook this [g] h
     = Throw (runtime_error "leaf variable was used in an inplace operation") h) ∧
  (grad_fn v = None → n = 0 →
   (requires_grad v = false
    ∨ ∃ b, lock_function h (grad_accumulator v) = Some b ∧ b ≠ this) →
     AccumulateGrad_apply call_hook this [g] h
     = Throw (logic_error "AccumulateGrad's variable is not bound to it") h).
Proof.
  intros Hthis Hvar Hv Hver.
  split; [|split; [|split]].
  - intros grads Hlen. unfold AccumulateGrad_apply.
    destruct (length grads =? 1)%nat eqn:Hl; [|done].
    by apply Nat.eqb_eq in Hl.
  - intros [f Hgf].
    unfold AccumulateGrad_apply. cbn [length Nat.eqb negb].
    unfold deref_AccumulateGrad. unfold bind at 1. rewrite Hthis.
    unfold bind at 1, get at 1. rewrite Hvar.
    unfold bind at 1, front at 1, ret at 1.
    rewrite (bind_Ok _ _ _ _ _ (deref_Ok h var v Hv)). by rewrite Hgf.
  - intros Hgf Hn.
    unfold AccumulateGrad_apply. cbn [length Nat.eqb negb].
    unfold deref_AccumulateGrad. unfold bind at 1. rewrite Hthis.
    unfold bind at 1, get at 1. rewrite Hvar.
    unfold bind at 1, front at 1, ret at 1.
    rewrite (bind_Ok _ _ _ _ _ (deref_Ok h var v Hv)). rewrite Hgf.
    unfold VariableVersion_read. unfold bind at 1. rewrite Hver.
    destruct (n =? 0) eqn:Hz; [by apply Z.eqb_eq in Hz|done].
  - intros Hgf -> Hbound.
    unfold AccumulateGrad_apply. cbn [length Nat.eqb negb].
    unfold deref_AccumulateGrad. unfold bind at 1. rewrite Hthis.
    unfold bind at 1, get at 1. rewrite Hvar.
    unfold bind at 1, front at 1, ret at 1.
    rewrite (bind_Ok _ _ _ _ _ (deref_Ok h var v Hv)). rewrite Hgf.
    unfold VariableVersion_read. unfold bind at 1. rewrite Hver.
    cbn [Z.eqb negb].
    destruct Hbound as [Hrg|(b & Hb & Hne)].
    + assert (Hget : get_grad_accumulator var h = Ok None h).
      { unfold get_grad_accumulator.
        rewrite (bind_Ok _ _ _ _ _ (deref_Ok h var v Hv)). by rewrite Hgf, Hrg. }
      rewrite (bind_Ok _ _ _ _ _ (temporary_of_live h var _ Hget ltac:(done))).
      by rewrite bool_decide_eq_false_2.
    + destruct (requires_grad v) eqn:Hrg.
      * assert (Hget : get_grad_accumulator var h = Ok (Some b) h).
        { unfold get_grad_accumulator.
          rewrite (bind_Ok _ _ _ _ _ (deref_Ok h var v Hv)). rewrite Hgf, Hrg.
          cbn [negb]. unfold bind, get. by rewrite Hb. }
        assert (Hlive : ∀ a, Some b = Some a → is_Some (functions h !! a)).
        { intros a [= <-]. unfold lock_function in Hb.
          destruct (grad_accumulator v) as [p|]; [|done].
          case_decide; [|done]. by inversion Hb; subst. }
        rewrite (bind_Ok _ _ _ _ _ (temporary_of_live h var _ Hget Hlive)).
        rewrite bool_decide_eq_false_2; [done|]. congruence.
      * assert (Hget : get_grad_accumulator var h = Ok None h).
        { unfold get_grad_accumulator.
          rewrite (bind_Ok _ _ _ _ _ (deref_Ok h var v Hv)). by rewrite Hgf, Hrg. }
        rewrite (bind_Ok _ _ _ _ _ (temporary_of_live h var _ Hget ltac:(done))).
        by rewrite bool_decide_eq_false_2.
Qed.

(** X6.  [apply] on a live leaf that passes its checks and, once the hooks
    have run, holds a volatile grad: the incoming gradient [g1] (volatile or
    not) is added into that grad in place.  The call returns no outputs,
    allocates nothing and changes no Function; the leaf keeps pointing at
    the same grad Variable, whose tensor becomes the sum - taken as
    [new + grad] into a new dense tensor when the grad was sparse and the
    gradient is not, as [grad + new] otherwise. *)
Theorem X6_volatile_grad_accumulates_in_place
    (this : ptr) (g : option ptr) (h h1 : Heap tensor)
    (self : AccumulateGrad) (var g0 g1 : ptr) (v v1 vg0 vn : Var tensor)
    (d0 d1 : tensor) :
  functions h !! this = Some (ObjAccumulateGrad self) →
  ag_variable self = Some var →
  variables h !! var = Some v →
  grad_fn v = None →
  versions h !! version_counter v = Some 0 →
  requires_grad v = true →
  grad_accumulator v = Some this →
  run_hooks call_hook (hooks v) g h = Ok (Some g1) h1 →
  variables h1 !! var = Some v1 →
  grad v1 = Some g0 →
  variables h1 !! g0 = Some vg0 →
  is_volatile vg0 = true →
  data vg0 = Some d0 →
  variables h1 !! g1 = Some vn →
  data vn = Some d1 →
  AccumulateGrad_apply call_hook this [g] h
  = Ok [] (set_variables
             <[g0 := set_data
                       (Some (if isSparse d0 && negb (isSparse d1)
                              then cadd d1 d0 else cadd d0 d1)) vg0]> h1).
Proof.
  intros Hthis Hvar Hv Hgf Hver Hrg Hacc Hhooks Hv1 Hg0 Hvg0 Hvol Hd0 Hvn Hd1.
  unfold AccumulateGrad_apply. cbn [length Nat.eqb negb].
  unfold deref_AccumulateGrad. unfold bind at 1. rewrite Hthis.
  unfold bind at 1, get at 1. rewrite Hvar. unfold lock_variable.
  rewrite decide_True by (by eexists).
  unfold bind at 1, front at 1, ret at 1.
  rewrite (bind_Ok _ _ _ _ _ (deref_Ok h var v Hv)). rewrite Hgf.
  unfold VariableVersion_read. unfold bind at 1. rewrite Hver.
  cbn [Z.eqb negb].
  assert (Hget : get_grad_accumulator var h = Ok (Some this) h).
  { unfold get_grad_accumulator.
    rewrite (bind_Ok _ _ _ _ _ (deref_Ok h var v Hv)). rewrite Hgf, Hrg.
    cbn [negb]. unfold bind, get. rewrite Hacc. unfold lock_function.
    rewrite decide_True by (by eexists). done. }
  rewrite (bind_Ok _ _ _ _ _ (temporary_of_live h var _ Hget
                                ltac:(intros a [= <-]; by eexists))).
  rewrite bool_decide_eq_true_2 by done. cbn [negb].
  rewrite (bind_Ok _ _ _ _ _ Hhooks).
  rewrite (bind_Ok _ _ _ _ _ (deref_Ok h1 var v1 Hv1)). rewrite Hg0.
  rewrite (bind_Ok _ _ _ _ _ (deref_Ok h1 g0 vg0 Hvg0)). rewrite Hvol.
  unfold bind at 1, ret at 1.
  assert (Hadd : acc_inplace g0 g1 h1
            = Ok tt (set_variables
                       <[g0 := set_data
                                 (Some (if isSparse d0 && negb (isSparse d1)
                                        then cadd d1 d0 else cadd d0 d1)) vg0]> h1)).
  { unfold acc_inplace.
    rewrite (bind_Ok _ _ _ _ _ (deref_Ok h1 g0 vg0 Hvg0)).
    rewrite (bind_Ok _ _ _ _ _ (deref_Ok h1 g1 vn Hvn)).
    unfold deref_data. rewrite Hd0, Hd1.
    unfold bind at 1, ret at 1. unfold bind at 1, ret at 1.
    destruct (isSparse d0 && negb (isSparse d1)); by apply update_Ok. }
  by rewrite (bind_Ok _ _ _ _ _ Hadd).
Qed.

Lemma get_grad_accumulator_new (h : Heap tensor) this (v : Var tensor) :
  variables h !! this = Some v →
  grad_fn v = None →
  requires_grad v = true →
  lock_function h (grad_accumulator v) = None →
  get_grad_accumulator this h
  = Ok (Some (next_addr h))
       {| variables := <[this := set_grad_accumulator (Some (next_addr h)) v]> (variables h);
          functions :=
            <[next_addr h :=
                ObjAccumulateGrad
                  {| ag_base := {| num_inputs := 1; next_functions := [];
                                   is_executable := requires_grad v;
                                   is_stochastic := false;
                                   pre_hooks := []; post_hooks := [] |};
                     ag_variable := Some this;
                     ag_variable_grad := grad v |}]> (functions h);
          versions := versions h;
          next_addr := S (next_addr h) |}.
Proof.
  intros Hv Hgf Hrg Hlock.
  unfold get_grad_accumulator, make_shared_AccumulateGrad, AccumulateGrad_new.
  repeat (unfold bind, ret, get, modify, alloc, deref, update; simpl).
  rewrite Hv, Hgf. simpl. rewrite Hrg. simpl. rewrite Hlock, Hv. simpl. rewrite Hv.
  by rewrite Hrg.
Qed.

(** The temporary [shared_ptr] of an accumulator made by the call takes
    the accumulator with it. *)
Lemma temporary_of_new (h : Heap tensor) var (v : Var tensor) :
  variables h !! var = Some v →
  grad_fn v = None →
  requires_grad v = true →
  lock_function h (grad_accumulator v) = None →
  functions h !! next_addr h = None →
  get_grad_accumulator_temporary var h
  = Ok (Some (next_addr h))
       {| variables := <[var := set_grad_accumulator (Some (next_addr h)) v]> (variables h);
          functions := functions h;
          versions := versions h;
          next_addr := S (next_addr h) |}.
Proof.
  intros Hv Hgf Hrg Hlock Hfresh. unfold get_grad_accumulator_temporary.
  unfold bind at 1, get at 1.
  rewrite (bind_Ok _ _ _ _ _ (get_grad_accumulator_new h var v Hv Hgf Hrg Hlock)).
  rewrite decide_False by (rewrite Hfresh; by intros [? ?]).
  unfold bind, modify, ret, set_functions. simpl.
  rewrite delete_insert_eq, delete_id by done. reflexivity.
Qed.

(** X24.  The binding check of [AccumulateGrad::apply] on a leaf whose own
    accumulator is gone.  The leaf is alive, requires grad and passes the
    first checks, but its weak reference is empty or expired: the call of
    [get_grad_accumulator] made for the check then creates an accumulator,
    which cannot be this node; [apply] throws "AccumulateGrad's variable is
    not bound to it", and the accumulator just made is destroyed with the
    temporary that held it.  Afterwards the Functions are those of before,
    the leaf refers weakly to the destroyed accumulator, and a fresh address
    has been used up; no hook was called. *)
Theorem X24_binding_check_drops_temporary
    (this var : ptr) (g : option ptr) (h : Heap tensor) (self : AccumulateGrad)
    (v : Var tensor) :
  functions h !! this = Some (ObjAccumulateGrad self) →
  lock_variable h (ag_variable self) = Some var →
  variables h !! var = Some v →
  grad_fn v = None →
  versions h !! version_counter v = Some 0 →
  requires_grad v = true →
  lock_function h (grad_accumulator v) = None →
  heap_wfb h = true →
  ∃ h',
    AccumulateGrad_apply call_hook this [g] h
      = Throw (logic_error "AccumulateGrad's variable is not bound to it") h' ∧
    functions h' = functions h ∧
    variables h' = <[var := set_grad_accumulator (Some (next_addr h)) v]> (variables h) ∧
    versions h' = versions h ∧
    next_addr h' = S (next_addr h) ∧
    expired h' (Some (next_addr h)) = true.
Proof.
  intros Hthis Hvar Hv Hgf Hver Hrg Hlock Hwf.
  assert (Hfresh : functions h !! next_addr h = None).
  { destruct (functions h !! next_addr h) as [fo|] eqn:Hfo; [|done].
    assert (next_addr h < next_addr h)%nat; [|lia].
    apply heap_wfb_functions_lt; [done | by eexists]. }
  assert (Hne : next_addr h ≠ this) by congruence.
  eexists. split.
  - unfold AccumulateGrad_apply. cbn [length Nat.eqb negb].
    unfold deref_AccumulateGrad. unfold bind at 1. rewrite Hthis.
    unfold bind at 1, get at 1. rewrite Hvar.
    unfold bind at 1, front at 1, ret at 1.
    rewrite (bind_Ok _ _ _ _ _ (deref_Ok h var v Hv)). rewrite Hgf.
    unfold VariableVersion_read. unfold bind at 1. rewrite Hver.
    cbn [Z.eqb negb].
    rewrite (bind_Ok _ _ _ _ _ (temporary_of_new h var v Hv Hgf Hrg Hlock Hfresh)).
    rewrite bool_decide_eq_false_2 by congruence. reflexivity.
  - simpl. split; [done|]. split; [done|]. split; [done|]. split; [done|].
    unfold expired, lock_function. simpl. rewrite decide_False; [done|].
    rewrite Hfresh. by intros [? ?].
Qed.

End AccumulateGradCoverage.

Lemma X4_freed_variable_drops_gradient_witness :
  functions orphan_heap !! 2%nat = Some (ObjAccumulateGrad example_accumulator) ∧
  lock_variable orphan_heap (ag_variable example_accumulator) = None ∧
  AccumulateGrad_apply replacing_hook 2%nat [None] orphan_heap = Ok [] orphan_heap.
Proof.
  split; [reflexivity|]. split; [reflexivity|].
  apply (X4_freed_variable_drops_gradient replacing_hook 2%nat None orphan_heap
           example_accumulator); [reflexivity | reflexivity | left; reflexivity].
Defined.

Lemma X5_apply_checks_leave_heap_witness :
  functions modified_leaf_heap !! 2%nat = Some (ObjAccumulateGrad example_accumulator) ∧
  lock_variable modified_leaf_heap (ag_variable example_accumulator) = Some 0%nat ∧
  variables modified_leaf_heap !! 0%nat = Some (bound_leaf []) ∧
  versions modified_leaf_heap !! version_counter (bound_leaf []) = Some 1 ∧
  AccumulateGrad_apply replacing_hook 2%nat [Some 3%nat] modified_leaf_heap
  = Throw (runtime_error "leaf variable was used in an inplace operation")
          modified_leaf_heap.
Proof.
  split; [reflexivity|]. split; [reflexivity|]. split; [reflexivity|].
  split; [reflexivity|].
  apply (X5_apply_checks_leave_heap replacing_hook 2%nat 0%nat (Some 3%nat)
           modified_leaf_heap example_accumulator (bound_leaf []) 1);
    [reflexivity | reflexivity | reflexivity | reflexivity | reflexivity | lia].
Defined.

Lemma X6_volatile_grad_accumulates_in_place_witness :
  functions volatile_grad_heap !! 2%nat
    = Some (ObjAccumulateGrad {| ag_base := ag_base example_accumulator;
                                 ag_variable := Some 0%nat;
                                 ag_variable_grad := Some 4%nat |}) ∧
  variables volatile_grad_heap !! 0%nat = Some leaf_with_grad ∧
  versions volatile_grad_heap !! version_counter leaf_with_grad = Some 0 ∧
  run_hooks replacing_hook (hooks leaf_with_grad) (Some 3%nat) volatile_grad_heap
    = Ok (Some 3%nat) volatile_grad_heap ∧
  variables volatile_grad_heap !! 4%nat = Some volatile_grad ∧
  variables volatile_grad_heap !! 3%nat = Some (example_grad [1; 1] 5%nat) ∧
  AccumulateGrad_apply replacing_hook 2%nat [Some 3%nat] volatile_grad_heap
  = Ok [] (set_variables <[4%nat := set_data (Some [11; 21]) volatile_grad]>
             volatile_grad_heap).
Proof.
  split; [reflexivity|]. split; [reflexivity|]. split; [reflexivity|].
  split; [reflexivity|]. split; [reflexivity|]. split; [reflexivity|].
  exact (X6_volatile_grad_accumulates_in_place replacing_hook 2%nat (Some 3%nat)
           volatile_grad_heap volatile_grad_heap _ 0%nat 4%nat 3%nat
           leaf_with_grad leaf_with_grad volatile_grad (example_grad [1; 1] 5%nat)
           [10; 20] [1; 1]
           eq_refl eq_refl eq_refl eq_refl eq_refl eq_refl eq_refl eq_refl
           eq_refl eq_refl eq_refl eq_refl eq_refl eq_refl eq_refl).
Defined.

Lemma X24_binding_check_drops_temporary_witness :
  functions unbound_heap !! 2%nat = Some (ObjAccumulateGrad example_accumulator) ∧
  variables unbound_heap !! 0%nat = Some unbound_leaf ∧
  lock_function unbound_heap (grad_accumulator unbound_leaf) = None ∧
  heap_wfb unbound_heap = true ∧
  ∃ h',
    AccumulateGrad_apply replacing_hook 2%nat [Some 3%nat] unbound_heap
      = Throw (logic_error "AccumulateGrad's variable is not bound to it") h' ∧
    functions h' = functions unbound_heap ∧
    variables h'
      = <[0%nat := set_grad_accumulator (Some (next_addr unbound_heap)) unbound_leaf]>
          (variables unbound_heap) ∧
    versions h' = versions unbound_heap ∧
    next_addr h' = S (next_addr unbound_heap) ∧
    expired h' (Some (next_addr unbound_heap)) = true.
Proof.
  split; [reflexivity|]. split; [reflexivity|]. split; [reflexivity|].
  split; [vm_compute; reflexivity|].
  apply (X24_binding_check_drops_temporary replacing_hook 2%nat 0%nat (Some 3%nat)
           unbound_heap example_accumulator unbound_leaf);
    first [reflexivity | vm_compute; reflexivity].
Defined.

Section EngineCoverage.
Context {W IB : Type} {R : Runtime W IB}.
Variable graph : gmap ptr Function.

Lemma ledger_refl (σ : Engine W IB) : ledger σ σ.
Proof. by split. Qed.

Lemma ledger_trans (σ1 σ2 σ3 : Engine W IB) :
  ledger σ1 σ2 → ledger σ2 σ3 → ledger σ1 σ3.
Proof. intros [] []. split; try congruence. auto. Qed.

(** A change that leaves the queues alone and, in the task, touches at most
    [has_any_work], [not_ready] and [dependencies]. *)
Lemma ledger_frame (σ σ' : Engine W IB) :
  ready_queues σ' = ready_queues σ →
  exception (task σ') = exception (task σ) →
  has_error (task σ') = has_error (task σ) →
  keep_graph (task σ') = keep_graph (task σ) →
  function_callbacks (task σ') = function_callbacks (task σ) →
  outstanding_tasks (task σ') = outstanding_tasks (task σ) →
  ledger σ σ'.
Proof.
  intros Hq He Hh Hk Hc Ho. split; try done.
  - by rewrite Hq.
  - unfold surplus, queued. by rewrite Hq, Ho.
  - by rewrite Ho.
Qed.

Lemma ledger_same_engine (σ σ' : Engine W IB) : same_engine σ σ' → ledger σ σ'.
Proof. intros (Hq & Ht & _). apply ledger_frame; by rewrite ?Ht. Qed.

Lemma uint64_wrap_range z : 0 ≤ uint64_wrap z < 18446744073709551616.
Proof. unfold uint64_wrap. apply Z.mod_pos_bound. lia. Qed.

Lemma ledger_push q (item : FunctionTask IB) (σ σ' : Engine W IB) :
  (q < length (ready_queues σ))%nat →
  push_front q item σ = Ok tt σ' →
  ledger σ σ'.
Proof.
  intros Hq Hp. destruct (push_front_queued q item σ Hq)
    as (σ2 & Hp2 & Hperm & _ & _ & Hlen & Ht).
  rewrite Hp in Hp2. inversion Hp2; subst σ2. clear Hp2.
  split; try (by rewrite Ht).
  - done.
  - unfold surplus. rewrite Ht. simpl.
    apply Permutation_length in Hperm. rewrite Hperm. simpl length.
    unfold uint64_wrap. rewrite Nat2Z.inj_succ.
    rewrite Zminus_mod_idemp_l. f_equal. lia.
  - intros _. rewrite Ht. simpl. apply uint64_wrap_range.
Qed.

Lemma ledger_set_task (f : GraphTask IB → GraphTask IB) (σ : Engine W IB) :
  exception (f (task σ)) = exception (task σ) →
  has_error (f (task σ)) = has_error (task σ) →
  keep_graph (f (task σ)) = keep_graph (task σ) →
  function_callbacks (f (task σ)) = function_callbacks (task σ) →
  outstanding_tasks (f (task σ)) = outstanding_tasks (task σ) →
  ledger σ (set_task f σ).
Proof. intros. by apply ledger_frame. Qed.

Lemma ledger_lift_world {A} (m : M W A) (σ σ' : Engine W IB) :
  state_of (lift_world m σ) = Some σ' → ledger σ σ'.
Proof. intros Hs. by apply ledger_same_engine, (lift_world_frame m). Qed.

(** [ready_queue] followed by [push_front] on the queue it names. *)
Lemma ledger_enqueue device (item : FunctionTask IB) (σ σ' : Engine W IB) :
  state_of ((let* queue := ready_queue device in push_front queue item) σ) = Some σ' →
  ledger σ σ'.
Proof.
  intros Hs. destruct (ready_queue_cases device σ) as [(q & Hq & Hlt)|(e & Hq)].
  - rewrite (bind_Ok _ _ _ _ _ Hq) in Hs.
    destruct (push_front_queued q item σ Hlt) as (σ2 & Hp & _).
    rewrite Hp in Hs. inversion Hs; subst. by eapply ledger_push.
  - unfold bind in Hs. rewrite Hq in Hs. inversion Hs. apply ledger_refl.
Qed.

Lemma deliver_ledger output (edge : option ptr * Z) (σ σ' : Engine W IB) :
  state_of (deliver graph output edge σ) = Some σ' → ledger σ σ'.
Proof.
  unfold deliver. destruct (edge.1) as [F|]; [|intros Hs; inversion Hs; apply ledger_refl].
  destruct (_ || _); [intros Hs; inversion Hs; apply ledger_refl|].
  unfold bind at 1, get at 1. intros Hs.
  apply bind_state_of in Hs as [(is_ready & s1 & Hm & Hs)|(e & Hm)].
  2: { destruct (dependencies (task σ) !! F) as [n|]; [|inversion Hm; apply ledger_refl].
       destruct (int_wrap (n - 1) =? 0); inversion Hm. }
  assert (H1 : ledger σ s1).
  { destruct (dependencies (task σ) !! F) as [n|]; [|done].
    destruct (int_wrap (n - 1) =? 0); inversion Hm; by apply ledger_set_task. }
  eapply ledger_trans; [exact H1|]. clear Hm H1.
  destruct (not_ready (task σ) !! F) as [buffer|].
  - apply bind_state_of in Hs as [(b & s2 & Hm & Hs)|(e & Hm)].
    2: { apply (ledger_lift_world (InputBuffer_add buffer edge.2 output)).
         by rewrite Hm. }
    eapply ledger_trans.
    { apply (ledger_lift_world (InputBuffer_add buffer edge.2 output)). by rewrite Hm. }
    unfold bind at 1, modify at 1 in Hs.
    eapply ledger_trans; [apply (ledger_set_task (set_not_ready <[F := b]>)); done|].
    destruct is_ready; [|inversion Hs; apply ledger_refl].
    destruct (ready_queue_cases (InputBuffer_device b)
                (set_task (set_not_ready <[F := b]>) s2)) as [(q & Hq & Hlt)|(e & Hq)].
    + rewrite (bind_Ok _ _ _ _ _ Hq) in Hs.
      destruct (push_front_queued q {| fn := F; inputs := b |} _ Hlt) as (s3 & Hp & _).
      rewrite (bind_Ok _ _ _ _ _ Hp) in Hs. inversion Hs; subst.
      eapply ledger_trans; [by eapply ledger_push|].
      by apply ledger_set_task.
    + unfold bind in Hs. rewrite Hq in Hs. inversion Hs. apply ledger_refl.
  - apply bind_state_of in Hs as [(b & s2 & Hm & Hs)|(e & Hm)].
    2: { apply (ledger_lift_world
                  (InputBuffer_add (InputBuffer_new (num_inputs (fn_at graph F)))
                                   edge.2 output)).
         by rewrite Hm. }
    eapply ledger_trans.
    { apply (ledger_lift_world
               (InputBuffer_add (InputBuffer_new (num_inputs (fn_at graph F)))
                                edge.2 output)).
      by rewrite Hm. }
    destruct is_ready.
    + by eapply ledger_enqueue.
    + inversion Hs. by apply ledger_set_task.
Qed.

Lemma deliver_all_ledger outputs : ∀ (edges : list (option ptr * Z)) (σ σ' : Engine W IB),
  state_of (deliver_all graph outputs edges σ) = Some σ' → ledger σ σ'.
Proof.
  induction outputs as [|output outputs IH]; intros edges σ σ' Hs.
  - inversion Hs. apply ledger_refl.
  - destruct edges as [|edge edges]; simpl in Hs; [inversion Hs; apply ledger_refl|].
    apply bind_state_of in Hs as [([] & s1 & Hm & Hs)|(e & Hm)].
    + eapply ledger_trans; [|by eapply IH].
      apply (deliver_ledger output edge). by rewrite Hm.
    + apply (deliver_ledger output edge). by rewrite Hm.
Qed.

Lemma evaluate_function_ledger (t : FunctionTask IB) (σ σ' : Engine W IB) :
  state_of (evaluate_function graph t σ) = Some σ' → ledger σ σ'.
Proof.
  unfold evaluate_function. intros Hs.
  apply bind_state_of in Hs as [(outs & s1 & Hm & Hs)|(e & Hm)].
  2: { frame_of Hm call_function_frame. destruct Hframe as (Hq & Ht & _).
       apply ledger_frame; by rewrite ?Ht. }
  frame_of Hm call_function_frame. destruct Hframe as (Hq & Ht & _).
  eapply ledger_trans; [apply ledger_frame; by rewrite ?Ht|]. clear Hm Hq Ht.
  unfold bind at 1, get at 1 in Hs.
  apply bind_state_of in Hs as [([] & s2 & Hm & Hs)|(e & Hm)].
  2: { frame_of Hm release_frame. destruct Hframe as (Hq & Ht & _).
       apply ledger_frame; by rewrite ?Ht. }
  frame_of Hm release_frame. destruct Hframe as (Hq & Ht & _).
  eapply ledger_trans; [apply ledger_frame; by rewrite ?Ht|]. clear Hm Hq Ht.
  destruct (negb _); [inversion Hs; apply ledger_refl|].
  by eapply deliver_all_ledger.
Qed.

Lemma balanced_surplus (σ : Engine W IB) :
  balanced σ ↔
  surplus σ = 0 ∧ 0 ≤ outstanding_tasks (task σ) < 18446744073709551616.
Proof.
  unfold balanced, surplus, uint64_wrap. split.
  - intros ->. split; [|apply Z.mod_pos_bound; lia].
    rewrite Zminus_mod_idemp_l. by rewrite Z.sub_diag.
  - intros [Hs Hr].
    rewrite <- (Z.mod_small (outstanding_tasks (task σ)) 18446744073709551616) by done.
    replace (outstanding_tasks (task σ))
      with ((outstanding_tasks (task σ) - Z.of_nat (length (queued σ)))
            + Z.of_nat (length (queued σ))) at 1 by lia.
    rewrite <- Zplus_mod_idemp_l, Hs. done.
Qed.

(** A round of a worker keeps [outstanding_tasks] equal to the number of
    queued tasks. *)
Lemma thread_main_step_balanced q (σ σ' : Engine W IB) :
  thread_main_step graph q σ = steps σ' → balanced σ → balanced σ'.
Proof.
  unfold thread_main_step.
  destruct (pop_back q σ) as [[t σ1]|] eqn:Hpop; [|done].
  apply pop_back_spec in Hpop as (Hq & Ht & _ & _).
  intros Hstep Hbal.
  assert (Hfin : ∀ σ2 : Engine W IB, surplus σ2 = surplus σ1 →
            balanced (set_task (λ g, set_outstanding_tasks
                                       (uint64_wrap (outstanding_tasks g - 1)) g) σ2)).
  { intros σ2 Hsur. apply balanced_surplus. simpl. split; [|apply uint64_wrap_range].
    unfold surplus in *. simpl. change (queued (set_task _ σ2)) with (queued σ2).
    unfold uint64_wrap in *. rewrite Zminus_mod_idemp_l.
    replace (outstanding_tasks (task σ2) - 1 - Z.of_nat (length (queued σ2)))
      with ((outstanding_tasks (task σ2) - Z.of_nat (length (queued σ2))) - 1) by lia.
    rewrite <- Zminus_mod_idemp_l, Hsur, Zminus_mod_idemp_l.
    rewrite Ht. unfold balanced in Hbal. rewrite Hbal.
    apply Permutation_length in Hq. rewrite Hq. simpl length.
    unfold uint64_wrap. rewrite Nat2Z.inj_succ.
    rewrite <- Z.sub_add_distr, Zminus_mod_idemp_l.
    replace (Z.succ (Z.of_nat (length (queued σ1)))
             - (Z.of_nat (length (queued σ1)) + 1)) with 0 by lia.
    done. }
  destruct (has_error (task σ1)) eqn:Herr.
  { inversion Hstep; subst. by apply Hfin. }
  destruct (evaluate_function graph t σ1) as [[] σ2|e σ2|] eqn:Hev; [| |done].
  - inversion Hstep; subst. apply Hfin.
    apply ledger_surplus, (evaluate_function_ledger t). by rewrite Hev.
  - inversion Hstep; subst. apply Hfin.
    transitivity (surplus σ2).
    + unfold thread_on_exception. by destruct (negb _).
    + apply ledger_surplus, (evaluate_function_ledger t). by rewrite Hev.
Qed.

Lemma run_balanced schedule : ∀ (σ σ' : Engine W IB),
  run graph schedule σ = Some σ' → balanced σ → balanced σ'.
Proof.
  induction schedule as [|q schedule IH]; intros σ σ' Hrun Hbal; simpl in Hrun.
  - by inversion Hrun; subst.
  - destruct (thread_main_step graph q σ) as [|σ1|] eqn:Hstep; [by eapply IH| |done].
    eapply IH; [done|]. by eapply thread_main_step_balanced.
Qed.

Lemma setup_refl (σ : Engine W IB) : setup_frame σ σ.
Proof. split; first [done | apply ledger_refl]. Qed.

Lemma setup_trans (σ1 σ2 σ3 : Engine W IB) :
  setup_frame σ1 σ2 → setup_frame σ2 σ3 → setup_frame σ1 σ3.
Proof.
  intros [] []. split; try congruence; [by eapply ledger_trans | auto].
Qed.

Lemma setup_same_engine (σ σ' : Engine W IB) : same_engine σ σ' → setup_frame σ σ'.
Proof.
  intros Hs. split; [by apply ledger_same_engine|..]; destruct Hs as (Hq & Ht & Hl).
  - by rewrite Ht.
  - done.
  - unfold idle_iff, queued. by rewrite Hq, Ht.
Qed.

(** Queueing a task found by the search: [ready_queue], [push_front],
    [has_any_work = true]. *)
Lemma setup_enqueue device (item : FunctionTask IB) (σ : Engine W IB) :
  match (let* queue := ready_queue device in
         do push_front queue item in
         modify (set_task (set_has_any_work true))) σ with
  | Ok _ σ' => setup_frame σ σ' ∧ queued σ' ≡ₚ fn item :: queued σ
  | Throw _ σ' => σ' = σ
  | Undefined => False
  end.
Proof.
  destruct (ready_queue_cases device σ) as [(q & Hq & Hlt)|(e & Hq)].
  - rewrite (bind_Ok _ _ _ _ _ Hq).
    destruct (push_front_queued q item σ Hlt) as (σ2 & Hp & Hperm & Htr & _ & _ & Ht).
    rewrite (bind_Ok _ _ _ _ _ Hp). unfold modify. split; [|done].
    split.
    + eapply ledger_trans; [by eapply ledger_push|]. by apply ledger_set_task.
    + simpl. by rewrite Ht.
    + done.
    + intros _. unfold idle_iff. simpl. split; [|done]. intros _.
      change (queued (set_task _ σ2)) with (queued σ2). intros Hnil.
      rewrite Hnil in Hperm. by apply Permutation_nil_cons in Hperm.
  - unfold bind. by rewrite Hq.
Qed.

Lemma buffer_add_frame (b0 : IB) input_nr input (σ σ' : Engine W IB) :
  state_of ((let* b' := lift_world (InputBuffer_add b0 input_nr input) in
             ret (Some b')) σ) = Some σ' →
  same_engine σ σ'.
Proof.
  intros Hs. apply bind_state_of in Hs as [(b' & s2 & Hm & Hs)|(e & Hm)].
  - inversion Hs; subst.
    apply (lift_world_frame (InputBuffer_add b0 input_nr input)). by rewrite Hm.
  - apply (lift_world_frame (InputBuffer_add b0 input_nr input)). by rewrite Hm.
Qed.

Lemma find_roots_collect_frame input_roots : ∀ inputs rv (σ σ' : Engine W IB),
  state_of (find_roots_collect graph input_roots inputs rv σ) = Some σ' →
  same_engine σ σ'.
Proof.
  induction input_roots as [|[root input_nr] input_roots IH]; intros inputs rv σ σ' Hs.
  - inversion Hs. apply same_engine_refl.
  - simpl in Hs. destruct inputs as [|input inputs]; [done|].
    destruct root as [root|]; [|done].
    apply bind_state_of in Hs as [(b & s1 & Hm & Hs)|(e & Hm)].
    + eapply same_engine_trans; [|by eapply IH].
      destruct (is_executable (fn_at graph root)).
      * eapply buffer_add_frame. by rewrite Hm.
      * inversion Hm. apply same_engine_refl.
    + destruct (is_executable (fn_at graph root)); [|done].
      eapply buffer_add_frame. by rewrite Hm.
Qed.

Lemma enqueue_then {A} device (item : FunctionTask IB) (k : M (Engine W IB) A)
    (σ : Engine W IB) :
  (let* queue := ready_queue device in
   do push_front queue item in
   do modify (set_task (set_has_any_work true)) in
   k) σ
  = (do (let* queue := ready_queue device in
         do push_front queue item in
         modify (set_task (set_has_any_work true))) in
     k) σ.
Proof.
  unfold bind. destruct (ready_queue device σ) as [q s1|?|]; [|done|done].
  destruct (push_front q item s1) as [[] s2|?|]; [|done|done].
  by destruct (modify (set_task (set_has_any_work true)) s2).
Qed.

Lemma find_roots_enqueue_frame entries : ∀ roots (σ σ' : Engine W IB),
  state_of (find_roots_enqueue graph entries roots σ) = Some σ' →
  setup_frame σ σ'.
Proof.
  induction entries as [|[root buf] entries IH]; intros roots σ σ' Hs.
  - inversion Hs. apply setup_refl.
  - simpl in Hs. destruct (negb (is_executable (fn_at graph root))); [by eapply IH|].
    destruct buf as [b|]; [|done].
    rewrite enqueue_then in Hs.
    pose proof (setup_enqueue (InputBuffer_device b) {| fn := root; inputs := b |} σ)
      as Henq.
    apply bind_state_of in Hs as [([] & s1 & Hm & Hs)|(e & Hm)].
    + rewrite Hm in Henq. destruct Henq as [Hf _].
      eapply setup_trans; [exact Hf|]. by eapply IH.
    + rewrite Hm in Henq. subst. apply setup_refl.
Qed.

Lemma find_roots_frame input_roots inputs (σ σ' : Engine W IB) :
  state_of (find_roots graph input_roots inputs σ) = Some σ' →
  setup_frame σ σ'.
Proof.
  unfold find_roots. intros Hs.
  apply bind_state_of in Hs as [(rv & s1 & Hm & Hs)|(e & Hm)].
  - eapply setup_trans; [|by eapply find_roots_enqueue_frame].
    apply setup_same_engine, (find_roots_collect_frame input_roots inputs ∅).
    by rewrite Hm.
  - apply setup_same_engine, (find_roots_collect_frame input_roots inputs ∅).
    by rewrite Hm.
Qed.

(** The search for stochastic Functions queues on the CPU queue, which a
    started engine has: it throws only where there is no queue at all. *)
Lemma fsf_edge_frame st (edge : option ptr * Z) (σ : Engine W IB) :
  match fsf_edge graph st edge σ with
  | Ok _ σ' => setup_frame σ σ'
  | Throw _ _ => length (ready_queues σ) = 0%nat
  | Undefined => False
  end.
Proof.
  unfold fsf_edge. destruct st as [[search_queue seen] queue].
  destruct (edge.1) as [next_ptr|]; [|apply setup_refl].
  destruct (is_stochastic (fn_at graph next_ptr) && is_executable (fn_at graph next_ptr)
            && bool_decide (next_ptr ∉ seen)) eqn:Hc.
  - unfold bind at 1.
    assert (Hassoc : (let* q := ready_queue (-1) in
                      do push_front q {| fn := next_ptr; inputs := InputBuffer_new 0 |} in
                      do modify (set_task (set_has_any_work true)) in
                      ret (queue ++ [next_ptr])) σ
                     = (do (let* q := ready_queue (-1) in
                            do push_front q {| fn := next_ptr; inputs := InputBuffer_new 0 |} in
                            modify (set_task (set_has_any_work true))) in
                        ret (queue ++ [next_ptr])) σ) by apply enqueue_then.
    rewrite Hassoc. clear Hassoc.
    pose proof (setup_enqueue (-1) {| fn := next_ptr; inputs := InputBuffer_new 0 |} σ)
      as Henq.
    unfold bind at 1.
    destruct ((let* queue := ready_queue (-1) in _) σ) as [[] s1|e s1|] eqn:Hm.
    + destruct Henq as [Hf _]. simpl. by destruct (bool_decide _).
    + subst. unfold bind, ready_queue in Hm. simpl in Hm.
      destruct (length (ready_queues σ)); [done|]. simpl in Hm. done.
    + done.
  - unfold bind at 1, ret at 1. destruct (bool_decide _); apply setup_refl.
Qed.

Lemma fsf_edges_frame edges : ∀ st (σ : Engine W IB),
  match fsf_edges graph st edges σ with
  | Ok _ σ' => setup_frame σ σ'
  | Throw _ _ => length (ready_queues σ) = 0%nat
  | Undefined => False
  end.
Proof.
  induction edges as [|edge edges IH]; intros st σ; simpl; [apply setup_refl|].
  pose proof (fsf_edge_frame st edge σ) as H1. unfold bind.
  destruct (fsf_edge graph st edge σ) as [st1 s1|?|]; [|done|done].
  specialize (IH st1 s1).
  destruct (fsf_edges graph st1 edges s1) as [st2 s2|?|]; [|
    |done].
  - by eapply setup_trans.
  - rewrite <- IH. symmetry. apply ledger_queues, H1.
Qed.

Lemma fsf_loop_frame fuel : ∀ st (σ : Engine W IB),
  match fsf_loop graph fuel st σ with
  | Ok _ σ' => setup_frame σ σ'
  | Throw _ _ => length (ready_queues σ) = 0%nat
  | Undefined => False
  end.
Proof.
  induction fuel as [|fuel IH]; intros st σ; simpl; [apply setup_refl|].
  destruct st as [[search_queue seen] queue].
  destruct (vector_pop_back search_queue) as [[f search_queue']|]; [|apply setup_refl].
  pose proof (fsf_edges_frame (next_functions (fn_at graph f))
                (search_queue', seen, queue) σ) as H1.
  unfold bind.
  destruct (fsf_edges graph _ _ σ) as [st1 s1|?|]; [|done|done].
  specialize (IH st1 s1).
  destruct (fsf_loop graph fuel st1 s1) as [r s2|?|]; [| |done].
  - by eapply setup_trans.
  - rewrite <- IH. symmetry. apply ledger_queues, H1.
Qed.

Lemma find_stochastic_functions_frame roots (σ : Engine W IB) :
  match find_stochastic_functions graph roots σ with
  | Ok _ σ' => setup_frame σ σ'
  | Throw _ _ => length (ready_queues σ) = 0%nat
  | Undefined => True
  end.
Proof.
  unfold find_stochastic_functions, bind.
  pose proof (fsf_loop_frame (search_fuel graph roots) (roots, ∅, roots) σ) as H1.
  destruct (fsf_loop graph _ _ σ) as [[r|] s1|?|]; done.
Qed.

Lemma compute_dependencies_frame frontier (σ σ' : Engine W IB) :
  compute_dependencies graph frontier σ = Ok tt σ' →
  setup_frame σ σ'.
Proof.
  unfold compute_dependencies, bind, get.
  destruct (cd_loop graph _ _) as [deps|]; [|done].
  unfold modify. intros Hs. inversion Hs; subst.
  split; first [done | by apply ledger_set_task].
Qed.

Lemma balanced_new_task num_devices (w : W) keep_graph callbacks :
  balanced (set_task (λ _ : GraphTask IB, GraphTask_new keep_graph callbacks)
              (Engine_started num_devices w)).
Proof. unfold balanced. by rewrite queued_started. Qed.

Lemma balanced_ledger (σ σ' : Engine W IB) : ledger σ σ' → balanced σ → balanced σ'.
Proof.
  intros Hl [Hs Hr]%balanced_surplus. apply balanced_surplus.
  split; [by rewrite (ledger_surplus _ _ Hl) | by apply (ledger_range _ _ Hl)].
Qed.

(** The frame of [execute_start] on a started engine, where it returns. *)
Lemma execute_start_frame num_devices (w : W) input_roots inputs keep_graph callbacks
    (frontier : list ptr) (σ0 : Engine W IB) :
  execute_start graph input_roots inputs keep_graph callbacks
    (Engine_started num_devices w) = Ok frontier σ0 →
  setup_frame (set_task (λ _ : GraphTask IB, GraphTask_new keep_graph callbacks)
                 (Engine_started num_devices w)) σ0.
Proof.
  unfold execute_start, bind at 1, modify at 1. set (σa := set_task _ _).
  intros Hs.
  pose proof (find_roots_frame input_roots inputs σa) as H1. unfold bind at 1 in Hs.
  destruct (find_roots graph input_roots inputs σa) as [roots σb|?|]; [|done|done].
  specialize (H1 σb eq_refl).
  pose proof (find_stochastic_functions_frame roots σb) as H2. unfold bind at 1 in Hs.
  destruct (find_stochastic_functions graph roots σb) as [fr σc|?|]; [|done|done].
  unfold bind at 1, get at 1 in Hs.
  destruct (negb (has_any_work (task σc))); [done|].
  unfold bind in Hs.
  destruct (compute_dependencies graph fr σc) as [[] σd|?|] eqn:Hcd; [|done|done].
  inversion Hs; subst.
  eapply setup_trans; [exact H1|]. eapply setup_trans; [exact H2|].
  by eapply compute_dependencies_frame.
Qed.

Lemma surplus_pop q (σ σ1 : Engine W IB) (t : FunctionTask IB) :
  pop_back q σ = Some (t, σ1) → surplus σ1 = uint64_wrap (surplus σ + 1).
Proof.
  intros Hpop. apply pop_back_spec in Hpop as (Hq & Ht & _ & _).
  apply Permutation_length in Hq. unfold surplus, uint64_wrap.
  rewrite Ht, Hq. simpl length. rewrite Nat2Z.inj_succ, Zplus_mod_idemp_l.
  f_equal. lia.
Qed.

Lemma surplus_finish (σ : Engine W IB) :
  surplus (set_task (λ g, set_outstanding_tasks
                            (uint64_wrap (outstanding_tasks g - 1)) g) σ)
  = uint64_wrap (surplus σ - 1).
Proof.
  unfold surplus, uint64_wrap. simpl.
  change (queued (set_task _ σ)) with (queued σ).
  rewrite !Zminus_mod_idemp_l. f_equal. lia.
Qed.

Lemma surplus_wrap (σ : Engine W IB) : uint64_wrap (surplus σ) = surplus σ.
Proof. unfold surplus, uint64_wrap. by rewrite Zmod_mod. Qed.

(** A whole round of a worker leaves [outstanding_tasks] as far ahead of
    the queues as it was. *)
Lemma thread_main_step_surplus q (σ σ' : Engine W IB) :
  thread_main_step graph q σ = steps σ' → surplus σ' = surplus σ.
Proof.
  unfold thread_main_step.
  destruct (pop_back q σ) as [[t σ1]|] eqn:Hpop; [|done].
  apply surplus_pop in Hpop. intros Hstep.
  assert (Hfin : ∀ σ2 : Engine W IB, surplus σ2 = surplus σ1 →
            surplus (set_task (λ g, set_outstanding_tasks
                                      (uint64_wrap (outstanding_tasks g - 1)) g) σ2)
            = surplus σ).
  { intros σ2 Hs. rewrite surplus_finish, Hs, Hpop. unfold uint64_wrap.
    rewrite Zminus_mod_idemp_l. replace (surplus σ + 1 - 1) with (surplus σ) by lia.
    apply surplus_wrap. }
  destruct (has_error (task σ1)) eqn:Herr.
  { inversion Hstep; subst. by apply Hfin. }
  destruct (evaluate_function graph t σ1) as [[] σ2|e σ2|] eqn:Hev; [| |done].
  - inversion Hstep; subst. apply Hfin.
    apply ledger_surplus, (evaluate_function_ledger t). by rewrite Hev.
  - inversion Hstep; subst. apply Hfin.
    transitivity (surplus σ2).
    + unfold thread_on_exception. by destruct (negb _).
    + apply ledger_surplus, (evaluate_function_ledger t). by rewrite Hev.
Qed.

(** X7.  [outstanding_tasks] counts the tasks that are queued or being
    processed.  Write [surplus] for [outstanding_tasks] minus the number of
    queued tasks, modulo 2^64.  [push_front] adds one to both and leaves
    the surplus as it was; [pop_back] takes a task off a queue and leaves
    the surplus one higher (the task is in the worker's hands);
    [evaluate_function] leaves the surplus as it was, whether it returns or
    throws part-way through its deliveries; and a whole round of a worker's
    loop, from its [pop_back] to its decrement, leaves the surplus as it
    was on every path: task evaluated, task dropped because of a recorded
    error, exception caught.  [find_roots], [find_stochastic_functions]
    and [compute_dependencies] leave the surplus as it was too. *)
Theorem X7_outstanding_tasks_follow_queues :
  (∀ q (item : FunctionTask IB) (σ σ' : Engine W IB),
     (q < length (ready_queues σ))%nat →
     push_front q item σ = Ok tt σ' →
     surplus σ' = surplus σ) ∧
  (∀ q (σ σ1 : Engine W IB) (t : FunctionTask IB),
     pop_back q σ = Some (t, σ1) →
     surplus σ1 = uint64_wrap (surplus σ + 1)) ∧
  (∀ (t : FunctionTask IB) (σ σ' : Engine W IB),
     state_of (evaluate_function graph t σ) = Some σ' →
     surplus σ' = surplus σ) ∧
  (∀ q (σ σ' : Engine W IB),
     thread_main_step graph q σ = steps σ' →
     surplus σ' = surplus σ) ∧
  (∀ input_roots inputs (σ σ' : Engine W IB),
     state_of (find_roots graph input_roots inputs σ) = Some σ' →
     surplus σ' = surplus σ) ∧
  (∀ roots frontier (σ σ' : Engine W IB),
     find_stochastic_functions graph roots σ = Ok frontier σ' →
     surplus σ' = surplus σ) ∧
  (∀ frontier (σ σ' : Engine W IB),
     compute_dependencies graph frontier σ = Ok tt σ' →
     surplus σ' = surplus σ).
Proof.
  split; [|split; [|split; [|split; [|split; [|split]]]]].
  - intros q item σ σ' Hq Hp. by apply ledger_surplus, (ledger_push q item).
  - apply surplus_pop.
  - intros t σ σ' Hs. by apply ledger_surplus, (evaluate_function_ledger t).
  - apply thread_main_step_surplus.
  - intros input_roots inputs σ σ' Hs.
    by apply ledger_surplus, setup_ledger, (find_roots_frame input_roots inputs).
  - intros roots frontier σ σ' Hs.
    pose proof (find_stochastic_functions_frame roots σ) as Hf. rewrite Hs in Hf.
    by apply ledger_surplus, setup_ledger.
  - intros frontier σ σ' Hs.
    by apply ledger_surplus, setup_ledger, (compute_dependencies_frame frontier).
Qed.


(** X8.  A task taken while an error is recorded is dropped.  When a
    worker has popped a task and finds [has_error] set, its round calls no
    hook, no callback, no [apply] and no [releaseVariables] and delivers
    nothing: the task has left its queue, [outstanding_tasks] goes down by
    one, and the program state, the log of calls, the recorded exception,
    [dependencies], [not_ready] and the other queues are as they were.  (A
    worker that read the flag before it was set is not concerned: it
    finishes its task.) *)
Theorem X8_task_dropped_on_error q (σ σ1 : Engine W IB) (t : FunctionTask IB) :
  has_error (task σ) = true →
  pop_back q σ = Some (t, σ1) →
  ∃ σ', thread_main_step graph q σ = steps σ' ∧
        world σ' = world σ ∧
        trace σ' = trace σ ∧
        ready_queues σ' = ready_queues σ1 ∧
        queued σ ≡ₚ fn t :: queued σ' ∧
        task σ' = set_outstanding_tasks
                    (uint64_wrap (outstanding_tasks (task σ) - 1)) (task σ).
Proof.
  intros Herr Hpop. unfold thread_main_step. rewrite Hpop.
  pose proof (pop_back_spec q σ σ1 t Hpop) as (Hperm & Ht & Htr & _).
  assert (Hw : world σ1 = world σ).
  { unfold pop_back in Hpop. destruct (ready_queues σ !! q); [|done].
    destruct (deque_pop_back _) as [[]|]; [|done]. by inversion Hpop. }
  rewrite Ht, Herr. eexists. split; [reflexivity|]. simpl.
  repeat split; try done. by rewrite Ht.
Qed.


Lemma releases_same F (σ σ' : Engine W IB) :
  trace σ' = trace σ → releases F σ' = releases F σ.
Proof. unfold releases. by intros ->. Qed.

Lemma releases_snoc F e (σ σ' : Engine W IB) :
  trace σ' = trace σ ++ [e] →
  releases F σ' =
    (releases F σ + if decide (e = ev_releaseVariables F) then 1 else 0)%nat.
Proof.
  intros Ht. unfold releases. rewrite Ht, filter_app, length_app.
  rewrite filter_cons, filter_nil. by case_decide.
Qed.

(** What [evaluate_function] adds to the calls of [releaseVariables]: at
    most the one on the Function of its task, and none when the graph is
    kept. *)
Lemma evaluate_function_releases (t : FunctionTask IB) (σ σ' : Engine W IB) F :
  state_of (evaluate_function graph t σ) = Some σ' →
  (releases F σ' ≤ releases F σ + if decide (fn t = F) then 1 else 0)%nat ∧
  (keep_graph (task σ) = true → releases F σ' = releases F σ).
Proof.
  unfold evaluate_function. intros Hs.
  assert (Hcall : ∀ s1 : Engine W IB,
            state_of (call_function graph t σ) = Some s1 →
            releases F s1 = releases F σ ∧ task s1 = task σ).
  { intros s1 H1. apply call_function_frame in H1 as (_ & Ht & [Htr|Htr]).
    - split; [by apply releases_same | done].
    - split; [|done]. rewrite (releases_snoc F _ σ s1 Htr).
      rewrite decide_False by done. lia. }
  apply bind_state_of in Hs as [(outs & s1 & Hm & Hs)|(e & Hm)].
  2: { destruct (Hcall σ') as [Hr _]; [by rewrite Hm|]. rewrite Hr. split; [lia|done]. }
  destruct (Hcall s1) as [Hr1 Ht1]; [by rewrite Hm|]. clear Hm Hcall.
  unfold bind at 1, get at 1 in Hs.
  assert (Hrel : ∀ s2 : Engine W IB,
            state_of ((if negb (keep_graph (task s1)) then
                         do modify (log (ev_releaseVariables (fn t))) in
                         lift_world (Function_releaseVariables (fn t))
                       else ret tt) s1) = Some s2 →
            (releases F s2 ≤ releases F σ + if decide (fn t = F) then 1 else 0)%nat ∧
            (keep_graph (task σ) = true → releases F s2 = releases F σ)).
  { intros s2 H2. rewrite Ht1 in H2. destruct (keep_graph (task σ)); simpl in H2.
    - inversion H2; subst. rewrite Hr1. split; [lia|done].
    - unfold bind at 1, modify at 1 in H2.
      apply lift_world_frame in H2 as (_ & _ & Htr). simpl in Htr.
      rewrite (releases_snoc F _ s1 s2 Htr), Hr1. split; [|done].
      case_decide as Hd; case_decide as Hd'; try lia. inversion Hd. done. }
  apply bind_state_of in Hs as [([] & s2 & Hm & Hs)|(e & Hm)].
  2: { apply Hrel. by rewrite Hm. }
  destruct (Hrel s2) as [Hr2 Hk2]; [by rewrite Hm|]. clear Hm Hrel.
  assert (Htr : trace σ' = trace s2).
  { destruct (negb _); [by inversion Hs|].
    by apply deliver_all_monotone in Hs as (? & _). }
  rewrite (releases_same F s2 σ' Htr). done.
Qed.

(** A round of a worker adds no call of [releaseVariables] while the graph
    is kept, and keeps [keep_graph] and the number of pending or waiting
    tasks in check. *)
Lemma thread_main_step_releases q (σ σ' : Engine W IB) F :
  thread_main_step graph q σ = steps σ' →
  keep_graph (task σ') = keep_graph (task σ) ∧
  (releases F σ' + pending F σ' + waiting F σ'
   ≤ releases F σ + pending F σ + waiting F σ)%nat ∧
  (keep_graph (task σ) = true → releases F σ' = releases F σ).
Proof.
  unfold thread_main_step.
  destruct (pop_back q σ) as [[t σ1]|] eqn:Hpop; [|done].
  apply pop_back_spec in Hpop as (Hq & Ht & Hl & Hlen).
  assert (H1 : releases F σ1 = releases F σ) by (by apply releases_same).
  assert (H2 : pending F σ = ((if decide (fn t = F) then 1 else 0) + pending F σ1)%nat)
    by (by apply pending_cons).
  assert (H3 : waiting F σ1 = waiting F σ) by (unfold waiting; by rewrite Ht).
  assert (Hfin : ∀ σ2 : Engine W IB,
            keep_graph (task σ2) = keep_graph (task σ1) →
            (releases F σ2 ≤ releases F σ1 + if decide (fn t = F) then 1 else 0)%nat →
            (keep_graph (task σ1) = true → releases F σ2 = releases F σ1) →
            (pending F σ2 + waiting F σ2 ≤ pending F σ1 + waiting F σ1)%nat →
            let σ3 := set_task (λ g, set_outstanding_tasks
                                       (uint64_wrap (outstanding_tasks g - 1)) g) σ2 in
            keep_graph (task σ3) = keep_graph (task σ) ∧
            (releases F σ3 + pending F σ3 + waiting F σ3
             ≤ releases F σ + pending F σ + waiting F σ)%nat ∧
            (keep_graph (task σ) = true → releases F σ3 = releases F σ)).
  { intros σ2 Hk Hr Hkr Hpw σ3.
    change (releases F σ3) with (releases F σ2).
    change (pending F σ3) with (pending F σ2).
    change (waiting F σ3) with (waiting F σ2).
    split; [simpl; by rewrite Hk, Ht|]. split; [lia|].
    intros Hkg. rewrite Hkr; [done|]. by rewrite Ht. }
  destruct (has_error (task σ1)) eqn:Herr.
  { intros Hs. inversion Hs; subst. apply Hfin; try done; lia. }
  destruct (evaluate_function graph t σ1) as [[] σ2|e σ2|] eqn:Hev; [| |done].
  - intros Hs. inversion Hs; subst.
    destruct (evaluate_function_releases t σ1 σ2 F) as [Hr Hk]; [by rewrite Hev|].
    frame_of Hev evaluate_function_monotone. destruct Hframe as (_ & _ & HF).
    apply Hfin; try done; [|by destruct (HF F)].
    apply ledger_keep_graph, (evaluate_function_ledger t). by rewrite Hev.
  - intros Hs. inversion Hs; subst.
    destruct (evaluate_function_releases t σ1 σ2 F) as [Hr Hk]; [by rewrite Hev|].
    frame_of Hev evaluate_function_monotone. destruct Hframe as (_ & _ & HF).
    assert (Hkg : keep_graph (task σ2) = keep_graph (task σ1)).
    { apply ledger_keep_graph, (evaluate_function_ledger t). by rewrite Hev. }
    unfold thread_on_exception. destruct (negb (has_error (task σ2))).
    + apply (Hfin (set_task (set_error e) σ2)); try done. by destruct (HF F).
    + apply Hfin; try done. by destruct (HF F).
Qed.

Lemma run_releases schedule : ∀ (σ σ' : Engine W IB) F,
  run graph schedule σ = Some σ' →
  (releases F σ' + pending F σ' + waiting F σ'
   ≤ releases F σ + pending F σ + waiting F σ)%nat ∧
  (keep_graph (task σ) = true → releases F σ' = releases F σ).
Proof.
  induction schedule as [|q schedule IH]; intros σ σ' F Hrun; simpl in Hrun.
  - inversion Hrun. done.
  - destruct (thread_main_step graph q σ) as [|σ1|] eqn:Hstep; [by apply IH| |done].
    destruct (thread_main_step_releases q σ σ1 F Hstep) as (Hk & H1 & H2).
    destruct (IH σ1 σ' F Hrun) as (H3 & H4). split; [lia|].
    intros Hkg. rewrite H4, H2; congruence.
Qed.

(** X10.  An [execute] with [keep_graph = true] never calls
    [releaseVariables]: the flag is fixed when the [GraphTask] is made, and
    [evaluate_function] releases the saved variables of a Function only when
    it is false. *)
Theorem X10_kept_graph_is_never_released
    num_devices (w : W) input_roots inputs callbacks
    (frontier : list ptr) (σ0 σ' : Engine W IB) (schedule : list nat) :
  execute_start graph input_roots inputs true callbacks
    (Engine_started num_devices w) = Ok frontier σ0 →
  run graph schedule σ0 = Some σ' →
  ∀ F, releases F σ' = 0%nat.
Proof.
  intros Hstart Hrun F.
  pose proof (execute_start_frame _ _ _ _ _ _ _ _ Hstart) as [Hl _ Htr _].
  destruct (run_releases schedule σ0 σ' F Hrun) as [_ Hk].
  rewrite Hk.
  - unfold releases. by rewrite Htr.
  - by rewrite (ledger_keep_graph _ _ Hl).
Qed.

(** X11.  In an [execute] whose roots are independent, [releaseVariables]
    is called at most once on every Function, whatever the callbacks answer
    and whether or not an error occurs: a Function is released only by the
    round that took its task, and it has at most one task. *)
Theorem X11_released_at_most_once
    num_devices (w : W) input_roots inputs keep_graph callbacks
    (frontier : list ptr) (σ0 σ' : Engine W IB) (schedule : list nat) :
  execute_start graph input_roots inputs keep_graph callbacks
    (Engine_started num_devices w) = Ok frontier σ0 →
  run graph schedule σ0 = Some σ' →
  independent_roots graph input_roots →
  ∀ F, (releases F σ' ≤ 1)%nat.
Proof.
  intros Hstart Hrun Hind F.
  pose proof (execute_start_frame _ _ _ _ _ _ _ _ Hstart) as [_ _ Htr _].
  destruct (execute_start_spec graph _ _ _ _ _ _ _ _ Hstart Hind)
    as (E & _ & _ & _ & _ & Hload & _).
  destruct (run_releases schedule σ0 σ' F Hrun) as [Hle _].
  specialize (Hload F). unfold load in Hload.
  assert (releases F σ0 = 0%nat) by (unfold releases; by rewrite Htr).
  lia.
Qed.

(** X12.  A Function whose callback answers false is not applied, and the
    engine goes on as if it had returned a null gradient for every edge:
    [call_function] returns [next_functions.size()] null pointers, without
    calling [apply] or a post-hook, so the output-count check of
    [evaluate_function] passes and every Function down the edges still
    receives a (null) gradient and has its dependency counted down. *)
Theorem X12_rejected_function_sends_nulls
    (t : FunctionTask IB) (σ σ1 : Engine W IB) ins callback (w2 : W) :
  call_pre_hooks (pre_hooks (fn_at graph (fn t)))
    (InputBuffer_variables (inputs t)) σ = Ok ins σ1 →
  function_callbacks (task σ1) !! fn t = Some callback →
  call_callback callback (fn t) ins (world σ1) = Ok false w2 →
  call_function graph t σ
  = Ok (replicate (length (next_functions (fn_at graph (fn t)))) None)
       (set_world w2 σ1) ∧
  trace (set_world w2 σ1) = trace σ ∧
  evaluate_function graph t σ
  = (do (if negb (keep_graph (task σ1)) then
           do modify (log (ev_releaseVariables (fn t))) in
           lift_world (Function_releaseVariables (fn t))
         else ret tt) in
     deliver_all graph
       (replicate (length (next_functions (fn_at graph (fn t)))) None)
       (next_functions (fn_at graph (fn t)))) (set_world w2 σ1).
Proof.
  intros Hpre Hcb Hcall.
  assert (Hcf : call_function graph t σ
                = Ok (replicate (length (next_functions (fn_at graph (fn t)))) None)
                     (set_world w2 σ1)).
  { unfold call_function. rewrite (bind_Ok _ _ _ _ _ Hpre).
    unfold bind at 1, get at 1. rewrite Hcb.
    unfold bind at 1, lift_world. by rewrite Hcall. }
  split; [exact Hcf|]. split.
  { frame_of Hpre call_pre_hooks_frame. by destruct Hframe as (_ & _ & ?). }
  unfold evaluate_function. rewrite (bind_Ok _ _ _ _ _ Hcf).
  unfold bind at 1, get at 1. cbn [task set_world].
  rewrite length_replicate, Nat.eqb_refl. done.
Qed.

(** X13.  [should_compute_output(i)] and the engine agree on the outputs
    that matter.  Where it answers false for edge [i] of a Function (a null
    edge, or a target that is not executable), [evaluate_function] drops
    output [i]: delivering it changes nothing, whatever the output is.
    Where it answers true and the target is not stochastic, the engine
    looks the target up in [dependencies], and a target without an entry
    makes it throw "dependency not found for <name>" with the state
    unchanged. *)
Theorem X13_uncomputed_output_is_dropped
    (f : Function) (i : nat) (edge : option ptr * Z) (output : option ptr)
    (σ : Engine W IB) :
  next_functions f !! i = Some edge →
  (should_compute_output graph f i = Some false →
     deliver graph output edge σ = Ok tt σ) ∧
  (should_compute_output graph f i = Some true →
     ∃ target, edge.1 = Some target ∧
       (is_stochastic (fn_at graph target) = false →
        dependencies (task σ) !! target = None →
        deliver graph output edge σ
        = Throw (MissingDependency (Function_name target)) σ)).
Proof.
  intros Hedge. unfold should_compute_output. rewrite Hedge.
  destruct edge as [[target|] input_nr]; split; intros Hs; try done.
  - inversion Hs as [Hex]. unfold deliver. cbn [fst snd]. rewrite Hex.
    by rewrite orb_true_r.
  - inversion Hs as [Hex]. exists target. split; [done|]. intros Hst Hdep.
    unfold deliver. cbn [fst snd]. rewrite Hex, Hst. cbn [negb orb].
    unfold bind at 1, get at 1. unfold bind at 1. by rewrite Hdep.
Qed.

(** X14.  [Function(flags)] builds what [Function()] followed by
    [set_flags(flags)] builds.  [set_flags] replaces [is_executable] and
    [next_functions] only: [num_inputs] (the output slots handed out so
    far), [is_stochastic] and the hooks stay, and of two calls the second
    decides. *)
Theorem X14_set_flags_composes (flags flags' : FunctionFlags) (f : Function) :
  set_flags flags Function_default = Function_of_flags flags ∧
  num_inputs (set_flags flags f) = num_inputs f ∧
  is_stochastic (set_flags flags f) = is_stochastic f ∧
  pre_hooks (set_flags flags f) = pre_hooks f ∧
  post_hooks (set_flags flags f) = post_hooks f ∧
  set_flags flags' (set_flags flags f) = set_flags flags' f.
Proof. by repeat split. Qed.

Lemma find_roots_collect_idle input_roots : ∀ inputs rv (σ : Engine W IB),
  (length input_roots ≤ length inputs)%nat →
  Forall (λ e : option ptr * Z,
            ∃ r, e.1 = Some r ∧ is_executable (fn_at graph r) = false) input_roots →
  ∃ rv', find_roots_collect graph input_roots inputs rv σ = Ok rv' σ.
Proof.
  induction input_roots as [|[root input_nr] input_roots IH]; intros inputs rv σ Hlen Hall.
  - by eexists.
  - apply Forall_cons in Hall as [(r & Hr & Hex) Hall]. simpl in Hr. subst root.
    destruct inputs as [|input inputs]; [simpl in Hlen; lia|].
    simpl. rewrite Hex. unfold bind at 1, ret at 1.
    apply IH; [simpl in Hlen; lia | done].
Qed.

Lemma find_roots_enqueue_idle entries : ∀ roots (σ : Engine W IB),
  Forall (λ e : ptr * option IB, is_executable (fn_at graph e.1) = false) entries →
  find_roots_enqueue graph entries roots σ = Ok (roots ++ entries.*1) σ.
Proof.
  induction entries as [|[root buf] entries IH]; intros roots σ Hall.
  - simpl. by rewrite app_nil_r.
  - apply Forall_cons in Hall as [Hex Hall]. simpl in Hex. simpl. rewrite Hex.
    cbn [negb]. rewrite IH by done. by rewrite <- app_assoc.
Qed.

Lemma idle_new_task num_devices (w : W) keep_graph callbacks :
  idle_iff (set_task (λ _ : GraphTask IB, GraphTask_new keep_graph callbacks)
              (Engine_started num_devices w)).
Proof. unfold idle_iff. rewrite queued_started. simpl. split; done. Qed.

(** X15.  [execute] on roots none of which is executable, in a graph where
    the search from the roots meets no stochastic executable Function,
    throws "there are no graph nodes that require computing gradients";
    by then no task has been queued and no Function has been called. *)
Theorem X15_nothing_to_compute_throws
    num_devices (w : W) input_roots inputs keep_graph callbacks :
  (length input_roots ≤ length inputs)%nat →
  Forall (λ e : option ptr * Z,
            ∃ r, e.1 = Some r ∧ is_executable (fn_at graph r) = false) input_roots →
  (∀ x, is_stochastic (fn_at graph x) = true →
        is_executable (fn_at graph x) = true →
        ¬ fed graph (omap fst input_roots) x) →
  ∃ σ : Engine W IB,
    execute_start graph input_roots inputs keep_graph callbacks
      (Engine_started num_devices w) = Throw NoExecutableRoots σ ∧
    queued σ = [] ∧ trace σ = [].
Proof.
  intros Hlen Hall Hnone. unfold execute_start, bind at 1, modify at 1.
  set (σa := set_task _ _).
  destruct (find_roots_collect_idle input_roots inputs ∅ σa Hlen Hall) as (rv & Hcol).
  pose proof (find_roots_collect_spec graph input_roots inputs ∅ σa) as Hspec.
  rewrite Hcol in Hspec. destruct Hspec as [_ Hkeys].
  assert (Hfr : find_roots graph input_roots inputs σa
                = Ok ([] ++ (map_to_list rv).*1) σa).
  { unfold find_roots. rewrite (bind_Ok _ _ _ _ _ Hcol).
    apply find_roots_enqueue_idle. apply Forall_forall. intros [r b] Hin. simpl.
    apply elem_of_map_to_list in Hin.
    assert (Hr : Some r ∈ input_roots.*1).
    { destruct (Hkeys r) as [Hk _]. destruct Hk as [Hk|Hk]; [by eexists| |done].
      rewrite lookup_empty in Hk. by destruct Hk. }
    apply list_elem_of_fmap in Hr as (e & He & Hin').
    rewrite Forall_forall in Hall. destruct (Hall e Hin') as (r' & Hr' & Hex).
    congruence. }
  simpl app in Hfr. rewrite (bind_Ok _ _ _ _ _ Hfr).
  set (roots := (map_to_list rv).*1) in *.
  assert (Hroots : ∀ y, y ∈ roots → y ∈ omap fst input_roots).
  { intros y Hy. apply omap_fst_roots.
    apply (find_roots_spec graph) in Hfr as (_ & Hmem & _). by apply Hmem. }
  pose proof (find_stochastic_functions_spec graph roots σa) as Hfs.
  pose proof (find_stochastic_functions_frame roots σa) as Hff.
  unfold bind at 1.
  destruct (find_stochastic_functions graph roots σa) as [fr σc|e σc|]; [| |done].
  2: { exfalso. unfold σa, Engine_started in Hff. simpl in Hff.
       rewrite length_replicate in Hff. done. }
  destruct Hfs as (stoch & -> & _ & Hstoch & Hq & _).
  assert (stoch = []) as ->.
  { destruct stoch as [|x stoch]; [done|]. exfalso.
    destruct (Hstoch x) as [Hx _]. destruct Hx as (Hst & Hex & Hfed); [left|].
    apply (Hnone x Hst Hex). by eapply fed_ext. }
  unfold σa in Hq. rewrite queued_started in Hq. simpl in Hq.
  apply Permutation_nil_r in Hq.
  unfold bind at 1, get at 1.
  assert (Hw : has_any_work (task σc) = false).
  { destruct (has_any_work (task σc)) eqn:Hw; [|done]. exfalso.
    destruct (setup_idle _ _ Hff (idle_new_task _ _ _ _)) as [Hi _].
    by apply Hi. }
  rewrite Hw. cbn [negb]. exists σc. split; [done|]. split; [done|].
  by rewrite (setup_trace _ _ Hff).
Qed.

Lemma buffered_step (σ σ' : Engine W IB) F (ready : bool) :
  buffered σ →
  is_Some (dependencies (task σ) !! F) →
  (if ready then
     dependencies (task σ') = delete F (dependencies (task σ)) ∧
     not_ready (task σ') = delete F (not_ready (task σ))
   else
     (∃ n, dependencies (task σ') = <[F := n]> (dependencies (task σ))) ∧
     (∃ b, not_ready (task σ') = <[F := b]> (not_ready (task σ)))) →
  buffered σ'.
Proof.
  intros Hb HF Hcase G. destruct ready.
  - destruct Hcase as [-> ->]. destruct (decide (G = F)) as [->|Hne].
    + rewrite lookup_delete_eq. by intros [? ?].
    + rewrite !lookup_delete_ne by done. apply Hb.
  - destruct Hcase as [(n & ->) (b & ->)]. destruct (decide (G = F)) as [->|Hne].
    + rewrite !lookup_insert_eq. by eexists.
    + rewrite !lookup_insert_ne by done. apply Hb.
Qed.

(** A delivered output keeps the buffers of [not_ready] among the Functions
    that still wait. *)
Lemma deliver_buffered output (edge : option ptr * Z) (σ σ' : Engine W IB) :
  deliver graph output edge σ = Ok tt σ' → buffered σ → buffered σ'.
Proof.
  unfold deliver. destruct (edge.1) as [F|]; [|by intros Hs; inversion Hs].
  destruct (_ || _); [by intros Hs; inversion Hs|].
  unfold bind at 1, get at 1. intros Hs Hb.
  destruct (dependencies (task σ) !! F) as [n|] eqn:Hn; [|done].
  assert (HF : is_Some (dependencies (task σ) !! F)) by (by eexists).
  destruct (int_wrap (n - 1) =? 0) eqn:Hz.
  - (* ready *)
    unfold bind at 1, bind at 1, modify at 1, ret at 1 in Hs.
    destruct (not_ready (task σ) !! F) as [buffer|] eqn:Hnr.
    + unfold bind at 1 in Hs.
      destruct (lift_world _ _) as [b s2|?|] eqn:Hm; try done.
      pose proof (lift_world_frame _ _ _ (f_equal state_of Hm)) as (_ & Ht2 & _).
      unfold bind at 1, modify at 1 in Hs.
      destruct (ready_queue_cases (InputBuffer_device b)
                  (set_task (set_not_ready <[F := b]>) s2)) as [(q & Hq & Hlt)|(e & Hq)].
      2: { unfold bind in Hs. by rewrite Hq in Hs. }
      rewrite (bind_Ok _ _ _ _ _ Hq) in Hs.
      destruct (push_front_queued q {| fn := F; inputs := b |} _ Hlt)
        as (s3 & Hp & _ & _ & _ & _ & Ht3).
      rewrite (bind_Ok _ _ _ _ _ Hp) in Hs. inversion Hs; subst σ'. clear Hs.
      apply (buffered_step σ _ F true Hb HF). simpl. rewrite Ht3. simpl.
      rewrite Ht2. simpl. split; [done|]. by rewrite delete_insert_eq.
    + unfold bind at 1 in Hs.
      destruct (lift_world _ _) as [b s2|?|] eqn:Hm; try done.
      pose proof (lift_world_frame _ _ _ (f_equal state_of Hm)) as (_ & Ht2 & _).
      destruct (ready_queue_cases (InputBuffer_device b) s2) as [(q & Hq & Hlt)|(e & Hq)].
      2: { unfold bind in Hs. by rewrite Hq in Hs. }
      rewrite (bind_Ok _ _ _ _ _ Hq) in Hs.
      destruct (push_front_queued q {| fn := F; inputs := b |} _ Hlt)
        as (s3 & Hp & _ & _ & _ & _ & Ht3).
      rewrite Hp in Hs. inversion Hs; subst σ'. clear Hs.
      apply (buffered_step σ _ F true Hb HF). rewrite Ht3. simpl.
      rewrite Ht2. simpl. split; [done|]. symmetry. by apply delete_id.
  - (* not ready *)
    unfold bind at 1, bind at 1, modify at 1, ret at 1 in Hs.
    destruct (not_ready (task σ) !! F) as [buffer|] eqn:Hnr.
    + unfold bind at 1 in Hs.
      destruct (lift_world _ _) as [b s2|?|] eqn:Hm; try done.
      pose proof (lift_world_frame _ _ _ (f_equal state_of Hm)) as (_ & Ht2 & _).
      unfold bind at 1, modify at 1, ret in Hs. inversion Hs; subst σ'. clear Hs.
      apply (buffered_step σ _ F false Hb HF). simpl. rewrite Ht2. simpl.
      split; by eexists.
    + unfold bind at 1 in Hs.
      destruct (lift_world _ _) as [b s2|?|] eqn:Hm; try done.
      pose proof (lift_world_frame _ _ _ (f_equal state_of Hm)) as (_ & Ht2 & _).
      unfold modify in Hs. inversion Hs; subst σ'. clear Hs.
      apply (buffered_step σ _ F false Hb HF). simpl. rewrite Ht2. simpl.
      split; by eexists.
Qed.

Lemma deliver_all_buffered outputs : ∀ (edges : list (option ptr * Z)) (σ σ' : Engine W IB),
  deliver_all graph outputs edges σ = Ok tt σ' → buffered σ → buffered σ'.
Proof.
  induction outputs as [|output outputs IH]; intros edges σ σ' Hs Hb.
  - by inversion Hs; subst.
  - destruct edges as [|edge edges]; simpl in Hs; [by inversion Hs; subst|].
    unfold bind in Hs.
    destruct (deliver graph output edge σ) as [[] s1|?|] eqn:Hd; try done.
    eapply IH; [done|]. by eapply deliver_buffered.
Qed.

Lemma buffered_task (σ σ' : Engine W IB) :
  task σ' = task σ → buffered σ → buffered σ'.
Proof. unfold buffered. by intros ->. Qed.

Lemma evaluate_function_buffered (t : FunctionTask IB) (σ σ' : Engine W IB) :
  evaluate_function graph t σ = Ok tt σ' → buffered σ → buffered σ'.
Proof.
  unfold evaluate_function. intros Hs Hb. unfold bind at 1 in Hs.
  destruct (call_function graph t σ) as [outs s1|?|] eqn:Hcall; try done.
  frame_of Hcall call_function_frame. destruct Hframe as (_ & Ht1 & _).
  unfold bind at 1, get at 1 in Hs. unfold bind at 1 in Hs.
  match type of Hs with
  | match ?m s1 with _ => _ end = _ => destruct (m s1) as [[] s2|?|] eqn:Hrel; try done
  end.
  frame_of Hrel release_frame. destruct Hframe as (_ & Ht2 & _).
  destruct (negb (length outs =? length (next_functions (fn_at graph (fn t))))%nat);
    [done|].
  eapply deliver_all_buffered; [done|].
  apply (buffered_task s1); [done|]. by apply (buffered_task σ).
Qed.

Lemma thread_main_step_buffered q (σ σ' : Engine W IB) :
  thread_main_step graph q σ = steps σ' →
  has_error (task σ') = false →
  buffered σ → buffered σ'.
Proof.
  unfold thread_main_step.
  destruct (pop_back q σ) as [[t σ1]|] eqn:Hpop; [|done].
  apply pop_back_spec in Hpop as (_ & Ht & _ & _).
  destruct (has_error (task σ1)) eqn:Herr.
  { intros Hs He. inversion Hs; subst. simpl in He. congruence. }
  destruct (evaluate_function graph t σ1) as [[] σ2|e σ2|] eqn:Hev; [| |done].
  - intros Hs _ Hb. inversion Hs; subst.
    assert (Hb2 : buffered σ2).
    { eapply evaluate_function_buffered; [done|]. by apply (buffered_task σ). }
    intros F. apply (Hb2 F).
  - intros Hs He. inversion Hs; subst. exfalso.
    simpl in He. unfold thread_on_exception in He.
    destruct (has_error (task σ2)) eqn:He2; simpl in He; congruence.
Qed.

Lemma run_buffered schedule : ∀ (σ σ' : Engine W IB),
  run graph schedule σ = Some σ' →
  has_error (task σ') = false →
  buffered σ → buffered σ'.
Proof.
  induction schedule as [|q schedule IH]; intros σ σ' Hrun Herr Hb; simpl in Hrun.
  - by inversion Hrun; subst.
  - destruct (thread_main_step graph q σ) as [|σ1|] eqn:Hstep; [by eapply IH| |done].
    assert (Herr1 : has_error (task σ1) = false).
    { destruct (has_error (task σ1)) eqn:He; [|done].
      apply run_monotone in Hrun as [_ Hkeep]. rewrite Hkeep in Herr; done. }
    eapply IH; try done. by eapply thread_main_step_buffered.
Qed.

(** X17.  [execute] returns normally.  Take an [execute] with independent
    roots in a graph without cycles and with at most [INT_MAX] edges, whose
    callbacks reject nothing; let the workers run until the queues are
    empty, with no error recorded.  Then [outstanding_tasks] is 0, so the
    wait of [execute] ends; no dependency entry and no buffer of
    [not_ready] is left; and [execute] throws neither the recorded
    exception nor "could not compute gradients for some functions". *)
Theorem X17_execute_returns
    num_devices (w : W) input_roots inputs keep_graph callbacks
    (frontier : list ptr) (σ0 σ' : Engine W IB) (schedule : list nat)
    (rank : ptr → nat) :
  execute_start graph input_roots inputs keep_graph callbacks
    (Engine_started num_devices w) = Ok frontier σ0 →
  run graph schedule σ0 = Some σ' →
  independent_roots graph input_roots →
  callbacks_accept →
  Z.of_nat (length (edge_targets graph)) ≤ int_max →
  ranked graph rank = true →
  has_error (task σ') = false →
  queued σ' = [] →
  outstanding_tasks (task σ') = 0 ∧
  dependencies (task σ') = ∅ ∧
  not_ready (task σ') = ∅ ∧
  execute_finish σ' = Some (Ok tt σ').
Proof.
  intros Hstart Hrun Hind Hacc Hmax Hrank Herr Hq.
  destruct (execute_start_spec graph _ _ _ _ _ _ _ _ Hstart Hind)
    as (E & HndE & HE & _ & Hlive & _ & _).
  pose proof (execute_start_frame _ _ _ _ _ _ _ _ Hstart) as Hf.
  assert (Hlive' : live_inv graph E σ').
  { eapply (run_live graph schedule σ0 σ' E); try done.
    intros F. etransitivity; [|exact Hmax].
    apply inj_le, incoming_le_targets; [done|]. intros g Hg. by apply HE in Hg as [? _]. }
  assert (Hout : outstanding_tasks (task σ') = 0).
  { assert (Hb : balanced σ').
    { eapply run_balanced; [done|].
      eapply balanced_ledger; [apply setup_ledger, Hf | apply balanced_new_task]. }
    unfold balanced in Hb. by rewrite Hb, Hq. }
  assert (Hdeps : dependencies (task σ') = ∅).
  { apply map_empty. intros F. rewrite (live_deps _ _ _ Hlive').
    unfold remaining.
    assert (filter (λ g, applications g σ' = 0%nat) E = []) as ->.
    { apply filter_none. intros g Hg Hz.
      rewrite (drained_applied graph σ' E rank Hrank Hlive' Hq g Hg) in Hz. done. }
    unfold dependency_entry, incoming. simpl. by rewrite andb_false_r. }
  assert (Hnr : not_ready (task σ') = ∅).
  { apply map_empty. intros F.
    assert (Hb : buffered σ').
    { eapply run_buffered; [done|done|]. intros G.
      rewrite (setup_not_ready _ _ Hf). simpl. rewrite lookup_empty. by intros [? ?]. }
    destruct (not_ready (task σ') !! F) as [b|] eqn:Hb'; [|done].
    destruct (Hb F) as [n Hn]; [by eexists|]. rewrite Hdeps, lookup_empty in Hn. done. }
  split; [done|]. split; [done|]. split; [done|].
  unfold execute_finish. rewrite Hout, Herr, Hnr. simpl.
  by rewrite bool_decide_eq_true_2.
Qed.

Lemma find_roots_collect_inputs input_roots : ∀ inputs rv rv' (σ σ' : Engine W IB),
  find_roots_collect graph input_roots inputs rv σ = Ok rv' σ' →
  (length input_roots ≤ length inputs)%nat ∧
  Forall (λ e : option ptr * Z, is_Some e.1) input_roots.
Proof.
  induction input_roots as [|[root input_nr] input_roots IH];
    intros inputs rv rv' σ σ' Hs.
  - split; [simpl; lia | constructor].
  - simpl in Hs. destruct inputs as [|input inputs]; [done|].
    destruct root as [root|]; [|done]. unfold bind at 1 in Hs.
    match type of Hs with
    | match ?m σ with _ => _ end = _ => destruct (m σ) as [b s1|?|]; try done
    end.
    apply IH in Hs as [Hlen Hall]. split; [simpl; lia|].
    constructor; [by eexists | done].
Qed.

Lemma pending_app F (l : list ptr) (σ σ' : Engine W IB) :
  NoDup l →
  queued σ' ≡ₚ l ++ queued σ →
  pending F σ' = (pending F σ + if decide (F ∈ l) then 1 else 0)%nat.
Proof.
  intros Hnd Hq. unfold pending. rewrite Hq, filter_app, length_app.
  rewrite (count_NoDup l F Hnd). lia.
Qed.

(** X18.  [find_roots] returns only when every root is non-null and there
    is an input for every root (it reads [inputs[i]] and [root->...]
    unchecked).  It then returns each distinct root once, however often it
    occurs in [input_roots], and has queued exactly one task for each root
    that is executable and none for the others; it calls no Function and
    leaves [dependencies] alone. *)
Theorem X18_find_roots_queues_each_root_once
    input_roots inputs (σ σ' : Engine W IB) (roots : list ptr) :
  find_roots graph input_roots inputs σ = Ok roots σ' →
  (length input_roots ≤ length inputs)%nat ∧
  Forall (λ e : option ptr * Z, is_Some e.1) input_roots ∧
  NoDup roots ∧
  (∀ r, r ∈ roots ↔ Some r ∈ input_roots.*1) ∧
  (∀ F, pending F σ'
        = (pending F σ
           + if bool_decide (F ∈ roots ∧ is_executable (fn_at graph F) = true)
             then 1 else 0)%nat) ∧
  trace σ' = trace σ ∧
  dependencies (task σ') = dependencies (task σ).
Proof.
  intros Hs.
  assert (Hin : (length input_roots ≤ length inputs)%nat ∧
                Forall (λ e : option ptr * Z, is_Some e.1) input_roots).
  { unfold find_roots, bind in Hs.
    destruct (find_roots_collect graph input_roots inputs ∅ σ) as [rv s1|?|] eqn:Hc;
      try done.
    by eapply find_roots_collect_inputs. }
  destruct Hin as [Hlen Hall].
  apply (find_roots_spec graph) in Hs as (Hnd & Hmem & Hq & Htr & Hd & _).
  split; [done|]. split; [done|]. split; [done|]. split; [done|].
  split; [|done]. intros F.
  rewrite (pending_app F _ σ σ' (NoDup_filter _ _ Hnd) Hq). f_equal.
  case_decide as Hf; case_bool_decide as Hb; try done.
  - exfalso. apply Hb. apply list_elem_of_filter in Hf. tauto.
  - exfalso. apply Hf. apply list_elem_of_filter. tauto.
Qed.

(** X19.  On an engine that has its CPU queue, [find_stochastic_functions]
    returns, never throws, and leaves the roots it was given at the front of
    the list.  What it appends are the stochastic executable Functions that
    are the target of an edge met by the search from the roots, each once;
    for each of them, and for nothing else, it has queued one task.  Its
    [seen] set starts empty, so a root that is such a target is appended
    and queued as well. *)
Theorem X19_find_stochastic_functions_returns (roots : list ptr) (σ : Engine W IB) :
  (0 < length (ready_queues σ))%nat →
  ∃ stoch σ',
    find_stochastic_functions graph roots σ = Ok (roots ++ stoch) σ' ∧
    NoDup stoch ∧
    (∀ x, x ∈ stoch ↔
          is_stochastic (fn_at graph x) = true
          ∧ is_executable (fn_at graph x) = true ∧ fed graph roots x) ∧
    (∀ F, pending F σ' = (pending F σ + if decide (F ∈ stoch) then 1 else 0)%nat) ∧
    trace σ' = trace σ ∧
    dependencies (task σ') = dependencies (task σ) ∧
    not_ready (task σ') = not_ready (task σ).
Proof.
  intros Hqueues.
  pose proof (find_stochastic_functions_spec graph roots σ) as Hspec.
  pose proof (find_stochastic_functions_frame roots σ) as Hframe.
  destruct (find_stochastic_functions graph roots σ) as [fr σ'|?|]; [|lia|done].
  destruct Hspec as (stoch & -> & Hnd & Hstoch & Hq & Htr & Hd & _).
  exists stoch, σ'. split; [done|]. split; [done|]. split; [done|].
  split; [intros F; by apply pending_app|]. split; [done|]. split; [done|].
  apply (setup_not_ready _ _ Hframe).
Qed.

(** X20.  When a pre-hook, the callback, [apply] or a post-hook throws,
    [evaluate_function] passes the exception on at once: [releaseVariables]
    is not called, even with [keep_graph = false], and no output is
    delivered, so the queues and the whole [GraphTask] (dependency counters
    and buffers included) are as they were. *)
Theorem X20_throwing_call_skips_release
    (t : FunctionTask IB) (σ σ1 : Engine W IB) (e : exn) :
  call_function graph t σ = Throw e σ1 →
  evaluate_function graph t σ = Throw e σ1 ∧
  (∀ F, releases F σ1 = releases F σ) ∧
  ready_queues σ1 = ready_queues σ ∧
  task σ1 = task σ.
Proof.
  intros Hcall. split; [unfold evaluate_function, bind; by rewrite Hcall|].
  frame_of Hcall call_function_frame. destruct Hframe as (Hq & Ht & Htr).
  split; [|done]. intros F. destruct Htr as [Htr|Htr].
  - by apply releases_same.
  - rewrite (releases_snoc F _ σ σ1 Htr). rewrite decide_False by done. lia.
Qed.

(** X21.  How [evaluate_function] hands a gradient to an executable,
    non-stochastic Function [F] that has a dependency entry [n].  The
    gradient is added at [input_nr] to the buffer [F] has in [not_ready],
    or to a new buffer of [F.num_inputs] slots.  If the decremented counter
    is not 0 it is stored back and the buffer is kept in [not_ready]; if it
    is 0, the entry and the buffer are erased and a task for [F] holding
    the buffer - every gradient delivered so far - is pushed at the front of
    the queue of the buffer's device, raising [outstanding_tasks] by one. *)
Theorem X21_deliver_collects_gradients
    (F : ptr) (output : option ptr) (input_nr n : Z) (σ : Engine W IB)
    (b : IB) (w' : W) :
  is_executable (fn_at graph F) = true →
  is_stochastic (fn_at graph F) = false →
  dependencies (task σ) !! F = Some n →
  InputBuffer_add
    (default (InputBuffer_new (num_inputs (fn_at graph F))) (not_ready (task σ) !! F))
    input_nr output (world σ) = Ok b w' →
  (int_wrap (n - 1) ≠ 0 →
   deliver graph output (Some F, input_nr) σ
   = Ok tt (set_task (set_not_ready <[F := b]>)
              (set_world w'
                 (set_task (set_dependencies <[F := int_wrap (n - 1)]>) σ)))) ∧
  (int_wrap (n - 1) = 0 →
   ∀ q, ready_queue (InputBuffer_device b) σ = Ok q σ →
   ∃ σ', deliver graph output (Some F, input_nr) σ = Ok tt σ' ∧
         ready_queues σ'
           = alter (deque_push_front {| fn := F; inputs := b |}) q (ready_queues σ) ∧
         dependencies (task σ') = delete F (dependencies (task σ)) ∧
         not_ready (task σ') = delete F (not_ready (task σ)) ∧
         outstanding_tasks (task σ')
           = uint64_wrap (outstanding_tasks (task σ) + 1) ∧
         world σ' = w').
Proof.
  intros Hex Hst Hn Hadd. split.
  - intros Hz. unfold deliver. cbn [fst snd]. rewrite Hex, Hst. cbn [negb orb].
    unfold bind at 1, get at 1. rewrite Hn.
    apply Z.eqb_neq in Hz. rewrite Hz.
    unfold bind at 1, bind at 1, modify at 1, ret at 1.
    destruct (not_ready (task σ) !! F) as [buffer|]; simpl in Hadd.
    + unfold bind at 1, lift_world. cbn [world set_task]. rewrite Hadd. done.
    + unfold bind at 1, lift_world. cbn [world set_task]. rewrite Hadd. done.
  - intros Hz q Hq. unfold deliver. cbn [fst snd]. rewrite Hex, Hst. cbn [negb orb].
    unfold bind at 1, get at 1. rewrite Hn. rewrite Hz. cbn [Z.eqb].
    unfold bind at 1, bind at 1, modify at 1, ret at 1.
    assert (Hq' : ∀ s : Engine W IB, ready_queues s = ready_queues σ →
              ready_queue (InputBuffer_device b) s = Ok q s).
    { intros s Hs. unfold ready_queue in *. rewrite Hs.
      destruct (_ && _); [|done]. by inversion Hq. }
    destruct (not_ready (task σ) !! F) as [buffer|] eqn:Hnr; simpl in Hadd.
    + unfold bind at 1, lift_world. cbn [world set_task]. rewrite Hadd.
      unfold bind at 1, modify at 1.
      erewrite (bind_Ok (ready_queue _)); [|by apply Hq'].
      eexists. split; [reflexivity|]. simpl. repeat split.
      by rewrite delete_insert_eq.
    + unfold bind at 1, lift_world. cbn [world set_task]. rewrite Hadd.
      erewrite (bind_Ok (ready_queue _)); [|by apply Hq'].
      eexists. split; [reflexivity|]. simpl. repeat split.
      symmetry. by apply delete_id.
Qed.

End EngineCoverage.

Lemma X7_outstanding_tasks_follow_queues_witness :
  thread_main_step (R := table_runtime (edge_outputs diamond_graph)) diamond_graph
    0%nat diamond_ready
    = steps (done_state (R := table_runtime (edge_outputs diamond_graph)) diamond_graph
               [0%nat] diamond_ready) ∧
  surplus (done_state (R := table_runtime (edge_outputs diamond_graph)) diamond_graph
             [0%nat] diamond_ready)
    = surplus diamond_ready.
Proof.
  assert (Hstep :
    thread_main_step (R := table_runtime (edge_outputs diamond_graph)) diamond_graph
      0%nat diamond_ready
    = steps (done_state (R := table_runtime (edge_outputs diamond_graph)) diamond_graph
               [0%nat] diamond_ready)) by (vm_compute; reflexivity).
  split; [exact Hstep|].
  destruct (X7_outstanding_tasks_follow_queues
              (R := table_runtime (edge_outputs diamond_graph)) diamond_graph)
    as (_ & _ & _ & Hround & _).
  exact (Hround 0%nat diamond_ready _ Hstep).
Defined.

Lemma X8_task_dropped_on_error_witness :
  has_error (task error_recorded) = true ∧
  pop_back 0%nat error_recorded
    = Some ({| fn := 0%nat; inputs := [Some 7%nat] |}, error_taken) ∧
  ∃ σ', thread_main_step (R := table_runtime (edge_outputs diamond_graph)) diamond_graph
          0%nat error_recorded = steps σ' ∧
        world σ' = world error_recorded ∧
        trace σ' = trace error_recorded ∧
        ready_queues σ' = ready_queues error_taken ∧
        queued error_recorded ≡ₚ 0%nat :: queued σ' ∧
        task σ' = set_outstanding_tasks
                    (uint64_wrap (outstanding_tasks (task error_recorded) - 1))
                    (task error_recorded).
Proof.
  assert (Herr : has_error (task error_recorded) = true) by reflexivity.
  assert (Hpop : pop_back 0%nat error_recorded
                 = Some ({| fn := 0%nat; inputs := [Some 7%nat] |}, error_taken))
    by (vm_compute; reflexivity).
  split; [exact Herr|]. split; [exact Hpop|].
  exact (X8_task_dropped_on_error (R := table_runtime (edge_outputs diamond_graph))
           diamond_graph 0%nat error_recorded error_taken _ Herr Hpop).
Defined.


Lemma X10_kept_graph_is_never_released_witness :
  execute_start (R := table_runtime (edge_outputs diamond_graph)) diamond_graph
    [(Some 0%nat, 0)] [Some 7%nat] true ∅ (Engine_started 0 ())
    = Ok [0%nat] kept_ready ∧
  run (R := table_runtime (edge_outputs diamond_graph)) diamond_graph
    [0; 0; 0; 0]%nat kept_ready = Some kept_done ∧
  applications 3%nat kept_done = 1%nat ∧
  ∀ F, releases F kept_done = 0%nat.
Proof.
  assert (Hstart :
    execute_start (R := table_runtime (edge_outputs diamond_graph)) diamond_graph
      [(Some 0%nat, 0)] [Some 7%nat] true ∅ (Engine_started 0 ())
    = Ok [0%nat] kept_ready) by (vm_compute; reflexivity).
  assert (Hrun :
    run (R := table_runtime (edge_outputs diamond_graph)) diamond_graph
      [0; 0; 0; 0]%nat kept_ready = Some kept_done) by (vm_compute; reflexivity).
  split; [exact Hstart|]. split; [exact Hrun|]. split; [vm_compute; reflexivity|].
  exact (X10_kept_graph_is_never_released
           (R := table_runtime (edge_outputs diamond_graph))
           diamond_graph 0 () _ _ _ _ _ _ _ Hstart Hrun).
Defined.

Lemma X11_released_at_most_once_witness :
  execute_start (R := table_runtime (edge_outputs diamond_graph)) diamond_graph
    [(Some 0%nat, 0)] [Some 7%nat] false ∅ (Engine_started 0 ())
    = Ok [0%nat] diamond_ready ∧
  run (R := table_runtime (edge_outputs diamond_graph)) diamond_graph
    [0; 0; 0; 0]%nat diamond_ready = Some diamond_done ∧
  independent_roots diamond_graph [(Some 0%nat, 0)] ∧
  releases 3%nat diamond_done = 1%nat ∧
  ∀ F, (releases F diamond_done ≤ 1)%nat.
Proof.
  assert (Hstart :
    execute_start (R := table_runtime (edge_outputs diamond_graph)) diamond_graph
      [(Some 0%nat, 0)] [Some 7%nat] false ∅ (Engine_started 0 ())
    = Ok [0%nat] diamond_ready) by (vm_compute; reflexivity).
  assert (Hrun :
    run (R := table_runtime (edge_outputs diamond_graph)) diamond_graph
      [0; 0; 0; 0]%nat diamond_ready = Some diamond_done) by (vm_compute; reflexivity).
  assert (Hind : independent_roots diamond_graph [(Some 0%nat, 0)]).
  { apply unfed_roots_independent. vm_compute. reflexivity. }
  split; [exact Hstart|]. split; [exact Hrun|]. split; [exact Hind|].
  split; [vm_compute; reflexivity|].
  exact (X11_released_at_most_once (R := table_runtime (edge_outputs diamond_graph))
           diamond_graph 0 () _ _ _ _ _ _ _ _ Hstart Hrun Hind).
Defined.

Lemma X12_rejected_function_sends_nulls_witness :
  call_pre_hooks (R := rejecting_runtime (edge_outputs chain_graph))
    (pre_hooks (fn_at chain_graph 0%nat)) [Some 7%nat] rejected_root_ready
    = Ok [Some 7%nat] rejected_root_ready ∧
  function_callbacks (task rejected_root_ready) !! 0%nat = Some 0%nat ∧
  call_function (R := rejecting_runtime (edge_outputs chain_graph)) chain_graph
    failing_task rejected_root_ready
  = Ok [None] (set_world () rejected_root_ready) ∧
  trace (set_world () rejected_root_ready) = trace rejected_root_ready.
Proof.
  split; [reflexivity|]. split; [reflexivity|].
  destruct (X12_rejected_function_sends_nulls
              (R := rejecting_runtime (edge_outputs chain_graph)) chain_graph
              failing_task rejected_root_ready rejected_root_ready
              [Some 7%nat] 0%nat () eq_refl eq_refl eq_refl) as (Ha & Hb & _).
  split; [exact Ha | exact Hb].
Defined.

Lemma X13_uncomputed_output_is_dropped_witness :
  next_functions (fn_at diamond_graph 2%nat) !! 1%nat = Some (Some 4%nat, 0) ∧
  should_compute_output diamond_graph (fn_at diamond_graph 2%nat) 1 = Some false ∧
  deliver (R := table_runtime (edge_outputs diamond_graph)) diamond_graph
    (Some 9%nat) (Some 4%nat, 0) diamond_ready = Ok tt diamond_ready.
Proof.
  assert (H1 : next_functions (fn_at diamond_graph 2%nat) !! 1%nat = Some (Some 4%nat, 0))
    by reflexivity.
  assert (H2 : should_compute_output diamond_graph (fn_at diamond_graph 2%nat) 1
               = Some false) by reflexivity.
  split; [exact H1|]. split; [exact H2|].
  exact (proj1 (X13_uncomputed_output_is_dropped
                  (R := table_runtime (edge_outputs diamond_graph)) diamond_graph
                  (fn_at diamond_graph 2%nat) 1 (Some 4%nat, 0) (Some 9%nat)
                  diamond_ready H1) H2).
Defined.

Lemma X15_nothing_to_compute_throws_witness :
  (length [(Some 4%nat, 0)] ≤ length [Some 7%nat])%nat ∧
  is_executable (fn_at diamond_graph 4%nat) = false ∧
  ∃ σ : Engine unit (list (option ptr)),
    execute_start (R := table_runtime (edge_outputs diamond_graph)) diamond_graph
      [(Some 4%nat, 0)] [Some 7%nat] false ∅ (Engine_started 0 ())
    = Throw NoExecutableRoots σ ∧
    queued σ = [] ∧ trace σ = [].
Proof.
  split; [simpl; lia|]. split; [reflexivity|].
  apply (X15_nothing_to_compute_throws (R := table_runtime (edge_outputs diamond_graph))
           diamond_graph 0 () [(Some 4%nat, 0)] [Some 7%nat] false ∅).
  - simpl. lia.
  - constructor; [|constructor]. exists 4%nat. split; reflexivity.
  - intros x _ _ (g & input_nr & Hg & He).
    assert (Hg4 : g = 4%nat).
    { clear He. induction Hg as [r Hr|g' f' nr' Hg' IH He'].
      - apply list_elem_of_singleton in Hr. exact Hr.
      - subst g'. apply elem_of_nil in He'. destruct He'. }
    subst g. apply elem_of_nil in He. destruct He.
Defined.

Lemma X17_execute_returns_witness :
  execute_start (R := table_runtime (edge_outputs diamond_graph)) diamond_graph
    [(Some 0%nat, 0)] [Some 7%nat] false ∅ (Engine_started 0 ())
    = Ok [0%nat] diamond_ready ∧
  run (R := table_runtime (edge_outputs diamond_graph)) diamond_graph
    [0; 0; 0; 0]%nat diamond_ready = Some diamond_done ∧
  independent_roots diamond_graph [(Some 0%nat, 0)] ∧
  callbacks_accept (R := table_runtime (edge_outputs diamond_graph)) ∧
  Z.of_nat (length (edge_targets diamond_graph)) ≤ int_max ∧
  ranked diamond_graph (λ f, f) = true ∧
  has_error (task diamond_done) = false ∧
  queued diamond_done = [] ∧
  outstanding_tasks (task diamond_done) = 0 ∧
  dependencies (task diamond_done) = ∅ ∧
  not_ready (task diamond_done) = ∅ ∧
  execute_finish diamond_done = Some (Ok tt diamond_done).
Proof.
  assert (Hstart :
    execute_start (R := table_runtime (edge_outputs diamond_graph)) diamond_graph
      [(Some 0%nat, 0)] [Some 7%nat] false ∅ (Engine_started 0 ())
    = Ok [0%nat] diamond_ready) by (vm_compute; reflexivity).
  assert (Hrun :
    run (R := table_runtime (edge_outputs diamond_graph)) diamond_graph
      [0; 0; 0; 0]%nat diamond_ready = Some diamond_done) by (vm_compute; reflexivity).
  assert (Hind : independent_roots diamond_graph [(Some 0%nat, 0)]).
  { apply unfed_roots_independent. vm_compute. reflexivity. }
  assert (Hacc : callbacks_accept (R := table_runtime (edge_outputs diamond_graph))).
  { intros callback f inputs w w'. simpl. discriminate. }
  assert (Hmax : Z.of_nat (length (edge_targets diamond_graph)) ≤ int_max).
  { vm_compute. discriminate. }
  assert (Hrank : ranked diamond_graph (λ f, f) = true) by (vm_compute; reflexivity).
  assert (Herr : has_error (task diamond_done) = false) by (vm_compute; reflexivity).
  assert (Hq : queued diamond_done = []) by (vm_compute; reflexivity).
  split; [exact Hstart|]. split; [exact Hrun|]. split; [exact Hind|].
  split; [exact Hacc|]. split; [exact Hmax|]. split; [exact Hrank|].
  split; [exact Herr|]. split; [exact Hq|].
  exact (X17_execute_returns (R := table_runtime (edge_outputs diamond_graph))
           diamond_graph 0 () _ _ _ _ _ _ _ _ (λ f, f)
           Hstart Hrun Hind Hacc Hmax Hrank Herr Hq).
Defined.

Lemma X18_find_roots_queues_each_root_once_witness :
  find_roots (R := table_runtime (edge_outputs chain_graph)) chain_graph
    [(Some 0%nat, 0); (Some 0%nat, 0)] [Some 7%nat; Some 8%nat] example_engine
    = Ok [0%nat] twice_rooted ∧
  pending 0%nat twice_rooted = 1%nat ∧
  NoDup [0%nat] ∧
  ∀ F, pending F twice_rooted
       = (pending F example_engine
          + if bool_decide (F ∈ [0%nat] ∧ is_executable (fn_at chain_graph F) = true)
            then 1 else 0)%nat.
Proof.
  assert (Hfr :
    find_roots (R := table_runtime (edge_outputs chain_graph)) chain_graph
      [(Some 0%nat, 0); (Some 0%nat, 0)] [Some 7%nat; Some 8%nat] example_engine
    = Ok [0%nat] twice_rooted) by (vm_compute; reflexivity).
  split; [exact Hfr|]. split; [vm_compute; reflexivity|].
  destruct (X18_find_roots_queues_each_root_once
              (R := table_runtime (edge_outputs chain_graph)) chain_graph
              _ _ _ _ _ Hfr) as (_ & _ & Hnd & _ & Hp & _).
  split; [exact Hnd | exact Hp].
Defined.

Lemma X19_find_stochastic_functions_returns_witness :
  (0 < length (ready_queues example_engine))%nat ∧
  find_stochastic_functions (R := table_runtime (edge_outputs stochastic_graph))
    stochastic_graph [0%nat] example_engine = Ok [0%nat; 1%nat] stochastic_found ∧
  ∃ stoch σ',
    find_stochastic_functions (R := table_runtime (edge_outputs stochastic_graph))
      stochastic_graph [0%nat] example_engine = Ok ([0%nat] ++ stoch) σ' ∧
    NoDup stoch ∧
    (∀ x, x ∈ stoch ↔
          is_stochastic (fn_at stochastic_graph x) = true
          ∧ is_executable (fn_at stochastic_graph x) = true
          ∧ fed stochastic_graph [0%nat] x) ∧
    (∀ F, pending F σ'
          = (pending F example_engine + if decide (F ∈ stoch) then 1 else 0)%nat) ∧
    trace σ' = trace example_engine ∧
    dependencies (task σ') = dependencies (task example_engine) ∧
    not_ready (task σ') = not_ready (task example_engine).
Proof.
  assert (Hq : (0 < length (ready_queues example_engine))%nat) by (simpl; lia).
  split; [exact Hq|]. split; [vm_compute; reflexivity|].
  exact (X19_find_stochastic_functions_returns
           (R := table_runtime (edge_outputs stochastic_graph)) stochastic_graph
           [0%nat] example_engine Hq).
Defined.

Lemma X20_throwing_call_skips_release_witness :
  call_function (R := throwing_runtime) chain_graph failing_task failing_taken
    = Throw (runtime_error "apply failed") apply_thrown ∧
  keep_graph (task failing_taken) = false ∧
  evaluate_function (R := throwing_runtime) chain_graph failing_task failing_taken
    = Throw (runtime_error "apply failed") apply_thrown ∧
  (∀ F, releases F apply_thrown = releases F failing_taken) ∧
  ready_queues apply_thrown = ready_queues failing_taken ∧
  task apply_thrown = task failing_taken.
Proof.
  assert (Hcall : call_function (R := throwing_runtime) chain_graph
                    failing_task failing_taken
                  = Throw (runtime_error "apply failed") apply_thrown)
    by (vm_compute; reflexivity).
  split; [exact Hcall|]. split; [vm_compute; reflexivity|].
  exact (X20_throwing_call_skips_release (R := throwing_runtime) chain_graph
           failing_task failing_taken apply_thrown _ Hcall).
Defined.

Lemma X21_deliver_collects_gradients_witness :
  is_executable (fn_at diamond_graph 3%nat) = true ∧
  is_stochastic (fn_at diamond_graph 3%nat) = false ∧
  dependencies (task diamond_ready) !! 3%nat = Some 2 ∧
  deliver (R := table_runtime (edge_outputs diamond_graph)) diamond_graph
    (Some 9%nat) (Some 3%nat, 0) diamond_ready
  = Ok tt (set_task (set_not_ready <[3%nat := [Some 9%nat; None]]>)
             (set_world ()
                (set_task (set_dependencies <[3%nat := int_wrap (2 - 1)]>)
                   diamond_ready))).
Proof.
  assert (H3 : dependencies (task diamond_ready) !! 3%nat = Some 2)
    by (vm_compute; reflexivity).
  split; [reflexivity|]. split; [reflexivity|]. split; [exact H3|].
  refine (proj1 (X21_deliver_collects_gradients
                   (R := table_runtime (edge_outputs diamond_graph)) diamond_graph
                   3%nat (Some 9%nat) 0 2 diamond_ready [Some 9%nat; None] ()
                   eq_refl eq_refl H3 _) _).
  - vm_compute. reflexivity.
  - vm_compute. discriminate.
Defined.

Section ExecuteCoverage.
Context {W IB : Type} {R : Runtime W IB}.
Variable graph : gmap ptr Function.

(** X22.  A root that is not independent is scheduled by two mechanisms.
    Let no root be stochastic, and let the executable root [r] be the
    target of an edge of an executable Function [g] reachable from the
    frontier.  Then [find_roots] has pushed one task for [r], and
    [compute_dependencies] leaves an entry for [r] in [dependencies], so
    that the delivery which takes that entry to zero pushes a task for [r]
    once more. *)
Theorem X22_fed_root_is_scheduled_twice
    num_devices (w : W) input_roots inputs keep_graph callbacks
    (frontier : list ptr) (σ0 : Engine W IB) (r g : ptr) (input_nr : Z) :
  execute_start graph input_roots inputs keep_graph callbacks
    (Engine_started num_devices w) = Ok frontier σ0 →
  (∀ x, Some x ∈ input_roots.*1 → is_stochastic (fn_at graph x) = false) →
  Some r ∈ input_roots.*1 →
  is_executable (fn_at graph r) = true →
  reach graph frontier g →
  is_executable (fn_at graph g) = true →
  (Some r, input_nr) ∈ next_functions (fn_at graph g) →
  (∃ roots (σb : Engine W IB),
     find_roots graph input_roots inputs
       (set_task (λ _, GraphTask_new keep_graph callbacks) (Engine_started num_devices w))
       = Ok roots σb ∧
     r ∈ roots ∧
     pending r σb = 1%nat) ∧
  is_Some (dependencies (task σ0) !! r).
Proof.
  intros Hs Hns Hr Hex Hg Hgex Hedge. unfold execute_start, bind, modify in Hs.
  set (σa := set_task _ _) in Hs.
  destruct (find_roots graph input_roots inputs σa) as [roots σb|?|] eqn:Hfr;
    [|done|done].
  pose proof Hfr as Hfr'.
  apply find_roots_spec in Hfr as (Hndr & Hroots & Hqb & Htb & Hdb & Heb & _).
  pose proof (find_stochastic_functions_spec graph roots σb) as Hfs.
  destruct (find_stochastic_functions graph roots σb) as [fr σc|?|]; [|done|done].
  destruct Hfs as (stoch & -> & Hnds & Hstoch & Hqc & Htc & Hdc & Hec & _).
  unfold get in Hs. destruct (negb (has_any_work (task σc))); [done|].
  assert (Hdisj : ∀ x, x ∈ roots → x ∈ stoch → False).
  { intros x Hx (Hst & _ & _)%Hstoch.
    rewrite (Hns x) in Hst; [done|]. by apply Hroots. }
  assert (Hndf : NoDup (roots ++ stoch)).
  { apply NoDup_app. split; [done|]. split; [|done]. intros x Hx Hx'. by eapply Hdisj. }
  destruct (compute_dependencies_spec graph (roots ++ stoch) σc Hndf)
    as (deps & E & Hcd & HndE & HE & Hdeps).
  { rewrite Hdc, Hdb. done. }
  rewrite Hcd in Hs. simpl in Hs. inversion Hs; subst frontier σ0. clear Hs Hcd.
  assert (Hrr : r ∈ roots) by (by apply Hroots).
  split.
  - exists roots, σb. split; [done|]. split; [done|].
    unfold pending. rewrite Hqb. unfold σa. rewrite queued_started, app_nil_r.
    rewrite (count_NoDup _ r (NoDup_filter _ _ Hndr)).
    rewrite decide_True; [done|]. by apply list_elem_of_filter.
  - simpl. rewrite Hdeps.
    unfold dependency_entry, counted. rewrite Hex, (Hns r Hr). simpl.
    rewrite bool_decide_eq_true_2; [by eexists|].
    eapply incoming_edge_pos; [|done]. by apply HE.
Qed.

(** X23.  Gradients are complete before a Function runs.  In an [execute]
    with independent roots and at most [INT_MAX] edges, while no callback
    rejects and no error is recorded: whenever a task of an executable,
    non-stochastic Function [F] is queued or [F] has been applied, every
    executable Function reachable from the frontier that has an edge to [F]
    has already been applied.  So [apply] is called on [F] after it has
    been called on all the Functions that feed [F]. *)
Theorem X23_applied_after_its_sources
    num_devices (w : W) input_roots inputs keep_graph callbacks
    (frontier : list ptr) (σ0 σ' : Engine W IB) (schedule : list nat)
    (F g : ptr) (input_nr : Z) :
  execute_start graph input_roots inputs keep_graph callbacks
    (Engine_started num_devices w) = Ok frontier σ0 →
  run graph schedule σ0 = Some σ' →
  independent_roots graph input_roots →
  callbacks_accept →
  Z.of_nat (length (edge_targets graph)) ≤ int_max →
  has_error (task σ') = false →
  counted graph F = true →
  (1 ≤ applications F σ' + pending F σ')%nat →
  is_executable (fn_at graph g) = true →
  reach graph frontier g →
  (Some F, input_nr) ∈ next_functions (fn_at graph g) →
  applications g σ' = 1%nat.
Proof.
  intros Hstart Hrun Hind Hacc Hmax Herr Hc HF Hgex Hg Hedge.
  destruct (execute_start_spec graph _ _ _ _ _ _ _ _ Hstart Hind)
    as (E & HndE & HE & _ & Hlive & _ & _).
  assert (Hlive' : live_inv graph E σ').
  { eapply (run_live graph schedule σ0 σ' E); try done.
    intros x. etransitivity; [|exact Hmax].
    apply inj_le, incoming_le_targets; [done|]. intros y Hy. by apply HE in Hy as [? _]. }
  destruct Hlive' as [Hload Honly Hdeps].
  assert (HgE : g ∈ E) by (by apply HE).
  assert (HFE : F ∈ E) by (apply Honly; unfold load; lia).
  pose proof (Hload F HFE) as HlF. pose proof (Hload g HgE) as Hlg.
  unfold load in HlF, Hlg.
  assert (Hw : waiting F σ' = 0%nat) by lia.
  unfold waiting in Hw. rewrite Hdeps in Hw.
  unfold dependency_entry in Hw. rewrite Hc in Hw. simpl in Hw.
  case_bool_decide as Hrem; [done|].
  destruct (applications g σ') as [|[|k]] eqn:Hag; [|done|lia].
  exfalso. apply Hrem. unfold remaining.
  eapply incoming_edge_pos; [|done]. by apply list_elem_of_filter.
Qed.

End ExecuteCoverage.

Lemma X22_fed_root_is_scheduled_twice_witness :
  execute_start (R := table_runtime (edge_outputs chain_graph)) chain_graph
    [(Some 0%nat, 0); (Some 1%nat, 0)] [Some 7%nat; Some 8%nat] false ∅
    (Engine_started 0 ())
    = Ok [1%nat; 0%nat] fed_root_ready ∧
  reach chain_graph [1%nat; 0%nat] 0%nat ∧
  (Some 1%nat, 0) ∈ next_functions (fn_at chain_graph 0%nat) ∧
  (∃ roots (σb : Engine unit (list (option ptr))),
     find_roots (R := table_runtime (edge_outputs chain_graph)) chain_graph
       [(Some 0%nat, 0); (Some 1%nat, 0)] [Some 7%nat; Some 8%nat]
       (set_task (λ _, GraphTask_new false ∅) (Engine_started 0 ()))
       = Ok roots σb ∧
     1%nat ∈ roots ∧
     pending 1%nat σb = 1%nat) ∧
  is_Some (dependencies (task fed_root_ready) !! 1%nat).
Proof.
  assert (Hstart :
    execute_start (R := table_runtime (edge_outputs chain_graph)) chain_graph
      [(Some 0%nat, 0); (Some 1%nat, 0)] [Some 7%nat; Some 8%nat] false ∅
      (Engine_started 0 ())
    = Ok [1%nat; 0%nat] fed_root_ready) by (vm_compute; reflexivity).
  assert (Hreach : reach chain_graph [1%nat; 0%nat] 0%nat).
  { apply reach_frontier. right. left. }
  assert (Hedge : (Some 1%nat, 0) ∈ next_functions (fn_at chain_graph 0%nat)) by left.
  split; [exact Hstart|]. split; [exact Hreach|]. split; [exact Hedge|].
  apply (X22_fed_root_is_scheduled_twice (R := table_runtime (edge_outputs chain_graph))
           chain_graph 0 () _ _ _ _ _ fed_root_ready 1%nat 0%nat 0 Hstart);
    try done.
  - intros x Hx. apply list_elem_of_fmap in Hx as (e & He & Hin).
    apply elem_of_cons in Hin as [->|Hin]; [simpl in He; by inversion He|].
    apply list_elem_of_singleton in Hin as ->. simpl in He. by inversion He.
  - right. left.
Defined.

Lemma X23_applied_after_its_sources_witness :
  execute_start (R := table_runtime (edge_outputs diamond_graph)) diamond_graph
    [(Some 0%nat, 0)] [Some 7%nat] false ∅ (Engine_started 0 ())
    = Ok [0%nat] diamond_ready ∧
  run (R := table_runtime (edge_outputs diamond_graph)) diamond_graph
    [0; 0; 0]%nat diamond_ready
    = Some (done_state (R := table_runtime (edge_outputs diamond_graph)) diamond_graph
              [0; 0; 0]%nat diamond_ready) ∧
  pending 3%nat (done_state (R := table_runtime (edge_outputs diamond_graph))
                   diamond_graph [0; 0; 0]%nat diamond_ready) = 1%nat ∧
  (Some 3%nat, 1) ∈ next_functions (fn_at diamond_graph 2%nat) ∧
  applications 2%nat (done_state (R := table_runtime (edge_outputs diamond_graph))
                        diamond_graph [0; 0; 0]%nat diamond_ready) = 1%nat.
Proof.
  assert (Hstart :
    execute_start (R := table_runtime (edge_outputs diamond_graph)) diamond_graph
      [(Some 0%nat, 0)] [Some 7%nat] false ∅ (Engine_started 0 ())
    = Ok [0%nat] diamond_ready) by (vm_compute; reflexivity).
  assert (Hrun :
    run (R := table_runtime (edge_outputs diamond_graph)) diamond_graph
      [0; 0; 0]%nat diamond_ready
    = Some (done_state (R := table_runtime (edge_outputs diamond_graph)) diamond_graph
              [0; 0; 0]%nat diamond_ready)) by (vm_compute; reflexivity).
  assert (Hp : pending 3%nat
                 (done_state (R := table_runtime (edge_outputs diamond_graph))
                    diamond_graph [0; 0; 0]%nat diamond_ready) = 1%nat)
    by (vm_compute; reflexivity).
  assert (Hedge : (Some 3%nat, 1) ∈ next_functions (fn_at diamond_graph 2%nat)) by left.
  split; [exact Hstart|]. split; [exact Hrun|]. split; [exact Hp|].
  split; [exact Hedge|].
  apply (X23_applied_after_its_sources (R := table_runtime (edge_outputs diamond_graph))
           diamond_graph 0 () _ _ _ _ _ diamond_ready _ [0; 0; 0]%nat
           3%nat 2%nat 1 Hstart Hrun).
  - apply unfed_roots_independent. vm_compute. reflexivity.
  - intros callback f inputs w w'. simpl. discriminate.
  - vm_compute. discriminate.
  - vm_compute. reflexivity.
  - reflexivity.
  - rewrite Hp. lia.
  - reflexivity.
  - eapply reach_edge; [apply reach_frontier; left | reflexivity | | reflexivity].
    right. left.
  - exact Hedge.
Defined.
